(** * The context package: cancellation tree, deadlines and value chains

    A shallow embedding of Go's [context] package as found in this
    repository.  Pointers to [cancelCtx], [timerCtx] and [afterFuncCtx]
    structs are addresses into an explicit heap; channels, timers and
    mutexes are explicit state; functions that mutate are written in a small
    state monad whose outcomes also cover panics and a goroutine that blocks
    for ever. *)

From Stdlib Require Import ZArith String List Lia Bool.
From stdpp Require Import base tactics option list numbers strings.

Local Open Scope string_scope.
Local Open Scope Z_scope.
Local Open Scope list_scope.

(** ** Data model *)

(** Addresses into the heap. *)
Abbreviation ptr := nat (only parsing).

(** [time.Time] and [time.Duration], both counted in nanoseconds. *)
Abbreviation time := Z (only parsing).

(** Non-nil [error] values; the nil error is [None] in [option error]. *)
Inductive error : Type :=
| Canceled
| DeadlineExceeded
| errorString (s : string).

(** Channels of type [chan struct{}].  [closedchan] is the package's reusable
    closed channel; [chanOf p] is the channel made by the [Done] method of the
    [cancelCtx] at address [p] (a node makes at most one channel: [Done]
    makes one only while [c.done] is empty, and the field is never reset);
    [extchan n] is a channel owned by a Context implemented outside of the
    package. *)
Inductive chan : Type :=
| closedchan
| chanOf (p : ptr)
| extchan (n : nat).

(** Dynamic types of the values that travel in an [any]. *)
Inductive rtype : Type :=
| TPtrInt | TPtrCancelCtx | TInt | TString | TSlice | TFunc.

(** Values of type [any]: nil, [&cancelCtxKey], a [*cancelCtx], and some
    values a caller may use as keys or values. *)
Inductive any : Type :=
| anil
| cancelCtxKey                (* the pointer &cancelCtxKey *)
| acancelCtx (p : ptr)        (* a *cancelCtx *)
| aint (z : Z)
| astring (s : string)
| aslice (l : list Z)
| afunc (n : nat).

(** Interface values of type [canceler]: a dynamic type and a pointer. *)
Inductive canceler : Type :=
| cancelerCancel (p : ptr)      (* *cancelCtx *)
| cancelerTimer (p : ptr)       (* *timerCtx *)
| cancelerAfterFunc (p : ptr).  (* *afterFuncCtx *)

(** The [stop] function returned by the [AfterFunc] method of a Context
    implemented outside of the package: it names that Context and the
    registration it undoes. *)
Record stopFunc : Type := { stopOwner : nat; stopReg : nat }.

(** Non-nil interface values of type [Context]. *)
Inductive Context : Type :=
| backgroundCtx
| todoCtx
| valueCtx (parent : Context) (key val : any)
| cancelCtxP (p : ptr)
| timerCtxP (p : ptr)
| withoutCancelCtx (c : Context)
| stopCtx (parent : Context) (stop : stopFunc)
| customCtx (u : nat).

#[global] Instance error_eq_dec : EqDecision error.
Proof. solve_decision. Defined.
#[global] Instance chan_eq_dec : EqDecision chan.
Proof. solve_decision. Defined.
#[global] Instance rtype_eq_dec : EqDecision rtype.
Proof. solve_decision. Defined.
#[global] Instance any_eq_dec : EqDecision any.
Proof. solve_decision. Defined.
#[global] Instance canceler_eq_dec : EqDecision canceler.
Proof. solve_decision. Defined.

(** What only a [timerCtx] or an [afterFuncCtx] has besides the embedded
    [cancelCtx]. *)
Inductive extension : Type :=
| plainExt
| timerExt (timer : option nat) (deadline : time)
| afterFuncExt (once : bool) (f : nat).

(** A [cancelCtx] struct, alone or embedded first in a [timerCtx] or an
    [afterFuncCtx]. *)
Record node : Type := mkNode {
  Context_ : option Context;          (* the embedded Context: the parent *)
  mu : bool;                          (* sync.Mutex: true when held *)
  done : option chan;                 (* atomic.Value, empty or a chan *)
  children : option (list canceler);  (* map[canceler]struct{}; None is nil *)
  err : option error;
  cause : option error;
  ext : extension
}.

(** A Context implemented outside of the package, by what its methods
    return; [uAfterFunc] says whether it has an [AfterFunc] method, and
    [uRegs] are the functions registered through it: each cancels a child
    for a parent, and is [None] once stopped. *)
Record custom : Type := mkCustom {
  uDeadline : option time;
  uDone : option chan;
  uErr : option error;
  uValue : any → any;
  uAfterFunc : bool;
  uRegs : list (option (canceler * Context))
}.

(** A [*time.Timer] made by [time.AfterFunc] for the [timerCtx] [tnode]. *)
Record runtimeTimer : Type := mkTimer {
  tnode : ptr;
  twhen : time;
  tcause : option error;
  tactive : bool
}.

Inductive event : Type :=
| EvLock (p : ptr)
| EvUnlock (p : ptr).

Record State : Type := mkState {
  heap : list node;
  closed : list chan;                   (* channels closed by [close] *)
  customs : list custom;
  timers : list runtimeTimer;
  now : time;                           (* time.Now() *)
  goroutines : Z;                       (* atomic.Int32 *)
  waiters : list (Context * canceler);  (* goroutines of propagateCancel *)
  started : list nat;                   (* functions started by [go a.f()] *)
  log : list event                      (* history of mutex operations *)
}.

(** ** Outcomes and the monad *)

Inductive outcome (A : Type) : Type :=
| Ret (a : A) (s : State)
| Panic (msg : string) (s : State)
| Blocked (s : State)
| OutOfFuel.
Arguments Ret {A} a s.
Arguments Panic {A} msg s.
Arguments Blocked {A} s.
Arguments OutOfFuel {A}.

Definition M (A : Type) : Type := State → outcome A.

Definition ret {A} (a : A) : M A := λ s, Ret a s.

Definition bind {A B} (m : M A) (k : A → M B) : M B :=
  λ s, match m s with
       | Ret a s' => k a s'
       | Panic msg s' => Panic msg s'
       | Blocked s' => Blocked s'
       | OutOfFuel => OutOfFuel
       end.

Definition panic {A} (msg : string) : M A := λ s, Panic msg s.
Definition outOfFuel {A} : M A := λ _, OutOfFuel.
Definition get : M State := λ s, Ret s s.
Definition modify (g : State → State) : M unit := λ s, Ret tt (g s).

Declare Scope go_scope.
Delimit Scope go_scope with go.
Notation "x <- m ;; k" := (bind m (λ x, k))
  (at level 100, m at next level, right associativity) : go_scope.
Notation "m ;;; k" := (bind m (λ _, k))
  (at level 100, right associativity) : go_scope.
Local Open Scope go_scope.

(** The state an outcome stops in. *)
Definition final {A} (s0 : State) (o : outcome A) : State :=
  match o with
  | Ret _ s | Panic _ s | Blocked s => s
  | OutOfFuel => s0
  end.

Definition nilDeref : string :=
  "invalid memory address or nil pointer dereference".

(** ** State accessors *)

Definition setHeap (h : list node) (s : State) : State :=
  mkState h (closed s) (customs s) (timers s) (now s) (goroutines s)
          (waiters s) (started s) (log s).
Definition setClosed (c : list chan) (s : State) : State :=
  mkState (heap s) c (customs s) (timers s) (now s) (goroutines s)
          (waiters s) (started s) (log s).
Definition setCustoms (c : list custom) (s : State) : State :=
  mkState (heap s) (closed s) c (timers s) (now s) (goroutines s)
          (waiters s) (started s) (log s).
Definition setTimers (t : list runtimeTimer) (s : State) : State :=
  mkState (heap s) (closed s) (customs s) t (now s) (goroutines s)
          (waiters s) (started s) (log s).
Definition setGoroutines (g : Z) (s : State) : State :=
  mkState (heap s) (closed s) (customs s) (timers s) (now s) g
          (waiters s) (started s) (log s).
Definition setWaiters (w : list (Context * canceler)) (s : State) : State :=
  mkState (heap s) (closed s) (customs s) (timers s) (now s) (goroutines s)
          w (started s) (log s).
Definition setStarted (l : list nat) (s : State) : State :=
  mkState (heap s) (closed s) (customs s) (timers s) (now s) (goroutines s)
          (waiters s) l (log s).
Definition setLog (l : list event) (s : State) : State :=
  mkState (heap s) (closed s) (customs s) (timers s) (now s) (goroutines s)
          (waiters s) (started s) l.

Definition getNode (p : ptr) : M node :=
  λ s, match heap s !! p with
       | Some n => Ret n s
       | None => Panic nilDeref s
       end.

Definition modNode (p : ptr) (g : node → node) : M unit :=
  λ s, match heap s !! p with
       | Some n => Ret tt (setHeap (<[p := g n]> (heap s)) s)
       | None => Panic nilDeref s
       end.

Definition getCustom (u : nat) : M custom :=
  λ s, match customs s !! u with
       | Some c => Ret c s
       | None => Panic nilDeref s
       end.

Definition set_Context (c : option Context) (n : node) : node :=
  mkNode c (mu n) (done n) (children n) (err n) (cause n) (ext n).
Definition set_mu (b : bool) (n : node) : node :=
  mkNode (Context_ n) b (done n) (children n) (err n) (cause n) (ext n).
Definition set_done (d : option chan) (n : node) : node :=
  mkNode (Context_ n) (mu n) d (children n) (err n) (cause n) (ext n).
Definition set_children (l : option (list canceler)) (n : node) : node :=
  mkNode (Context_ n) (mu n) (done n) l (err n) (cause n) (ext n).
Definition set_err (e : option error) (n : node) : node :=
  mkNode (Context_ n) (mu n) (done n) (children n) e (cause n) (ext n).
Definition set_cause (e : option error) (n : node) : node :=
  mkNode (Context_ n) (mu n) (done n) (children n) (err n) e (ext n).
Definition set_ext (x : extension) (n : node) : node :=
  mkNode (Context_ n) (mu n) (done n) (children n) (err n) (cause n) x.

(** [c.mu.Lock()]: a goroutine that asks for a mutex that is held blocks. *)
Definition Lock (p : ptr) : M unit :=
  n <- getNode p;;
  if mu n then (λ s, Blocked s)
  else modNode p (set_mu true);;;
       modify (λ s, setLog (log s ++ [EvLock p]) s).

(** [c.mu.Unlock()]: unlocking a mutex that is not held is a fatal error. *)
Definition Unlock (p : ptr) : M unit :=
  n <- getNode p;;
  if mu n then modNode p (set_mu false);;;
               modify (λ s, setLog (log s ++ [EvUnlock p]) s)
  else panic "sync: unlock of unlocked mutex".

(** Whether a receive from the channel would proceed because it is closed. *)
Definition is_closed (s : State) (ch : chan) : bool :=
  match ch with
  | closedchan => true
  | _ => bool_decide (ch ∈ closed s)
  end.

(** [close(d)]: closing a closed channel panics. *)
Definition close (d : chan) : M unit :=
  λ s, if is_closed s d then Panic "close of closed channel" s
       else Ret tt (setClosed (d :: closed s) s).

(** ** Comparison of interface values *)

Definition TypeOf (a : any) : option rtype :=
  match a with
  | anil => None
  | cancelCtxKey => Some TPtrInt
  | acancelCtx _ => Some TPtrCancelCtx
  | aint _ => Some TInt
  | astring _ => Some TString
  | aslice _ => Some TSlice
  | afunc _ => Some TFunc
  end.

(** [reflectlite]'s [Comparable] on a type. *)
Definition Comparable (t : rtype) : bool :=
  match t with
  | TSlice | TFunc => false
  | _ => true
  end.

(** [a == b] on interface values: false when the dynamic types differ, a
    run-time panic when they agree on a type that cannot be compared. *)
Definition any_eq (a b : any) : M bool :=
  match TypeOf a, TypeOf b with
  | None, None => ret true
  | Some ta, Some tb =>
      if bool_decide (ta = tb)
      then if Comparable ta then ret (bool_decide (a = b))
           else panic "runtime error: comparing uncomparable type"
      else ret false
  | _, _ => ret false
  end.

(** ** Value lookup *)

Definition embedded (p : ptr) : M Context :=
  n <- getNode p;;
  match Context_ n with
  | Some c => ret c
  | None => panic nilDeref
  end.

(** [value] is the loop of the source and [Value] the method of each Context
    type.  Both walk the Context they are given; the Context a [cancelCtx]
    embeds is a field read from the heap, and [hop] is what follows it.  A
    [stopCtx] takes its methods from the Context it embeds, and the [Value]
    of a [withoutCancelCtx], which is [value(c, key)], is the turn of the
    loop for that type. *)
Section value_loop.
Variable hop : ptr → any → M any.

Fixpoint value_with (c : Context) (key : any) : M any :=
  match c with
  | valueCtx parent k v =>
      b <- any_eq key k;;
      if b then ret v else value_with parent key
  | cancelCtxP p =>
      b <- any_eq key cancelCtxKey;;
      if b then ret (acancelCtx p) else hop p key
  | withoutCancelCtx c' =>
      b <- any_eq key cancelCtxKey;;
      if b then ret anil else value_with c' key
  | timerCtxP p =>
      b <- any_eq key cancelCtxKey;;
      if b then ret (acancelCtx p) else hop p key
  | backgroundCtx | todoCtx => ret anil
  | stopCtx parent _ => Value_with parent key
  | customCtx u => (cu <- getCustom u;; ret (uValue cu key))
  end
with Value_with (c : Context) (key : any) : M any :=
  match c with
  | backgroundCtx | todoCtx => ret anil
  | valueCtx parent k v =>
      b <- any_eq k key;;
      if b then ret v else value_with parent key
  | cancelCtxP p | timerCtxP p =>
      b <- any_eq key cancelCtxKey;;
      if b then ret (acancelCtx p) else hop p key
  | withoutCancelCtx c' =>
      b <- any_eq key cancelCtxKey;;
      if b then ret anil else value_with c' key
  | stopCtx parent _ => Value_with parent key
  | customCtx u => (cu <- getCustom u;; ret (uValue cu key))
  end.
End value_loop.

(** One unit of fuel for each Context read from the heap. *)
Fixpoint value (fuel : nat) (c : Context) (key : any) : M any :=
  value_with
    (λ p key, match fuel with
              | O => outOfFuel
              | S fuel' => (parent <- embedded p;; value fuel' parent key)
              end) c key.

Definition hop (fuel : nat) (p : ptr) (key : any) : M any :=
  match fuel with
  | O => outOfFuel
  | S fuel' => (parent <- embedded p;; value fuel' parent key)
  end.

Definition Value (fuel : nat) (c : Context) (key : any) : M any :=
  Value_with (hop fuel) c key.

(** ** WithValue *)

Definition WithValue (parent : option Context) (key val : any) : M Context :=
  match parent with
  | None => panic "cannot create context from nil parent"
  | Some parent =>
      match TypeOf key with
      | None => panic "nil key"
      | Some t =>
          if negb (Comparable t) then panic "key is not comparable"
          else ret (valueCtx parent key val)
      end
  end.

(** ** The methods Done, Err and Deadline *)

(** The Done method of a cancelCtx: the channel is made on first use, under the lock. *)
Definition cancelCtx_Done (c : ptr) : M (option chan) :=
  n <- getNode c;;
  match done n with
  | Some d => ret (Some d)
  | None =>
      Lock c;;;
      n' <- getNode c;;
      d <- match done n' with
           | None => modNode c (set_done (Some (chanOf c)));;; ret (chanOf c)
           | Some d => ret d
           end;;
      Unlock c;;;
      ret (Some d)
  end.

Fixpoint Done (c : Context) : M (option chan) :=
  match c with
  | backgroundCtx | todoCtx => ret None
  | valueCtx parent _ _ => Done parent
  | cancelCtxP p | timerCtxP p => cancelCtx_Done p
  | withoutCancelCtx _ => ret None
  | stopCtx parent _ => Done parent
  | customCtx u => (cu <- getCustom u;; ret (uDone cu))
  end.

Definition cancelCtx_Err (c : ptr) : M (option error) :=
  Lock c;;;
  n <- getNode c;;
  Unlock c;;;
  ret (err n).

Fixpoint Err (c : Context) : M (option error) :=
  match c with
  | backgroundCtx | todoCtx => ret None
  | valueCtx parent _ _ => Err parent
  | cancelCtxP p | timerCtxP p => cancelCtx_Err p
  | withoutCancelCtx _ => ret None
  | stopCtx parent _ => Err parent
  | customCtx u => (cu <- getCustom u;; ret (uErr cu))
  end.

(** A [cancelCtx] takes [Deadline] from the Context it embeds, which is read
    from the heap: one unit of fuel for each such step. *)
Section Deadline_loop.
Variable hopDeadline : ptr → M (option time).

Fixpoint Deadline_with (c : Context) : M (option time) :=
  match c with
  | backgroundCtx | todoCtx => ret None
  | valueCtx parent _ _ => Deadline_with parent
  | cancelCtxP p => hopDeadline p
  | timerCtxP p =>
      n <- getNode p;;
      match ext n with
      | timerExt _ d => ret (Some d)
      | _ => panic nilDeref
      end
  | withoutCancelCtx _ => ret None
  | stopCtx parent _ => Deadline_with parent
  | customCtx u => (cu <- getCustom u;; ret (uDeadline cu))
  end.
End Deadline_loop.

Fixpoint Deadline (fuel : nat) (c : Context) : M (option time) :=
  Deadline_with
    (λ p, match fuel with
          | O => outOfFuel
          | S fuel' => (parent <- embedded p;; Deadline fuel' parent)
          end) c.

(** ** Cause *)

Definition Cause (fuel : nat) (c : Context) : M (option error) :=
  v <- Value fuel c cancelCtxKey;;
  match v with
  | acancelCtx cc =>
      Lock cc;;;
      n <- getNode cc;;
      Unlock cc;;;
      ret (cause n)
  | _ => Err c
  end.

(** ** parentCancelCtx and removeChild *)

Definition parentCancelCtx (fuel : nat) (parent : Context) : M (option ptr) :=
  d <- Done parent;;
  match d with
  | None => ret None
  | Some closedchan => ret None
  | Some d =>
      v <- Value fuel parent cancelCtxKey;;
      match v with
      | acancelCtx p =>
          n <- getNode p;;
          if bool_decide (done n = Some d) then ret (Some p) else ret None
      | _ => ret None
      end
  end.

(** The [stop] function of a registration made through a Context of the
    environment: true when it stopped the function from being run. *)
Definition callStop (stop : stopFunc) : M bool :=
  cu <- getCustom (stopOwner stop);;
  match uRegs cu !! stopReg stop with
  | Some (Some _) =>
      modify (λ s, setCustoms
        (<[stopOwner stop :=
             mkCustom (uDeadline cu) (uDone cu) (uErr cu) (uValue cu)
                      (uAfterFunc cu) (<[stopReg stop := None]> (uRegs cu))]>
           (customs s)) s);;;
      ret true
  | _ => ret false
  end.

(** [delete(m, child)] on the children map. *)
Definition delete_child (child : canceler) (l : list canceler) : list canceler :=
  filter (λ x, x ≠ child) l.

(** [m[child] = struct{}{}] on the children map. *)
Definition insert_child (child : canceler) (l : list canceler) : list canceler :=
  if bool_decide (child ∈ l) then l else l ++ [child].

Definition removeChild (fuel : nat) (parent : option Context) (child : canceler)
  : M unit :=
  match parent with
  | None => panic nilDeref
  | Some (stopCtx _ stop) => (_ <- callStop stop;; ret tt)
  | Some parent =>
      p <- parentCancelCtx fuel parent;;
      match p with
      | None => ret tt
      | Some p =>
          Lock p;;;
          n <- getNode p;;
          match children n with
          | Some l => modNode p (set_children (Some (delete_child child l)))
          | None => ret tt
          end;;;
          Unlock p
      end
  end.

(** ** cancel *)

Fixpoint forM (l : list canceler) (body : canceler → M unit) : M unit :=
  match l with
  | [] => ret tt
  | x :: l' => body x;;; forM l' body
  end.

Definition getTimerField (c : ptr) : M (option nat) :=
  n <- getNode c;;
  match ext n with
  | timerExt t _ => ret t
  | _ => panic nilDeref
  end.

(** [t.Stop()]: the timer will not fire. *)
Definition timer_Stop (t : nat) : M unit :=
  λ s, match timers s !! t with
       | Some tm =>
           Ret tt (setTimers
             (<[t := mkTimer (tnode tm) (twhen tm) (tcause tm) false]> (timers s)) s)
       | None => Panic nilDeref s
       end.

Section cancelers.
(** The [cancel] methods of [timerCtx] and [afterFuncCtx] call the one of
    the [cancelCtx] they embed, here [cancelCtx_cancel]. *)
Variable cancelCtx_cancel : ptr → bool → option error → option error → M unit.
Variable fuel : nat.

Definition timerCtx_cancel_with (c : ptr) (removeFromParent : bool)
    (err0 cause0 : option error) : M unit :=
  cancelCtx_cancel c false err0 cause0;;;
  (if removeFromParent
   then (n <- getNode c;; removeChild fuel (Context_ n) (cancelerTimer c))
   else ret tt);;;
  Lock c;;;
  t <- getTimerField c;;
  match t with
  | Some t =>
      timer_Stop t;;;
      modNode c (λ n, match ext n with
                      | timerExt _ d => set_ext (timerExt None d) n
                      | _ => n
                      end)
  | None => ret tt
  end;;;
  Unlock c.

Definition afterFuncCtx_cancel_with (a : ptr) (removeFromParent : bool)
    (err0 cause0 : option error) : M unit :=
  cancelCtx_cancel a false err0 cause0;;;
  (if removeFromParent
   then (n <- getNode a;; removeChild fuel (Context_ n) (cancelerAfterFunc a))
   else ret tt);;;
  n <- getNode a;;
  match ext n with
  | afterFuncExt false f =>
      modNode a (set_ext (afterFuncExt true f));;;
      modify (λ s, setStarted (started s ++ [f]) s)
  | afterFuncExt true _ => ret tt
  | _ => panic nilDeref
  end.

(** [child.cancel(...)] on an interface value of type [canceler]. *)
Definition canceler_cancel_with (child : canceler) (removeFromParent : bool)
    (err0 cause0 : option error) : M unit :=
  match child with
  | cancelerCancel p => cancelCtx_cancel p removeFromParent err0 cause0
  | cancelerTimer p => timerCtx_cancel_with p removeFromParent err0 cause0
  | cancelerAfterFunc p => afterFuncCtx_cancel_with p removeFromParent err0 cause0
  end.
End cancelers.

(** The cancel method of a cancelCtx; one unit of fuel for each level of the cascade. *)
Fixpoint cancelCtx_cancel (fuel : nat) (c : ptr) (removeFromParent : bool)
    (err0 cause0 : option error) : M unit :=
  match fuel with
  | O => outOfFuel
  | S fuel' =>
      match err0 with
      | None => panic "context: internal error: missing cancel error"
      | Some _ =>
          let cause1 := match cause0 with None => err0 | Some _ => cause0 end in
          Lock c;;;
          n <- getNode c;;
          match err n with
          | Some _ => Unlock c
          | None =>
              modNode c (set_err err0);;;
              modNode c (set_cause cause1);;;
              match done n with
              | None => modNode c (set_done (Some closedchan))
              | Some d => close d
              end;;;
              forM (default [] (children n))
                   (λ child, canceler_cancel_with (cancelCtx_cancel fuel') fuel'
                               child false err0 cause1);;;
              modNode c (set_children None);;;
              Unlock c;;;
              if removeFromParent
              then (n' <- getNode c;;
                    removeChild fuel' (Context_ n') (cancelerCancel c))
              else ret tt
          end
      end
  end.

Definition timerCtx_cancel (fuel : nat) :=
  timerCtx_cancel_with (cancelCtx_cancel fuel) fuel.
Definition afterFuncCtx_cancel (fuel : nat) :=
  afterFuncCtx_cancel_with (cancelCtx_cancel fuel) fuel.
Definition canceler_cancel (fuel : nat) :=
  canceler_cancel_with (cancelCtx_cancel fuel) fuel.

Definition canceler_ptr (c : canceler) : ptr :=
  match c with
  | cancelerCancel p | cancelerTimer p | cancelerAfterFunc p => p
  end.

(** [child.Done()]: all three take it from the embedded [cancelCtx]. *)
Definition canceler_Done (c : canceler) : M (option chan) :=
  cancelCtx_Done (canceler_ptr c).

(** ** propagateCancel *)

(** [goroutines.Add(1)] on an [atomic.Int32]. *)
Definition wrap32 (z : Z) : Z := (z + 2 ^ 31) mod 2 ^ 32 - 2 ^ 31.

(** The [AfterFunc] method of a Context of the environment: it keeps the
    function, here the child to cancel for the parent, and returns the
    [stop] function of the registration. *)
Definition custom_AfterFunc (u : nat) (child : canceler) (parent : Context)
  : M stopFunc :=
  cu <- getCustom u;;
  modify (λ s, setCustoms
    (<[u := mkCustom (uDeadline cu) (uDone cu) (uErr cu) (uValue cu)
                     (uAfterFunc cu) (uRegs cu ++ [Some (child, parent)])]>
       (customs s)) s);;;
  ret {| stopOwner := u; stopReg := length (uRegs cu) |}.

(** [parent.(afterFuncer)]: of the Context types of the model only one of
    the environment can have an [AfterFunc] method. *)
Definition afterFuncer (parent : Context) : M (option nat) :=
  match parent with
  | customCtx u =>
      cu <- getCustom u;;
      if uAfterFunc cu then ret (Some u) else ret None
  | _ => ret None
  end.

Definition propagateCancel (fuel : nat) (c : ptr) (parent : Context)
    (child : canceler) : M unit :=
  modNode c (set_Context (Some parent));;;
  d <- Done parent;;
  match d with
  | None => ret tt                       (* parent is never canceled *)
  | Some d =>
      s <- get;;
      if is_closed s d
      then (* parent is already canceled *)
        (e <- Err parent;;
         cz <- Cause fuel parent;;
         canceler_cancel fuel child false e cz)
      else
        p <- parentCancelCtx fuel parent;;
        match p with
        | Some p =>
            (* parent is a *cancelCtx, or derives from one *)
            Lock p;;;
            n <- getNode p;;
            match err n with
            | Some _ => canceler_cancel fuel child false (err n) (cause n)
            | None =>
                modNode p (set_children
                  (Some (insert_child child (default [] (children n)))))
            end;;;
            Unlock p
        | None =>
            a <- afterFuncer parent;;
            match a with
            | Some u =>
                (* parent implements an AfterFunc method *)
                Lock c;;;
                stop <- custom_AfterFunc u child parent;;
                modNode c (set_Context (Some (stopCtx parent stop)));;;
                Unlock c
            | None =>
                modify (λ s, setGoroutines (wrap32 (goroutines s + 1)) s);;;
                modify (λ s, setWaiters (waiters s ++ [(parent, child)]) s)
            end
        end
  end.

(** ** Derivations *)

(** [&cancelCtx{}], [&timerCtx{...}], [&afterFuncCtx{...}]: a fresh address. *)
Definition alloc (x : extension) : M ptr :=
  λ s, Ret (length (heap s))
           (setHeap (heap s ++ [mkNode None false None None None None x]) s).

(** A [CancelFunc] is a closure over the node and the arguments it passes on:
    [func() { c.cancel(removeFromParent, Canceled, nil) }]. *)
Record CancelFunc : Type := mkCancelFunc {
  cfTarget : canceler;
  cfRemoveFromParent : bool
}.

Definition callCancelFunc (fuel : nat) (f : CancelFunc) : M unit :=
  canceler_cancel fuel (cfTarget f) (cfRemoveFromParent f) (Some Canceled) None.

(** A [CancelCauseFunc]: [func(cause error) { c.cancel(true, Canceled, cause) }]. *)
Record CancelCauseFunc : Type := mkCancelCauseFunc { ccfTarget : ptr }.

Definition callCancelCauseFunc (fuel : nat) (f : CancelCauseFunc)
    (cause0 : option error) : M unit :=
  cancelCtx_cancel fuel (ccfTarget f) true (Some Canceled) cause0.

Definition withCancel (fuel : nat) (parent : option Context) : M ptr :=
  match parent with
  | None => panic "cannot create context from nil parent"
  | Some parent =>
      c <- alloc plainExt;;
      propagateCancel fuel c parent (cancelerCancel c);;;
      ret c
  end.

Definition WithCancel (fuel : nat) (parent : option Context)
  : M (Context * CancelFunc) :=
  c <- withCancel fuel parent;;
  ret (cancelCtxP c, mkCancelFunc (cancelerCancel c) true).

Definition WithCancelCause (fuel : nat) (parent : option Context)
  : M (Context * CancelCauseFunc) :=
  c <- withCancel fuel parent;;
  ret (cancelCtxP c, mkCancelCauseFunc c).

Definition WithoutCancel (parent : option Context) : M Context :=
  match parent with
  | None => panic "cannot create context from nil parent"
  | Some parent => ret (withoutCancelCtx parent)
  end.

Definition maxDuration : Z := 2 ^ 63 - 1.
Definition minDuration : Z := - 2 ^ 63.

(** [time.Until(d)]: the difference, kept inside a [Duration]. *)
Definition Until (d t : time) : Z :=
  Z.max minDuration (Z.min maxDuration (d - t)).

(** [time.AfterFunc(dur, f)] where [f] cancels the [timerCtx] [c]. *)
Definition time_AfterFunc (dur : Z) (c : ptr) (cause0 : option error) : M nat :=
  λ s, Ret (length (timers s))
           (setTimers (timers s ++ [mkTimer c (now s + dur) cause0 true]) s).

Definition WithDeadlineCause (fuel : nat) (parent : option Context) (d : time)
    (cause0 : option error) : M (Context * CancelFunc) :=
  match parent with
  | None => panic "cannot create context from nil parent"
  | Some parent =>
      cur <- Deadline fuel parent;;
      if match cur with Some cur => bool_decide (cur < d) | None => false end
      then (* the current deadline is already sooner than the new one *)
        WithCancel fuel (Some parent)
      else
        c <- alloc (timerExt None d);;
        propagateCancel fuel c parent (cancelerTimer c);;;
        s <- get;;
        let dur := Until d (now s) in
        if bool_decide (dur ≤ 0)
        then (* deadline has already passed *)
          timerCtx_cancel fuel c true (Some DeadlineExceeded) cause0;;;
          ret (timerCtxP c, mkCancelFunc (cancelerTimer c) false)
        else
          Lock c;;;
          n <- getNode c;;
          match err n with
          | None =>
              t <- time_AfterFunc dur c cause0;;
              modNode c (λ n, match ext n with
                              | timerExt _ d' => set_ext (timerExt (Some t) d') n
                              | _ => n
                              end)
          | Some _ => ret tt
          end;;;
          Unlock c;;;
          ret (timerCtxP c, mkCancelFunc (cancelerTimer c) true)
  end.

Definition WithDeadline (fuel : nat) (parent : option Context) (d : time)
  : M (Context * CancelFunc) :=
  WithDeadlineCause fuel parent d None.

Definition WithTimeout (fuel : nat) (parent : option Context) (timeout : Z)
  : M (Context * CancelFunc) :=
  s <- get;;
  WithDeadline fuel parent (now s + timeout).

Definition WithTimeoutCause (fuel : nat) (parent : option Context)
    (timeout : Z) (cause0 : option error) : M (Context * CancelFunc) :=
  s <- get;;
  WithDeadlineCause fuel parent (now s + timeout) cause0.

(** The function the timer of a [timerCtx] runs when it fires:
    [c.cancel(true, DeadlineExceeded, cause)].  A stopped timer does not
    fire, and neither does one whose time has not come. *)
Definition fireTimer (fuel : nat) (t : nat) : M unit :=
  s <- get;;
  match timers s !! t with
  | Some tm =>
      if tactive tm && bool_decide (twhen tm ≤ now s)
      then
        modify (setTimers
          (<[t := mkTimer (tnode tm) (twhen tm) (tcause tm) false]> (timers s)));;;
        timerCtx_cancel fuel (tnode tm) true (Some DeadlineExceeded) (tcause tm)
      else ret tt
  | None => ret tt
  end.

(** The roots. *)
Definition Background : Context := backgroundCtx.
Definition TODO : Context := todoCtx.

Definition emptyState : State :=
  mkState [] [] [] [] 0 0 [] [] [].

(** ** AfterFunc *)

(** [AfterFunc(ctx, f)]; the result is the [afterFuncCtx] the returned [stop]
    function closes over. *)
Definition AfterFunc (fuel : nat) (ctx : Context) (f : nat) : M ptr :=
  a <- alloc (afterFuncExt false f);;
  propagateCancel fuel a ctx (cancelerAfterFunc a);;;
  ret a.

(** The [stop] function returned by [AfterFunc]. *)
Definition callAfterFuncStop (fuel : nat) (a : ptr) : M bool :=
  n <- getNode a;;
  match ext n with
  | afterFuncExt false f =>
      modNode a (set_ext (afterFuncExt true f));;;
      afterFuncCtx_cancel fuel a true (Some Canceled) None;;;
      ret true
  | afterFuncExt true _ => ret false
  | _ => panic nilDeref
  end.

(** ** What runs besides the caller *)

Definition chan_ready (s : State) (d : option chan) : bool :=
  match d with
  | Some d => is_closed s d
  | None => false
  end.

(** One scheduling of the goroutine [i] started by [propagateCancel]: it
    waits on both channels; [pickParent] is the choice of [select] when both
    are ready. *)
Definition waiterStep (fuel : nat) (i : nat) (pickParent : bool) : M unit :=
  s <- get;;
  match waiters s !! i with
  | Some (parent, child) =>
      pd <- Done parent;;
      cd <- canceler_Done child;;
      s' <- get;;
      if chan_ready s' pd && (pickParent || negb (chan_ready s' cd))
      then
        modify (λ s, setWaiters (delete i (waiters s)) s);;;
        e <- Err parent;;
        cz <- Cause fuel parent;;
        canceler_cancel fuel child false e cz
      else if chan_ready s' cd
      then modify (λ s, setWaiters (delete i (waiters s)) s)
      else ret tt
  | None => ret tt
  end.

(** A Context of the environment runs the function registered with its
    [AfterFunc] method. *)
Definition runCallback (fuel : nat) (u r : nat) : M unit :=
  cu <- getCustom u;;
  match uRegs cu !! r with
  | Some (Some (child, parent)) =>
      _ <- callStop {| stopOwner := u; stopReg := r |};;
      e <- Err parent;;
      cz <- Cause fuel parent;;
      canceler_cancel fuel child false e cz
  | _ => ret tt
  end.

(** The environment makes a Context of its own, or ends one. *)
Definition newCustom (cu : custom) : M nat :=
  λ s, Ret (length (customs s)) (setCustoms (customs s ++ [cu]) s).

Definition endCustom (u : nat) (e : error) : M unit :=
  cu <- getCustom u;;
  match uErr cu with
  | Some _ => ret tt
  | None =>
      modify (λ s, setCustoms
        (<[u := mkCustom (uDeadline cu) (uDone cu) (Some e) (uValue cu)
                         (uAfterFunc cu) (uRegs cu)]> (customs s)) s);;;
      match uDone cu with
      | Some d => modify (λ s, if is_closed s d then s
                               else setClosed (d :: closed s) s)
      | None => ret tt
      end
  end.

Definition tick (dt : Z) : M unit :=
  modify (λ s, mkState (heap s) (closed s) (customs s) (timers s)
                       (now s + Z.max 0 dt) (goroutines s) (waiters s)
                       (started s) (log s)).

(** The operations of the package and of its environment. *)
Inductive op : Type :=
| opWithCancel (parent : option Context)
| opWithCancelCause (parent : option Context)
| opWithDeadlineCause (parent : option Context) (d : time) (cause0 : option error)
| opWithTimeoutCause (parent : option Context) (timeout : Z) (cause0 : option error)
| opAfterFunc (ctx : Context) (f : nat)
| opAfterFuncStop (a : ptr)
| opCancel (c : canceler) (removeFromParent : bool) (err0 cause0 : option error)
| opDone (c : Context)
| opErr (c : Context)
| opCause (c : Context)
| opValue (c : Context) (key : any)
| opDeadline (c : Context)
| opFireTimer (t : nat)
| opWaiter (i : nat) (pickParent : bool)
| opCallback (u r : nat)
| opNewCustom (cu : custom)
| opEndCustom (u : nat) (e : error)
| opTick (dt : Z).

Definition forget {A} (m : M A) : M unit := (_ <- m;; ret tt).

Definition runOp (fuel : nat) (o : op) : M unit :=
  match o with
  | opWithCancel parent => forget (WithCancel fuel parent)
  | opWithCancelCause parent => forget (WithCancelCause fuel parent)
  | opWithDeadlineCause parent d cause0 =>
      forget (WithDeadlineCause fuel parent d cause0)
  | opWithTimeoutCause parent timeout cause0 =>
      forget (WithTimeoutCause fuel parent timeout cause0)
  | opAfterFunc ctx f => forget (AfterFunc fuel ctx f)
  | opAfterFuncStop a => forget (callAfterFuncStop fuel a)
  | opCancel c removeFromParent err0 cause0 =>
      canceler_cancel fuel c removeFromParent err0 cause0
  | opDone c => forget (Done c)
  | opErr c => forget (Err c)
  | opCause c => forget (Cause fuel c)
  | opValue c key => forget (Value fuel c key)
  | opDeadline c => forget (Deadline fuel c)
  | opFireTimer t => fireTimer fuel t
  | opWaiter i pickParent => waiterStep fuel i pickParent
  | opCallback u r => runCallback fuel u r
  | opNewCustom cu => forget (newCustom cu)
  | opEndCustom u e => endCustom u e
  | opTick dt => tick dt
  end.

(** The state after a run of operations, each taken to where it stops: at
    its return, at a panic the caller recovers from, or where it blocked.
    An operation given too little fuel to finish is not run at all: the
    state stays as it was before it. *)
Fixpoint runOps (ops : list (nat * op)) (s : State) : State :=
  match ops with
  | [] => s
  | (fuel, o) :: ops' => runOps ops' (final s (runOp fuel o s))
  end.

(** ** Definitions used to state the properties *)




(** *** What no operation undoes *)

Definition timer_of (n : node) : option nat :=
  match ext n with
  | timerExt t _ => t
  | _ => None
  end.

Definition is_plain (x : extension) : bool :=
  match x with plainExt => true | _ => false end.

(** A node against a later state of itself: a channel once stored stays, and
    once the error is set, the error, the cause, a cleared children set and
    a cleared timer stay as they are. *)
Record node_le (n n' : node) : Prop := mk_node_le {
  le_done : ∀ d, done n = Some d → done n' = Some d;
  le_err : ∀ e, err n = Some e → err n' = Some e;
  le_cause : err n ≠ None → cause n' = cause n;
  le_children : err n ≠ None → children n = None → children n' = None;
  le_timer : err n ≠ None → timer_of n = None → timer_of n' = None;
  le_plain : is_plain (ext n) = is_plain (ext n')
}.

(** A state against a later one; a timer the later state has and the earlier
    one has not is for a node at address [b] or above. *)
Record le_from (b : nat) (s s' : State) : Prop := mk_le_from {
  le_len : (length (heap s) ≤ length (heap s'))%nat;
  le_heap : ∀ p n, heap s !! p = Some n →
                   ∃ n', heap s' !! p = Some n' ∧ node_le n n';
  le_closed : ∀ ch, is_closed s ch = true → is_closed s' ch = true;
  le_timers : ∀ t tm, timers s !! t = Some tm →
      ∃ tm', timers s' !! t = Some tm' ∧ tnode tm' = tnode tm
             ∧ (tactive tm = false → tactive tm' = false);
  le_new_timers : ∀ t tm', timers s' !! t = Some tm' →
      is_Some (timers s !! t) ∨ (b ≤ tnode tm')%nat
}.

(** The timers made since the earlier state are for nodes made since. *)
Definition le_state (s s' : State) : Prop := le_from (length (heap s)) s s'.

(** No timer is made. *)
Definition same_timers (s s' : State) : Prop :=
  length (timers s) = length (timers s').

(** An operation, wherever it stops, leaves the state related to the one it
    started in. *)
Definition okm (R : State → State → Prop) {A} (s : State) (m : M A) : Prop :=
  match m s with
  | Ret _ s' | Panic _ s' | Blocked s' => R s s'
  | OutOfFuel => True
  end.

(** A relation between states that the primitive steps keep. *)
Class Keeps (R : State → State → Prop) : Prop := {
  keeps_refl :: Reflexive R;
  keeps_trans :: Transitive R;
  keeps_frame : ∀ s s',
    heap s' = heap s → closed s' = closed s → timers s' = timers s → R s s';
  keeps_setHeap : ∀ s c n g,
    heap s !! c = Some n → node_le n (g n) →
    R s (setHeap (<[c := g n]> (heap s)) s);
  keeps_close : ∀ d s,
    is_closed s d = false → R s (setClosed (d :: closed s) s);
  keeps_timer_Stop : ∀ t tm s,
    timers s !! t = Some tm →
    R s (setTimers
      (<[t := mkTimer (tnode tm) (twhen tm) (tcause tm) false]> (timers s)) s);
  keeps_alloc : ∀ n s, R s (setHeap (heap s ++ [n]) s)
}.

(** *** The cascade *)

#[global] Instance extension_eq_dec : EqDecision extension.
Proof. solve_decision. Defined.

(** The extension once [cancel] is through with it: the timer cleared, the
    function started or stopped. *)
Definition stopped (x : extension) : extension :=
  match x with
  | plainExt => plainExt
  | timerExt _ d => timerExt None d
  | afterFuncExt _ f => afterFuncExt true f
  end.

Definition closed_done (n : node) : option chan :=
  match done n with
  | None => Some closedchan
  | Some d => Some d
  end.

(** A node after the [cancel] of the [cancelCtx] it embeds, and after the
    [cancel] of its own type. *)
Definition marked_node (e z : error) (n : node) : node :=
  mkNode (Context_ n) (mu n) (closed_done n) None (Some e) (Some z) (ext n).
Definition canceled_node (e z : error) (n : node) : node :=
  mkNode (Context_ n) (mu n) (closed_done n) None (Some e) (Some z)
         (stopped (ext n)).

Definition kind_matches (ch : canceler) (x : extension) : bool :=
  match ch, x with
  | cancelerCancel _, plainExt
  | cancelerTimer _, timerExt _ _
  | cancelerAfterFunc _, afterFuncExt _ _ => true
  | _, _ => false
  end.

(** The canceler points to a struct of its dynamic type. *)
Definition kind_ok (s : State) (ch : canceler) : Prop :=
  ∃ n, heap s !! canceler_ptr ch = Some n ∧ kind_matches ch (ext n) = true.

(** What [cancel] relies on at a node: its lock is free, its children were
    made after it, a node not canceled has not had its channel closed, a
    canceled one has no timer left, and a timer it holds exists. *)
Record node_ready (s : State) (q : ptr) (n : node) : Prop := mk_node_ready {
  nr_mu : mu n = false;
  nr_children : ∀ ch, ch ∈ default [] (children n) →
                      (q < canceler_ptr ch)%nat ∧ kind_ok s ch;
  nr_live : err n = None →
            (chanOf q ∉ closed s) ∧ (done n = None ∨ done n = Some (chanOf q));
  nr_stopped : err n ≠ None → ext n = stopped (ext n);
  nr_timer : ∀ t, timer_of n = Some t → (t < length (timers s))%nat
}.

Definition ready (s : State) (b : nat) : Prop :=
  ∀ q n, heap s !! q = Some n → (b ≤ q)%nat → node_ready s q n.

Definition canceled_in (s : State) (q : ptr) : Prop :=
  ∃ n, heap s !! q = Some n ∧ err n ≠ None.

Definition ev_ptr (ev : event) : ptr :=
  match ev with EvLock p | EvUnlock p => p end.

(** The history of the locks grew by operations on nodes at [b] or above. *)
Definition log_from (b : nat) (s s' : State) : Prop :=
  ∃ l, log s' = log s ++ l ∧ Forall (λ ev, (b ≤ ev_ptr ev)%nat) l.

(** What a cascade with error [e] and cause [z] does between two states: it
    touches no node below [b]; a node it touches was not canceled and is now,
    with [e] and [z], its channel closed, its children cleared and its timer
    stopped, save that the node [x] keeps its extension; the children of a
    node it cancels are canceled. *)
Record Casc (e z : error) (b : nat) (x : option ptr) (s s' : State) : Prop :=
  mk_Casc {
  casc_len : length (heap s') = length (heap s);
  casc_node : ∀ q n, heap s !! q = Some n →
    ∃ n', heap s' !! q = Some n'
          ∧ (n' = n
             ∨ ((b ≤ q)%nat ∧ err n = None
                ∧ n' = if bool_decide (x = Some q) then marked_node e z n
                       else canceled_node e z n));
  casc_closure : ∀ q n ch, heap s !! q = Some n → err n = None →
    canceled_in s' q → ch ∈ default [] (children n) →
    canceled_in s' (canceler_ptr ch);
  casc_closed_mono : ∀ ch, ch ∈ closed s → ch ∈ closed s';
  casc_closed_new : ∀ ch, ch ∈ closed s' →
    ch ∈ closed s
    ∨ ∃ q n, ch = chanOf q ∧ heap s !! q = Some n ∧ err n = None
             ∧ canceled_in s' q;
  casc_closed_done : ∀ q n d, heap s !! q = Some n → err n = None →
    canceled_in s' q → done n = Some d → is_closed s' d = true;
  casc_timers_len : length (timers s') = length (timers s);
  casc_timers : ∀ t tm, timers s !! t = Some tm →
    ∃ tm', timers s' !! t = Some tm' ∧ tnode tm' = tnode tm
           ∧ (tactive tm = false → tactive tm' = false);
  casc_stopped : ∀ q n t, heap s !! q = Some n → err n = None →
    canceled_in s' q → x ≠ Some q → timer_of n = Some t →
    ∃ tm, timers s' !! t = Some tm ∧ tactive tm = false;
  casc_customs : customs s' = customs s;
  casc_waiters : waiters s' = waiters s;
  casc_goroutines : goroutines s' = goroutines s;
  casc_now : now s' = now s;
  casc_log : log_from b s s'
}.

(** The nodes registered below a node, at any depth. *)
Inductive descendant (s : State) : ptr → ptr → Prop :=
| descendant_child p n ch :
    heap s !! p = Some n → ch ∈ default [] (children n) →
    descendant s p (canceler_ptr ch)
| descendant_trans p q r :
    descendant s p q → descendant s q r → descendant s p r.

(** The node [q] is in the children of the node [r]. *)
Definition registered (s : State) (r q : ptr) : Prop :=
  ∃ nr ch, heap s !! r = Some nr ∧ ch ∈ default [] (children nr)
           ∧ canceler_ptr ch = q.

(** The nodes canceled between two states are those of [P] and nodes that
    were in the children of a node that is canceled. *)
Definition only (P : ptr → Prop) (s s' : State) : Prop :=
  ∀ q n, heap s !! q = Some n → err n = None → canceled_in s' q →
         P q ∨ ∃ r, registered s r q ∧ canceled_in s' r.

(** What the [cancel] of a [cancelCtx], and the [cancel] of a canceler, do
    when called inside a cascade, with enough fuel for the nodes made after
    the one canceled. *)
Definition cancelCtx_cancel_spec (e z : error)
    (rec : ptr → bool → option error → option error → M unit) (f : nat) : Prop :=
  ∀ c cause0 s,
    default e cause0 = z → (c < length (heap s))%nat →
    (length (heap s) - c ≤ f)%nat → ready s c →
    ∃ s', rec c false (Some e) cause0 s = Ret tt s'
          ∧ Casc e z c (Some c) s s' ∧ canceled_in s' c
          ∧ (∃ l, log s' = log s ++ EvLock c :: l)
          ∧ only (λ q, q = c) s s'.

Definition canceler_cancel_spec (e z : error)
    (run : canceler → bool → option error → option error → M unit) (f : nat)
  : Prop :=
  ∀ ch cause0 s,
    default e cause0 = z → kind_ok s ch →
    (length (heap s) - canceler_ptr ch ≤ f)%nat → ready s (canceler_ptr ch) →
    ∃ s', run ch false (Some e) cause0 s = Ret tt s'
          ∧ Casc e z (canceler_ptr ch) None s s'
          ∧ canceled_in s' (canceler_ptr ch)
          ∧ (∃ l, log s' = log s ++ EvLock (canceler_ptr ch) :: l)
          ∧ only (λ q, q = canceler_ptr ch) s s'.

(** *** States the operations start from *)

(** A Context the caller can hold: the structs it points to exist, and no
    attach-value node has the package's own key, which is not exported. *)
Fixpoint ctx_ok (s : State) (c : Context) : Prop :=
  match c with
  | backgroundCtx | todoCtx => True
  | valueCtx parent k _ => k ≠ cancelCtxKey ∧ ctx_ok s parent
  | cancelCtxP p | timerCtxP p => (p < length (heap s))%nat
  | withoutCancelCtx c' => ctx_ok s c'
  | stopCtx parent stop =>
      ctx_ok s parent ∧ (stopOwner stop < length (customs s))%nat
  | customCtx u => (u < length (customs s))%nat
  end.

Fixpoint ctx_okb (s : State) (c : Context) : bool :=
  match c with
  | backgroundCtx | todoCtx => true
  | valueCtx parent k _ => bool_decide (k ≠ cancelCtxKey) && ctx_okb s parent
  | cancelCtxP p | timerCtxP p => bool_decide (p < length (heap s))%nat
  | withoutCancelCtx c' => ctx_okb s c'
  | stopCtx parent stop =>
      ctx_okb s parent && bool_decide (stopOwner stop < length (customs s))%nat
  | customCtx u => bool_decide (u < length (customs s))%nat
  end.

(** No lock is held, and what a Context of the environment answers for the
    package's key, if a [*cancelCtx], exists. *)
Record sane (s : State) : Prop := mk_sane {
  sane_mu : ∀ q n, heap s !! q = Some n → mu n = false;
  sane_customs : ∀ u cu p, customs s !! u = Some cu →
    uValue cu cancelCtxKey = acancelCtx p → (p < length (heap s))%nat
}.

(** The state but for the history of the locks, which grew. *)
Definition eqlog (s s' : State) : Prop := ∃ l, s' = setLog (log s ++ l) s.

(** What [Done] may do to the state: make the channel of nodes that had
    none. *)
Record mat (s s' : State) : Prop := mk_mat {
  mat_len : length (heap s') = length (heap s);
  mat_node : ∀ q n, heap s !! q = Some n →
    heap s' !! q = Some n
    ∨ (done n = None ∧ heap s' !! q = Some (set_done (Some (chanOf q)) n));
  mat_closed : closed s' = closed s;
  mat_timers : timers s' = timers s;
  mat_customs : customs s' = customs s;
  mat_waiters : waiters s' = waiters s;
  mat_goroutines : goroutines s' = goroutines s;
  mat_now : now s' = now s;
  mat_started : started s' = started s;
  mat_log : ∃ l, log s' = log s ++ l
}.

(** What [Done], [Err], [Value] for the package's key and [Cause] return. *)
Fixpoint doneOf (s : State) (c : Context) : option chan :=
  match c with
  | backgroundCtx | todoCtx => None
  | valueCtx parent _ _ => doneOf s parent
  | cancelCtxP p | timerCtxP p =>
      match heap s !! p with
      | Some n => Some (default (chanOf p) (done n))
      | None => None
      end
  | withoutCancelCtx _ => None
  | stopCtx parent _ => doneOf s parent
  | customCtx u =>
      match customs s !! u with
      | Some cu => uDone cu
      | None => None
      end
  end.

Fixpoint errOf (s : State) (c : Context) : option error :=
  match c with
  | backgroundCtx | todoCtx => None
  | valueCtx parent _ _ => errOf s parent
  | cancelCtxP p | timerCtxP p =>
      match heap s !! p with
      | Some n => err n
      | None => None
      end
  | withoutCancelCtx _ => None
  | stopCtx parent _ => errOf s parent
  | customCtx u =>
      match customs s !! u with
      | Some cu => uErr cu
      | None => None
      end
  end.

Fixpoint keyOf (s : State) (c : Context) : any :=
  match c with
  | backgroundCtx | todoCtx => anil
  | valueCtx parent _ _ => keyOf s parent
  | cancelCtxP p | timerCtxP p => acancelCtx p
  | withoutCancelCtx _ => anil
  | stopCtx parent _ => keyOf s parent
  | customCtx u =>
      match customs s !! u with
      | Some cu => uValue cu cancelCtxKey
      | None => anil
      end
  end.

Definition causeOf (s : State) (c : Context) : option error :=
  match keyOf s c with
  | acancelCtx cc =>
      match heap s !! cc with
      | Some n => cause n
      | None => None
      end
  | _ => errOf s c
  end.

(** What [parentCancelCtx] returns once [Done] has returned [d]. *)
Definition resolve (s : State) (d : option chan) (parent : Context)
  : option ptr :=
  match d with
  | None | Some closedchan => None
  | Some d =>
      match keyOf s parent with
      | acancelCtx p =>
          match heap s !! p with
          | Some n => if bool_decide (done n = Some d) then Some p else None
          | None => None
          end
      | _ => None
      end
  end.

(** What [removeChild] may do besides: take children out of a set, and stop
    a registration with a Context of the environment. *)
Record touch (s s' : State) : Prop := mk_touch {
  touch_len : length (heap s') = length (heap s);
  touch_node : ∀ q n, heap s !! q = Some n →
    ∃ n', heap s' !! q = Some n'
          ∧ Context_ n' = Context_ n ∧ mu n' = mu n ∧ err n' = err n
          ∧ cause n' = cause n ∧ ext n' = ext n
          ∧ (done n' = done n ∨ (done n = None ∧ done n' = Some (chanOf q)))
          ∧ (children n = None → children n' = None)
          ∧ (∀ ch, ch ∈ default [] (children n') →
                   ch ∈ default [] (children n));
  touch_closed : closed s' = closed s;
  touch_timers : timers s' = timers s;
  touch_customs_len : length (customs s') = length (customs s);
  touch_customs : ∀ u cu, customs s !! u = Some cu →
    ∃ cu', customs s' !! u = Some cu'
           ∧ uValue cu' = uValue cu ∧ uDone cu' = uDone cu
           ∧ uErr cu' = uErr cu ∧ uDeadline cu' = uDeadline cu
           ∧ uAfterFunc cu' = uAfterFunc cu
           ∧ (∀ r x, uRegs cu' !! r = Some (Some x) →
                     uRegs cu !! r = Some (Some x));
  touch_waiters : waiters s' = waiters s;
  touch_goroutines : goroutines s' = goroutines s;
  touch_now : now s' = now s;
  touch_log : ∃ l, log s' = log s ++ l
}.

(** The Context a child embeds when it was registered with a Context of the
    environment. *)
Definition is_stopCtx (c : Context) : bool :=
  match c with
  | stopCtx _ _ => true
  | _ => false
  end.

(** No node has the node [q] in its children. *)
Definition unregistered (s : State) (q : ptr) : Prop :=
  ∀ r, ¬ registered s r q.

(** A child the environment is to cancel for a parent: both exist, and the
    child is in no children set. *)
Definition pending (s : State) (parent : Context) (child : canceler) : Prop :=
  ctx_ok s parent ∧ kind_ok s child ∧ unregistered s (canceler_ptr child).

(** The states between operations: every node is ready for [cancel]; a node
    registered with a parent is not canceled; a canceled node has no
    children, has a cause and a closed channel; a node not canceled has no
    cause; every node embeds a Context the caller could hold; timers are for
    nodes that exist, and one that can fire is the one its node holds; the
    closed channels of nodes are of nodes that exist; a node in the children
    of another embeds a Context that resolves to it, and not one made for a
    registration with the environment; and the children that
    goroutines and registered functions are to cancel are in no children
    set. *)
Record wf (s : State) : Prop := mk_wf {
  wf_ready : ready s 0;
  wf_live_children : ∀ q n ch,
    heap s !! q = Some n → ch ∈ default [] (children n) →
    ∃ m, heap s !! canceler_ptr ch = Some m ∧ err m = None;
  wf_canceled : ∀ q n, heap s !! q = Some n → err n ≠ None →
    children n = None ∧ cause n ≠ None
    ∧ ∃ d, done n = Some d ∧ is_closed s d = true;
  wf_live : ∀ q n, heap s !! q = Some n → err n = None → cause n = None;
  wf_context : ∀ q n, heap s !! q = Some n →
    ∃ ctx, Context_ n = Some ctx ∧ ctx_ok s ctx;
  wf_customs : ∀ u cu p, customs s !! u = Some cu →
    uValue cu cancelCtxKey = acancelCtx p → (p < length (heap s))%nat;
  wf_timers : ∀ t tm, timers s !! t = Some tm →
    (tnode tm < length (heap s))%nat;
  wf_active : ∀ t tm, timers s !! t = Some tm → tactive tm = true →
    ∃ n, heap s !! tnode tm = Some n ∧ timer_of n = Some t;
  wf_closed : ∀ q, chanOf q ∈ closed s → (q < length (heap s))%nat;
  wf_registered : ∀ r nr ch,
    heap s !! r = Some nr → ch ∈ default [] (children nr) →
    ∃ nc ctx, heap s !! canceler_ptr ch = Some nc ∧ Context_ nc = Some ctx
              ∧ is_stopCtx ctx = false
              ∧ resolve s (doneOf s ctx) ctx = Some r;
  wf_waiters : ∀ i parent child,
    waiters s !! i = Some (parent, child) → pending s parent child;
  wf_regs : ∀ u cu r parent child,
    customs s !! u = Some cu → uRegs cu !! r = Some (Some (child, parent)) →
    pending s parent child
}.

(** The same, as a test. *)
Definition kind_okb (s : State) (ch : canceler) : bool :=
  match heap s !! canceler_ptr ch with
  | Some m => kind_matches ch (ext m)
  | None => false
  end.

Definition liveb (s : State) (p : ptr) : bool :=
  match heap s !! p with
  | Some m => bool_decide (err m = None)
  | None => false
  end.

Definition node_okb (s : State) (q : ptr) (n : node) : bool :=
  negb (mu n)
  && forallb (λ ch, bool_decide (q < canceler_ptr ch)%nat
                    && kind_okb s ch && liveb s (canceler_ptr ch))
             (default [] (children n))
  && match err n with
     | None =>
         bool_decide (chanOf q ∉ closed s)
         && bool_decide (done n = None ∨ done n = Some (chanOf q))
         && bool_decide (cause n = None)
     | Some _ =>
         bool_decide (ext n = stopped (ext n))
         && bool_decide (children n = None)
         && bool_decide (cause n ≠ None)
         && match done n with
            | Some d => is_closed s d
            | None => false
            end
     end
  && match timer_of n with
     | Some t => bool_decide (t < length (timers s))%nat
     | None => true
     end
  && match Context_ n with
     | Some ctx => ctx_okb s ctx
     | None => false
     end.

Definition alli {A} (P : nat → A → bool) (l : list A) : bool :=
  forallb (λ x, P (fst x) (snd x)) (imap pair l).

Definition unregisteredb (s : State) (q : ptr) : bool :=
  forallb (λ nr, forallb (λ ch, bool_decide (canceler_ptr ch ≠ q))
                         (default [] (children nr)))
          (heap s).

Definition pendingb (s : State) (parent : Context) (child : canceler) : bool :=
  ctx_okb s parent && kind_okb s child && unregisteredb s (canceler_ptr child).

Definition registered_okb (s : State) (r : ptr) (nr : node) : bool :=
  forallb (λ ch, match heap s !! canceler_ptr ch with
                 | Some nc =>
                     match Context_ nc with
                     | Some ctx =>
                         negb (is_stopCtx ctx)
                         && bool_decide (resolve s (doneOf s ctx) ctx = Some r)
                     | None => false
                     end
                 | None => false
                 end)
          (default [] (children nr)).

Definition wfb (s : State) : bool :=
  alli (node_okb s) (heap s)
  && forallb (λ cu, match uValue cu cancelCtxKey with
                    | acancelCtx p => bool_decide (p < length (heap s))%nat
                    | _ => true
                    end) (customs s)
  && forallb (λ tm, bool_decide (tnode tm < length (heap s))%nat) (timers s)
  && alli (λ t tm, negb (tactive tm)
                   || match heap s !! tnode tm with
                      | Some n => bool_decide (timer_of n = Some t)
                      | None => false
                      end) (timers s)
  && forallb (λ ch, match ch with
                    | chanOf q => bool_decide (q < length (heap s))%nat
                    | _ => true
                    end) (closed s)
  && alli (registered_okb s) (heap s)
  && forallb (λ w, pendingb s (fst w) (snd w)) (waiters s)
  && forallb (λ cu, forallb (λ reg, match reg with
                                    | Some (child, parent) =>
                                        pendingb s parent child
                                    | None => true
                                    end) (uRegs cu))
             (customs s).

(** ** States for the examples *)

(** A tree made by the package: node 0 over Background, node 1 over node 0,
    node 2 over a value attached to node 1, and node 3, over node 0, with a
    deadline at time 100. *)
Definition example_tree : State :=
  runOps [(5%nat, opWithCancel (Some backgroundCtx));
          (5%nat, opWithCancel (Some (cancelCtxP 0)));
          (5%nat, opWithCancel
                    (Some (valueCtx (cancelCtxP 1) (aint 1) (aint 2))));
          (5%nat, opWithDeadlineCause (Some (cancelCtxP 0)) 100 None)]
         emptyState.

(** ** Locks held along a history *)

(** The locks held after an event, given those held before it. *)
Definition holds (h : list ptr) (ev : event) : list ptr :=
  match ev with
  | EvLock p => p :: h
  | EvUnlock p => filter (λ q, q ≠ p) h
  end.

(** The locks held at the end of a history that starts with none held. *)
Definition held (l : list event) : list ptr := fold_left holds l [].

(** The largest number of locks held at one time along a history. *)
Fixpoint max_held_from (h : list ptr) (l : list event) : nat :=
  match l with
  | [] => length h
  | ev :: l' => Nat.max (length h) (max_held_from (holds h ev) l')
  end.

Definition max_held (l : list event) : nat := max_held_from [] l.

(** What the [cancel] of a [timerCtx] or an [afterFuncCtx] does after the
    [cancel] of the [cancelCtx] it embeds and the removal from the parent:
    the extension of the node [c] is as [stopped] has it, and the timer the
    node held will not fire. *)
Record fin (c : ptr) (s s' : State) : Prop := mk_fin {
  fin_heap : ∃ n, heap s !! c = Some n
                  ∧ heap s' = <[c := set_ext (stopped (ext n)) n]> (heap s);
  fin_closed : closed s' = closed s;
  fin_timers_len : length (timers s') = length (timers s);
  fin_timers : ∀ t tm, timers s !! t = Some tm →
    ∃ tm', timers s' !! t = Some tm' ∧ tnode tm' = tnode tm
           ∧ (tactive tm = false → tactive tm' = false);
  fin_stopped : ∀ n t, heap s !! c = Some n → timer_of n = Some t →
    ∃ tm, timers s' !! t = Some tm ∧ tactive tm = false;
  fin_customs : customs s' = customs s;
  fin_waiters : waiters s' = waiters s;
  fin_goroutines : goroutines s' = goroutines s;
  fin_now : now s' = now s;
  fin_log : ∃ l, log s' = log s ++ l
}.

(** ** The wiring of a child to its parent, as the specification orders it *)

(** The five strategies, in their order of priority. *)
Inductive wiring : Type :=
| NoWiring                   (* 1: the parent is never canceled *)
| CancelNow                  (* 2: the parent is canceled already *)
| InChildren (p : ptr)       (* 3: the parent is, or derives from, a node *)
| ByAfterFunc (u : nat)      (* 4: the parent can register a function *)
| ByWaiter.                  (* 5: a goroutine waits for both *)

(** The first strategy that applies, for a parent whose done-signal has been
    asked for in the state [s]. *)
Definition choose_wiring (s : State) (parent : Context) : wiring :=
  match doneOf s parent with
  | None => NoWiring
  | Some d =>
      if is_closed s d then CancelNow
      else
        match resolve s (Some d) parent with
        | Some p => InChildren p
        | None =>
            match parent with
            | customCtx u =>
                match customs s !! u with
                | Some cu => if uAfterFunc cu then ByAfterFunc u else ByWaiter
                | None => ByWaiter
                end
            | _ => ByWaiter
            end
        end
  end.

(** The state with the lock of [p] taken, and given back, [np] being the
    node without the lock. *)
Definition locked (p : ptr) (np : node) (s : State) : State :=
  setLog (log s ++ [EvLock p]) (setHeap (<[p := set_mu true np]> (heap s)) s).

Definition unlocked (p : ptr) (np : node) (s : State) : State :=
  setLog (log s ++ [EvUnlock p]) (setHeap (<[p := set_mu false np]> (heap s)) s).

(** What each strategy does for the child [child], whose node is [c], from
    the state [s] in which the done-signal of the parent has been asked for:
    [o] is the outcome. *)
Definition wired (w : wiring) (c : ptr) (parent : Context) (child : canceler)
    (s : State) (o : outcome unit) : Prop :=
  match w with
  | NoWiring => o = Ret tt s
  | CancelNow =>
      ∃ s1, eqlog s s1
        ∧ match errOf s parent with
          | None =>
              o = Panic "context: internal error: missing cancel error" s1
          | Some e =>
              ∃ s', o = Ret tt s'
                    ∧ Casc e (default e (causeOf s parent)) c None s1 s'
                    ∧ canceled_in s' c
          end
  | InChildren p =>
      ∃ np, heap s !! p = Some np
        ∧ match err np with
          | None =>
              o = Ret tt
                    (setLog (log s ++ [EvLock p; EvUnlock p])
                       (setHeap
                          (<[p := set_children
                                    (Some (insert_child child
                                             (default [] (children np)))) np]>
                             (heap s)) s))
          | Some e =>
              ∃ s', o = Ret tt (unlocked p (set_mu true np) s')
                    ∧ Casc e (default e (cause np)) c None (locked p np s) s'
                    ∧ canceled_in s' c
          end
  | ByAfterFunc u =>
      ∃ cu nc, customs s !! u = Some cu ∧ heap s !! c = Some nc
        ∧ o = Ret tt
                (setLog (log s ++ [EvLock c; EvUnlock c])
                   (setHeap
                      (<[c := set_Context
                                (Some (stopCtx parent
                                         {| stopOwner := u;
                                            stopReg := length (uRegs cu) |}))
                                nc]> (heap s))
                      (setCustoms
                         (<[u := mkCustom (uDeadline cu) (uDone cu) (uErr cu)
                                          (uValue cu) (uAfterFunc cu)
                                          (uRegs cu ++ [Some (child, parent)])]>
                            (customs s)) s)))
  | ByWaiter =>
      o = Ret tt (setWaiters (waiters s ++ [(parent, child)])
                    (setGoroutines (wrap32 (goroutines s + 1)) s))
  end.

(** The example tree once node 0 has been canceled. *)
Definition canceled_tree : State :=
  runOps [(5%nat, opCancel (cancelerCancel 0) true (Some Canceled) None)]
         example_tree.

(** A node made by [WithCancelCause] over Background, and a node made by
    [WithCancel] over it. *)
Definition cause_tree : State :=
  runOps [(5%nat, opWithCancelCause (Some backgroundCtx));
          (5%nat, opWithCancel (Some (cancelCtxP 0)))]
         emptyState.

(** What [removeChild] does for the child [child] whose parent is [ctx]: it
    stops the registration made with a Context of the environment, or asks
    for the done-signal of the parent and, when the parent resolves to a
    node, takes the child out of the children of that node, under its
    lock. *)
Definition removed (ctx : Context) (child : canceler) (s s' : State) : Prop :=
  match ctx with
  | stopCtx _ stop => ∃ b, callStop stop s = Ret b s'
  | _ =>
      ∃ sB, Done ctx s = Ret (doneOf s ctx) sB ∧ mat s sB
        ∧ match resolve sB (doneOf s ctx) ctx with
          | None => s' = sB
          | Some p =>
              ∃ np, heap sB !! p = Some np
                ∧ s' = setLog (log sB ++ [EvLock p; EvUnlock p])
                         (setHeap
                            (<[p := match children np with
                                    | Some l =>
                                        set_children
                                          (Some (delete_child child l)) np
                                    | None => np
                                    end]> (heap sB)) sB)
          end
  end.

(** *** What is kept from state to state *)

(** From one state to a later one: the nodes and the Contexts of the
    environment stay, with their type, a channel once made, and what they
    answer for the package's key and as their done-signal. *)
Record later (s s' : State) : Prop := mk_later {
  later_len : (length (heap s) ≤ length (heap s'))%nat;
  later_node : ∀ q n, heap s !! q = Some n →
    ∃ n', heap s' !! q = Some n'
          ∧ (∀ ch, kind_matches ch (ext n') = kind_matches ch (ext n))
          ∧ (∀ d, done n = Some d → done n' = Some d);
  later_customs_len : (length (customs s) ≤ length (customs s'))%nat;
  later_customs : ∀ u cu, customs s !! u = Some cu →
    ∃ cu', customs s' !! u = Some cu'
           ∧ uValue cu' = uValue cu ∧ uDone cu' = uDone cu
}.

(** What [wf] asks of one node. *)
Record node_wf (s : State) (q : ptr) (n : node) : Prop := mk_node_wf {
  nw_ready : node_ready s q n;
  nw_children : ∀ ch, ch ∈ default [] (children n) →
    ∃ m ctx, heap s !! canceler_ptr ch = Some m ∧ err m = None
             ∧ Context_ m = Some ctx ∧ is_stopCtx ctx = false
             ∧ resolve s (doneOf s ctx) ctx = Some q;
  nw_canceled : err n ≠ None →
    children n = None ∧ cause n ≠ None
    ∧ ∃ d, done n = Some d ∧ is_closed s d = true;
  nw_live : err n = None → cause n = None;
  nw_context : ∃ ctx, Context_ n = Some ctx ∧ ctx_ok s ctx
}.

(** A node against itself in a later state where it has not been canceled
    since: it is as it was, but for a channel made by [Done] and children
    taken out. *)
Record kept (q : ptr) (n n' : node) : Prop := mk_kept {
  kept_Context : Context_ n' = Context_ n;
  kept_mu : mu n' = mu n;
  kept_err : err n' = err n;
  kept_cause : cause n' = cause n;
  kept_ext : ext n' = ext n;
  kept_done : done n' = done n ∨ (done n = None ∧ done n' = Some (chanOf q));
  kept_none : children n = None → children n' = None;
  kept_children : ∀ ch, ch ∈ default [] (children n') →
                        ch ∈ default [] (children n)
}.

(** The state an operation stops in is one of the states between
    operations: [okm to_wf s m]. *)
Definition to_wf (_ s' : State) : Prop := wf s'.

(** ** Operations the package and its callers can make *)

(** The parent of a derivation is a Context the caller can hold: not the
    [stopCtx] the package keeps to itself. *)
Definition parent_ok (s : State) (parent : option Context) : Prop :=
  match parent with
  | None => True
  | Some p => ctx_ok s p ∧ is_stopCtx p = false
  end.

(** An operation as the package and its callers make it, with fuel for the
    nodes there are: derivations and methods are for Contexts the caller can
    hold; [cancel] is called on a canceler of the right type, with
    [removeFromParent] unless the node is canceled already; a Context the
    environment makes has no function registered yet, and answers the
    package's key, if with a node, with one that exists; and the environment
    closes channels of its own only. *)
Definition op_ok (s : State) (fuel : nat) (o : op) : Prop :=
  (length (heap s) < fuel)%nat
  ∧ match o with
    | opWithCancel parent | opWithCancelCause parent
    | opWithDeadlineCause parent _ _ | opWithTimeoutCause parent _ _ =>
        parent_ok s parent
    | opAfterFunc ctx _ => parent_ok s (Some ctx)
    | opCancel c removeFromParent _ _ =>
        kind_ok s c
        ∧ (removeFromParent = true ∨ canceled_in s (canceler_ptr c))
    | opDone c | opErr c | opCause c => ctx_ok s c
    | opNewCustom cu =>
        uRegs cu = []
        ∧ ∀ p, uValue cu cancelCtxKey = acancelCtx p →
               (p < length (heap s))%nat
    | opEndCustom u _ =>
        ∀ cu d q, customs s !! u = Some cu → uDone cu = Some d → d ≠ chanOf q
    | _ => True
    end.

Fixpoint ops_ok (ops : list (nat * op)) (s : State) : Prop :=
  match ops with
  | [] => True
  | (fuel, o) :: ops' =>
      op_ok s fuel o ∧ ops_ok ops' (final s (runOp fuel o s))
  end.

(** ** Definitions for further properties of the package *)

(** The done-signal and the error of the Context are the package's own: of
    a node, or none; not those of a Context of the environment. *)
Fixpoint own_done (c : Context) : bool :=
  match c with
  | backgroundCtx | todoCtx => true
  | valueCtx parent _ _ => own_done parent
  | cancelCtxP _ | timerCtxP _ => true
  | withoutCancelCtx _ => true
  | stopCtx _ _ => false
  | customCtx _ => false
  end.

(** A run from the empty state: a node over Background, a deadline node
    and a function below it, time passing, the timer firing, and the cancel
    function of the first node. *)
Definition example_run : list (nat * op) :=
  [(5%nat, opWithCancel (Some backgroundCtx));
   (5%nat, opWithDeadlineCause (Some (cancelCtxP 0)) 100 None);
   (5%nat, opAfterFunc (timerCtxP 1) 7);
   (5%nat, opTick 200);
   (5%nat, opFireTimer 0);
   (5%nat, opCancel (cancelerCancel 0) true (Some Canceled) None)].

(** The operations that make [example_tree]. *)
Definition example_ops : list (nat * op) :=
  [(5%nat, opWithCancel (Some backgroundCtx));
   (5%nat, opWithCancel (Some (cancelCtxP 0)));
   (5%nat, opWithCancel (Some (valueCtx (cancelCtxP 1) (aint 1) (aint 2))));
   (5%nat, opWithDeadlineCause (Some (cancelCtxP 0)) 100 None)].

(** What [propagateCancel] leaves when it returns, for a node just made in
    the state [s0] with the extension [x] for a child of [parent]: the node
    embeds the parent, or the [stopCtx] over it; it is not canceled, or, when
    the done-signal of the parent was closed, canceled with the error and the
    cause of the parent; and the nodes and the Contexts of the environment
    there were are as they were, but for channels made and children
    registered. *)
Record wired_node (parent : Context) (x : extension) (s0 s1 : State) : Prop :=
  mk_wired_node {
  wn_wf : wf s1;
  wn_len : length (heap s1) = S (length (heap s0));
  wn_node : ∃ n1, heap s1 !! length (heap s0) = Some n1
    ∧ (Context_ n1 = Some parent
       ∨ ∃ stop, Context_ n1 = Some (stopCtx parent stop))
    ∧ ((err n1 = None ∧ cause n1 = None ∧ ext n1 = x
        ∧ chan_ready s0 (doneOf s0 parent) = false)
       ∨ (∃ e, errOf s0 parent = Some e ∧ err n1 = Some e
               ∧ cause n1 = Some (default e (causeOf s0 parent))
               ∧ ext n1 = stopped x
               ∧ chan_ready s0 (doneOf s0 parent) = true));
  wn_old : ∀ q n, heap s0 !! q = Some n →
    ∃ n', heap s1 !! q = Some n' ∧ Context_ n' = Context_ n ∧ ext n' = ext n
          ∧ err n' = err n ∧ cause n' = cause n;
  wn_customs : ∀ u cu, customs s0 !! u = Some cu →
    ∃ cu', customs s1 !! u = Some cu' ∧ uDeadline cu' = uDeadline cu
           ∧ uValue cu' = uValue cu ∧ uDone cu' = uDone cu
           ∧ uErr cu' = uErr cu;
  wn_now : now s1 = now s0
}.

(** Two Contexts of the environment, the second with an [AfterFunc] method;
    node 0 made by [WithCancel] over the first and node 1 over the second,
    node 2 over node 0 and node 3 over node 1. *)
Definition example_env_open : State :=
  runOps [(5%nat, opNewCustom (mkCustom None (Some (extchan 0)) None
                                 (λ _, anil) false []));
          (5%nat, opNewCustom (mkCustom None (Some (extchan 1)) None
                                 (λ _, anil) true []));
          (5%nat, opWithCancel (Some (customCtx 0)));
          (5%nat, opWithCancel (Some (customCtx 1)));
          (5%nat, opWithCancel (Some (cancelCtxP 0)));
          (5%nat, opWithCancel (Some (cancelCtxP 1)))]
         emptyState.

(** The same once both Contexts of the environment are done. *)
Definition example_env : State :=
  runOps [(5%nat, opEndCustom 0 (errorString "gone"));
          (5%nat, opEndCustom 1 (errorString "gone"))]
         example_env_open.

(** What [Value] and [Deadline] read stays from one state to the other: the
    Context a node embeds, the deadline of a deadline node, and what a
    Context of the environment answers. *)
Record same_chain (s s' : State) : Prop := mk_same_chain {
  sc_node : ∀ q n, heap s !! q = Some n →
    ∃ n', heap s' !! q = Some n' ∧ Context_ n' = Context_ n
          ∧ ∀ t d, ext n = timerExt t d → ∃ t', ext n' = timerExt t' d;
  sc_custom : ∀ u cu, customs s !! u = Some cu →
    ∃ cu', customs s' !! u = Some cu' ∧ uValue cu' = uValue cu
           ∧ uDeadline cu' = uDeadline cu
}.

(** The same for the nodes below the address [b], across the steps of an
    operation, during which the node the operation makes is being filled
    in; the heap does not shrink. *)
Record chain_from (b : nat) (s s' : State) : Prop := mk_chain_from {
  cf_len : (length (heap s) ≤ length (heap s'))%nat;
  cf_node : ∀ q n, (q < b)%nat → heap s !! q = Some n →
    ∃ n', heap s' !! q = Some n' ∧ Context_ n' = Context_ n
          ∧ ∀ t d, ext n = timerExt t d → ∃ t', ext n' = timerExt t' d;
  cf_custom : ∀ u cu, customs s !! u = Some cu →
    ∃ cu', customs s' !! u = Some cu' ∧ uValue cu' = uValue cu
           ∧ uDeadline cu' = uDeadline cu
}.

(** ** The functions of [AfterFunc] *)

(** How many times the function [f] has been started in a goroutine. *)
Definition starts (f : nat) (s : State) : nat :=
  length (filter (λ g, g = f) (started s)).

(** Whether the node is an [afterFuncCtx] for [f] whose [once] has not been
    done: 1 if so. *)
Definition pending_f (f : nat) (n : node) : nat :=
  match ext n with
  | afterFuncExt false g => if decide (g = f) then 1%nat else 0%nat
  | _ => 0%nat
  end.

(** The times [f] has been started, and the nodes that may start it yet. *)
Definition owed (f : nat) (s : State) : nat :=
  (starts f s + sum_list_with (pending_f f) (heap s))%nat.

Definition same_owed (s s' : State) : Prop := ∀ f, owed f s' = owed f s.

(** The calls of [AfterFunc] with [f] in a run of operations. *)
Fixpoint registrations (f : nat) (ops : list (nat * op)) : nat :=
  match ops with
  | [] => 0%nat
  | (_, opAfterFunc _ g) :: ops' =>
      ((if decide (g = f) then 1 else 0) + registrations f ops')%nat
  | _ :: ops' => registrations f ops'
  end.

(** ** The depth of a cascade *)

(** A chain of [k] registrations below the node [c], each node of it in the
    children of the one before, and none canceled. *)
Inductive live_chain (s : State) : ptr → nat → Prop :=
| live_chain_end c n :
    heap s !! c = Some n → err n = None → live_chain s c 0
| live_chain_step c n ch k :
    heap s !! c = Some n → err n = None → ch ∈ default [] (children n) →
    live_chain s (canceler_ptr ch) k → live_chain s c (S k).

(** The node [q] is the node [c] or registered below it. *)
Definition within (s : State) (c q : ptr) : Prop := q = c ∨ descendant s c q.

(** No node is in the children of two nodes. *)
Definition single_owner (s : State) : Prop :=
  ∀ r r' q, registered s r q → registered s r' q → r = r'.

(** A history that, started with locks of nodes below [b] held, ends with
    the same locks held; and one in which [m] more locks than at its start
    are held at one time. *)
Definition balanced (b : nat) (l : list event) : Prop :=
  ∀ h, Forall (λ p, (p < b)%nat) h → fold_left holds l h = h.
Definition nested (b m : nat) (l : list event) : Prop :=
  ∀ h, Forall (λ p, (p < b)%nat) h → (length h + m ≤ max_held_from h l)%nat.

(** The locks of a call of [cancel] inside a cascade: the history of the
    call starts with the lock of the node, which is released in it; when the
    call returns the locks held are those held before; the nodes it changes
    are the node and those registered below it; and below a chain of [k]
    registrations [k] more locks are held at one time. *)
Definition lock_spec (e : error)
    (run : ptr → bool → option error → option error → M unit)
    (c : ptr) (cause0 : option error) (s : State) : Prop :=
  ∃ s' L, run c false (Some e) cause0 s = Ret tt s'
          ∧ log s' = log s ++ L
          ∧ balanced c L
          ∧ (∃ mid post, L = EvLock c :: mid ++ EvUnlock c :: post)
          ∧ (∀ q m, heap s !! q = Some m →
               within s c q ∨ heap s' !! q = Some m)
          ∧ (∀ k, live_chain s c k → nested c (S k) L).

Definition cancelCtx_lock_spec (e z : error) (f : nat) : Prop :=
  ∀ c cause0 s,
    default e cause0 = z → (c < length (heap s))%nat →
    (length (heap s) - c ≤ f)%nat → ready s c → single_owner s →
    lock_spec e (cancelCtx_cancel f) c cause0 s.

Definition canceler_lock_spec (e z : error) (f : nat) : Prop :=
  ∀ ch cause0 s,
    default e cause0 = z → kind_ok s ch →
    (length (heap s) - canceler_ptr ch ≤ f)%nat → ready s (canceler_ptr ch) →
    single_owner s →
    lock_spec e (λ _, canceler_cancel f ch) (canceler_ptr ch) cause0 s.

(** * Properties *)

(** ** The monad *)

Lemma bind_Ret {A B} (m : M A) (k : A → M B) s a s' :
  m s = Ret a s' → bind m k s = k a s'.
Proof. intros H. unfold bind. now rewrite H. Qed.

Lemma bind_ret_l {A B} (a : A) (k : A → M B) s : bind (ret a) k s = k a s.
Proof. reflexivity. Qed.


Lemma getNode_Ret c n s : heap s !! c = Some n → getNode c s = Ret n s.
Proof. unfold getNode. now intros ->. Qed.

Lemma modNode_Ret c n g s :
  heap s !! c = Some n →
  modNode c g s = Ret tt (setHeap (<[c := g n]> (heap s)) s).
Proof. unfold modNode. now intros ->. Qed.

Lemma getCustom_Ret u cu s : customs s !! u = Some cu → getCustom u s = Ret cu s.
Proof. unfold getCustom. now intros ->. Qed.

(** ** Attach-value chains *)






Lemma value_unfold fuel : value fuel = value_with (hop fuel).
Proof. destruct fuel; reflexivity. Qed.





(** C10.  The attach-value derivation panics exactly when the parent is nil,
    the key is nil, or the type of the key is not comparable; in every other
    case it returns, without touching the state, a value node over the
    parent given that stores the one pair given. *)
Theorem WithValue_panics_iff parent key val s :
  ((∃ msg s', WithValue parent key val s = Panic msg s')
   ↔ (parent = None ∨ key = anil
      ∨ ∃ t, TypeOf key = Some t ∧ Comparable t = false))
  ∧ ((∃ msg, WithValue parent key val s = Panic msg s)
     ∨ ∃ p, parent = Some p
            ∧ WithValue parent key val s = Ret (valueCtx p key val) s).
Proof.
  unfold WithValue, panic, ret. split.
  - split.
    + intros (msg & s' & H). destruct parent as [p|]; [|now left].
      right. destruct (TypeOf key) as [t|] eqn:Ht.
      * right. exists t. split; [reflexivity|].
        destruct (Comparable t); [discriminate | reflexivity].
      * left. destruct key; (reflexivity || discriminate).
    + intros [-> | [-> | (t & Ht & Hc)]].
      * eauto.
      * destruct parent; simpl; eauto.
      * destruct parent; [|eauto]. rewrite Ht, Hc. simpl. eauto.
  - destruct parent as [p|]; [|eauto].
    destruct (TypeOf key) as [t|]; [|eauto].
    destruct (Comparable t); simpl; eauto.
Qed.

(** ** Relations every step keeps *)

Section okm.
Context (R : State → State → Prop) `{!Reflexive R, !Transitive R}.

Lemma okm_ret {A} (a : A) s : okm R s (ret a).
Proof. unfold okm, ret. reflexivity. Qed.

Lemma okm_panic {A} msg s : okm R s (@panic A msg).
Proof. unfold okm, panic. reflexivity. Qed.

Lemma okm_blocked {A} s : okm R s (λ s, @Blocked A s).
Proof. unfold okm. reflexivity. Qed.

Lemma okm_outOfFuel {A} s : okm R s (@outOfFuel A).
Proof. exact I. Qed.

Lemma okm_bind {A B} (m : M A) (k : A → M B) s :
  okm R s m → (∀ a s', m s = Ret a s' → okm R s' (k a)) → okm R s (bind m k).
Proof.
  unfold okm, bind. intros Hm Hk.
  destruct (m s) as [a s1| | |] eqn:Hms; auto.
  specialize (Hk a s1 eq_refl).
  destruct (k a s1); auto; etransitivity; eauto.
Qed.

Lemma okm_bind_get {B} (k : State → M B) s :
  okm R s (k s) → okm R s (bind get k).
Proof. unfold okm, bind, get. auto. Qed.

Lemma okm_bind_getNode {B} c (k : node → M B) s :
  (∀ n, heap s !! c = Some n → okm R s (k n)) → okm R s (bind (getNode c) k).
Proof.
  unfold okm, bind, getNode. intros H.
  destruct (heap s !! c) as [n|]; [now apply H | reflexivity].
Qed.

Lemma okm_bind_getCustom {B} u (k : custom → M B) s :
  (∀ cu, customs s !! u = Some cu → okm R s (k cu)) →
  okm R s (bind (getCustom u) k).
Proof.
  unfold okm, bind, getCustom. intros H.
  destruct (customs s !! u) as [cu|]; [now apply H | reflexivity].
Qed.

Lemma okm_modify g s : R s (g s) → okm R s (modify g).
Proof. unfold okm, modify. auto. Qed.

Lemma okm_modNode c g s :
  (∀ n, heap s !! c = Some n → R s (setHeap (<[c := g n]> (heap s)) s)) →
  okm R s (modNode c g).
Proof.
  unfold okm, modNode. intros H.
  destruct (heap s !! c) as [n|]; [now apply H | reflexivity].
Qed.

Lemma okm_forM l body s :
  (∀ x s', x ∈ l → okm R s' (body x)) → okm R s (forM l body).
Proof.
  revert s. induction l as [|x l IH]; intros s H; simpl.
  - apply okm_ret.
  - apply okm_bind.
    + apply H. now left.
    + intros _ s' _. apply IH. intros y s'' Hy. apply H. now right.
Qed.
End okm.

Ltac okm_special := fail.
Ltac okm_arm_timer := fail.

Ltac okm_step tac :=
  lazymatch goal with
  | |- okm _ _ (bind (modNode _ (set_err _)) _) => okm_special
  | |- okm _ _ (bind (time_AfterFunc _ _ _) _) => okm_arm_timer
  | |- okm ?R _ (bind (getNode _) _) =>
      apply (okm_bind_getNode R); intros ? ?
  | |- okm ?R _ (bind get _) => apply (okm_bind_get R)
  | |- okm ?R _ (bind (getCustom _) _) =>
      apply (okm_bind_getCustom R); intros ? ?
  | |- okm ?R _ (bind _ _) =>
      apply (okm_bind R); [ | intros ? ? _]
  | |- okm ?R _ (ret _) => apply (okm_ret R)
  | |- okm ?R _ (panic _) => apply (okm_panic R)
  | |- okm _ _ outOfFuel => exact I
  | |- okm ?R _ (λ s, Blocked s) => apply (okm_blocked R)
  | |- okm _ _ (match ?x with _ => _ end) => destruct x eqn:?
  | |- okm _ _ (if ?x then _ else _) => destruct x eqn:?
  | |- _ => tac
  end.

Ltac okm_go tac := repeat (okm_step tac).

(** ** Nothing is undone *)

Lemma node_le_refl n : node_le n n.
Proof. constructor; auto. Qed.

Lemma node_le_trans n1 n2 n3 : node_le n1 n2 → node_le n2 n3 → node_le n1 n3.
Proof.
  intros [d1 e1 c1 ch1 t1 p1] [d2 e2 c2 ch2 t2 p2].
  assert (He : err n1 ≠ None → err n2 ≠ None).
  { destruct (err n1) as [e|] eqn:E; [|congruence].
    intros _. rewrite (e1 e eq_refl). discriminate. }
  constructor; intros.
  - auto.
  - auto.
  - rewrite c2, c1; auto.
  - auto.
  - auto.
  - congruence.
Qed.

#[global] Instance le_from_refl b : Reflexive (le_from b).
Proof.
  intros s. constructor; eauto using node_le_refl.
Qed.

#[global] Instance le_from_trans b : Transitive (le_from b).
Proof.
  intros s1 s2 s3 [l1 h1 c1 t1 n1] [l2 h2 c2 t2 n2]. constructor.
  - lia.
  - intros p n Hp. destruct (h1 p n Hp) as (n' & Hp' & Hle).
    destruct (h2 p n' Hp') as (n'' & Hp'' & Hle').
    eauto using node_le_trans.
  - auto.
  - intros t tm Ht. destruct (t1 t tm Ht) as (tm' & Ht' & Hn & Ha).
    destruct (t2 t tm' Ht') as (tm'' & Ht'' & Hn' & Ha').
    exists tm''. repeat split; [assumption | congruence | auto].
  - intros t tm'' Ht''. destruct (n2 t tm'' Ht'') as [[tm' Ht'] | Hlen].
    + destruct (n1 t tm' Ht') as [? | Hlen]; [now left | right].
      destruct (t2 t tm' Ht') as (tm3 & Ht3 & Hn3 & _).
      rewrite Ht'' in Ht3. injection Ht3 as <-. lia.
    + now right.
Qed.

Lemma le_from_weaken b b' s s' : (b ≤ b')%nat → le_from b' s s' → le_from b s s'.
Proof.
  intros Hb [l h c t n]. constructor; auto.
  intros t' tm' H. destruct (n t' tm' H); [now left | right; lia].
Qed.

#[global] Instance le_state_refl : Reflexive le_state.
Proof. intros s. apply le_from_refl. Qed.

#[global] Instance le_state_trans : Transitive le_state.
Proof.
  unfold le_state. intros s1 s2 s3 H12 H23.
  etransitivity; [exact H12|].
  eapply le_from_weaken; [|exact H23]. apply H12.
Qed.

#[global] Instance same_timers_refl : Reflexive same_timers.
Proof. intros s. reflexivity. Qed.

#[global] Instance same_timers_trans : Transitive same_timers.
Proof. unfold same_timers. intros s1 s2 s3. congruence. Qed.

(** A step that leaves the heap, the closed channels and the timers alone. *)
Lemma le_from_frame b s s' :
  heap s' = heap s → closed s' = closed s → timers s' = timers s →
  le_from b s s'.
Proof.
  intros Hh Hc Ht. constructor.
  - now rewrite Hh.
  - intros p n Hp. rewrite Hh. eauto using node_le_refl.
  - intros ch. unfold is_closed. now rewrite Hc.
  - intros t tm H. rewrite Ht. eauto.
  - intros t tm H. rewrite Ht in H. left. eauto.
Qed.

Lemma le_from_setHeap b s c n g :
  heap s !! c = Some n → node_le n (g n) →
  le_from b s (setHeap (<[c := g n]> (heap s)) s).
Proof.
  intros Hc Hle. constructor; simpl.
  - now rewrite length_insert.
  - intros p m Hp. destruct (decide (p = c)) as [->|Hne].
    + rewrite Hc in Hp. injection Hp as <-.
      exists (g n). split; [|assumption].
      apply list_lookup_insert_eq. eapply lookup_lt_Some; eauto.
    + rewrite list_lookup_insert_ne by congruence. eauto using node_le_refl.
  - auto.
  - eauto.
  - intros t tm H. left. eauto.
Qed.

Lemma le_from_close b d s :
  is_closed s d = false → le_from b s (setClosed (d :: closed s) s).
Proof.
  intros E. constructor; simpl; eauto using node_le_refl.
  intros ch. unfold is_closed. destruct ch; auto; simpl;
    rewrite !bool_decide_eq_true; intros; now right.
Qed.

Lemma le_from_timer_Stop b t tm s :
  timers s !! t = Some tm →
  le_from b s (setTimers
    (<[t := mkTimer (tnode tm) (twhen tm) (tcause tm) false]> (timers s)) s).
Proof.
  intros E. constructor; simpl; eauto using node_le_refl.
  - intros t' tm' H. destruct (decide (t' = t)) as [->|Hne].
    + rewrite E in H. injection H as <-.
      eexists. split; [apply list_lookup_insert_eq; eapply lookup_lt_Some; eauto|].
      simpl. auto.
    + rewrite list_lookup_insert_ne by congruence. eauto.
  - intros t' tm' H. left. destruct (decide (t' = t)) as [->|Hne]; [eauto|].
    rewrite list_lookup_insert_ne in H by congruence. eauto.
Qed.

Lemma le_from_alloc b n s : le_from b s (setHeap (heap s ++ [n]) s).
Proof.
  constructor; simpl; eauto.
  - rewrite length_app. lia.
  - intros p m Hp. exists m. split; [|apply node_le_refl].
    now apply lookup_app_l_Some.
Qed.

#[global] Instance le_from_keeps b : Keeps (le_from b).
Proof.
  constructor.
  - exact (le_from_refl b).
  - exact (le_from_trans b).
  - exact (le_from_frame b).
  - exact (le_from_setHeap b).
  - exact (le_from_close b).
  - exact (le_from_timer_Stop b).
  - exact (le_from_alloc b).
Qed.

#[global] Instance same_timers_keeps : Keeps same_timers.
Proof.
  constructor; unfold same_timers; simpl; intros;
    rewrite ?length_insert; congruence.
Qed.

(** *** Every function of the package keeps such a relation *)

Create HintDb keeps.

Ltac node_le_solve :=
  repeat match goal with
         | |- context [match ext ?n with _ => _ end] => destruct (ext n) eqn:?
         end;
  constructor; unfold timer_of; simpl; intros;
  repeat match goal with
         | H : ext _ = _ |- _ => rewrite H in *
         end;
  simpl in *; try congruence; auto.

Section keeps.
Context (R : State → State → Prop) `{!Keeps R}.

Lemma okm_keeps_modNode c g s :
  (∀ n, heap s !! c = Some n → node_le n (g n)) → okm R s (modNode c g).
Proof.
  intros H. apply (okm_modNode R). intros n Hn.
  apply keeps_setHeap; auto.
Qed.

Lemma okm_keeps_frame g s :
  heap (g s) = heap s → closed (g s) = closed s → timers (g s) = timers s →
  okm R s (modify g).
Proof. intros. apply okm_modify. now apply keeps_frame. Qed.

Lemma okm_close d s : okm R s (close d).
Proof.
  unfold okm, close. destruct (is_closed s d) eqn:E; [reflexivity|].
  now apply keeps_close.
Qed.

Lemma okm_timer_Stop t s : okm R s (timer_Stop t).
Proof.
  unfold okm, timer_Stop. destruct (timers s !! t) as [tm|] eqn:E; [|reflexivity].
  now apply keeps_timer_Stop.
Qed.

Lemma okm_alloc x s : okm R s (alloc x).
Proof. unfold okm, alloc. apply keeps_alloc. Qed.
End keeps.

#[global] Hint Resolve okm_close okm_timer_Stop okm_alloc : keeps.

Ltac keeps_prim :=
  idtac;
  lazymatch goal with
  | |- okm ?R _ _ =>
      first
        [ solve [auto with keeps]
        | apply (okm_keeps_frame R); reflexivity
        | apply (okm_keeps_modNode R);
          let n := fresh "n" in let Hn := fresh "Hn" in
          intros n Hn; simplify_eq; node_le_solve ]
  end.

Ltac keeps_go := okm_go keeps_prim.

Section keeps_functions.
Context (R : State → State → Prop) `{!Keeps R}.

Lemma okm_Lock p s : okm R s (Lock p).
Proof. unfold Lock. keeps_go. Qed.

Lemma okm_Unlock p s : okm R s (Unlock p).
Proof. unfold Unlock. keeps_go. Qed.
Hint Resolve okm_Lock okm_Unlock : keeps.

Lemma okm_embedded p s : okm R s (embedded p).
Proof. unfold embedded. keeps_go. Qed.

Lemma okm_any_eq a b s : okm R s (any_eq a b).
Proof. unfold any_eq. keeps_go. Qed.
Hint Resolve okm_embedded okm_any_eq : keeps.

Lemma okm_cancelCtx_Done c s : okm R s (cancelCtx_Done c).
Proof. unfold cancelCtx_Done. keeps_go. Qed.
Hint Resolve okm_cancelCtx_Done : keeps.

Lemma okm_Done c s : okm R s (Done c).
Proof. induction c; simpl; keeps_go. Qed.

Lemma okm_cancelCtx_Err c s : okm R s (cancelCtx_Err c).
Proof. unfold cancelCtx_Err. keeps_go. Qed.
Hint Resolve okm_cancelCtx_Err okm_Done : keeps.

Lemma okm_Err c s : okm R s (Err c).
Proof. induction c; simpl; keeps_go. Qed.
Hint Resolve okm_Err : keeps.

Lemma okm_value_with hopf :
  (∀ p key s, okm R s (hopf p key)) →
  ∀ c key s, okm R s (value_with hopf c key) ∧ okm R s (Value_with hopf c key).
Proof.
  intros Hhop. induction c; intros key' s; simpl; split; keeps_go;
    try apply Hhop; try apply IHc; try apply IHc1.
Qed.

Lemma okm_value fuel : ∀ c key s, okm R s (value fuel c key).
Proof.
  induction fuel as [|fuel IH]; intros c key s; rewrite value_unfold;
    apply okm_value_with; intros p k s'; simpl; keeps_go; apply IH.
Qed.
Hint Resolve okm_value : keeps.

Lemma okm_hop fuel p key s : okm R s (hop fuel p key).
Proof. destruct fuel; simpl; keeps_go. Qed.
Hint Resolve okm_hop : keeps.

Lemma okm_Value fuel c key s : okm R s (Value fuel c key).
Proof. unfold Value. apply okm_value_with. auto with keeps. Qed.
Hint Resolve okm_Value : keeps.

Lemma okm_Deadline_with h :
  (∀ p s, okm R s (h p)) → ∀ c s, okm R s (Deadline_with h c).
Proof. intros Hh. induction c; intros s; simpl; keeps_go; auto. Qed.

Lemma okm_Deadline fuel : ∀ c s, okm R s (Deadline fuel c).
Proof.
  induction fuel as [|fuel IH]; intros c s; simpl;
    apply okm_Deadline_with; intros p s'; keeps_go; apply IH.
Qed.
Hint Resolve okm_Deadline : keeps.

Lemma okm_Cause fuel c s : okm R s (Cause fuel c).
Proof. unfold Cause. keeps_go. Qed.
Hint Resolve okm_Cause : keeps.

Lemma okm_parentCancelCtx fuel c s : okm R s (parentCancelCtx fuel c).
Proof. unfold parentCancelCtx. keeps_go. Qed.

Lemma okm_callStop stop s : okm R s (callStop stop).
Proof. unfold callStop. keeps_go. Qed.
Hint Resolve okm_parentCancelCtx okm_callStop : keeps.

Lemma okm_removeChild fuel parent child s :
  okm R s (removeChild fuel parent child).
Proof. unfold removeChild. keeps_go. Qed.
Hint Resolve okm_removeChild : keeps.

(** The first writes of a cancellation, taken together. *)
Lemma okm_mark {B} c e z n (k : M B) s :
  heap s !! c = Some n → err n = None →
  (∀ s', okm R s' k) →
  okm R s (modNode c (set_err e);;;
           modNode c (set_cause z);;;
           match done n with
           | None => modNode c (set_done (Some closedchan))
           | Some d => close d
           end;;;
           k).
Proof.
  intros Hn He Hk.
  assert (Hlt : (c < length (heap s))%nat) by (eapply lookup_lt_Some; eauto).
  unfold okm, bind, modNode. rewrite Hn. simpl.
  rewrite list_lookup_insert_eq by assumption. simpl.
  rewrite list_insert_insert_eq.
  pose (n2 := set_cause z (set_err e n)).
  assert (H2 : R s (setHeap (<[c := n2]> (heap s)) s)).
  { apply (keeps_setHeap s c n (λ _, n2)); [assumption|].
    subst n2. node_le_solve. }
  fold n2. destruct (done n) as [d|] eqn:Hd.
  - unfold close.
    replace (is_closed (setHeap (<[c:=n2]> (heap s)) s) d)
      with (is_closed s d) by (destruct d; reflexivity).
    destruct (is_closed s d) eqn:Hcl; [exact H2|].
    match goal with |- match k ?s3 with _ => _ end =>
      assert (H3 : R s s3)
    end.
    { etransitivity; [exact H2|]. apply keeps_close.
      destruct d; simpl in *; auto. }
    match goal with |- match k ?s3 with _ => _ end =>
      specialize (Hk s3); unfold okm in Hk; destruct (k s3)
    end; auto; etransitivity; eauto.
  - simpl. rewrite list_lookup_insert_eq by assumption. simpl.
    rewrite list_insert_insert_eq.
    match goal with |- match k ?s3 with _ => _ end =>
      assert (H3 : R s s3)
    end.
    { apply (keeps_setHeap s c n (λ _, set_done (Some closedchan) n2));
        [assumption|].
      subst n2. node_le_solve. }
    match goal with |- match k ?s3 with _ => _ end =>
      specialize (Hk s3); unfold okm in Hk; destruct (k s3)
    end; auto; etransitivity; eauto.
Qed.

Ltac okm_special ::=
  apply okm_mark; [eassumption | eassumption | intros ?].

Lemma okm_getTimerField c s : okm R s (getTimerField c).
Proof. unfold getTimerField. keeps_go. Qed.
Hint Resolve okm_getTimerField : keeps.

Section cancelers.
Variable rec : ptr → bool → option error → option error → M unit.
Hypothesis okm_rec : ∀ c b e z s, okm R s (rec c b e z).
Variable fuel : nat.

Lemma okm_timerCtx_cancel_with c b e z s :
  okm R s (timerCtx_cancel_with rec fuel c b e z).
Proof. unfold timerCtx_cancel_with. keeps_go; apply okm_rec. Qed.

Lemma okm_afterFuncCtx_cancel_with c b e z s :
  okm R s (afterFuncCtx_cancel_with rec fuel c b e z).
Proof. unfold afterFuncCtx_cancel_with. keeps_go; apply okm_rec. Qed.

Lemma okm_canceler_cancel_with c b e z s :
  okm R s (canceler_cancel_with rec fuel c b e z).
Proof.
  destruct c; simpl;
    [ apply okm_rec | apply okm_timerCtx_cancel_with
    | apply okm_afterFuncCtx_cancel_with ].
Qed.
End cancelers.

Lemma okm_cancelCtx_cancel fuel : ∀ c b e z s,
  okm R s (cancelCtx_cancel fuel c b e z).
Proof.
  induction fuel as [|fuel IH]; intros c b e z s; simpl; [exact I|].
  keeps_go.
  apply (okm_forM R). intros x s2 _.
  now apply okm_canceler_cancel_with.
Qed.
Hint Resolve okm_cancelCtx_cancel : keeps.

Lemma okm_canceler_cancel fuel c b e z s :
  okm R s (canceler_cancel fuel c b e z).
Proof. apply okm_canceler_cancel_with. auto with keeps. Qed.

Lemma okm_timerCtx_cancel fuel c b e z s :
  okm R s (timerCtx_cancel fuel c b e z).
Proof. apply okm_timerCtx_cancel_with. auto with keeps. Qed.

Lemma okm_afterFuncCtx_cancel fuel c b e z s :
  okm R s (afterFuncCtx_cancel fuel c b e z).
Proof. apply okm_afterFuncCtx_cancel_with. auto with keeps. Qed.
Hint Resolve okm_canceler_cancel okm_timerCtx_cancel
  okm_afterFuncCtx_cancel : keeps.

Lemma okm_custom_AfterFunc u child parent s :
  okm R s (custom_AfterFunc u child parent).
Proof. unfold custom_AfterFunc. keeps_go. Qed.

Lemma okm_afterFuncer parent s : okm R s (afterFuncer parent).
Proof. unfold afterFuncer. keeps_go. Qed.
Hint Resolve okm_custom_AfterFunc okm_afterFuncer : keeps.

Lemma okm_propagateCancel fuel c parent child s :
  okm R s (propagateCancel fuel c parent child).
Proof. unfold propagateCancel. keeps_go. Qed.
Hint Resolve okm_propagateCancel : keeps.

Lemma okm_withCancel fuel parent s : okm R s (withCancel fuel parent).
Proof. unfold withCancel. keeps_go. Qed.
Hint Resolve okm_withCancel : keeps.

Lemma okm_WithCancel fuel parent s : okm R s (WithCancel fuel parent).
Proof. unfold WithCancel. keeps_go. Qed.

Lemma okm_WithCancelCause fuel parent s :
  okm R s (WithCancelCause fuel parent).
Proof. unfold WithCancelCause. keeps_go. Qed.
End keeps_functions.

#[global] Hint Resolve okm_Lock okm_Unlock okm_embedded okm_any_eq
  okm_cancelCtx_Done okm_Done okm_cancelCtx_Err okm_Err okm_value okm_hop
  okm_Value okm_Deadline okm_Cause okm_parentCancelCtx okm_callStop
  okm_removeChild okm_getTimerField okm_cancelCtx_cancel okm_canceler_cancel
  okm_timerCtx_cancel okm_afterFuncCtx_cancel okm_custom_AfterFunc
  okm_afterFuncer okm_propagateCancel okm_withCancel okm_WithCancel
  okm_WithCancelCause : keeps.
#[global] Hint Resolve le_from_keeps same_timers_keeps : keeps.

Lemma okm_bind_strong (R : State → State → Prop) `{!Transitive R}
    {A B} (m : M A) (k : A → M B) s :
  okm R s m → (∀ a s', m s = Ret a s' → R s s' → okm R s' (k a)) →
  okm R s (bind m k).
Proof.
  unfold okm, bind. intros Hm Hk.
  destruct (m s) as [a s1| | |] eqn:Hms; auto.
  specialize (Hk a s1 eq_refl Hm).
  destruct (k a s1); auto; etransitivity; eauto.
Qed.

Section keeps_environment.
Context (R : State → State → Prop) `{!Keeps R}.

Lemma okm_fireTimer fuel t s : okm R s (fireTimer fuel t).
Proof.
  unfold fireTimer. keeps_go.
  apply (okm_modify R). now apply keeps_timer_Stop.
Qed.

Lemma okm_AfterFunc fuel ctx f s : okm R s (AfterFunc fuel ctx f).
Proof. unfold AfterFunc. keeps_go. Qed.

Lemma okm_callAfterFuncStop fuel a s : okm R s (callAfterFuncStop fuel a).
Proof. unfold callAfterFuncStop. keeps_go. Qed.

Lemma okm_canceler_Done c s : okm R s (canceler_Done c).
Proof. unfold canceler_Done. auto with keeps. Qed.
Hint Resolve okm_canceler_Done : keeps.

Lemma okm_waiterStep fuel i pick s : okm R s (waiterStep fuel i pick).
Proof. unfold waiterStep. keeps_go. Qed.

Lemma okm_runCallback fuel u r s : okm R s (runCallback fuel u r).
Proof. unfold runCallback. keeps_go. Qed.

Lemma okm_newCustom cu s : okm R s (newCustom cu).
Proof. unfold okm, newCustom. now apply keeps_frame. Qed.

Lemma okm_endCustom u e s : okm R s (endCustom u e).
Proof.
  unfold endCustom. keeps_go.
  apply (okm_modify R).
  match goal with
  | |- R ?s (if is_closed ?s ?d then _ else _) => destruct (is_closed s d) eqn:E
  end; [reflexivity | now apply keeps_close].
Qed.

Lemma okm_tick dt s : okm R s (tick dt).
Proof. unfold tick. keeps_go. Qed.
End keeps_environment.

#[global] Hint Resolve okm_fireTimer okm_AfterFunc okm_callAfterFuncStop
  okm_canceler_Done okm_waiterStep okm_runCallback okm_newCustom
  okm_endCustom okm_tick : keeps.

(** *** Arming the timer of a new deadline node *)

Lemma okm_le_arm b c n dur z s :
  heap s !! c = Some n → err n = None → (b ≤ c)%nat →
  okm (le_from b) s
    (t <- time_AfterFunc dur c z;;
     modNode c (λ n, match ext n with
                     | timerExt _ d' => set_ext (timerExt (Some t) d') n
                     | _ => n
                     end)).
Proof.
  intros Hn He Hb. unfold okm, bind, time_AfterFunc.
  erewrite modNode_Ret by exact Hn. constructor; simpl.
  - now rewrite length_insert.
  - intros p m Hp. destruct (decide (p = c)) as [->|Hne].
    + rewrite Hn in Hp. injection Hp as <-.
      eexists. split;
        [apply list_lookup_insert_eq; eapply lookup_lt_Some; eauto|].
      node_le_solve.
    + rewrite list_lookup_insert_ne by congruence. eauto using node_le_refl.
  - auto.
  - intros t tm Ht. exists tm. split; [now apply lookup_app_l_Some | auto].
  - intros t tm' Ht.
    destruct (decide (t < length (timers s))%nat) as [Hlt|Hge].
    + left. now apply lookup_lt_is_Some.
    + right. rewrite lookup_app_r in Ht by lia.
      destruct (t - length (timers s))%nat; simpl in Ht; [|discriminate].
      injection Ht as <-. simpl. exact Hb.
Qed.

Lemma alloc_Ret x s c s' :
  alloc x s = Ret c s' →
  c = length (heap s)
  ∧ s' = setHeap (heap s ++ [mkNode None false None None None None x]) s.
Proof. unfold alloc. intros [= <- <-]. auto. Qed.

Ltac okm_arm_timer ::=
  eapply okm_le_arm; [eassumption | eassumption | eassumption].

Lemma okm_le_WithDeadlineCause b fuel parent d cause0 s :
  (b ≤ length (heap s))%nat →
  okm (le_from b) s (WithDeadlineCause fuel parent d cause0).
Proof.
  intros Hb. unfold WithDeadlineCause.
  destruct parent as [parent|]; [|apply okm_panic, _].
  apply okm_bind_strong; [apply _ | auto with keeps |].
  intros cur s1 _ H1.
  match goal with |- okm _ _ (if ?x then _ else _) => destruct x end;
    [auto with keeps|].
  apply okm_bind_strong; [apply _ | auto with keeps |].
  intros c s2 Hc H2. apply alloc_Ret in Hc as [-> _].
  assert (Hbc : (b ≤ length (heap s1))%nat) by (pose proof (le_len _ _ _ H1); lia).
  keeps_go.
Qed.

Lemma okm_le_runOp b fuel o s :
  (b ≤ length (heap s))%nat → okm (le_from b) s (runOp fuel o).
Proof.
  intros Hb. destruct o; simpl; unfold forget, WithTimeoutCause;
    keeps_go; now apply okm_le_WithDeadlineCause.
Qed.

Lemma final_le {A} (m : M A) s : okm le_state s m → le_state s (final s (m s)).
Proof.
  unfold okm, final. destruct (m s); auto. intros _. reflexivity.
Qed.

(** No run of operations undoes what is kept. *)
Lemma runOps_le ops : ∀ s, le_state s (runOps ops s).
Proof.
  induction ops as [|[fuel o] ops IH]; intros s; simpl; [reflexivity|].
  etransitivity; [|apply IH].
  apply final_le. now apply okm_le_runOp.
Qed.

(** ** The cascade *)

Lemma Lock_Ret p n s :
  heap s !! p = Some n → mu n = false →
  Lock p s = Ret tt (setLog (log s ++ [EvLock p])
                       (setHeap (<[p := set_mu true n]> (heap s)) s)).
Proof.
  intros Hp Hmu. unfold Lock.
  rewrite (bind_Ret _ _ _ _ _ (getNode_Ret _ _ _ Hp)). rewrite Hmu.
  now rewrite (bind_Ret _ _ _ _ _ (modNode_Ret _ _ _ _ Hp)).
Qed.

Lemma Unlock_Ret p n s :
  heap s !! p = Some n → mu n = true →
  Unlock p s = Ret tt (setLog (log s ++ [EvUnlock p])
                         (setHeap (<[p := set_mu false n]> (heap s)) s)).
Proof.
  intros Hp Hmu. unfold Unlock.
  rewrite (bind_Ret _ _ _ _ _ (getNode_Ret _ _ _ Hp)). rewrite Hmu.
  now rewrite (bind_Ret _ _ _ _ _ (modNode_Ret _ _ _ _ Hp)).
Qed.

Lemma lookup_insert_same {A} (h : list A) c n m :
  h !! c = Some m → <[c := n]> h !! c = Some n.
Proof. intros H. apply list_lookup_insert_eq. eapply lookup_lt_Some; eauto. Qed.

Lemma kind_matches_stopped ch x :
  kind_matches ch (stopped x) = kind_matches ch x.
Proof. destruct ch, x; reflexivity. Qed.

Lemma stopped_idem x : stopped (stopped x) = stopped x.
Proof. destruct x; reflexivity. Qed.

Lemma log_from_refl b s : log_from b s s.
Proof. exists []. split; [now rewrite app_nil_r | constructor]. Qed.

Lemma log_from_trans b s1 s2 s3 :
  log_from b s1 s2 → log_from b s2 s3 → log_from b s1 s3.
Proof.
  intros (l1 & H1 & F1) (l2 & H2 & F2). exists (l1 ++ l2). split.
  - now rewrite H2, H1, app_assoc.
  - apply Forall_app. auto.
Qed.

Lemma log_from_weaken b b' s s' :
  (b ≤ b')%nat → log_from b' s s' → log_from b s s'.
Proof.
  intros Hb (l & H & F). exists l. split; [assumption|].
  eapply Forall_impl; [exact F|]. simpl. intros. lia.
Qed.

Lemma log_from_events b l s s' :
  log s' = log s ++ l → Forall (λ ev, (b ≤ ev_ptr ev)%nat) l → log_from b s s'.
Proof. intros. exists l. auto. Qed.

Section cascade.
Variables e z : error.

Lemma Casc_frame b x s s' :
  heap s' = heap s → closed s' = closed s → timers s' = timers s →
  customs s' = customs s → waiters s' = waiters s →
  goroutines s' = goroutines s → now s' = now s → log_from b s s' →
  Casc e z b x s s'.
Proof.
  intros Hh Hc Ht Hcu Hw Hg Hn Hlog.
  assert (Hno : ∀ q n, heap s !! q = Some n → err n = None →
                       canceled_in s' q → False).
  { intros q n Hq He (n' & Hq' & He'). rewrite Hh, Hq in Hq'. congruence. }
  constructor; auto.
  - now rewrite Hh.
  - intros q n Hq. rewrite Hh. eauto.
  - intros q n ch Hq He Hcan. exfalso. eauto.
  - now rewrite Hc.
  - rewrite Hc. auto.
  - intros q n d Hq He Hcan. exfalso. eauto.
  - now rewrite Ht.
  - intros t tm H. rewrite Ht. eauto.
  - intros q n t Hq He Hcan. exfalso. eauto.
Qed.

Lemma Casc_canceled b x s s' q :
  Casc e z b x s s' → canceled_in s q → canceled_in s' q.
Proof.
  intros HC (n & Hq & He).
  destruct (casc_node _ _ _ _ _ _ HC q n Hq) as (n' & Hq' & [-> | (_ & Hn & _)]).
  - exists n. auto.
  - congruence.
Qed.

(** A node the cascade found not canceled and left canceled. *)
Lemma Casc_changed b x s s' q n :
  Casc e z b x s s' → heap s !! q = Some n → err n = None →
  canceled_in s' q →
  (b ≤ q)%nat
  ∧ heap s' !! q = Some (if bool_decide (x = Some q) then marked_node e z n
                         else canceled_node e z n).
Proof.
  intros HC Hq He (m & Hm & Hem).
  destruct (casc_node _ _ _ _ _ _ HC q n Hq) as (n' & Hq' & [-> | (Hb & _ & ->)]).
  - congruence.
  - auto.
Qed.

Lemma Casc_unchanged b x s s' q n n' :
  Casc e z b x s s' → heap s !! q = Some n → heap s' !! q = Some n' →
  err n' = None → n' = n.
Proof.
  intros HC Hq Hq' He.
  destruct (casc_node _ _ _ _ _ _ HC q n Hq) as (m & Hm & [-> | (_ & _ & ->)]).
  - congruence.
  - rewrite Hq' in Hm. injection Hm as ->.
    destruct (bool_decide (x = Some q)); discriminate.
Qed.

Lemma Casc_below b x s s' q :
  Casc e z b x s s' → (q < b)%nat → heap s' !! q = heap s !! q.
Proof.
  intros HC Hlt. destruct (heap s !! q) as [n|] eqn:Hq.
  - destruct (casc_node _ _ _ _ _ _ HC q n Hq) as (n' & Hq' & [-> | (Hb & _)]);
      [assumption | lia].
  - apply lookup_ge_None. rewrite (casc_len _ _ _ _ _ _ HC).
    now apply lookup_ge_None.
Qed.

Lemma Casc_trans b s1 s2 s3 :
  Casc e z b None s1 s2 → Casc e z b None s2 s3 → Casc e z b None s1 s3.
Proof.
  intros H12 H23. constructor.
  - rewrite (casc_len _ _ _ _ _ _ H23). apply H12.
  - intros q n Hq.
    destruct (casc_node _ _ _ _ _ _ H12 q n Hq) as (n2 & Hq2 & Hn2).
    destruct (casc_node _ _ _ _ _ _ H23 q n2 Hq2) as (n3 & Hq3 & Hn3).
    exists n3. split; [assumption|].
    destruct Hn2 as [-> | (Hb & He & ->)]; [exact Hn3|].
    destruct Hn3 as [-> | (_ & He3 & _)]; [auto | discriminate].
  - intros q n ch Hq He Hcan Hch.
    destruct (casc_node _ _ _ _ _ _ H12 q n Hq) as (n2 & Hq2 & Hn2).
    destruct (err n2) as [e2|] eqn:He2.
    + eapply Casc_canceled; [exact H23|].
      eapply (casc_closure _ _ _ _ _ _ H12); eauto.
      exists n2. split; [assumption | congruence].
    + assert (n2 = n) as -> by (exact (Casc_unchanged _ _ _ _ _ _ _ H12 Hq Hq2 He2)).
      eapply (casc_closure _ _ _ _ _ _ H23); eauto.
  - intros ch Hch. apply H23, H12, Hch.
  - intros ch Hch.
    destruct (casc_closed_new _ _ _ _ _ _ H23 ch Hch)
      as [Hch2 | (q & n2 & -> & Hq2 & He2 & Hcan)].
    + destruct (casc_closed_new _ _ _ _ _ _ H12 ch Hch2)
        as [? | (q & n & -> & Hq & He & Hcan)]; [now left | right].
      exists q, n. repeat split; auto. eapply Casc_canceled; eauto.
    + right. destruct (heap s1 !! q) as [n|] eqn:Hq.
      * assert (n2 = n) as -> by (exact (Casc_unchanged _ _ _ _ _ _ _ H12 Hq Hq2 He2)).
        exists q, n. auto.
      * apply lookup_ge_None in Hq. apply lookup_lt_Some in Hq2.
        rewrite (casc_len _ _ _ _ _ _ H12) in Hq2. lia.
  - intros q n d Hq He Hcan Hd.
    destruct (casc_node _ _ _ _ _ _ H12 q n Hq) as (n2 & Hq2 & Hn2).
    destruct (err n2) as [e2|] eqn:He2.
    + assert (Hcl : is_closed s2 d = true).
      { eapply (casc_closed_done _ _ _ _ _ _ H12); eauto.
        exists n2. split; [assumption | congruence]. }
      destruct d; auto; simpl in *; apply bool_decide_eq_true;
        apply bool_decide_eq_true in Hcl; now apply H23.
    + assert (n2 = n) as -> by (exact (Casc_unchanged _ _ _ _ _ _ _ H12 Hq Hq2 He2)).
      eapply (casc_closed_done _ _ _ _ _ _ H23); eauto.
  - rewrite (casc_timers_len _ _ _ _ _ _ H23). apply H12.
  - intros t tm Ht.
    destruct (casc_timers _ _ _ _ _ _ H12 t tm Ht) as (tm2 & Ht2 & Hn2 & Ha2).
    destruct (casc_timers _ _ _ _ _ _ H23 t tm2 Ht2) as (tm3 & Ht3 & Hn3 & Ha3).
    exists tm3. repeat split; [assumption | congruence | auto].
  - intros q n t Hq He Hcan _ Ht.
    destruct (casc_node _ _ _ _ _ _ H12 q n Hq) as (n2 & Hq2 & Hn2).
    destruct (err n2) as [e2|] eqn:He2.
    + destruct (casc_stopped _ _ _ _ _ _ H12 q n t Hq He) as (tm2 & Ht2 & Ha2);
        [exists n2; split; [assumption | congruence] | discriminate | assumption |].
      destruct (casc_timers _ _ _ _ _ _ H23 t tm2 Ht2) as (tm3 & Ht3 & _ & Ha3).
      eauto.
    + assert (n2 = n) as -> by (exact (Casc_unchanged _ _ _ _ _ _ _ H12 Hq Hq2 He2)).
      eapply (casc_stopped _ _ _ _ _ _ H23); eauto; discriminate.
  - rewrite (casc_customs _ _ _ _ _ _ H23). apply H12.
  - rewrite (casc_waiters _ _ _ _ _ _ H23). apply H12.
  - rewrite (casc_goroutines _ _ _ _ _ _ H23). apply H12.
  - rewrite (casc_now _ _ _ _ _ _ H23). apply H12.
  - eapply log_from_trans; [apply H12 | apply H23].
Qed.

Lemma Casc_weaken b b' x s s' :
  (b ≤ b')%nat → Casc e z b' x s s' → Casc e z b x s s'.
Proof.
  intros Hb HC. destruct HC. constructor; auto.
  - intros q n Hq. destruct (casc_node0 q n Hq) as (n' & Hq' & Hn).
    exists n'. split; [assumption|].
    destruct Hn as [-> | (Hb' & He & ->)]; [now left | right].
    repeat split; [lia | assumption].
  - eapply log_from_weaken; eauto.
Qed.

Lemma kind_ok_Casc b x s s' ch :
  Casc e z b x s s' → kind_ok s ch → kind_ok s' ch.
Proof.
  intros HC (n & Hn & Hk).
  destruct (casc_node _ _ _ _ _ _ HC _ n Hn) as (n' & Hn' & [-> | (_ & _ & ->)]).
  - exists n. auto.
  - eexists. split; [eassumption|].
    destruct (bool_decide (x = Some (canceler_ptr ch))); simpl;
      [assumption | now rewrite kind_matches_stopped].
Qed.

Lemma timer_of_stopped x0 n :
  timer_of (mkNode (Context_ n) (mu n) (closed_done n) None (Some e) (Some z)
                   (stopped x0)) = None.
Proof. unfold timer_of. simpl. destruct x0; reflexivity. Qed.

Lemma ready_Casc b0 b s s' :
  Casc e z b None s s' → ready s b0 → ready s' b0.
Proof.
  intros HC Hr q n' Hq' Hb0.
  assert (Hlt : (q < length (heap s))%nat).
  { rewrite <- (casc_len _ _ _ _ _ _ HC). eapply lookup_lt_Some; eauto. }
  destruct (lookup_lt_is_Some_2 _ _ Hlt) as [n Hq].
  pose proof (Hr q n Hq Hb0) as [Hmu Hch Hlive Hst Htm].
  destruct (casc_node _ _ _ _ _ _ HC q n Hq) as (m & Hm & Hcase).
  rewrite Hq' in Hm. injection Hm as <-.
  destruct Hcase as [-> | (_ & He & ->)].
  - constructor; auto.
    + intros ch Hin. destruct (Hch ch Hin) as [Hlt' Hk].
      split; [assumption | eapply kind_ok_Casc; eauto].
    + intros He. destruct (Hlive He) as [Hncl Hd]. split; [|assumption].
      intros Hin.
      destruct (casc_closed_new _ _ _ _ _ _ HC _ Hin)
        as [? | (q0 & n0 & Heq & Hq0 & He0 & (m & Hm & Hem))]; [contradiction|].
      injection Heq as <-. congruence.
    + intros t Ht. rewrite (casc_timers_len _ _ _ _ _ _ HC). auto.
  - simpl. constructor; simpl.
    + assumption.
    + intros ch Hin. inversion Hin.
    + discriminate.
    + intros _. now rewrite stopped_idem.
    + intros t. unfold timer_of. simpl. destruct (ext n); discriminate.
Qed.

Lemma set_ext_id n : set_ext (ext n) n = n.
Proof. now destruct n. Qed.

Lemma Casc_self c s s1 n :
  Casc e z c (Some c) s s1 → heap s !! c = Some n →
  ∃ n1, heap s1 !! c = Some n1 ∧ mu n1 = mu n ∧ ext n1 = ext n
        ∧ (n1 = n ∨ (err n = None ∧ n1 = marked_node e z n)).
Proof.
  intros HC Hn.
  destruct (casc_node _ _ _ _ _ _ HC c n Hn) as (n1 & Hn1 & Hcase).
  rewrite bool_decide_eq_true_2 in Hcase by reflexivity.
  destruct Hcase as [-> | (_ & He & ->)]; eauto 10.
Qed.

(** From the [cancel] of the embedded [cancelCtx] to the [cancel] of the
    node: what is left is to stop its extension. *)
Lemma Casc_finish c n n1 s s1 s2 :
  heap s !! c = Some n →
  Casc e z c (Some c) s s1 → canceled_in s1 c →
  (err n ≠ None → ext n = stopped (ext n)) →
  heap s1 !! c = Some n1 →
  heap s2 = <[c := set_ext (stopped (ext n)) n1]> (heap s1) →
  closed s2 = closed s1 →
  length (timers s2) = length (timers s1) →
  (∀ t tm, timers s1 !! t = Some tm →
     ∃ tm', timers s2 !! t = Some tm' ∧ tnode tm' = tnode tm
            ∧ (tactive tm = false → tactive tm' = false)) →
  (∀ t, err n = None → timer_of n = Some t →
     ∃ tm, timers s2 !! t = Some tm ∧ tactive tm = false) →
  customs s2 = customs s1 → waiters s2 = waiters s1 →
  goroutines s2 = goroutines s1 → now s2 = now s1 → log_from c s1 s2 →
  Casc e z c None s s2.
Proof.
  intros Hn HC Hcan Hst Hn1 Hh Hcl Htl Htm Hstop Hcu Hw Hg Hnow Hlog.
  assert (Hsame : ∀ q, canceled_in s1 q ↔ canceled_in s2 q).
  { intros q. unfold canceled_in. rewrite Hh.
    destruct (decide (q = c)) as [->|Hne].
    - rewrite (lookup_insert_same _ _ _ _ Hn1). split.
      + intros (m & Hm & He). rewrite Hn1 in Hm. injection Hm as <-.
        eexists. split; [reflexivity | exact He].
      + intros (m & Hm & He). injection Hm as <-. eauto.
    - now rewrite list_lookup_insert_ne by congruence. }
  constructor.
  - rewrite Hh, length_insert. apply HC.
  - intros q m Hq. rewrite Hh. destruct (decide (q = c)) as [->|Hne].
    + rewrite Hn in Hq. injection Hq as <-.
      rewrite (lookup_insert_same _ _ _ _ Hn1). eexists. split; [reflexivity|].
      destruct (Casc_self _ _ _ _ HC Hn) as (n1' & Hn1' & _ & _ & Hcase).
      rewrite Hn1 in Hn1'. injection Hn1' as <-.
      destruct Hcase as [-> | (He & ->)].
      * left. destruct Hcan as (m & Hm & Hem). rewrite Hn1 in Hm.
        injection Hm as <-. rewrite <- (Hst Hem). apply set_ext_id.
      * right. repeat split; auto.
    + rewrite list_lookup_insert_ne by congruence.
      destruct (casc_node _ _ _ _ _ _ HC q m Hq) as (m' & Hm' & Hcase).
      exists m'. split; [assumption|].
      rewrite bool_decide_eq_false_2 in Hcase by congruence.
      rewrite bool_decide_eq_false_2 by congruence. exact Hcase.
  - intros q m ch Hq He Hc2 Hin. apply Hsame.
    eapply (casc_closure _ _ _ _ _ _ HC); eauto. now apply Hsame.
  - rewrite Hcl. apply HC.
  - intros ch. rewrite Hcl. intros Hin.
    destruct (casc_closed_new _ _ _ _ _ _ HC ch Hin)
      as [? | (q & m & -> & Hq & He & Hc1)]; [now left | right].
    exists q, m. repeat split; auto. now apply Hsame.
  - intros q m d Hq He Hc2 Hd.
    replace (is_closed s2 d) with (is_closed s1 d)
      by (unfold is_closed; now rewrite Hcl).
    eapply (casc_closed_done _ _ _ _ _ _ HC); eauto. now apply Hsame.
  - rewrite Htl. apply HC.
  - intros t tm Ht.
    destruct (casc_timers _ _ _ _ _ _ HC t tm Ht) as (tm1 & Ht1 & Hn1' & Ha1).
    destruct (Htm t tm1 Ht1) as (tm2 & Ht2 & Hn2 & Ha2).
    exists tm2. repeat split; [assumption | congruence | auto].
  - intros q m t Hq He Hc2 _ Ht. destruct (decide (q = c)) as [->|Hne].
    + rewrite Hn in Hq. injection Hq as <-. auto.
    + destruct (casc_stopped _ _ _ _ _ _ HC q m t Hq He) as (tm1 & Ht1 & Ha1);
        [now apply Hsame | congruence | assumption |].
      destruct (Htm t tm1 Ht1) as (tm2 & Ht2 & _ & Ha2). eauto.
  - rewrite Hcu. apply HC.
  - rewrite Hw. apply HC.
  - rewrite Hg. apply HC.
  - rewrite Hnow. apply HC.
  - eapply log_from_trans; [apply HC | exact Hlog].
Qed.

Lemma set_mu_unlock X n1 :
  mu n1 = false → set_mu false (set_ext X (set_mu true n1)) = set_ext X n1.
Proof. destruct n1; simpl. now intros ->. Qed.

Lemma set_mu_relock n1 : mu n1 = false → set_mu false (set_mu true n1) = n1.
Proof. destruct n1; simpl. now intros ->. Qed.

Lemma getTimerField_Ret c n t d s :
  heap s !! c = Some n → ext n = timerExt t d → getTimerField c s = Ret t s.
Proof.
  intros Hn Hx. unfold getTimerField.
  rewrite (bind_Ret _ _ _ _ _ (getNode_Ret _ _ _ Hn)). now rewrite Hx.
Qed.

Lemma timer_Stop_Ret t tm s :
  timers s !! t = Some tm →
  timer_Stop t s = Ret tt (setTimers
    (<[t := mkTimer (tnode tm) (twhen tm) (tcause tm) false]> (timers s)) s).
Proof. unfold timer_Stop. now intros ->. Qed.

Lemma canceled_in_insert s s' c m m' :
  heap s !! c = Some m → heap s' = <[c := m']> (heap s) → err m' = err m →
  canceled_in s c → canceled_in s' c.
Proof.
  intros Hm Hh He (m0 & Hm0 & He0). exists m'. rewrite Hh.
  split; [eapply lookup_insert_same; eauto|]. congruence.
Qed.

Lemma canceled_in_insert_iff s s' c m m' :
  heap s !! c = Some m → heap s' = <[c := m']> (heap s) → err m' = err m →
  ∀ q, canceled_in s' q ↔ canceled_in s q.
Proof.
  intros Hm Hh He q. unfold canceled_in. rewrite Hh.
  destruct (decide (q = c)) as [->|Hne].
  - rewrite (lookup_insert_same _ _ _ _ Hm), Hm. split.
    + intros (m0 & [= <-] & H). exists m. split; [reflexivity | congruence].
    + intros (m0 & [= <-] & H). exists m'. split; [reflexivity | congruence].
  - now rewrite list_lookup_insert_ne by congruence.
Qed.

Lemma only_post P s s1 s2 :
  only P s s1 → (∀ q, canceled_in s2 q ↔ canceled_in s1 q) → only P s s2.
Proof.
  intros H Hiff q n Hq He Hcan. apply Hiff in Hcan.
  destruct (H q n Hq He Hcan) as [HP | (r & Hreg & Hr)]; [now left | right].
  exists r. split; [assumption|]. now apply Hiff.
Qed.

Lemma only_frame P s s' :
  (∀ q, canceled_in s' q → canceled_in s q) → only P s s'.
Proof.
  intros H q n Hq He Hcan. apply H in Hcan. destruct Hcan as (m & Hm & Hem).
  congruence.
Qed.

Lemma canceler_spec_of_cancelCtx_spec rec f fuel' :
  cancelCtx_cancel_spec e z rec f →
  canceler_cancel_spec e z (canceler_cancel_with rec fuel') f.
Proof.
  intros HA ch cause0 s Hz (n & Hn & Hkm) Hf Hr.
  assert (Hc : (canceler_ptr ch < length (heap s))%nat)
    by (eapply lookup_lt_Some; eauto).
  destruct (HA _ cause0 s Hz Hc Hf Hr)
    as (s1 & Hrun & HC & Hcan & (l1 & Hl1) & Honly).
  pose proof (Hr _ n Hn (le_n _)) as [Hmu Hch Hlive Hst Htm].
  destruct (Casc_self _ _ _ _ HC Hn) as (n1 & Hn1 & Hmu1 & Hext1 & Hcase).
  rewrite Hmu in Hmu1.
  (* what is left to do changes the extension of the node only *)
  assert (Hfinish : ∀ sF,
    heap sF = <[canceler_ptr ch := set_ext (stopped (ext n)) n1]> (heap s1) →
    closed sF = closed s1 →
    length (timers sF) = length (timers s1) →
    (∀ t tm, timers s1 !! t = Some tm →
       ∃ tm', timers sF !! t = Some tm' ∧ tnode tm' = tnode tm
              ∧ (tactive tm = false → tactive tm' = false)) →
    (∀ t, err n = None → timer_of n = Some t →
       ∃ tm, timers sF !! t = Some tm ∧ tactive tm = false) →
    customs sF = customs s1 → waiters sF = waiters s1 →
    goroutines sF = goroutines s1 → now sF = now s1 →
    (∃ l, log sF = log s1 ++ l
          ∧ Forall (λ ev, (canceler_ptr ch ≤ ev_ptr ev)%nat) l) →
    Casc e z (canceler_ptr ch) None s sF
    ∧ canceled_in sF (canceler_ptr ch)
    ∧ (∃ l, log sF = log s ++ EvLock (canceler_ptr ch) :: l)
    ∧ only (λ q, q = canceler_ptr ch) s sF).
  { intros sF HhF HclF HtlF HtmF HstF HcuF HwF HgF HnowF (l & HlF & FlF).
    assert (Hiff : ∀ q, canceled_in sF q ↔ canceled_in s1 q)
      by (apply (canceled_in_insert_iff s1 sF _ n1 _ Hn1 HhF); reflexivity).
    split; [|split; [|split]].
    - eapply (Casc_finish (canceler_ptr ch) n n1 s s1 sF); eauto.
      exists l. auto.
    - now apply Hiff.
    - rewrite HlF, Hl1, <- app_assoc. simpl. eauto.
    - eapply only_post; eauto. }
  destruct ch as [p|p|p]; simpl in *.
  - exists s1. split; [exact Hrun|].
    apply Hfinish; auto.
    + assert (Hpl : stopped (ext n) = ext n1)
        by (rewrite Hext1; destruct (ext n); try discriminate; reflexivity).
      rewrite Hpl, set_ext_id. symmetry. now apply list_insert_id.
    + eauto.
    + intros t. unfold timer_of. destruct (ext n); try discriminate.
    + exists []. rewrite app_nil_r. split; [reflexivity | constructor].
  - unfold timerCtx_cancel_with.
    rewrite (bind_Ret _ _ _ _ _ Hrun). rewrite bind_ret_l.
    rewrite (bind_Ret _ _ _ _ _ (Lock_Ret p n1 s1 Hn1 Hmu1)).
    match goal with |- context [bind _ _ ?s0] => set (sL := s0) end.
    assert (HnL : heap sL !! p = Some (set_mu true n1))
      by (apply (lookup_insert_same _ _ _ _ Hn1)).
    destruct (ext n) as [|t0 d|] eqn:Hx; try discriminate.
    rewrite (bind_Ret _ _ _ _ _ (getTimerField_Ret p _ t0 d sL HnL Hext1)).
    destruct t0 as [t|].
    + assert (Ht : (t < length (timers s1))%nat).
      { rewrite (casc_timers_len _ _ _ _ _ _ HC). apply Htm.
        unfold timer_of. now rewrite Hx. }
      destruct (lookup_lt_is_Some_2 _ _ Ht) as [tm Htm1].
      erewrite (bind_Ret (bind (timer_Stop t) _)); cycle 1.
      { rewrite (bind_Ret _ _ _ _ _ (timer_Stop_Ret t tm sL Htm1)).
        apply (modNode_Ret p (set_mu true n1)). exact HnL. }
      erewrite Unlock_Ret; cycle 1.
      { simpl. apply (lookup_insert_same _ _ _ _ HnL). }
      { simpl. rewrite Hext1. reflexivity. }
      eexists. split; [reflexivity|].
      apply Hfinish; try reflexivity.
      * subst sL. simpl. rewrite Hext1. simpl stopped.
        rewrite !list_insert_insert_eq.
        now rewrite set_mu_unlock by assumption.
      * simpl. now rewrite length_insert.
      * simpl. intros t' tm' Ht'. destruct (decide (t' = t)) as [->|Hne].
        -- rewrite Htm1 in Ht'. injection Ht' as <-.
           rewrite (list_lookup_insert_eq _ _ _ Ht). eauto.
        -- rewrite list_lookup_insert_ne by congruence. eauto.
      * simpl. intros t' He Ht'. unfold timer_of in Ht'. rewrite Hx in Ht'.
        injection Ht' as <-. rewrite (list_lookup_insert_eq _ _ _ Ht). eauto.
      * exists [EvLock p; EvUnlock p]. split.
        -- subst sL. simpl. now rewrite <- app_assoc.
        -- repeat constructor.
    + rewrite bind_ret_l.
      rewrite (Unlock_Ret p _ sL HnL eq_refl).
      eexists. split; [reflexivity|].
      apply Hfinish; try reflexivity.
      * subst sL. simpl. rewrite list_insert_insert_eq.
        rewrite set_mu_relock by assumption.
        simpl stopped. rewrite <- Hext1, set_ext_id. reflexivity.
      * simpl. eauto.
      * intros t' He Ht'. unfold timer_of in Ht'. rewrite Hx in Ht'.
        discriminate.
      * exists [EvLock p; EvUnlock p]. split.
        -- subst sL. simpl. now rewrite <- app_assoc.
        -- repeat constructor.
  - unfold afterFuncCtx_cancel_with.
    rewrite (bind_Ret _ _ _ _ _ Hrun). rewrite bind_ret_l.
    rewrite (bind_Ret _ _ _ _ _ (getNode_Ret _ _ _ Hn1)).
    rewrite Hext1.
    destruct (ext n) as [| |once fn] eqn:Hx; try discriminate.
    destruct once.
    + exists s1. split; [reflexivity|].
      apply Hfinish; try reflexivity.
      * simpl stopped. rewrite <- Hext1, set_ext_id.
        symmetry. now apply list_insert_id.
      * eauto.
      * intros t' He Ht'. unfold timer_of in Ht'. rewrite Hx in Ht'.
        discriminate.
      * exists []. rewrite app_nil_r. split; [reflexivity | constructor].
    + rewrite (bind_Ret _ _ _ _ _ (modNode_Ret _ _ _ _ Hn1)).
      eexists. split; [reflexivity|].
      apply Hfinish; try reflexivity.
      * simpl. eauto.
      * intros t' He Ht'. unfold timer_of in Ht'. rewrite Hx in Ht'.
        discriminate.
      * exists []. simpl. rewrite app_nil_r. split; [reflexivity | constructor].
Qed.

Lemma ready_weaken b b' s : (b ≤ b')%nat → ready s b → ready s b'.
Proof. intros Hb Hr q n Hq Hle. apply Hr; [assumption | lia]. Qed.

Lemma only_mono (P P' : ptr → Prop) s s' :
  (∀ q, P q → P' q) → only P s s' → only P' s s'.
Proof.
  intros HP H q n Hq He Hcan.
  destruct (H q n Hq He Hcan) as [? | ?]; [left; auto | now right].
Qed.

Lemma only_trans (P1 P2 : ptr → Prop) b x b' x' s s1 s2 :
  Casc e z b x s s1 → Casc e z b' x' s1 s2 →
  only P1 s s1 → only P2 s1 s2 → only (λ q, P1 q ∨ P2 q) s s2.
Proof.
  intros HC1 HC2 H1 H2 q n Hq He Hcan.
  destruct (casc_node _ _ _ _ _ _ HC1 q n Hq) as (n1 & Hq1 & Hcase).
  destruct (err n1) as [e1|] eqn:He1.
  - destruct (H1 q n Hq He) as [HP | (r & Hreg & Hr)].
    + exists n1. split; [assumption | congruence].
    + left. now left.
    + right. exists r. split; [assumption|]. eapply Casc_canceled; eauto.
  - destruct (H2 q n1 Hq1 He1 Hcan) as [HP | (r & Hreg & Hr)].
    + left. now right.
    + right. exists r. split; [|assumption].
      destruct Hreg as (nr1 & ch & Hr1 & Hin & Hp).
      assert (Hlt : (r < length (heap s))%nat).
      { rewrite <- (casc_len _ _ _ _ _ _ HC1). eapply lookup_lt_Some; eauto. }
      destruct (lookup_lt_is_Some_2 _ _ Hlt) as [nr Hnr].
      destruct (casc_node _ _ _ _ _ _ HC1 r nr Hnr)
        as (nr' & Hnr' & [-> | (_ & _ & ->)]);
        rewrite Hr1 in Hnr'; injection Hnr' as ->.
      * exists nr, ch. auto.
      * destruct (bool_decide (x = Some r)); simpl in Hin; inversion Hin.
Qed.

Lemma cascade_loop run f c :
  canceler_cancel_spec e z run f →
  ∀ l s,
    (∀ ch, ch ∈ l → (c < canceler_ptr ch)%nat ∧ kind_ok s ch) →
    (length (heap s) - S c ≤ f)%nat → ready s (S c) →
    ∃ s', forM l (λ child, run child false (Some e) (Some z)) s = Ret tt s'
          ∧ Casc e z (S c) None s s'
          ∧ (∀ ch, ch ∈ l → canceled_in s' (canceler_ptr ch))
          ∧ (∀ ch l', l = ch :: l' →
               ∃ r, log s' = log s ++ EvLock (canceler_ptr ch) :: r)
          ∧ only (λ q, ∃ ch, ch ∈ l ∧ canceler_ptr ch = q) s s'.
Proof.
  intros HB. induction l as [|x l IH]; intros s Hl Hf Hr.
  - exists s. split; [reflexivity|]. split; [|split; [|split]].
    + apply Casc_frame; auto using log_from_refl.
    + intros ch Hin. inversion Hin.
    + intros ch l' [=].
    + now apply only_frame.
  - destruct (Hl x) as [Hx Hkx]; [now left|].
    destruct (HB x (Some z) s eq_refl Hkx)
      as (s1 & Hrun & HC1 & Hcan1 & (l1 & Hl1) & Honly1).
    { lia. }
    { eapply ready_weaken; [|exact Hr]. lia. }
    apply (Casc_weaken (S c)) in HC1; [|lia].
    destruct (IH s1) as (s2 & Hrun2 & HC2 & Hcan2 & _ & Honly2).
    { intros ch Hin. destruct (Hl ch) as [Hlt Hk]; [now right|].
      split; [assumption | eapply kind_ok_Casc; eauto]. }
    { now rewrite (casc_len _ _ _ _ _ _ HC1). }
    { eapply ready_Casc; eauto. }
    exists s2. split; [|split; [|split; [|split]]].
    + simpl. now rewrite (bind_Ret _ _ _ _ _ Hrun).
    + eapply Casc_trans; eauto.
    + intros ch Hin. apply elem_of_cons in Hin as [-> | Hin]; [|auto].
      eapply Casc_canceled; eauto.
    + intros ch l' [= <- <-].
      destruct (casc_log _ _ _ _ _ _ HC2) as (l2 & Hl2 & _).
      exists (l1 ++ l2). rewrite Hl2, Hl1, <- app_assoc. reflexivity.
    + eapply only_mono; [|eapply only_trans; eauto].
      intros q [-> | (ch & Hin & <-)].
      * exists x. split; [now left | reflexivity].
      * exists ch. split; [now right | reflexivity].
Qed.

Lemma ready_after_mark c n4 s s4 :
  ready s c → (c < length (heap s))%nat →
  heap s4 = <[c := n4]> (heap s) →
  (∀ ch, ch ∈ closed s4 → ch ∈ closed s ∨ ch = chanOf c) →
  timers s4 = timers s →
  ready s4 (S c)
  ∧ ∀ ch, (c < canceler_ptr ch)%nat → kind_ok s ch → kind_ok s4 ch.
Proof.
  intros Hr Hc Hh Hcl Ht.
  assert (Hk : ∀ ch, (c < canceler_ptr ch)%nat → kind_ok s ch → kind_ok s4 ch).
  { intros ch Hlt (m & Hm & Hkm). exists m. split; [|assumption].
    rewrite Hh, list_lookup_insert_ne by lia. assumption. }
  split; [|exact Hk].
  intros q m Hq Hle. rewrite Hh, list_lookup_insert_ne in Hq by lia.
  destruct (Hr q m Hq) as [Hmu Hch Hlive Hst Htm]; [lia|].
  constructor; auto.
  - intros ch Hin. destruct (Hch ch Hin) as [Hlt Hkk].
    split; [assumption|]. apply Hk; [lia | assumption].
  - intros He. destruct (Hlive He) as [Hncl Hd]. split; [|assumption].
    intros Hin. destruct (Hcl _ Hin) as [? | Heq]; [contradiction|].
    injection Heq as ->. lia.
  - intros t Hti. rewrite Ht. auto.
Qed.

Lemma Casc_wrap c n n4 s s4 s5 s6 :
  heap s !! c = Some n → err n = None →
  heap s4 = <[c := n4]> (heap s) → err n4 ≠ None →
  (∀ ch, ch ∈ closed s4 → ch ∈ closed s ∨ ch = chanOf c) →
  (∀ ch, ch ∈ closed s → ch ∈ closed s4) →
  (∀ d, done n = Some d → is_closed s4 d = true) →
  timers s4 = timers s → customs s4 = customs s → waiters s4 = waiters s →
  goroutines s4 = goroutines s → now s4 = now s → log_from c s s4 →
  Casc e z (S c) None s4 s5 →
  (∀ ch, ch ∈ default [] (children n) → canceled_in s5 (canceler_ptr ch)) →
  heap s6 = <[c := marked_node e z n]> (heap s5) →
  closed s6 = closed s5 → timers s6 = timers s5 → customs s6 = customs s5 →
  waiters s6 = waiters s5 → goroutines s6 = goroutines s5 → now s6 = now s5 →
  log_from c s5 s6 →
  Casc e z c (Some c) s s6.
Proof.
  intros Hn He Hh4 He4 Hcl4 Hcl4' Hd4 Ht4 Hcu4 Hw4 Hg4 Hnow4 Hlog4 HC Hkids
         Hh6 Hcl6 Ht6 Hcu6 Hw6 Hg6 Hnow6 Hlog6.
  assert (Hc : (c < length (heap s))%nat) by (eapply lookup_lt_Some; eauto).
  assert (Hc5 : (c < length (heap s5))%nat).
  { rewrite (casc_len _ _ _ _ _ _ HC), Hh4, length_insert. exact Hc. }
  assert (Hother : ∀ q, q ≠ c → heap s4 !! q = heap s !! q
                                ∧ heap s6 !! q = heap s5 !! q).
  { intros q Hne. rewrite Hh4, Hh6, !list_lookup_insert_ne by congruence. auto. }
  assert (Hc6 : heap s6 !! c = Some (marked_node e z n)).
  { rewrite Hh6. now apply list_lookup_insert_eq. }
  assert (Hcan56 : ∀ q, canceled_in s5 q → canceled_in s6 q).
  { intros q (m & Hm & Hem). destruct (decide (q = c)) as [->|Hne].
    - eexists. split; [exact Hc6 | discriminate].
    - exists m. destruct (Hother q Hne) as [_ ->]. auto. }
  assert (Hcan65 : ∀ q, q ≠ c → canceled_in s6 q → canceled_in s5 q).
  { intros q Hne (m & Hm & Hem). exists m.
    destruct (Hother q Hne) as [_ <-]. auto. }
  assert (Hcl : ∀ d, is_closed s4 d = true → is_closed s6 d = true).
  { intros d. destruct d; auto; simpl; rewrite !bool_decide_eq_true, Hcl6;
      apply (casc_closed_mono _ _ _ _ _ _ HC). }
  constructor.
  - rewrite Hh6, length_insert, (casc_len _ _ _ _ _ _ HC), Hh4.
    apply length_insert.
  - intros q m Hq. destruct (decide (q = c)) as [->|Hne].
    + rewrite Hn in Hq. injection Hq as <-. exists (marked_node e z n).
      split; [exact Hc6|]. right. rewrite bool_decide_eq_true_2 by reflexivity.
      auto.
    + destruct (Hother q Hne) as [H4 H6]. rewrite <- H4 in Hq.
      destruct (casc_node _ _ _ _ _ _ HC q m Hq) as (m' & Hm' & Hcase).
      exists m'. rewrite H6. split; [assumption|].
      rewrite bool_decide_eq_false_2 by congruence.
      destruct Hcase as [-> | (Hle & Hem & ->)]; [now left | right].
      repeat split; [lia | assumption].
  - intros q m ch Hq Hem Hcan Hin. apply Hcan56.
    destruct (decide (q = c)) as [->|Hne].
    + rewrite Hn in Hq. injection Hq as <-. auto.
    + destruct (Hother q Hne) as [H4 H6]. rewrite <- H4 in Hq.
      eapply (casc_closure _ _ _ _ _ _ HC); eauto.
  - intros ch Hin. rewrite Hcl6. apply (casc_closed_mono _ _ _ _ _ _ HC). auto.
  - intros ch. rewrite Hcl6. intros Hin.
    destruct (casc_closed_new _ _ _ _ _ _ HC ch Hin)
      as [Hin4 | (q & m & -> & Hq & Hem & Hcan)].
    + destruct (Hcl4 _ Hin4) as [? | ->]; [now left | right].
      exists c, n. repeat split; auto. eexists. split; [exact Hc6 | discriminate].
    + right. destruct (decide (q = c)) as [->|Hne].
      * exists c, n. repeat split; auto.
      * destruct (Hother q Hne) as [H4 H6]. rewrite H4 in Hq.
        exists q, m. repeat split; auto.
  - intros q m d Hq Hem Hcan Hd. destruct (decide (q = c)) as [->|Hne].
    + rewrite Hn in Hq. injection Hq as <-. apply Hcl. auto.
    + destruct (Hother q Hne) as [H4 H6]. rewrite <- H4 in Hq.
      replace (is_closed s6 d) with (is_closed s5 d)
        by (unfold is_closed; now rewrite Hcl6).
      eapply (casc_closed_done _ _ _ _ _ _ HC); eauto.
  - rewrite Ht6, (casc_timers_len _ _ _ _ _ _ HC). now rewrite Ht4.
  - intros t tm Htm. rewrite Ht6. rewrite <- Ht4 in Htm.
    apply (casc_timers _ _ _ _ _ _ HC t tm Htm).
  - intros q m t Hq Hem Hcan Hx Hti.
    assert (Hne : q ≠ c) by congruence.
    destruct (Hother q Hne) as [H4 H6]. rewrite <- H4 in Hq. rewrite Ht6.
    eapply (casc_stopped _ _ _ _ _ _ HC); eauto; discriminate.
  - rewrite Hcu6, (casc_customs _ _ _ _ _ _ HC). exact Hcu4.
  - rewrite Hw6, (casc_waiters _ _ _ _ _ _ HC). exact Hw4.
  - rewrite Hg6, (casc_goroutines _ _ _ _ _ _ HC). exact Hg4.
  - rewrite Hnow6, (casc_now _ _ _ _ _ _ HC). exact Hnow4.
  - eapply log_from_trans; [exact Hlog4|].
    eapply log_from_trans; [|exact Hlog6].
    eapply log_from_weaken; [|apply HC]. lia.
Qed.

Lemma close_Ret d s :
  is_closed s d = false → close d s = Ret tt (setClosed (d :: closed s) s).
Proof. unfold close. now intros ->. Qed.

Lemma only_wrap c n n4 m6 s s4 s5 s6 :
  heap s !! c = Some n → heap s4 = <[c := n4]> (heap s) →
  children n4 = children n →
  only (λ q, ∃ ch, ch ∈ default [] (children n) ∧ canceler_ptr ch = q) s4 s5 →
  length (heap s5) = length (heap s4) →
  heap s6 = <[c := m6]> (heap s5) → err m6 ≠ None →
  only (λ q, q = c) s s6.
Proof.
  intros Hn Hh4 Hk H45 Hlen Hh6 He6 q m Hq Hem Hcan.
  assert (Hc : (c < length (heap s))%nat) by (eapply lookup_lt_Some; eauto).
  assert (Hc5 : (c < length (heap s5))%nat)
    by (rewrite Hlen, Hh4, length_insert; exact Hc).
  assert (Hc6 : canceled_in s6 c).
  { exists m6. rewrite Hh6. split; [now apply list_lookup_insert_eq | assumption]. }
  assert (Hup : ∀ r, canceled_in s5 r → canceled_in s6 r).
  { intros r (mr & Hr & Her). destruct (decide (r = c)) as [->|Hne]; [exact Hc6|].
    exists mr. rewrite Hh6, list_lookup_insert_ne by congruence. auto. }
  assert (Hreg : ∀ r, registered s4 r q → registered s r q).
  { intros r (nr & ch & Hr & Hin & Hp). destruct (decide (r = c)) as [->|Hne].
    - rewrite Hh4, (list_lookup_insert_eq _ _ _ Hc) in Hr. injection Hr as <-.
      exists n, ch. rewrite <- Hk. auto.
    - rewrite Hh4, list_lookup_insert_ne in Hr by congruence.
      exists nr, ch. auto. }
  destruct (decide (q = c)) as [->|Hne]; [now left | right].
  assert (Hq4 : heap s4 !! q = Some m)
    by (rewrite Hh4, list_lookup_insert_ne by congruence; exact Hq).
  assert (Hcan5 : canceled_in s5 q).
  { destruct Hcan as (m' & Hm' & Hem'). exists m'.
    rewrite Hh6, list_lookup_insert_ne in Hm' by congruence. auto. }
  destruct (H45 q m Hq4 Hem Hcan5) as [(ch & Hin & Hp) | (r & Hr & Hcr)].
  - exists c. split; [|exact Hc6]. exists n, ch. auto.
  - exists r. split; [apply Hreg, Hr | apply Hup, Hcr].
Qed.

(** The cascade proper: the children, then the clearing of the set; [k] is
    what [cancel] goes on with. *)
Lemma cancel_rest f c n n4 s s4 :
  cancelCtx_cancel_spec e z (cancelCtx_cancel f) f →
  heap s !! c = Some n → err n = None → ready s c →
  (length (heap s) - c ≤ S f)%nat →
  heap s4 = <[c := n4]> (heap s) →
  n4 = mkNode (Context_ n) true (closed_done n) (children n) (Some e) (Some z)
              (ext n) →
  (∀ ch, ch ∈ closed s4 → ch ∈ closed s ∨ ch = chanOf c) →
  (∀ ch, ch ∈ closed s → ch ∈ closed s4) →
  (∀ d, done n = Some d → is_closed s4 d = true) →
  timers s4 = timers s → customs s4 = customs s → waiters s4 = waiters s →
  goroutines s4 = goroutines s → now s4 = now s → log_from c s s4 →
  ∃ s', Casc e z c (Some c) s s' ∧ canceled_in s' c
        ∧ (∀ k : M unit,
            (forM (default [] (children n))
                  (λ child, canceler_cancel_with (cancelCtx_cancel f) f child
                              false (Some e) (Some z));;;
             modNode c (set_children None);;;
             Unlock c;;;
             k) s4 = k s')
        ∧ (∃ body, log s' = log s4 ++ body ++ [EvUnlock c]
                   ∧ Forall (λ ev, (c < ev_ptr ev)%nat) body
                   ∧ ∀ ch l', default [] (children n) = ch :: l' →
                       ∃ r, body = EvLock (canceler_ptr ch) :: r)
        ∧ only (λ q, q = c) s s'.
Proof.
  intros IH Hn He Hr Hf Hh4 Hn4 Hcl4 Hcl4' Hd4 Ht4 Hcu4 Hw4 Hg4 Hnow4 Hlog4.
  assert (Hc : (c < length (heap s))%nat) by (eapply lookup_lt_Some; eauto).
  pose proof (Hr c n Hn (le_n _)) as [Hmu Hch Hlive Hst Htm].
  destruct (ready_after_mark c n4 s s4 Hr Hc Hh4 Hcl4 Ht4) as [Hr4 Hk4].
  assert (Hlen4 : length (heap s4) = length (heap s))
    by (rewrite Hh4; apply length_insert).
  destruct (cascade_loop _ f c (canceler_spec_of_cancelCtx_spec _ f f IH)
              (default [] (children n)) s4)
    as (s5 & Hloop & HC & Hkids & Hfirst & Honly5).
  { intros ch Hin. destruct (Hch ch Hin) as [Hlt Hk]. split; auto. }
  { rewrite Hlen4. lia. }
  { exact Hr4. }
  assert (Hn5 : heap s5 !! c = Some n4).
  { rewrite (Casc_below _ _ _ _ _ HC) by lia. rewrite Hh4.
    now apply list_lookup_insert_eq. }
  pose (s5' := setHeap (<[c := set_children None n4]> (heap s5)) s5).
  assert (Hn5' : heap s5' !! c = Some (set_children None n4))
    by (apply (lookup_insert_same _ _ _ _ Hn5)).
  assert (Hmu5 : mu (set_children None n4) = true) by (subst n4; reflexivity).
  destruct (casc_log _ _ _ _ _ _ HC) as (body & Hbody & Fbody).
  eexists. split; [|split; [|split; [|split]]]; cycle 2.
  - intros k. rewrite (bind_Ret _ _ _ _ _ Hloop).
    rewrite (bind_Ret _ _ _ _ _ (modNode_Ret c n4 _ s5 Hn5)).
    fold s5'.
    rewrite (bind_Ret _ _ _ _ _ (Unlock_Ret c _ s5' Hn5' Hmu5)).
    reflexivity.
  - exists body. split; [|split].
    + subst s5'. simpl. now rewrite Hbody, <- app_assoc.
    + eapply Forall_impl; [exact Fbody|]. simpl. intros. lia.
    + intros ch l' Hl. destruct (Hfirst ch l' Hl) as (r & Hr5).
      exists r. rewrite Hbody in Hr5. now apply app_inv_head in Hr5.
  - eapply (only_wrap c n n4 _ s s4 s5); eauto.
    + subst n4. reflexivity.
    + apply (casc_len _ _ _ _ _ _ HC).
    + subst s5'. simpl. rewrite list_insert_insert_eq. reflexivity.
    + subst n4. discriminate.
  - assert (Hfinal : set_mu false (set_children None n4) = marked_node e z n).
    { subst n4. unfold marked_node. simpl. now rewrite Hmu. }
    eapply (Casc_wrap c n n4 s s4 s5); eauto; try reflexivity.
    + subst n4. discriminate.
    + subst s5'. simpl. rewrite list_insert_insert_eq. now rewrite Hfinal.
    + apply (log_from_events c [EvUnlock c]); [reflexivity|].
      repeat constructor.
  - eexists. split.
    + subst s5'. simpl. rewrite list_insert_insert_eq.
      apply list_lookup_insert_eq.
      eapply lookup_lt_Some; eauto.
    + subst n4. discriminate.
Qed.

(** One call of the [cancel] of a [cancelCtx], that of its children being as
    specified: a cascade, and then, for a node that was not canceled and is
    asked to, the removal from its parent.  A node already canceled is left
    as it is.  The lock of the node is held from the first to the last step
    of the cascade, and the first child takes its own lock inside. *)
Lemma cancelCtx_cancel_gen f c removeFromParent cause0 s n :
  cancelCtx_cancel_spec e z (cancelCtx_cancel f) f →
  default e cause0 = z → heap s !! c = Some n →
  (length (heap s) - c ≤ S f)%nat → ready s c →
  ∃ s', Casc e z c (Some c) s s' ∧ canceled_in s' c
        ∧ cancelCtx_cancel (S f) c removeFromParent (Some e) cause0 s
          = (if removeFromParent && bool_decide (err n = None)
             then (n' <- getNode c;;
                   removeChild f (Context_ n') (cancelerCancel c)) s'
             else Ret tt s')
        ∧ (err n ≠ None → s' = setLog (log s ++ [EvLock c; EvUnlock c]) s)
        ∧ (err n = None →
           ∃ body, log s' = log s ++ EvLock c :: body ++ [EvUnlock c]
                   ∧ Forall (λ ev, (c < ev_ptr ev)%nat) body
                   ∧ ∀ ch l', default [] (children n) = ch :: l' →
                       ∃ r, body = EvLock (canceler_ptr ch) :: r)
        ∧ only (λ q, q = c) s s'.
Proof.
  intros IH Hz Hn Hf Hr.
  pose proof (Hr c n Hn (le_n _)) as [Hmu Hch Hlive Hst Htm].
  cbn [cancelCtx_cancel].
  assert (Hcause : match cause0 with None => Some e | Some _ => cause0 end
                   = Some z) by (destruct cause0; simpl in Hz; congruence).
  rewrite Hcause.
  rewrite (bind_Ret _ _ _ _ _ (Lock_Ret c n s Hn Hmu)).
  match goal with |- context [bind _ _ ?s0] => set (s1 := s0) end.
  assert (Hn1 : heap s1 !! c = Some (set_mu true n))
    by (apply (lookup_insert_same _ _ _ _ Hn)).
  rewrite (bind_Ret _ _ _ _ _ (getNode_Ret _ _ _ Hn1)).
  change (err (set_mu true n)) with (err n).
  destruct (err n) as [e0|] eqn:He.
  - rewrite (Unlock_Ret c _ s1 Hn1 eq_refl).
    rewrite bool_decide_eq_false_2 by discriminate. rewrite andb_false_r.
    assert (Hheap : <[c := set_mu false (set_mu true n)]> (heap s1) = heap s).
    { subst s1. simpl. rewrite list_insert_insert_eq.
      rewrite set_mu_relock by assumption. now apply list_insert_id. }
    eexists. split; [|split; [|split; [reflexivity|split; [|split]]]].
    + apply Casc_frame; try reflexivity; [exact Hheap|].
      apply (log_from_events c [EvLock c; EvUnlock c]).
      * subst s1. simpl. now rewrite <- app_assoc.
      * repeat constructor.
    + exists n. split; [|congruence].
      rewrite <- Hn. exact (f_equal (λ h : list node, h !! c) Hheap).
    + intros _. subst s1. unfold setLog, setHeap. simpl. f_equal.
      * rewrite list_insert_insert_eq, set_mu_relock by assumption.
        now apply list_insert_id.
      * now rewrite <- app_assoc.
    + intros [=].
    + apply only_frame. intros q (m & Hm & Hem). exists m.
      split; [|assumption]. rewrite <- Hm. symmetry.
      exact (f_equal (λ h : list node, h !! q) Hheap).
  - rewrite bool_decide_eq_true_2 by reflexivity. rewrite andb_true_r.
    rewrite (bind_Ret _ _ _ _ _ (modNode_Ret c _ _ s1 Hn1)).
    match goal with |- context [bind _ _ ?s0] => set (s2 := s0) end.
    assert (Hn2 : heap s2 !! c = Some (set_err (Some e) (set_mu true n)))
      by (apply (lookup_insert_same _ _ _ _ Hn1)).
    rewrite (bind_Ret _ _ _ _ _ (modNode_Ret c _ _ s2 Hn2)).
    match goal with |- context [bind _ _ ?s0] => set (s3 := s0) end.
    assert (Hn3 : heap s3 !! c
                  = Some (set_cause (Some z) (set_err (Some e) (set_mu true n))))
      by (apply (lookup_insert_same _ _ _ _ Hn2)).
    change (done (set_mu true n)) with (done n).
    change (children (set_mu true n)) with (children n).
    destruct (Hlive eq_refl) as [Hncl Hdone].
    assert (Hlog1 : ∀ s4, log s4 = log s1 → log_from c s s4).
    { intros s4 E. apply (log_from_events c [EvLock c]); [exact E|].
      repeat constructor. }
    destruct (done n) as [d|] eqn:Hd.
    + destruct Hdone as [?|[= ->]]; [discriminate|].
      assert (Hopen : is_closed s3 (chanOf c) = false)
        by (apply bool_decide_eq_false_2; exact Hncl).
      rewrite (bind_Ret _ _ _ _ _ (close_Ret _ s3 Hopen)).
      match goal with |- context [bind _ _ ?s0] => set (s4 := s0) end.
      destruct (cancel_rest f c n
                  (set_cause (Some z) (set_err (Some e) (set_mu true n)))
                  s s4 IH Hn He Hr Hf)
        as (s' & HC & Hcan & Hrun & (body & Hbody & Fbody & Hfirst) & Honly);
        try reflexivity.
      * subst s4 s3 s2 s1. simpl. rewrite !list_insert_insert_eq. reflexivity.
      * unfold closed_done, set_done, set_cause, set_err, set_mu. simpl.
        rewrite Hd. reflexivity.
      * simpl. intros ch Hin. apply elem_of_cons in Hin as [-> | Hin]; auto.
      * simpl. intros ch Hin. now right.
      * intros d' Hd'. rewrite Hd in Hd'. injection Hd' as <-.
        apply bool_decide_eq_true_2. now left.
      * now apply Hlog1.
      * exists s'. split; [assumption|]. split; [assumption|].
        split; [|split; [intros H; now destruct H|split; [|exact Honly]]].
        -- rewrite Hrun. destruct removeFromParent; reflexivity.
        -- intros _. exists body. split; [|auto].
           rewrite Hbody. subst s4 s3 s2 s1. simpl.
           now rewrite <- app_assoc.
    + rewrite (bind_Ret _ _ _ _ _ (modNode_Ret c _ _ s3 Hn3)).
      match goal with |- context [bind _ _ ?s0] => set (s4 := s0) end.
      destruct (cancel_rest f c n
                  (set_done (Some closedchan)
                     (set_cause (Some z) (set_err (Some e) (set_mu true n))))
                  s s4 IH Hn He Hr Hf)
        as (s' & HC & Hcan & Hrun & (body & Hbody & Fbody & Hfirst) & Honly);
        try reflexivity.
      * subst s4 s3 s2 s1. simpl. rewrite !list_insert_insert_eq. reflexivity.
      * unfold closed_done, set_done, set_cause, set_err, set_mu. simpl.
        rewrite Hd. reflexivity.
      * simpl. auto.
      * simpl. auto.
      * intros d' Hd'. congruence.
      * now apply Hlog1.
      * exists s'. split; [assumption|]. split; [assumption|].
        split; [|split; [intros H; now destruct H|split; [|exact Honly]]].
        -- rewrite Hrun. destruct removeFromParent; reflexivity.
        -- intros _. exists body. split; [|auto].
           rewrite Hbody. subst s4 s3 s2 s1. simpl.
           now rewrite <- app_assoc.
Qed.

(** With fuel for the nodes made after it, the [cancel] of a [cancelCtx]
    returns, and what it did is a cascade. *)
Lemma cancelCtx_cancel_ok f : cancelCtx_cancel_spec e z (cancelCtx_cancel f) f.
Proof.
  induction f as [|f IH]; intros c cause0 s Hz Hc Hf Hr; [lia|].
  destruct (lookup_lt_is_Some_2 _ _ Hc) as [n Hn].
  destruct (cancelCtx_cancel_gen f c false cause0 s n IH Hz Hn Hf Hr)
    as (s' & HC & Hcan & Hrun & Hold & Hnew & Honly).
  exists s'. split; [exact Hrun|]. split; [exact HC|]. split; [exact Hcan|].
  split; [|exact Honly].
  destruct (err n) eqn:He.
  - rewrite Hold by discriminate. simpl. eauto.
  - destruct (Hnew eq_refl) as (body & Hb & _). eauto.
Qed.

Lemma canceler_cancel_ok f : canceler_cancel_spec e z (canceler_cancel f) f.
Proof. apply canceler_spec_of_cancelCtx_spec, cancelCtx_cancel_ok. Qed.
End cascade.

(** ** The read-only methods return *)

Lemma ctx_okb_ok s c : ctx_okb s c = true → ctx_ok s c.
Proof.
  induction c; simpl; rewrite ?andb_true_iff, ?bool_decide_eq_true;
    intuition auto.
Qed.

Lemma eqlog_refl s : eqlog s s.
Proof. exists []. rewrite app_nil_r. now destruct s. Qed.

Lemma eqlog_trans s1 s2 s3 : eqlog s1 s2 → eqlog s2 s3 → eqlog s1 s3.
Proof.
  intros [l1 ->] [l2 ->]. exists (l1 ++ l2). simpl. now rewrite app_assoc.
Qed.

Lemma eqlog_mat s s' : eqlog s s' → mat s s'.
Proof. intros [l ->]. constructor; simpl; eauto. Qed.

Lemma grows_refl (s : State) : ∃ l, log s = log s ++ l.
Proof. exists []. now rewrite app_nil_r. Qed.

Lemma grows_trans (s1 s2 s3 : State) :
  (∃ l, log s2 = log s1 ++ l) → (∃ l, log s3 = log s2 ++ l) →
  ∃ l, log s3 = log s1 ++ l.
Proof.
  intros [l1 H1] [l2 H2]. exists (l1 ++ l2). now rewrite H2, H1, app_assoc.
Qed.

Lemma mat_refl s : mat s s.
Proof. constructor; auto using grows_refl. Qed.

Lemma mat_trans s1 s2 s3 : mat s1 s2 → mat s2 s3 → mat s1 s3.
Proof.
  intros H12 H23. constructor; try (etransitivity; [apply H23 | apply H12]).
  - intros q n Hq. destruct (mat_node _ _ H12 q n Hq) as [H2 | [Hd H2]].
    + apply (mat_node _ _ H23 q n H2).
    + destruct (mat_node _ _ H23 q _ H2) as [H3 | [Hd3 H3]]; [now right|].
      discriminate.
  - eapply grows_trans; [apply H12 | apply H23].
Qed.

Lemma mat_sane s s' : mat s s' → sane s → sane s'.
Proof.
  intros Hm [Hmu Hcu]. constructor.
  - intros q n' Hq'.
    assert (Hlt : (q < length (heap s))%nat).
    { rewrite <- (mat_len _ _ Hm). eapply lookup_lt_Some; eauto. }
    destruct (lookup_lt_is_Some_2 _ _ Hlt) as [n Hq].
    destruct (mat_node _ _ Hm q n Hq) as [H | [_ H]];
      rewrite Hq' in H; injection H as ->; [eauto|]. simpl. eauto.
  - rewrite (mat_customs _ _ Hm), (mat_len _ _ Hm). exact Hcu.
Qed.

Lemma mat_ctx_ok s s' c : mat s s' → ctx_ok s c → ctx_ok s' c.
Proof.
  intros Hm. induction c; simpl;
    rewrite ?(mat_len _ _ Hm), ?(mat_customs _ _ Hm); intuition auto.
Qed.

Lemma mat_doneOf s s' c : mat s s' → doneOf s' c = doneOf s c.
Proof.
  intros Hm.
  assert (Hp : ∀ p, match heap s' !! p with
                    | Some n => Some (default (chanOf p) (done n))
                    | None => None
                    end = match heap s !! p with
                          | Some n => Some (default (chanOf p) (done n))
                          | None => None
                          end).
  { intros p. destruct (heap s !! p) as [n|] eqn:Hq.
    - destruct (mat_node _ _ Hm p n Hq) as [-> | [Hd ->]]; [reflexivity|].
      simpl. now rewrite Hd.
    - apply lookup_ge_None in Hq. rewrite <- (mat_len _ _ Hm) in Hq.
      apply lookup_ge_None in Hq. now rewrite Hq. }
  induction c; simpl; auto. now rewrite (mat_customs _ _ Hm).
Qed.

Lemma mat_errOf s s' c : mat s s' → errOf s' c = errOf s c.
Proof.
  intros Hm.
  assert (Hp : ∀ p, match heap s' !! p with Some n => err n | None => None end
                    = match heap s !! p with Some n => err n | None => None end).
  { intros p. destruct (heap s !! p) as [n|] eqn:Hq.
    - destruct (mat_node _ _ Hm p n Hq) as [-> | [Hd ->]]; reflexivity.
    - apply lookup_ge_None in Hq. rewrite <- (mat_len _ _ Hm) in Hq.
      apply lookup_ge_None in Hq. now rewrite Hq. }
  induction c; simpl; auto. now rewrite (mat_customs _ _ Hm).
Qed.

Lemma mat_keyOf s s' c : mat s s' → keyOf s' c = keyOf s c.
Proof.
  intros Hm. induction c; simpl; auto. now rewrite (mat_customs _ _ Hm).
Qed.

Lemma lock_unlock_eqlog p n s :
  heap s !! p = Some n → mu n = false →
  ∃ s', (Lock p;;; Unlock p) s = Ret tt s' ∧ eqlog s s'.
Proof.
  intros Hp Hmu.
  rewrite (bind_Ret _ _ _ _ _ (Lock_Ret p n s Hp Hmu)).
  erewrite Unlock_Ret;
    [|apply (lookup_insert_same _ _ _ _ Hp) | reflexivity].
  eexists. split; [reflexivity|]. exists [EvLock p; EvUnlock p].
  unfold setLog, setHeap. simpl. f_equal.
  - rewrite list_insert_insert_eq, set_mu_relock by assumption.
    now apply list_insert_id.
  - now rewrite <- app_assoc.
Qed.

Lemma locked_read {A} (g : node → A) p n s :
  heap s !! p = Some n → mu n = false →
  ∃ s', (Lock p;;; n' <- getNode p;; Unlock p;;; ret (g n')) s
        = Ret (g (set_mu true n)) s'
        ∧ eqlog s s'.
Proof.
  intros Hp Hmu.
  rewrite (bind_Ret _ _ _ _ _ (Lock_Ret p n s Hp Hmu)).
  match goal with |- context [bind _ _ ?s0] => set (s1 := s0) end.
  assert (Hp1 : heap s1 !! p = Some (set_mu true n))
    by (apply (lookup_insert_same _ _ _ _ Hp)).
  rewrite (bind_Ret _ _ _ _ _ (getNode_Ret _ _ _ Hp1)).
  rewrite (bind_Ret _ _ _ _ _ (Unlock_Ret p _ s1 Hp1 eq_refl)).
  eexists. split; [reflexivity|]. exists [EvLock p; EvUnlock p]. subst s1.
  unfold setLog, setHeap. simpl. f_equal.
  - rewrite list_insert_insert_eq, set_mu_relock by assumption.
    now apply list_insert_id.
  - now rewrite <- app_assoc.
Qed.

Lemma set_done_id n d : done n = Some d → set_done (Some d) n = n.
Proof. destruct n; simpl. now intros ->. Qed.

Lemma mat_insert s s' p n :
  heap s !! p = Some n → done n = None →
  heap s' = <[p := set_done (Some (chanOf p)) n]> (heap s) →
  closed s' = closed s → timers s' = timers s → customs s' = customs s →
  waiters s' = waiters s → goroutines s' = goroutines s → now s' = now s →
  started s' = started s → (∃ l, log s' = log s ++ l) →
  mat s s'.
Proof.
  intros Hp Hd Hh Hc Ht Hcu Hw Hg Hn Hs Hl. constructor; auto.
  - rewrite Hh. apply length_insert.
  - intros q m Hq. rewrite Hh. destruct (decide (q = p)) as [->|Hne].
    + rewrite Hp in Hq. injection Hq as <-. right. split; [assumption|].
      now apply lookup_insert_same with n.
    + left. now rewrite list_lookup_insert_ne by congruence.
Qed.

Lemma cancelCtx_Done_Ret p n s :
  heap s !! p = Some n → mu n = false →
  ∃ s', cancelCtx_Done p s = Ret (Some (default (chanOf p) (done n))) s'
        ∧ mat s s'
        ∧ heap s' !! p
          = Some (set_done (Some (default (chanOf p) (done n))) n).
Proof.
  intros Hp Hmu. unfold cancelCtx_Done.
  rewrite (bind_Ret _ _ _ _ _ (getNode_Ret _ _ _ Hp)).
  destruct (done n) as [d|] eqn:Hd.
  - exists s. split; [reflexivity|]. split; [apply mat_refl|].
    simpl. now rewrite set_done_id.
  - rewrite (bind_Ret _ _ _ _ _ (Lock_Ret p n s Hp Hmu)).
    match goal with |- context [bind _ _ ?s0] => set (s1 := s0) end.
    assert (Hp1 : heap s1 !! p = Some (set_mu true n))
      by (apply (lookup_insert_same _ _ _ _ Hp)).
    rewrite (bind_Ret _ _ _ _ _ (getNode_Ret _ _ _ Hp1)).
    change (done (set_mu true n)) with (done n). rewrite Hd.
    erewrite (bind_Ret (bind (modNode p _) _)); cycle 1.
    { rewrite (bind_Ret _ _ _ _ _ (modNode_Ret p _ _ s1 Hp1)). reflexivity. }
    match goal with |- context [bind _ _ ?s0] => set (s2 := s0) end.
    assert (Hp2 : heap s2 !! p
                  = Some (set_done (Some (chanOf p)) (set_mu true n)))
      by (apply (lookup_insert_same _ _ _ _ Hp1)).
    rewrite (bind_Ret _ _ _ _ _ (Unlock_Ret p _ s2 Hp2 eq_refl)).
    assert (Hnode : set_mu false (set_done (Some (chanOf p)) (set_mu true n))
                    = set_done (Some (chanOf p)) n).
    { destruct n; simpl in *. now subst. }
    eexists. split; [reflexivity|]. split.
    + eapply (mat_insert s _ p n); try reflexivity; try assumption.
      * subst s2 s1. simpl. rewrite !list_insert_insert_eq. now rewrite Hnode.
      * exists [EvLock p; EvUnlock p]. subst s2 s1. simpl.
        now rewrite <- app_assoc.
    + subst s2 s1. simpl. rewrite !list_insert_insert_eq, Hnode.
      now apply lookup_insert_same with n.
Qed.

Lemma Done_Ret s c :
  sane s → ctx_ok s c → ∃ s', Done c s = Ret (doneOf s c) s' ∧ mat s s'.
Proof.
  intros Hs. induction c; simpl; intros Hok;
    try (exists s; split; [reflexivity | apply mat_refl]);
    try (apply IHc; tauto).
  - destruct (lookup_lt_is_Some_2 _ _ Hok) as [n Hn]. rewrite Hn.
    destruct (cancelCtx_Done_Ret p n s Hn (sane_mu _ Hs _ _ Hn))
      as (s' & Hrun & Hm & _). eauto.
  - destruct (lookup_lt_is_Some_2 _ _ Hok) as [n Hn]. rewrite Hn.
    destruct (cancelCtx_Done_Ret p n s Hn (sane_mu _ Hs _ _ Hn))
      as (s' & Hrun & Hm & _). eauto.
  - destruct (lookup_lt_is_Some_2 _ _ Hok) as [cu Hcu]. rewrite Hcu.
    exists s. split; [|apply mat_refl].
    now rewrite (bind_Ret _ _ _ _ _ (getCustom_Ret _ _ _ Hcu)).
Qed.

Lemma Err_Ret s c :
  sane s → ctx_ok s c → ∃ s', Err c s = Ret (errOf s c) s' ∧ eqlog s s'.
Proof.
  intros Hs. induction c; simpl; intros Hok;
    try (exists s; split; [reflexivity | apply eqlog_refl]);
    try (apply IHc; tauto).
  - destruct (lookup_lt_is_Some_2 _ _ Hok) as [n Hn]. rewrite Hn.
    apply (locked_read err p n s Hn (sane_mu _ Hs _ _ Hn)).
  - destruct (lookup_lt_is_Some_2 _ _ Hok) as [n Hn]. rewrite Hn.
    apply (locked_read err p n s Hn (sane_mu _ Hs _ _ Hn)).
  - destruct (lookup_lt_is_Some_2 _ _ Hok) as [cu Hcu]. rewrite Hcu.
    exists s. split; [|apply eqlog_refl].
    now rewrite (bind_Ret _ _ _ _ _ (getCustom_Ret _ _ _ Hcu)).
Qed.

Lemma any_eq_key k s :
  k ≠ cancelCtxKey →
  any_eq cancelCtxKey k s = Ret false s ∧ any_eq k cancelCtxKey s = Ret false s.
Proof. intros Hk. destruct k; try contradiction; split; reflexivity. Qed.

(** Lookup of the package's key stops at the first cancelable node and never
    reads the heap. *)
Lemma value_with_key hopf s c :
  ctx_ok s c →
  value_with hopf c cancelCtxKey s = Ret (keyOf s c) s
  ∧ Value_with hopf c cancelCtxKey s = Ret (keyOf s c) s.
Proof.
  induction c; simpl; intros Hok; auto.
  - destruct Hok as [Hk Hok]. destruct (IHc Hok) as [IH1 IH2].
    destruct (any_eq_key _ s Hk) as [E1 E2].
    rewrite (bind_Ret _ _ _ _ _ E1), (bind_Ret _ _ _ _ _ E2). auto.
  - destruct Hok as [Hok _]. destruct (IHc Hok) as [IH1 IH2]. auto.
  - destruct (lookup_lt_is_Some_2 _ _ Hok) as [cu Hcu]. rewrite Hcu.
    now rewrite (bind_Ret _ _ _ _ _ (getCustom_Ret _ _ _ Hcu)).
Qed.

Lemma Value_key fuel s c :
  ctx_ok s c → Value fuel c cancelCtxKey s = Ret (keyOf s c) s.
Proof. intros Hok. apply value_with_key, Hok. Qed.

Lemma keyOf_valid s c cc :
  sane s → ctx_ok s c → keyOf s c = acancelCtx cc → (cc < length (heap s))%nat.
Proof.
  intros Hs. induction c; simpl; intros Hok Hk; try discriminate;
    try (apply IHc; tauto); try (injection Hk as <-; assumption).
  destruct (customs s !! u) as [cu|] eqn:Hcu; [|discriminate].
  eapply sane_customs; eauto.
Qed.

Lemma Cause_Ret fuel s c :
  sane s → ctx_ok s c →
  ∃ s', Cause fuel c s = Ret (causeOf s c) s' ∧ eqlog s s'.
Proof.
  intros Hs Hok. unfold Cause, causeOf.
  rewrite (bind_Ret _ _ _ _ _ (Value_key fuel s c Hok)).
  destruct (keyOf s c) eqn:Hk; try (apply Err_Ret; assumption).
  pose proof (keyOf_valid s c p Hs Hok Hk) as Hlt.
  destruct (lookup_lt_is_Some_2 _ _ Hlt) as [n Hn]. rewrite Hn.
  apply (locked_read cause p n s Hn (sane_mu _ Hs _ _ Hn)).
Qed.

Lemma parentCancelCtx_Ret fuel s c :
  sane s → ctx_ok s c →
  ∃ s', parentCancelCtx fuel c s = Ret (resolve s' (doneOf s c) c) s'
        ∧ Done c s = Ret (doneOf s c) s' ∧ mat s s'.
Proof.
  intros Hs Hok. unfold parentCancelCtx, resolve.
  destruct (Done_Ret s c Hs Hok) as (s1 & Hd & Hm).
  rewrite (bind_Ret _ _ _ _ _ Hd). exists s1.
  split; [|split; assumption].
  destruct (doneOf s c) as [[|q|k]|]; try reflexivity.
  - rewrite (bind_Ret _ _ _ _ _
      (Value_key fuel s1 c (mat_ctx_ok _ _ _ Hm Hok))).
    destruct (keyOf s1 c) eqn:Hk; try reflexivity.
    pose proof (keyOf_valid s1 c p (mat_sane _ _ Hm Hs)
                  (mat_ctx_ok _ _ _ Hm Hok) Hk) as Hlt.
    destruct (lookup_lt_is_Some_2 _ _ Hlt) as [n Hn]. rewrite Hn.
    rewrite (bind_Ret _ _ _ _ _ (getNode_Ret _ _ _ Hn)).
    destruct (bool_decide (done n = Some (chanOf q))); reflexivity.
  - rewrite (bind_Ret _ _ _ _ _
      (Value_key fuel s1 c (mat_ctx_ok _ _ _ Hm Hok))).
    destruct (keyOf s1 c) eqn:Hk; try reflexivity.
    pose proof (keyOf_valid s1 c p (mat_sane _ _ Hm Hs)
                  (mat_ctx_ok _ _ _ Hm Hok) Hk) as Hlt.
    destruct (lookup_lt_is_Some_2 _ _ Hlt) as [n Hn]. rewrite Hn.
    rewrite (bind_Ret _ _ _ _ _ (getNode_Ret _ _ _ Hn)).
    destruct (bool_decide (done n = Some (extchan k))); reflexivity.
Qed.

(** ** removeChild returns *)

Lemma resolve_Some s d c p :
  resolve s d c = Some p →
  ∃ n d', heap s !! p = Some n ∧ d = Some d' ∧ d' ≠ closedchan
          ∧ done n = Some d' ∧ keyOf s c = acancelCtx p.
Proof.
  unfold resolve. intros H.
  destruct d as [d'|]; [|discriminate].
  assert (Hd : d' ≠ closedchan) by (intros ->; discriminate).
  assert (H' : match keyOf s c with
               | acancelCtx p0 =>
                   match heap s !! p0 with
                   | Some n => if bool_decide (done n = Some d') then Some p0
                               else None
                   | None => None
                   end
               | _ => None
               end = Some p) by (destruct d'; [contradiction | exact H..]).
  clear H. destruct (keyOf s c) as [| |q| | | |]; try discriminate.
  destruct (heap s !! q) as [n|] eqn:Hq; [|discriminate].
  destruct (bool_decide (done n = Some d')) eqn:Hb; [|discriminate].
  injection H' as <-. apply bool_decide_eq_true in Hb. eauto 10.
Qed.

Lemma touch_refl s : touch s s.
Proof. constructor; eauto 12 using grows_refl. Qed.

Lemma touch_trans s1 s2 s3 : touch s1 s2 → touch s2 s3 → touch s1 s3.
Proof.
  intros H12 H23. constructor;
    try (etransitivity; [apply H23 | apply H12]).
  - intros q n Hq.
    destruct (touch_node _ _ H12 q n Hq)
      as (n2 & Hq2 & Hc2 & Hm2 & He2 & Hz2 & Hx2 & Hd2 & Hk2 & Hs2).
    destruct (touch_node _ _ H23 q n2 Hq2)
      as (n3 & Hq3 & Hc3 & Hm3 & He3 & Hz3 & Hx3 & Hd3 & Hk3 & Hs3).
    exists n3. split; [assumption|].
    split; [congruence|]. split; [congruence|]. split; [congruence|].
    split; [congruence|]. split; [congruence|]. split; [|split; auto].
    destruct Hd2 as [Hd2 | [Hd2 Hd2']].
    + destruct Hd3 as [Hd3 | [Hd3 Hd3']]; [left | right; split]; congruence.
    + destruct Hd3 as [Hd3 | [Hd3 Hd3']]; [right; split | ]; congruence.
  - intros u cu Hu.
    destruct (touch_customs _ _ H12 u cu Hu)
      as (cu2 & Hu2 & ? & ? & ? & ? & ? & Hr2).
    destruct (touch_customs _ _ H23 u cu2 Hu2)
      as (cu3 & Hu3 & ? & ? & ? & ? & ? & Hr3).
    exists cu3. split; [assumption|].
    split; [congruence|]. split; [congruence|]. split; [congruence|].
    split; [congruence|]. split; [congruence|]. auto.
  - eapply grows_trans; [apply H12 | apply H23].
Qed.

Lemma mat_touch s s' : mat s s' → touch s s'.
Proof.
  intros Hm. constructor; try apply Hm.
  - intros q n Hq. destruct (mat_node _ _ Hm q n Hq) as [H | [Hd H]].
    + exists n. repeat split; auto.
    + eexists. split; [exact H|]. simpl. repeat split; auto.
  - now rewrite (mat_customs _ _ Hm).
  - intros u cu Hu. exists cu. rewrite (mat_customs _ _ Hm). auto 10.
Qed.

Lemma eqlog_touch s s' : eqlog s s' → touch s s'.
Proof. intros H. apply mat_touch, eqlog_mat, H. Qed.

Lemma touch_sane s s' : touch s s' → sane s → sane s'.
Proof.
  intros Ht [Hmu Hcu]. constructor.
  - intros q n' Hq'.
    assert (Hlt : (q < length (heap s))%nat).
    { rewrite <- (touch_len _ _ Ht). eapply lookup_lt_Some; eauto. }
    destruct (lookup_lt_is_Some_2 _ _ Hlt) as [n Hq].
    destruct (touch_node _ _ Ht q n Hq) as (n2 & Hq2 & _ & Hm2 & _).
    rewrite Hq' in Hq2. injection Hq2 as <-. rewrite Hm2. eauto.
  - intros u cu' p Hu' Hv.
    assert (Hlt : (u < length (customs s))%nat).
    { rewrite <- (touch_customs_len _ _ Ht). eapply lookup_lt_Some; eauto. }
    destruct (lookup_lt_is_Some_2 _ _ Hlt) as [cu Hu].
    destruct (touch_customs _ _ Ht u cu Hu) as (cu2 & Hu2 & Hv2 & _).
    rewrite Hu' in Hu2. injection Hu2 as <-.
    rewrite (touch_len _ _ Ht). eapply Hcu; eauto. now rewrite <- Hv2.
Qed.

Lemma touch_ctx_ok s s' c : touch s s' → ctx_ok s c → ctx_ok s' c.
Proof.
  intros Ht. induction c; simpl;
    rewrite ?(touch_len _ _ Ht), ?(touch_customs_len _ _ Ht); intuition auto.
Qed.

Lemma callStop_Ret stop s :
  (stopOwner stop < length (customs s))%nat →
  ∃ b s', callStop stop s = Ret b s' ∧ touch s s'.
Proof.
  intros Hlt. destruct (lookup_lt_is_Some_2 _ _ Hlt) as [cu Hcu].
  unfold callStop. rewrite (bind_Ret _ _ _ _ _ (getCustom_Ret _ _ _ Hcu)).
  destruct (uRegs cu !! stopReg stop) as [[r|]|];
    try (exists false, s; split; [reflexivity | apply touch_refl]).
  eexists _, _. split; [reflexivity|].
  constructor; simpl; eauto 12 using grows_refl.
  - now rewrite length_insert.
  - intros u cu0 Hu. destruct (decide (u = stopOwner stop)) as [->|Hne].
    + rewrite Hcu in Hu. injection Hu as <-.
      eexists. split; [apply (lookup_insert_same _ _ _ _ Hcu)|]. simpl.
      repeat (split; [reflexivity|]). intros r0 x Hx.
      destruct (decide (r0 = stopReg stop)) as [->|Hne].
      * assert (Hlt' : (stopReg stop < length (uRegs cu))%nat)
          by (apply lookup_lt_Some in Hx; now rewrite length_insert in Hx).
        rewrite (list_lookup_insert_eq _ _ _ Hlt') in Hx. discriminate.
      * rewrite list_lookup_insert_ne in Hx by congruence. exact Hx.
    + rewrite list_lookup_insert_ne by congruence. eauto 10.
Qed.

Lemma delete_child_sub child l ch : ch ∈ delete_child child l → ch ∈ l.
Proof. unfold delete_child. rewrite list_elem_of_filter. tauto. Qed.

(** Taking a child out of the set of the node [p]. *)
Lemma touch_children s p n l :
  heap s !! p = Some n →
  (∀ ch, ch ∈ l → ch ∈ default [] (children n)) →
  touch s (setHeap (<[p := set_children (Some l) n]> (heap s)) s)
  ∨ children n = None.
Proof.
  intros Hp Hsub. destruct (children n) as [l0|] eqn:Hk; [left | now right].
  constructor; simpl; eauto 12 using grows_refl.
  - apply length_insert.
  - intros q m Hq. destruct (decide (q = p)) as [->|Hne].
    + rewrite Hp in Hq. injection Hq as <-.
      eexists. split; [apply (lookup_insert_same _ _ _ _ Hp)|]. simpl.
      repeat split; auto; try congruence. intros ch Hin. rewrite Hk. now apply Hsub.
    + rewrite list_lookup_insert_ne by congruence. eauto 12.
Qed.

Lemma removeChild_Ret fuel s ctx child :
  sane s → ctx_ok s ctx →
  ∃ s', removeChild fuel (Some ctx) child s = Ret tt s' ∧ touch s s'
        ∧ removed ctx child s s'.
Proof.
  intros Hs Hok.
  assert (Hgen :
    ∃ s', (p <- parentCancelCtx fuel ctx;;
           match p with
           | None => ret tt
           | Some p =>
               Lock p;;;
               n <- getNode p;;
               match children n with
               | Some l => modNode p (set_children (Some (delete_child child l)))
               | None => ret tt
               end;;;
               Unlock p
           end) s = Ret tt s' ∧ touch s s'
          ∧ ∃ sB, Done ctx s = Ret (doneOf s ctx) sB ∧ mat s sB
              ∧ match resolve sB (doneOf s ctx) ctx with
                | None => s' = sB
                | Some p =>
                    ∃ np, heap sB !! p = Some np
                      ∧ s' = setLog (log sB ++ [EvLock p; EvUnlock p])
                               (setHeap
                                  (<[p := match children np with
                                          | Some l =>
                                              set_children
                                                (Some (delete_child child l)) np
                                          | None => np
                                          end]> (heap sB)) sB)
                end).
  { destruct (parentCancelCtx_Ret fuel s ctx Hs Hok) as (s1 & Hrun & HD & Hm).
    rewrite (bind_Ret _ _ _ _ _ Hrun).
    pose proof (mat_sane _ _ Hm Hs) as Hs1.
    destruct (resolve s1 (doneOf s ctx) ctx) as [p|] eqn:Hres.
    2:{ exists s1. split; [reflexivity|]. split; [now apply mat_touch|].
        exists s1. rewrite Hres. auto. }
    destruct (resolve_Some _ _ _ _ Hres) as (n & d' & Hn & _).
    pose proof (sane_mu _ Hs1 _ _ Hn) as Hmu.
    rewrite (bind_Ret _ _ _ _ _ (Lock_Ret p n s1 Hn Hmu)).
    match goal with |- context [bind _ _ ?s0] => set (s2 := s0) end.
    assert (Hn2 : heap s2 !! p = Some (set_mu true n))
      by (apply (lookup_insert_same _ _ _ _ Hn)).
    rewrite (bind_Ret _ _ _ _ _ (getNode_Ret _ _ _ Hn2)).
    change (children (set_mu true n)) with (children n).
    destruct (children n) as [l|] eqn:Hk.
    - rewrite (bind_Ret _ _ _ _ _ (modNode_Ret p _ _ s2 Hn2)).
      match goal with |- context [Unlock _ ?s0] => set (s3 := s0) end.
      assert (Hn3 : heap s3 !! p
                    = Some (set_children (Some (delete_child child l))
                              (set_mu true n)))
        by (apply (lookup_insert_same _ _ _ _ Hn2)).
      rewrite (Unlock_Ret p _ s3 Hn3 eq_refl).
      assert (Hfinal :
        setLog (log s3 ++ [EvUnlock p])
          (setHeap (<[p := set_mu false
                             (set_children (Some (delete_child child l))
                                (set_mu true n))]> (heap s3)) s3)
        = setLog (log s1 ++ [EvLock p; EvUnlock p])
            (setHeap (<[p := set_children (Some (delete_child child l)) n]>
                        (heap s1)) s1)).
      { subst s3 s2. unfold setLog, setHeap. simpl. f_equal.
        - rewrite !list_insert_insert_eq. f_equal.
          destruct n; simpl in *. now subst.
        - now rewrite <- app_assoc. }
      rewrite Hfinal.
      eexists. split; [reflexivity|]. split.
      + eapply touch_trans; [apply mat_touch, Hm|].
        assert (Hsub : ∀ ch, ch ∈ delete_child child l →
                             ch ∈ default [] (children n))
          by (rewrite Hk; intros ch Hin; eapply delete_child_sub, Hin).
        destruct (touch_children s1 p n (delete_child child l) Hn Hsub)
          as [Ht|Hc]; [|congruence].
        eapply touch_trans; [exact Ht|]. apply eqlog_touch.
        exists [EvLock p; EvUnlock p]. reflexivity.
      + exists s1. split; [exact HD|]. split; [exact Hm|]. rewrite Hres.
        exists n. split; [exact Hn|]. now rewrite Hk.
    - rewrite bind_ret_l. rewrite (Unlock_Ret p _ s2 Hn2 eq_refl).
      assert (Hfinal :
        setLog (log s2 ++ [EvUnlock p])
          (setHeap (<[p := set_mu false (set_mu true n)]> (heap s2)) s2)
        = setLog (log s1 ++ [EvLock p; EvUnlock p])
            (setHeap (<[p := n]> (heap s1)) s1)).
      { subst s2. unfold setLog, setHeap. simpl. f_equal.
        - rewrite !list_insert_insert_eq, set_mu_relock by assumption.
          reflexivity.
        - now rewrite <- app_assoc. }
      rewrite Hfinal.
      eexists. split; [reflexivity|]. split.
      + eapply touch_trans; [apply mat_touch, Hm|]. apply eqlog_touch.
        exists [EvLock p; EvUnlock p]. unfold setLog, setHeap. simpl.
        f_equal. now apply list_insert_id.
      + exists s1. split; [exact HD|]. split; [exact Hm|]. rewrite Hres.
        exists n. split; [exact Hn|]. now rewrite Hk. }
  destruct ctx; try exact Hgen.
  simpl. destruct Hok as [_ Hlt].
  destruct (callStop_Ret stop s Hlt) as (b & s' & Hrun & Ht).
  rewrite (bind_Ret _ _ _ _ _ Hrun). eauto.
Qed.

(** ** States between operations *)

Lemma alli_lookup {A} (P : nat → A → bool) (l : list A) i x :
  alli P l = true → l !! i = Some x → P i x = true.
Proof.
  unfold alli. rewrite forallb_forall. intros H Hi.
  apply (H (i, x)). apply list_elem_of_In.
  apply list_elem_of_lookup. exists i.
  rewrite list_lookup_imap, Hi. reflexivity.
Qed.

Lemma forallb_elem_of {A} (P : A → bool) (l : list A) x :
  forallb P l = true → x ∈ l → P x = true.
Proof.
  rewrite forallb_forall. intros H Hin. apply H. now apply list_elem_of_In.
Qed.

Lemma wfb_wf s : wfb s = true → wf s.
Proof.
  unfold wfb. rewrite !andb_true_iff.
  intros [[[[[[[Hn Hc] Ht] Ha] Hcl] Hreg] Hwt] Hrg].
  assert (Hpend : ∀ parent child,
            pendingb s parent child = true → pending s parent child).
  { intros parent child. unfold pendingb, pending.
    rewrite !andb_true_iff. intros [[H1 H2] H3].
    split; [now apply ctx_okb_ok|]. split.
    - unfold kind_okb in H2.
      destruct (heap s !! canceler_ptr child) as [m|] eqn:Hm; [|discriminate].
      exists m. auto.
    - intros r (nr & ch & Hr & Hin & Hp). unfold unregisteredb in H3.
      pose proof (forallb_elem_of _ _ _ H3 (list_elem_of_lookup_2 _ _ _ Hr)) as H.
      simpl in H. pose proof (forallb_elem_of _ _ _ H Hin) as H'.
      simpl in H'. apply bool_decide_eq_true in H'. contradiction. }
  assert (Hnode : ∀ q n, heap s !! q = Some n → node_okb s q n = true)
    by (intros q n Hq; eapply alli_lookup; eauto).
  clear Hn. unfold node_okb in Hnode.
  assert (Hkid : ∀ q n ch, heap s !! q = Some n →
            ch ∈ default [] (children n) →
            (q < canceler_ptr ch)%nat ∧ kind_ok s ch
            ∧ ∃ m, heap s !! canceler_ptr ch = Some m ∧ err m = None).
  { intros q n ch Hq Hin. specialize (Hnode q n Hq).
    rewrite !andb_true_iff in Hnode. destruct Hnode as [[[[_ Hk] _] _] _].
    pose proof (forallb_elem_of _ _ _ Hk Hin) as H.
    rewrite !andb_true_iff, bool_decide_eq_true in H.
    destruct H as [[Hlt Hkind] Hlive]. unfold kind_okb, liveb in *.
    destruct (heap s !! canceler_ptr ch) as [m|] eqn:Hm; [|discriminate].
    apply bool_decide_eq_true in Hlive.
    split; [assumption|]. split; [exists m; auto | eauto]. }
  constructor.
  - intros q n Hq _. specialize (Hnode q n Hq).
    rewrite !andb_true_iff in Hnode.
    destruct Hnode as [[[[Hmu _] He] Htm] _].
    constructor.
    + now apply negb_true_iff.
    + intros ch Hin. destruct (Hkid q n ch Hq Hin) as (? & ? & _). auto.
    + intros Hen. rewrite Hen in He.
      rewrite !andb_true_iff, !bool_decide_eq_true in He. tauto.
    + intros Hen. destruct (err n); [|congruence].
      rewrite !andb_true_iff, !bool_decide_eq_true in He. tauto.
    + intros t Hti. rewrite Hti in Htm. now apply bool_decide_eq_true in Htm.
  - intros q n ch Hq Hin. destruct (Hkid q n ch Hq Hin) as (_ & _ & H). exact H.
  - intros q n Hq Hen. specialize (Hnode q n Hq).
    rewrite !andb_true_iff in Hnode.
    destruct Hnode as [[[_ He] _] _].
    destruct (err n); [|congruence].
    rewrite !andb_true_iff, !bool_decide_eq_true in He.
    destruct He as [[[_ Hk] Hz] Hd]. split; [assumption|]. split; [assumption|].
    destruct (done n) as [d|]; [eauto | discriminate].
  - intros q n Hq Hen. specialize (Hnode q n Hq).
    rewrite !andb_true_iff in Hnode.
    destruct Hnode as [[[_ He] _] _]. rewrite Hen in He.
    rewrite !andb_true_iff, !bool_decide_eq_true in He. tauto.
  - intros q n Hq. specialize (Hnode q n Hq).
    rewrite !andb_true_iff in Hnode. destruct Hnode as [_ Hx].
    destruct (Context_ n) as [ctx|]; [|discriminate].
    exists ctx. split; [reflexivity | now apply ctx_okb_ok].
  - intros u cu p Hu Hv.
    pose proof (forallb_elem_of _ _ _ Hc (list_elem_of_lookup_2 _ _ _ Hu)) as H.
    simpl in H. rewrite Hv in H. now apply bool_decide_eq_true in H.
  - intros t tm Htm.
    pose proof (forallb_elem_of _ _ _ Ht (list_elem_of_lookup_2 _ _ _ Htm)) as H.
    simpl in H. now apply bool_decide_eq_true in H.
  - intros t tm Htm Hact. pose proof (alli_lookup _ _ _ _ Ha Htm) as H.
    simpl in H. rewrite Hact in H. simpl in H.
    destruct (heap s !! tnode tm) as [n|]; [|discriminate].
    apply bool_decide_eq_true in H. eauto.
  - intros q Hq. pose proof (forallb_elem_of _ _ _ Hcl Hq) as H.
    simpl in H. now apply bool_decide_eq_true in H.
  - intros r nr ch Hr Hin. pose proof (alli_lookup _ _ _ _ Hreg Hr) as H.
    unfold registered_okb in H.
    pose proof (forallb_elem_of _ _ _ H Hin) as H'. simpl in H'.
    destruct (heap s !! canceler_ptr ch) as [nc|]; [|discriminate].
    destruct (Context_ nc) as [ctx|] eqn:Hctx; [|discriminate].
    apply andb_true_iff in H'. destruct H' as [Hns H'].
    apply negb_true_iff in Hns.
    apply bool_decide_eq_true in H'. exists nc, ctx. auto.
  - intros i parent child Hi. apply Hpend.
    exact (forallb_elem_of _ _ _ Hwt (list_elem_of_lookup_2 _ _ _ Hi)).
  - intros u cu r parent child Hu Hr. apply Hpend.
    pose proof (forallb_elem_of _ _ _ Hrg (list_elem_of_lookup_2 _ _ _ Hu)) as H.
    simpl in H.
    exact (forallb_elem_of _ _ _ H (list_elem_of_lookup_2 _ _ _ Hr)).
Qed.

Lemma wf_sane s : wf s → sane s.
Proof.
  intros W. constructor.
  - intros q n Hq. apply (wf_ready _ W q n Hq). lia.
  - apply W.
Qed.

(** ** Cancellation reaches every descendant *)

Lemma Casc_sane e z b x s s' : Casc e z b x s s' → sane s → sane s'.
Proof.
  intros HC [Hmu Hcu]. constructor.
  - intros q n' Hq'.
    assert (Hlt : (q < length (heap s))%nat).
    { rewrite <- (casc_len _ _ _ _ _ _ HC). eapply lookup_lt_Some; eauto. }
    destruct (lookup_lt_is_Some_2 _ _ Hlt) as [n Hq].
    destruct (casc_node _ _ _ _ _ _ HC q n Hq) as (m & Hm & Hcase).
    rewrite Hq' in Hm. injection Hm as <-.
    destruct Hcase as [-> | (_ & _ & ->)]; [eauto|].
    destruct (bool_decide (x = Some q)); simpl; eauto.
  - rewrite (casc_customs _ _ _ _ _ _ HC), (casc_len _ _ _ _ _ _ HC).
    exact Hcu.
Qed.

Lemma Casc_ctx_ok e z b x s s' c :
  Casc e z b x s s' → ctx_ok s c → ctx_ok s' c.
Proof.
  intros HC. induction c; simpl;
    rewrite ?(casc_len _ _ _ _ _ _ HC), ?(casc_customs _ _ _ _ _ _ HC);
    intuition auto.
Qed.

(** The fields a cascade leaves in a node it canceled. *)
Lemma Casc_fields e z b x s s' q n :
  Casc e z b x s s' → heap s !! q = Some n → err n = None →
  canceled_in s' q →
  ∃ n', heap s' !! q = Some n' ∧ err n' = Some e ∧ cause n' = Some z
        ∧ children n' = None ∧ mu n' = mu n ∧ Context_ n' = Context_ n
        ∧ ∃ d, done n' = Some d ∧ is_closed s' d = true.
Proof.
  intros HC Hq He Hcan.
  destruct (Casc_changed _ _ _ _ _ _ _ _ HC Hq He Hcan) as [_ Hq'].
  eexists. split; [exact Hq'|].
  assert (Hd : ∃ d, closed_done n = Some d ∧ is_closed s' d = true).
  { unfold closed_done. destruct (done n) as [d|] eqn:Hd; [|eauto].
    exists d. split; [reflexivity|].
    eapply (casc_closed_done _ _ _ _ _ _ HC); eauto. }
  destruct (bool_decide (x = Some q)); simpl; auto 10.
Qed.

Lemma descendant_canceled e z b x s s' :
  wf s → Casc e z b x s s' →
  ∀ p q, descendant s p q → canceled_in s' p →
         (∃ n, heap s !! q = Some n ∧ err n = None) ∧ canceled_in s' q.
Proof.
  intros W HC p q Hd. induction Hd as [p n ch Hp Hin | p q r _ IH1 _ IH2];
    intros Hcan.
  - split; [eapply wf_live_children; eauto|].
    destruct (err n) as [e0|] eqn:He.
    + destruct (wf_canceled _ W p n Hp) as [Hk _]; [congruence|].
      rewrite Hk in Hin. inversion Hin.
    + eapply (casc_closure _ _ _ _ _ _ HC); eauto.
  - apply IH2, IH1, Hcan.
Qed.

(** What stays of a canceled node in every later state. *)
Lemma le_canceled b s s' q n e z d :
  le_from b s s' → heap s !! q = Some n →
  err n = Some e → cause n = Some z → done n = Some d →
  is_closed s d = true →
  ∃ n', heap s' !! q = Some n' ∧ err n' = Some e ∧ cause n' = Some z
        ∧ done n' = Some d ∧ is_closed s' d = true
        ∧ (children n = None → children n' = None)
        ∧ (timer_of n = None → timer_of n' = None).
Proof.
  intros Hle Hq He Hz Hd Hcl.
  destruct (le_heap _ _ _ Hle q n Hq) as (n' & Hq' & Hn).
  exists n'. split; [assumption|].
  assert (Hne : err n ≠ None) by congruence.
  repeat split.
  - now apply (le_err _ _ Hn).
  - rewrite (le_cause _ _ Hn Hne). assumption.
  - now apply (le_done _ _ Hn).
  - now apply (le_closed _ _ _ Hle).
  - now apply (le_children _ _ Hn).
  - now apply (le_timer _ _ Hn).
Qed.

Lemma okm_Ret (R : State → State → Prop) {A} (m : M A) s a s' :
  okm R s m → m s = Ret a s' → R s s'.
Proof. unfold okm. intros H E. now rewrite E in H. Qed.

(** A call of the [cancel] of a [cancelCtx] returns: after the cascade,
    which leaves [s1], the removal from the parent leaves [s']. *)
Lemma cancelCtx_cancel_returns_gen fuel c removeFromParent e cause0 s n ctx :
  sane s → ready s c → heap s !! c = Some n →
  Context_ n = Some ctx → ctx_ok s ctx →
  (length (heap s) - c ≤ fuel)%nat →
  ∃ s1 s',
    cancelCtx_cancel fuel c removeFromParent (Some e) cause0 s = Ret tt s'
    ∧ Casc e (default e cause0) c (Some c) s s1 ∧ canceled_in s1 c
    ∧ touch s1 s' ∧ le_state s1 s' ∧ sane s'
    ∧ (removeFromParent = false → s' = s1)
    ∧ (err n ≠ None → s' = setLog (log s ++ [EvLock c; EvUnlock c]) s)
    ∧ (err n = None →
       ∃ body, log s1 = log s ++ EvLock c :: body ++ [EvUnlock c]
               ∧ Forall (λ ev, (c < ev_ptr ev)%nat) body
               ∧ ∀ ch l', default [] (children n) = ch :: l' →
                   ∃ r, body = EvLock (canceler_ptr ch) :: r)
    ∧ only (λ q, q = c) s s1
    ∧ (removeFromParent = true → err n = None →
       removed ctx (cancelerCancel c) s1 s')
    ∧ (err n ≠ None → s' = s1).
Proof.
  intros Hs Hr Hn Hctx Hok Hf.
  assert (Hc : (c < length (heap s))%nat) by (eapply lookup_lt_Some; eauto).
  destruct fuel as [|f]; [lia|].
  destruct (cancelCtx_cancel_gen e (default e cause0) f c removeFromParent
              cause0 s n (cancelCtx_cancel_ok _ _ f) eq_refl Hn Hf Hr)
    as (s1 & HC & Hcan & Hrun & Hold & Hnew & Honly).
  pose proof (Casc_sane _ _ _ _ _ _ HC Hs) as Hs1.
  exists s1. rewrite Hrun.
  destruct (removeFromParent && bool_decide (err n = None)) eqn:Hb.
  - apply andb_true_iff in Hb as [-> Hb]. apply bool_decide_eq_true in Hb.
    destruct (Casc_self _ _ _ _ _ _ HC Hn) as (n1 & Hn1 & _ & _ & Hcase).
    assert (Hctx1 : Context_ n1 = Some ctx)
      by (destruct Hcase as [-> | [_ ->]]; assumption).
    destruct (removeChild_Ret f s1 ctx (cancelerCancel c) Hs1)
      as (s' & Hrm & Ht & Hrmd).
    { eapply Casc_ctx_ok; eauto. }
    exists s'. split.
    { rewrite (bind_Ret _ _ _ _ _ (getNode_Ret _ _ _ Hn1)).
      now rewrite Hctx1. }
    split; [exact HC|]. split; [exact Hcan|]. split; [exact Ht|].
    split.
    { eapply (okm_Ret (le_from (length (heap s1)))); [|exact Hrm].
      apply okm_removeChild, _. }
    split; [eapply touch_sane; eauto|].
    split; [discriminate|]. split; [congruence|].
    split; [exact Hnew|]. split; [exact Honly|]. split; [auto | congruence].
  - exists s1. split; [reflexivity|].
    split; [exact HC|]. split; [exact Hcan|]. split; [apply touch_refl|].
    split; [apply le_state_refl|]. split; [exact Hs1|].
    split; [reflexivity|]. split; [exact Hold|]. split; [exact Hnew|].
    split; [exact Honly|]. split; [|reflexivity]. intros -> He.
    rewrite (bool_decide_eq_true_2 _ He) in Hb. discriminate.
Qed.

Lemma cancelCtx_cancel_returns fuel c removeFromParent e cause0 s n :
  wf s → heap s !! c = Some n → (length (heap s) - c ≤ fuel)%nat →
  ∃ s1 s',
    cancelCtx_cancel fuel c removeFromParent (Some e) cause0 s = Ret tt s'
    ∧ Casc e (default e cause0) c (Some c) s s1 ∧ canceled_in s1 c
    ∧ touch s1 s' ∧ le_state s1 s' ∧ sane s'
    ∧ (removeFromParent = false → s' = s1)
    ∧ (err n ≠ None → s' = setLog (log s ++ [EvLock c; EvUnlock c]) s)
    ∧ (err n = None →
       ∃ body, log s1 = log s ++ EvLock c :: body ++ [EvUnlock c]
               ∧ Forall (λ ev, (c < ev_ptr ev)%nat) body
               ∧ ∀ ch l', default [] (children n) = ch :: l' →
                   ∃ r, body = EvLock (canceler_ptr ch) :: r).
Proof.
  intros W Hn Hf.
  destruct (wf_context _ W c n Hn) as (ctx & Hctx & Hok).
  destruct (cancelCtx_cancel_returns_gen fuel c removeFromParent e cause0 s n
              ctx (wf_sane _ W)) as (s1 & s' & H);
    auto.
  { eapply ready_weaken; [|apply W]. lia. }
  exists s1, s'. intuition auto.
Qed.

(** C1.  On a state between operations, the cancel operation of a cancelable
    node, with a non-nil error [e] and a cause [cause0], returns; when it
    has, and in every state any run of operations leads to from there, each
    node that was registered below it, at any depth, has its done-signal
    closed, [e] as its terminal error and as its cause [cause0], or [e] when
    no cause was given; and the children set of the node is empty. *)
Theorem cancel_cascades_to_descendants
    fuel c removeFromParent e cause0 s :
  wf s → (c < length (heap s))%nat → (length (heap s) - c ≤ fuel)%nat →
  ∃ s', cancelCtx_cancel fuel c removeFromParent (Some e) cause0 s = Ret tt s'
        ∧ ∀ ops,
            (∀ q, descendant s c q →
               ∃ n, heap (runOps ops s') !! q = Some n
                    ∧ err n = Some e ∧ cause n = Some (default e cause0)
                    ∧ ∃ d, done n = Some d
                           ∧ is_closed (runOps ops s') d = true)
            ∧ ∃ n, heap (runOps ops s') !! c = Some n ∧ children n = None.
Proof.
  intros W Hc Hf.
  destruct (lookup_lt_is_Some_2 _ _ Hc) as [n Hn].
  destruct (cancelCtx_cancel_returns fuel c removeFromParent e cause0 s n
              W Hn Hf)
    as (s1 & s' & Hret & HC & Hcan & _ & Hle & _).
  exists s'. split; [exact Hret|].
  intros ops.
  assert (Hle' : le_state s1 (runOps ops s'))
    by (etransitivity; [exact Hle | apply runOps_le]).
  split.
  - intros q Hd.
    destruct (descendant_canceled _ _ _ _ _ _ W HC c q Hd Hcan)
      as [(m & Hm & Hem) Hcq].
    destruct (Casc_fields _ _ _ _ _ _ _ _ HC Hm Hem Hcq)
      as (m1 & Hm1 & He1 & Hz1 & _ & _ & _ & d & Hd1 & Hcl1).
    destruct (le_canceled _ _ _ _ _ _ _ _ Hle' Hm1 He1 Hz1 Hd1 Hcl1)
      as (m2 & Hm2 & He2 & Hz2 & Hd2 & Hcl2 & _).
    eauto 10.
  - assert (H1 : ∃ n1, heap s1 !! c = Some n1 ∧ err n1 ≠ None
                       ∧ children n1 = None).
    { destruct (err n) as [e0|] eqn:He.
      - destruct (Casc_self _ _ _ _ _ _ HC Hn) as (n1 & Hn1 & _ & _ & Hcase).
        destruct Hcase as [-> | [? _]]; [|congruence].
        exists n. split; [assumption|].
        destruct (wf_canceled _ W c n Hn) as [Hk _]; [congruence|].
        split; [congruence | assumption].
      - destruct (Casc_fields _ _ _ _ _ _ _ _ HC Hn He Hcan)
          as (n1 & Hn1 & He1 & _ & Hk1 & _).
        exists n1. split; [assumption|]. split; [congruence | assumption]. }
    destruct H1 as (n1 & Hn1 & He1 & Hk1).
    destruct (le_heap _ _ _ Hle' c n1 Hn1) as (n2 & Hn2 & Hnle).
    exists n2. split; [assumption|]. now apply (le_children _ _ Hnle).
Qed.

Lemma cancel_cascades_to_descendants_witness :
  ∃ s', cancelCtx_cancel 4 0 true (Some Canceled) None example_tree = Ret tt s'
        ∧ ∀ ops,
            (∀ q, descendant example_tree 0 q →
               ∃ n, heap (runOps ops s') !! q = Some n
                    ∧ err n = Some Canceled
                    ∧ cause n = Some (default Canceled None)
                    ∧ ∃ d, done n = Some d
                           ∧ is_closed (runOps ops s') d = true)
            ∧ ∃ n, heap (runOps ops s') !! 0%nat = Some n ∧ children n = None.
Proof.
  apply (cancel_cascades_to_descendants 4 0 true Canceled None example_tree).
  - apply wfb_wf. vm_compute. reflexivity.
  - vm_compute. lia.
  - vm_compute. lia.
Defined.

(** ** A cancel call on a canceled node *)

(** A cancel call on a canceled node: it takes the lock, sees the error and
    releases the lock. *)
Lemma cancelCtx_cancel_again fuel c removeFromParent err0 cause0 s n :
  heap s !! c = Some n → err n ≠ None →
  cancelCtx_cancel fuel c removeFromParent err0 cause0 s
  = match fuel, err0 with
    | O, _ => OutOfFuel
    | S _, None => Panic "context: internal error: missing cancel error" s
    | S _, Some _ =>
        if mu n then Blocked s
        else Ret tt (setLog (log s ++ [EvLock c; EvUnlock c]) s)
    end.
Proof.
  intros Hn He. destruct fuel as [|f]; [reflexivity|].
  destruct err0 as [e|]; [|reflexivity].
  cbn [cancelCtx_cancel].
  destruct (mu n) eqn:Hmu.
  - unfold bind at 1. unfold Lock, bind. rewrite (getNode_Ret _ _ _ Hn).
    now rewrite Hmu.
  - rewrite (bind_Ret _ _ _ _ _ (Lock_Ret _ _ _ Hn Hmu)).
    set (s1 := setLog _ _).
    assert (Hn1 : heap s1 !! c = Some (set_mu true n)).
    { subst s1. simpl. eapply lookup_insert_same; eauto. }
    rewrite (bind_Ret _ _ _ _ _ (getNode_Ret _ _ _ Hn1)).
    destruct (err (set_mu true n)) eqn:He1; [|simpl in He1; congruence].
    rewrite (Unlock_Ret _ _ _ Hn1 eq_refl). f_equal.
    subst s1. destruct s. unfold setLog, setHeap. simpl. f_equal.
    + rewrite list_insert_insert_eq, set_mu_relock by assumption.
      now apply list_insert_id.
    + now rewrite <- app_assoc.
Qed.

(** [Err] on a node whose lock is free. *)
Lemma cancelCtx_Err_Ret c n s :
  heap s !! c = Some n → mu n = false →
  ∃ s', Err (cancelCtxP c) s = Ret (err n) s' ∧ eqlog s s'.
Proof.
  intros Hn Hmu.
  destruct (locked_read err c n s Hn Hmu) as (s' & Hrun & Hlog).
  exists s'. split; [exact Hrun | exact Hlog].
Qed.

(** ** Locks during the cascade *)

Lemma holds_keeps c h ev :
  c ∈ h → (c < ev_ptr ev)%nat → c ∈ holds h ev.
Proof.
  intros Hc Hlt. destruct ev as [p|p]; simpl in *.
  - now apply elem_of_cons; right.
  - apply list_elem_of_filter. split; [lia | assumption].
Qed.

Lemma held_keeps c l : ∀ h,
  c ∈ h → Forall (λ ev, (c < ev_ptr ev)%nat) l → c ∈ fold_left holds l h.
Proof.
  induction l as [|ev l IH]; intros h Hc Hl; simpl; [assumption|].
  inversion Hl; subst. apply IH; [|assumption]. now apply holds_keeps.
Qed.

Lemma max_held_from_ge l : ∀ h, (length h ≤ max_held_from h l)%nat.
Proof. induction l as [|ev l IH]; intros h; simpl; lia. Qed.

(** ** Locks in depth *)

Lemma balanced_nil b : balanced b [].
Proof. intros h _. reflexivity. Qed.

Lemma balanced_app b l1 l2 :
  balanced b l1 → balanced b l2 → balanced b (l1 ++ l2).
Proof.
  intros H1 H2 h Hh. rewrite fold_left_app, (H1 h Hh). now apply H2.
Qed.

Lemma balanced_weaken b b' l : (b ≤ b')%nat → balanced b' l → balanced b l.
Proof.
  intros Hb H h Hh. apply H. eapply Forall_impl; [exact Hh|].
  simpl. intros. lia.
Qed.

Lemma filter_ne_below c h :
  Forall (λ p, (p < c)%nat) h → filter (λ q, q ≠ c) h = h.
Proof.
  induction 1 as [|p h Hp Hh IH]; [reflexivity|].
  rewrite filter_cons_True by lia. now rewrite IH.
Qed.

Lemma balanced_wrap c B :
  balanced (S c) B → balanced c (EvLock c :: B ++ [EvUnlock c]).
Proof.
  intros HB h Hh. simpl. rewrite fold_left_app. simpl.
  rewrite (HB (c :: h)).
  - rewrite filter_cons_False by (intros H; exact (H eq_refl)).
    now apply filter_ne_below.
  - constructor; [lia|]. eapply Forall_impl; [exact Hh|]. simpl. intros. lia.
Qed.

Lemma balanced_pair c : balanced c [EvLock c; EvUnlock c].
Proof. apply (balanced_wrap c []), balanced_nil. Qed.

Lemma max_held_from_app_l l1 l2 : ∀ h,
  (max_held_from h l1 ≤ max_held_from h (l1 ++ l2))%nat.
Proof.
  induction l1 as [|ev l1 IH]; intros h; simpl.
  - apply max_held_from_ge.
  - specialize (IH (holds h ev)). lia.
Qed.

Lemma max_held_from_app_r l1 l2 : ∀ h,
  (max_held_from (fold_left holds l1 h) l2 ≤ max_held_from h (l1 ++ l2))%nat.
Proof.
  induction l1 as [|ev l1 IH]; intros h; simpl.
  - lia.
  - specialize (IH (holds h ev)). lia.
Qed.

Lemma nested_app_l b m l1 l2 : nested b m l1 → nested b m (l1 ++ l2).
Proof.
  intros H h Hh. pose proof (H h Hh).
  pose proof (max_held_from_app_l l1 l2 h). lia.
Qed.

Lemma nested_app_r b m l1 l2 :
  balanced b l1 → nested b m l2 → nested b m (l1 ++ l2).
Proof.
  intros H1 H2 h Hh. pose proof (H2 h Hh).
  pose proof (max_held_from_app_r l1 l2 h). rewrite (H1 h Hh) in *. lia.
Qed.

Lemma nested_weaken b b' m l : (b ≤ b')%nat → nested b' m l → nested b m l.
Proof.
  intros Hb H h Hh. apply H. eapply Forall_impl; [exact Hh|].
  simpl. intros. lia.
Qed.

Lemma nested_lock c r : nested c 1 (EvLock c :: r).
Proof.
  intros h _. simpl. pose proof (max_held_from_ge r (c :: h)). simpl in *. lia.
Qed.

Lemma nested_wrap c m B r :
  nested (S c) m B → nested c (S m) (EvLock c :: B ++ r).
Proof.
  intros H h Hh. simpl.
  assert (Hc : Forall (λ p, (p < S c)%nat) (c :: h)).
  { constructor; [lia|]. eapply Forall_impl; [exact Hh|]. simpl. intros. lia. }
  pose proof (H _ Hc). pose proof (max_held_from_app_l B r (c :: h)).
  simpl in *. lia.
Qed.

(** ** Registrations below a node *)

Lemma descendant_last s p q :
  descendant s p q → ∃ r, registered s r q ∧ within s p r.
Proof.
  induction 1 as [p n ch Hp Hin | p q r H1 _ _ (r' & Hreg & Hw)].
  - exists p. split; [|now left]. exists n, ch. auto.
  - exists r'. split; [assumption|]. right.
    destruct Hw as [-> | Hd]; [assumption|].
    eapply descendant_trans; eauto.
Qed.

Lemma descendant_above s b p q :
  ready s b → (b ≤ p)%nat → descendant s p q → (p < q)%nat.
Proof.
  intros Hr Hb Hd. revert Hb.
  induction Hd as [p n ch Hp Hin | p q r _ IH1 _ IH2]; intros Hb.
  - destruct (Hr p n Hp Hb) as [_ Hch _ _ _]. now destruct (Hch ch Hin).
  - specialize (IH1 Hb). specialize (IH2 ltac:(lia)). lia.
Qed.

Lemma within_above s b p q :
  ready s b → (b ≤ p)%nat → within s p q → (p ≤ q)%nat.
Proof.
  intros Hr Hb [-> | Hd]; [lia|].
  pose proof (descendant_above _ _ _ _ Hr Hb Hd). lia.
Qed.

Lemma within_child s p n ch q :
  heap s !! p = Some n → ch ∈ default [] (children n) →
  within s (canceler_ptr ch) q → descendant s p q.
Proof.
  intros Hp Hin [-> | Hd].
  - eapply descendant_child; eauto.
  - eapply descendant_trans; [|exact Hd]. eapply descendant_child; eauto.
Qed.

(** Two nodes in the children of one node have no node in common below
    them. *)
Lemma within_disjoint s c x y :
  ready s (S c) → single_owner s →
  registered s c x → registered s c y → (c < x)%nat → (c < y)%nat →
  ∀ q, within s x q → within s y q → x = y.
Proof.
  intros Hr Hso Hx Hy Hcx Hcy q.
  induction q as [q IH] using (well_founded_induction lt_wf).
  intros Wx Wy.
  assert (Htop : ∀ u v, registered s c u → (c < v)%nat →
                        descendant s v u → False).
  { intros u v Hu Hv Hd. destruct (descendant_last _ _ _ Hd) as (r & Hreg & Hw).
    rewrite (Hso _ _ _ Hreg Hu) in Hw.
    pose proof (within_above s (S c) v c Hr ltac:(lia) Hw). lia. }
  destruct Wx as [-> | Dx]; destruct Wy as [Ey | Dy].
  - congruence.
  - exfalso. eauto.
  - subst q. exfalso. eauto.
  - destruct (descendant_last _ _ _ Dx) as (r & Hreg & Hw).
    destruct (descendant_last _ _ _ Dy) as (r' & Hreg' & Hw').
    rewrite (Hso _ _ _ Hreg' Hreg) in Hw'.
    apply (IH r); [|assumption..].
    pose proof (within_above s (S c) x r Hr ltac:(lia) Hw).
    destruct Hreg as (nr & ch & Hnr & Hin & <-).
    destruct (Hr r nr Hnr ltac:(lia)) as [_ Hch _ _ _].
    now destruct (Hch ch Hin).
Qed.

Lemma live_chain_same s s' x k :
  (∀ q n, within s x q → heap s !! q = Some n → heap s' !! q = Some n) →
  live_chain s x k → live_chain s' x k.
Proof.
  intros Hsame Hl. revert Hsame.
  induction Hl as [c n Hc He | c n ch k Hc He Hin _ IH]; intros Hsame.
  - eapply live_chain_end; [|exact He]. apply Hsame; [now left | assumption].
  - eapply live_chain_step; [|exact He|exact Hin|].
    + apply Hsame; [now left | assumption].
    + apply IH. intros q m Hw Hq. apply Hsame; [|assumption].
      right. eapply within_child; eauto.
Qed.

Lemma registered_sub_descendant s s' p q :
  (∀ r u, registered s' r u → registered s r u) →
  descendant s' p q → descendant s p q.
Proof.
  intros Hsub. induction 1 as [p n ch Hp Hin | p q r _ IH1 _ IH2].
  - destruct (Hsub p (canceler_ptr ch)) as (n0 & ch0 & Hp0 & Hin0 & E).
    { exists n, ch. auto. }
    rewrite <- E. eapply descendant_child; eauto.
  - eapply descendant_trans; eauto.
Qed.

Lemma registered_sub_within s s' p q :
  (∀ r u, registered s' r u → registered s r u) →
  within s' p q → within s p q.
Proof.
  intros Hsub [-> | Hd]; [now left | right].
  eapply registered_sub_descendant; eauto.
Qed.

Lemma registered_sub_single_owner s s' :
  (∀ r u, registered s' r u → registered s r u) →
  single_owner s → single_owner s'.
Proof. intros Hsub Hso r r' q H1 H2. eapply Hso; eauto. Qed.

Lemma wf_single_owner s : wf s → single_owner s.
Proof.
  intros W r r' q (nr & ch & Hr & Hin & Hp) (nr' & ch' & Hr' & Hin' & Hp').
  destruct (wf_registered _ W r nr ch Hr Hin) as (nc & ctx & Hc & Hctx & _ & Hres).
  destruct (wf_registered _ W r' nr' ch' Hr' Hin')
    as (nc' & ctx' & Hc' & Hctx' & _ & Hres').
  rewrite Hp in Hc. rewrite Hp' in Hc'. congruence.
Qed.

Section locks.
Variables e z : error.

Lemma registered_Casc b x s s' r q :
  Casc e z b x s s' → registered s' r q → registered s r q.
Proof.
  intros HC (nr' & ch & Hr' & Hin & Hp).
  assert (Hlt : (r < length (heap s))%nat).
  { rewrite <- (casc_len _ _ _ _ _ _ HC). eapply lookup_lt_Some; eauto. }
  destruct (lookup_lt_is_Some_2 _ _ Hlt) as [nr Hnr].
  destruct (casc_node _ _ _ _ _ _ HC r nr Hnr)
    as (m & Hm & [-> | (_ & _ & ->)]);
    rewrite Hr' in Hm; injection Hm as ->.
  - exists nr, ch. auto.
  - destruct (bool_decide (x = Some r)); simpl in Hin; inversion Hin.
Qed.

(** The first steps of the [cancel] of a node not canceled: it takes the
    lock, sets the error and the cause and closes the channel; what is left
    is to cancel the children, to clear their set and to release the lock. *)
Lemma cancel_unfold f c cause0 s n :
  default e cause0 = z → heap s !! c = Some n → mu n = false →
  err n = None → chanOf c ∉ closed s →
  (done n = None ∨ done n = Some (chanOf c)) →
  ∃ s4,
    (∀ removeFromParent,
       cancelCtx_cancel (S f) c removeFromParent (Some e) cause0 s
       = (forM (default [] (children n))
               (λ child, canceler_cancel f child false (Some e) (Some z));;;
          modNode c (set_children None);;;
          Unlock c;;;
          if removeFromParent
          then (n' <- getNode c;;
                removeChild f (Context_ n') (cancelerCancel c))
          else ret tt) s4)
    ∧ heap s4 = <[c := mkNode (Context_ n) true (closed_done n) (children n)
                              (Some e) (Some z) (ext n)]> (heap s)
    ∧ (∀ ch, ch ∈ closed s4 → ch ∈ closed s ∨ ch = chanOf c)
    ∧ timers s4 = timers s
    ∧ log s4 = log s ++ [EvLock c].
Proof.
  intros Hz Hn Hmu He Hncl Hdone.
  assert (Hcause : match cause0 with None => Some e | Some _ => cause0 end
                   = Some z) by (destruct cause0; simpl in Hz; congruence).
  pose (s1 := setLog (log s ++ [EvLock c])
                (setHeap (<[c := set_mu true n]> (heap s)) s)).
  assert (Hn1 : heap s1 !! c = Some (set_mu true n))
    by (apply (lookup_insert_same _ _ _ _ Hn)).
  pose (s2 := setHeap (<[c := set_err (Some e) (set_mu true n)]> (heap s1)) s1).
  assert (Hn2 : heap s2 !! c = Some (set_err (Some e) (set_mu true n)))
    by (apply (lookup_insert_same _ _ _ _ Hn1)).
  pose (s3 := setHeap (<[c := set_cause (Some z)
                              (set_err (Some e) (set_mu true n))]> (heap s2))
                s2).
  assert (Hn3 : heap s3 !! c
                = Some (set_cause (Some z) (set_err (Some e) (set_mu true n))))
    by (apply (lookup_insert_same _ _ _ _ Hn2)).
  assert (Hstart : ∀ removeFromParent,
    cancelCtx_cancel (S f) c removeFromParent (Some e) cause0 s
    = (match done n with
       | None => modNode c (set_done (Some closedchan))
       | Some d => close d
       end;;;
       forM (default [] (children n))
            (λ child, canceler_cancel f child false (Some e) (Some z));;;
       modNode c (set_children None);;;
       Unlock c;;;
       if removeFromParent
       then (n' <- getNode c;;
             removeChild f (Context_ n') (cancelerCancel c))
       else ret tt) s3).
  { intros removeFromParent. cbn [cancelCtx_cancel]. rewrite Hcause.
    rewrite (bind_Ret _ _ _ _ _ (Lock_Ret c n s Hn Hmu)). fold s1.
    rewrite (bind_Ret _ _ _ _ _ (getNode_Ret _ _ _ Hn1)).
    change (err (set_mu true n)) with (err n). rewrite He.
    rewrite (bind_Ret _ _ _ _ _ (modNode_Ret c _ _ s1 Hn1)). fold s2.
    rewrite (bind_Ret _ _ _ _ _ (modNode_Ret c _ _ s2 Hn2)). fold s3.
    reflexivity. }
  destruct (done n) as [d|] eqn:Hd.
  - destruct Hdone as [?|[= ->]]; [discriminate|].
    assert (Hopen : is_closed s3 (chanOf c) = false)
      by (apply bool_decide_eq_false_2; exact Hncl).
    eexists. split.
    { intros removeFromParent. rewrite Hstart.
      rewrite (bind_Ret _ _ _ _ _ (close_Ret _ s3 Hopen)). reflexivity. }
    split; [|split; [|split]]; simpl.
    + rewrite !list_insert_insert_eq.
      unfold closed_done, set_cause, set_err, set_mu. simpl.
      rewrite Hd. reflexivity.
    + intros ch Hin. apply elem_of_cons in Hin as [-> | Hin]; auto.
    + reflexivity.
    + reflexivity.
  - eexists. split.
    { intros removeFromParent. rewrite Hstart.
      rewrite (bind_Ret _ _ _ _ _ (modNode_Ret c _ _ s3 Hn3)). reflexivity. }
    split; [|split; [|split]]; simpl.
    + rewrite !list_insert_insert_eq.
      unfold closed_done, set_done, set_cause, set_err, set_mu. simpl.
      rewrite Hd. reflexivity.
    + auto.
    + reflexivity.
    + reflexivity.
Qed.

(** The end of the [cancel] of a [timerCtx] and of an [afterFuncCtx]: the
    first takes and releases the lock of the node once more, the second
    takes no lock; neither changes another node. *)
Lemma timer_tail_locks c n tf d s :
  heap s !! c = Some n → mu n = false → ext n = timerExt tf d →
  (∀ t, tf = Some t → (t < length (timers s))%nat) →
  ∃ s', (Lock c;;;
         t <- getTimerField c;;
         match t with
         | Some t =>
             timer_Stop t;;;
             modNode c (λ n, match ext n with
                             | timerExt _ d => set_ext (timerExt None d) n
                             | _ => n
                             end)
         | None => ret tt
         end;;;
         Unlock c) s = Ret tt s'
        ∧ log s' = log s ++ [EvLock c; EvUnlock c]
        ∧ ∀ q, q ≠ c → heap s' !! q = heap s !! q.
Proof.
  intros Hn Hmu Hx Htf.
  rewrite (bind_Ret _ _ _ _ _ (Lock_Ret c n s Hn Hmu)).
  match goal with |- context [bind _ _ ?s0] => set (sL := s0) end.
  assert (HnL : heap sL !! c = Some (set_mu true n))
    by (apply (lookup_insert_same _ _ _ _ Hn)).
  rewrite (bind_Ret _ _ _ _ _ (getTimerField_Ret c _ tf d sL HnL Hx)).
  destruct tf as [t|].
  - pose proof (Htf t eq_refl) as Ht.
    destruct (lookup_lt_is_Some_2 _ _ Ht) as [tm Htm].
    erewrite (bind_Ret (bind (timer_Stop t) _)); cycle 1.
    { rewrite (bind_Ret _ _ _ _ _ (timer_Stop_Ret t tm sL Htm)).
      apply (modNode_Ret c (set_mu true n)). exact HnL. }
    erewrite Unlock_Ret; cycle 1.
    { simpl. apply (lookup_insert_same _ _ _ _ HnL). }
    { simpl. rewrite Hx. reflexivity. }
    eexists. split; [reflexivity|]. split; simpl.
    + now rewrite <- app_assoc.
    + intros q Hq. now rewrite !list_lookup_insert_ne by congruence.
  - rewrite bind_ret_l. rewrite (Unlock_Ret c _ sL HnL eq_refl).
    eexists. split; [reflexivity|]. split; simpl.
    + now rewrite <- app_assoc.
    + intros q Hq. now rewrite !list_lookup_insert_ne by congruence.
Qed.

Lemma afterFunc_tail_locks a n once f s :
  heap s !! a = Some n → ext n = afterFuncExt once f →
  ∃ s', (n <- getNode a;;
         match ext n with
         | afterFuncExt false f =>
             modNode a (set_ext (afterFuncExt true f));;;
             modify (λ s, setStarted (started s ++ [f]) s)
         | afterFuncExt true _ => ret tt
         | _ => panic nilDeref
         end) s = Ret tt s'
        ∧ log s' = log s
        ∧ ∀ q, q ≠ a → heap s' !! q = heap s !! q.
Proof.
  intros Hn Hx. rewrite (bind_Ret _ _ _ _ _ (getNode_Ret _ _ _ Hn)).
  rewrite Hx. destruct once.
  - exists s. auto.
  - rewrite (bind_Ret _ _ _ _ _ (modNode_Ret _ _ _ _ Hn)).
    eexists. split; [reflexivity|]. split; simpl; [reflexivity|].
    intros q Hq. now rewrite list_lookup_insert_ne by congruence.
Qed.

Lemma canceler_lock_of_cancelCtx f :
  cancelCtx_lock_spec e z f → canceler_lock_spec e z f.
Proof.
  intros HA ch cause0 s Hz (n & Hn & Hkm) Hf Hr Hso.
  assert (Hc : (canceler_ptr ch < length (heap s))%nat)
    by (eapply lookup_lt_Some; eauto).
  destruct (HA _ cause0 s Hz Hc Hf Hr Hso)
    as (s1 & L & Hrun & Hlog & Hbal & (mid & post & HL) & Hfoot & Hnest).
  destruct (cancelCtx_cancel_ok e z f _ cause0 s Hz Hc Hf Hr)
    as (s1' & Hrun' & HC & _).
  rewrite Hrun in Hrun'. injection Hrun' as <-.
  pose proof (Hr _ n Hn (le_n _)) as [Hmu Hch Hlive Hst Htm].
  destruct (Casc_self _ _ _ _ _ _ HC Hn) as (n1 & Hn1 & Hmu1 & Hext1 & _).
  rewrite Hmu in Hmu1.
  assert (Hfoot' : ∀ s', (∀ q, q ≠ canceler_ptr ch →
                               heap s' !! q = heap s1 !! q) →
    ∀ q m, heap s !! q = Some m →
           within s (canceler_ptr ch) q ∨ heap s' !! q = Some m).
  { intros s' Hne q m Hq. destruct (decide (q = canceler_ptr ch)) as [->|Hq'].
    - left. now left.
    - destruct (Hfoot q m Hq) as [? | Hq1]; [now left | right].
      now rewrite Hne. }
  destruct ch as [p|p|p]; simpl in *.
  - exists s1, L. split; [exact Hrun|]. split; [exact Hlog|].
    split; [exact Hbal|]. split; [eauto|]. split; [exact Hfoot | exact Hnest].
  - destruct (ext n) as [|tf d|] eqn:Hx; try discriminate.
    destruct (timer_tail_locks p n1 tf d s1 Hn1 Hmu1 Hext1)
      as (s' & Htail & Hlog' & Hne).
    { intros t ->. rewrite (casc_timers_len _ _ _ _ _ _ HC). apply Htm.
      unfold timer_of. now rewrite Hx. }
    exists s', (L ++ [EvLock p; EvUnlock p]). split.
    { unfold canceler_cancel. simpl. unfold timerCtx_cancel_with.
      rewrite (bind_Ret _ _ _ _ _ Hrun). rewrite bind_ret_l. exact Htail. }
    split; [now rewrite Hlog', Hlog, <- app_assoc|].
    split; [apply balanced_app; [exact Hbal | apply balanced_pair]|].
    split.
    { exists mid, (post ++ [EvLock p; EvUnlock p]). rewrite HL. simpl.
      now rewrite <- app_assoc. }
    split; [now apply Hfoot'|].
    intros k Hk. apply nested_app_l. now apply Hnest.
  - destruct (ext n) as [| |once fn] eqn:Hx; try discriminate.
    destruct (afterFunc_tail_locks p n1 once fn s1 Hn1 Hext1)
      as (s' & Htail & Hlog' & Hne).
    exists s', L. split.
    { unfold canceler_cancel. simpl. unfold afterFuncCtx_cancel_with.
      rewrite (bind_Ret _ _ _ _ _ Hrun). rewrite bind_ret_l. exact Htail. }
    split; [now rewrite Hlog', Hlog|].
    split; [exact Hbal|]. split; [eauto|].
    split; [now apply Hfoot' | exact Hnest].
Qed.

(** The children of a node are canceled one after the other: each takes and
    releases its lock, and the locks of a chain of registrations below it. *)
Lemma lock_loop f c :
  canceler_lock_spec e z f →
  ∀ l s,
    (∀ ch, ch ∈ l → (c < canceler_ptr ch)%nat ∧ kind_ok s ch
                    ∧ registered s c (canceler_ptr ch)) →
    (length (heap s) - S c ≤ f)%nat → ready s (S c) → single_owner s →
    ∃ s' B,
      forM l (λ child, canceler_cancel f child false (Some e) (Some z)) s
      = Ret tt s'
      ∧ log s' = log s ++ B
      ∧ balanced (S c) B
      ∧ (∀ x, x ∈ l →
           ∃ pre mid post,
             B = pre ++ EvLock (canceler_ptr x)
                        :: mid ++ EvUnlock (canceler_ptr x) :: post)
      ∧ (∀ q m, heap s !! q = Some m →
           (∃ x, x ∈ l ∧ within s (canceler_ptr x) q)
           ∨ heap s' !! q = Some m)
      ∧ (∀ x k, x ∈ l → live_chain s (canceler_ptr x) k →
           nested (S c) (S k) B).
Proof.
  intros HB. induction l as [|y l IH]; intros s Hl Hf Hr Hso.
  - exists s, []. split; [reflexivity|]. split; [now rewrite app_nil_r|].
    split; [apply balanced_nil|].
    split; [intros x Hin; inversion Hin|].
    split; [auto|]. intros x k Hin. inversion Hin.
  - destruct (Hl y) as (Hy & Hky & Hry); [now left|].
    assert (Hr1 : ready s (canceler_ptr y))
      by (eapply ready_weaken; [|exact Hr]; lia).
    destruct (HB y (Some z) s eq_refl Hky ltac:(lia) Hr1 Hso)
      as (s1 & L & Hrun & Hlog & Hbal & (mid & post & HL) & Hfoot & Hnest).
    destruct (canceler_cancel_ok e z f y (Some z) s eq_refl Hky ltac:(lia) Hr1)
      as (s1' & Hrun' & HC & _).
    rewrite Hrun in Hrun'. injection Hrun' as <-.
    assert (Hsub : ∀ r u, registered s1 r u → registered s r u)
      by (intros r u; eapply registered_Casc; eauto).
    destruct (IH s1) as (s2 & B & Hrun2 & Hlog2 & Hbal2 & Heach & Hfoot2 & Hnest2).
    { intros ch Hin. destruct (Hl ch) as (Hlt & Hk & Hreg); [now right|].
      split; [assumption|]. split; [eapply kind_ok_Casc; eauto|].
      destruct Hreg as (nc & ch' & Hc & Hin' & Hp). exists nc, ch'.
      split; [|auto]. rewrite (Casc_below _ _ _ _ _ _ _ HC) by lia.
      assumption. }
    { now rewrite (casc_len _ _ _ _ _ _ HC). }
    { eapply ready_Casc; eauto. }
    { eapply registered_sub_single_owner; eauto. }
    assert (Hbal1 : balanced (S c) L)
      by (eapply balanced_weaken; [|exact Hbal]; lia).
    exists s2, (L ++ B). split.
    { simpl. now rewrite (bind_Ret _ _ _ _ _ Hrun). }
    split; [now rewrite Hlog2, Hlog, <- app_assoc|].
    split; [now apply balanced_app|].
    split; [|split].
    + intros x Hin. apply elem_of_cons in Hin as [-> | Hin].
      * exists [], mid, (post ++ B). rewrite HL. simpl.
        now rewrite <- app_assoc.
      * destruct (Heach x Hin) as (pre & mid' & post' & ->).
        exists (L ++ pre), mid', post'. now rewrite <- app_assoc.
    + intros q m Hq. destruct (Hfoot q m Hq) as [Hw | Hq1].
      * left. exists y. split; [now left | assumption].
      * destruct (Hfoot2 q m Hq1) as [(x & Hin & Hw) | Hq2]; [left | now right].
        exists x. split; [now right|]. eapply registered_sub_within; eauto.
    + intros x k Hin Hk.
      destruct (decide (canceler_ptr x = canceler_ptr y)) as [E | Hne].
      * apply nested_app_l. eapply nested_weaken; [|apply Hnest].
        -- lia.
        -- now rewrite <- E.
      * apply nested_app_r; [exact Hbal1|].
        apply elem_of_cons in Hin as [-> | Hin]; [congruence|].
        apply (Hnest2 x k Hin).
        destruct (Hl x) as (Hx & _ & Hrx); [now right|].
        eapply live_chain_same; [|exact Hk].
        intros q m Hw Hq. destruct (Hfoot q m Hq) as [Hwy | ?]; [|assumption].
        exfalso. apply Hne.
        exact (within_disjoint s c _ _ Hr Hso Hrx Hry Hx Hy q Hw Hwy).
Qed.

(** One call of the [cancel] of a node not canceled: between taking its lock
    and releasing it, the node cancels its children. *)
Lemma cancel_lock_gen f c cause0 s n :
  canceler_lock_spec e z f →
  default e cause0 = z → heap s !! c = Some n → err n = None →
  (length (heap s) - c ≤ S f)%nat → ready s c → single_owner s →
  ∃ s1 B,
    (∀ removeFromParent,
       cancelCtx_cancel (S f) c removeFromParent (Some e) cause0 s
       = (if removeFromParent
          then (n' <- getNode c;;
                removeChild f (Context_ n') (cancelerCancel c))
          else ret tt) s1)
    ∧ log s1 = log s ++ EvLock c :: B ++ [EvUnlock c]
    ∧ balanced (S c) B
    ∧ (∀ x, x ∈ default [] (children n) →
         ∃ pre mid post,
           B = pre ++ EvLock (canceler_ptr x)
                      :: mid ++ EvUnlock (canceler_ptr x) :: post)
    ∧ (∀ q m, heap s !! q = Some m → within s c q ∨ heap s1 !! q = Some m)
    ∧ (∀ k r, live_chain s c k → nested c (S k) (EvLock c :: B ++ r)).
Proof.
  intros HB Hz Hn He Hf Hr Hso.
  assert (Hc : (c < length (heap s))%nat) by (eapply lookup_lt_Some; eauto).
  pose proof (Hr c n Hn (le_n _)) as [Hmu Hch Hlive Hst Htm].
  destruct (Hlive He) as [Hncl Hdone].
  destruct (cancel_unfold f c cause0 s n Hz Hn Hmu He Hncl Hdone)
    as (s4 & Hrun4 & Hh4 & Hcl4 & Ht4 & Hlog4).
  set (n4 := mkNode (Context_ n) true (closed_done n) (children n) (Some e)
                    (Some z) (ext n)) in *.
  destruct (ready_after_mark c n4 s s4 Hr Hc Hh4 Hcl4 Ht4) as [Hr4 Hk4].
  assert (Hlen4 : length (heap s4) = length (heap s))
    by (rewrite Hh4; apply length_insert).
  assert (Hn4 : heap s4 !! c = Some n4)
    by (rewrite Hh4; now apply list_lookup_insert_eq).
  assert (Hsub : ∀ r u, registered s4 r u → registered s r u).
  { intros r u (nr & ch & Hnr & Hin & Hp).
    destruct (decide (r = c)) as [-> | Hne].
    - rewrite Hn4 in Hnr. injection Hnr as <-. exists n, ch. auto.
    - rewrite Hh4, list_lookup_insert_ne in Hnr by congruence.
      exists nr, ch. auto. }
  destruct (lock_loop f c HB (default [] (children n)) s4)
    as (s5 & B & Hloop & Hlog5 & Hbal & Heach & Hfoot & Hnest).
  { intros ch Hin. destruct (Hch ch Hin) as [Hlt Hk].
    split; [assumption|]. split; [auto|]. exists n4, ch. auto. }
  { rewrite Hlen4. lia. }
  { exact Hr4. }
  { eapply registered_sub_single_owner; eauto. }
  assert (Hn5 : heap s5 !! c = Some n4).
  { destruct (Hfoot c n4 Hn4) as [(x & Hin & Hw) | ?]; [|assumption].
    destruct (Hch x Hin) as [Hlt _].
    pose proof (within_above s4 (S c) (canceler_ptr x) c Hr4 ltac:(lia) Hw).
    lia. }
  pose (s5' := setHeap (<[c := set_children None n4]> (heap s5)) s5).
  assert (Hn5' : heap s5' !! c = Some (set_children None n4))
    by (apply (lookup_insert_same _ _ _ _ Hn5)).
  eexists _, B. split; [|split; [|split; [exact Hbal|split; [exact Heach|split]]]].
  - intros removeFromParent. rewrite Hrun4.
    rewrite (bind_Ret _ _ _ _ _ Hloop).
    rewrite (bind_Ret _ _ _ _ _ (modNode_Ret c n4 _ s5 Hn5)). fold s5'.
    rewrite (bind_Ret _ _ _ _ _ (Unlock_Ret c _ s5' Hn5' eq_refl)).
    reflexivity.
  - simpl. rewrite Hlog5, Hlog4, <- !app_assoc. reflexivity.
  - intros q m Hq. destruct (decide (q = c)) as [-> | Hne].
    { left. now left. }
    assert (Hq4 : heap s4 !! q = Some m)
      by (rewrite Hh4, list_lookup_insert_ne by congruence; assumption).
    destruct (Hfoot q m Hq4) as [(x & Hin & Hw) | Hq5].
    + left. right. eapply within_child; [exact Hn | exact Hin|].
      eapply registered_sub_within; eauto.
    + right. simpl. now rewrite !list_lookup_insert_ne by congruence.
  - intros k r Hk. inversion Hk as [c0 n0 Hc0 He0 | c0 n0 ch k' Hc0 He0 Hin Hk'];
      subst.
    + apply nested_lock.
    + rewrite Hn in Hc0. injection Hc0 as <-.
      apply nested_wrap. apply (Hnest ch k' Hin).
      destruct (Hch ch Hin) as [Hlt _].
      eapply live_chain_same; [|exact Hk'].
      intros q m Hw Hq. rewrite Hh4, list_lookup_insert_ne; [assumption|].
      pose proof (within_above s c (canceler_ptr ch) q Hr ltac:(lia) Hw). lia.
Qed.

Lemma cancelCtx_lock_ok f : cancelCtx_lock_spec e z f.
Proof.
  induction f as [|f IH]; intros c cause0 s Hz Hc Hf Hr Hso; [lia|].
  destruct (lookup_lt_is_Some_2 _ _ Hc) as [n Hn].
  destruct (err n) as [e0|] eqn:He.
  - destruct (cancelCtx_cancel_gen e z f c false cause0 s n
                (cancelCtx_cancel_ok e z f) Hz Hn Hf Hr)
      as (s' & _ & _ & Hrun & Hold & _).
    rewrite He in Hold. specialize (Hold ltac:(discriminate)).
    exists s', [EvLock c; EvUnlock c]. split; [exact Hrun|].
    split; [now rewrite Hold|]. split; [apply balanced_pair|].
    split; [now exists [], []|]. split.
    + intros q m Hq. right. now rewrite Hold.
    + intros k Hk. inversion Hk; congruence.
  - destruct (cancel_lock_gen f c cause0 s n
                (canceler_lock_of_cancelCtx f IH) Hz Hn He Hf Hr Hso)
      as (s1 & B & Hrun & Hlog & Hbal & Heach & Hfoot & Hnest).
    exists s1, (EvLock c :: B ++ [EvUnlock c]).
    split; [exact (Hrun false)|]. split; [exact Hlog|].
    split; [now apply balanced_wrap|]. split; [now exists B, []|].
    split; [exact Hfoot|]. intros k Hk. now apply Hnest.
Qed.

Lemma canceler_lock_ok f : canceler_lock_spec e z f.
Proof. apply canceler_lock_of_cancelCtx, cancelCtx_lock_ok. Qed.

End locks.

(** The history of the locks of a call of the [cancel] of a node not
    canceled, on a state between operations: [body] is the part between the
    node taking its lock and releasing it, [rest] what the removal from the
    parent adds. *)
Lemma cancelCtx_cancel_locks fuel c removeFromParent e cause0 s n :
  wf s → heap s !! c = Some n → err n = None →
  (length (heap s) - c ≤ fuel)%nat →
  ∃ s' body rest,
    cancelCtx_cancel fuel c removeFromParent (Some e) cause0 s = Ret tt s'
    ∧ sane s'
    ∧ log s' = log s ++ EvLock c :: body ++ EvUnlock c :: rest
    ∧ (removeFromParent = false → rest = [])
    ∧ Forall (λ ev, (c < ev_ptr ev)%nat) body
    ∧ (∀ ch l', default [] (children n) = ch :: l' →
         ∃ r, body = EvLock (canceler_ptr ch) :: r)
    ∧ (∀ x, x ∈ default [] (children n) →
         ∃ pre mid post,
           body = pre ++ EvLock (canceler_ptr x)
                         :: mid ++ EvUnlock (canceler_ptr x) :: post)
    ∧ (∀ k r, live_chain s c k → nested c (S k) (EvLock c :: body ++ r)).
Proof.
  intros W Hn He Hf.
  assert (Hc : (c < length (heap s))%nat) by (eapply lookup_lt_Some; eauto).
  assert (Hr : ready s c) by (eapply ready_weaken; [|apply W]; lia).
  destruct fuel as [|f]; [lia|].
  destruct (cancel_lock_gen e (default e cause0) f c cause0 s n
              (canceler_lock_ok _ _ f) eq_refl Hn He Hf Hr
              (wf_single_owner _ W))
    as (s1 & B & Hrun & Hlog & _ & Heach & _ & Hnest).
  destruct (cancelCtx_cancel_returns (S f) c false e cause0 s n W Hn Hf)
    as (s1' & s0 & Hret0 & HC & _ & _ & _ & Hs0 & Hsame & _ & Hnew).
  rewrite (Hrun false) in Hret0. injection Hret0 as <-.
  rewrite <- (Hsame eq_refl) in HC.
  destruct (Hnew He) as (body & Hlog' & Hbody & Hfirst).
  rewrite <- (Hsame eq_refl), Hlog in Hlog'.
  apply app_inv_head in Hlog'. injection Hlog' as Hlog'.
  apply app_inv_tail in Hlog'. subst body. clear Hnew Hsame s1'.
  destruct removeFromParent.
  - destruct (wf_context _ W c n Hn) as (ctx & Hctx & Hok).
    destruct (Casc_self _ _ _ _ _ _ HC Hn) as (n1 & Hn1 & _ & _ & Hcase).
    assert (Hctx1 : Context_ n1 = Some ctx)
      by (destruct Hcase as [-> | [_ ->]]; assumption).
    destruct (removeChild_Ret f s1 ctx (cancelerCancel c) Hs0)
      as (s' & Hrm & Ht & _).
    { eapply Casc_ctx_ok; eauto. }
    destruct (touch_log _ _ Ht) as [rest Hrest].
    exists s', B, rest. split.
    { rewrite Hrun. rewrite (bind_Ret _ _ _ _ _ (getNode_Ret _ _ _ Hn1)).
      now rewrite Hctx1. }
    split; [eapply touch_sane; eauto|]. split.
    { rewrite Hrest, Hlog, <- !app_assoc. simpl. now rewrite <- app_assoc. }
    split; [discriminate|]. auto.
  - exists s1, B, []. split; [exact (Hrun false)|]. auto 10.
Qed.

(** C9, as the code has it.  A live node's cancel operation returns, with
    every lock free.  The history of the call starts with the node taking its
    own lock, which it holds until the cancel operations of all its
    registered children are through: these take locks of later nodes only,
    never the node's own; each registered child takes its lock, and releases
    it, while the node holds its own, and the first child does so next, so
    that two locks at least are held at one time; and with a chain of [k]
    registrations of nodes not canceled below the node, [k + 1] locks are
    held at one time.  What follows the release of the node's lock is the
    removal from the parent, when it is asked for. *)
Theorem cancel_holds_lock_over_children
    fuel c removeFromParent e cause0 s n :
  wf s → heap s !! c = Some n → err n = None →
  (length (heap s) - c ≤ fuel)%nat →
  ∃ s' body rest,
    cancelCtx_cancel fuel c removeFromParent (Some e) cause0 s = Ret tt s'
    ∧ log s' = log s ++ EvLock c :: body ++ EvUnlock c :: rest
    ∧ Forall (λ ev, (c < ev_ptr ev)%nat) body
    ∧ (∀ pre post, body = pre ++ post → c ∈ held (EvLock c :: pre))
    ∧ (∀ ch l', default [] (children n) = ch :: l' →
         (∃ r, body = EvLock (canceler_ptr ch) :: r)
         ∧ (2 ≤ max_held (EvLock c :: body ++ EvUnlock c :: rest))%nat)
    ∧ (∀ ch, ch ∈ default [] (children n) →
         ∃ pre mid post,
           body = pre ++ EvLock (canceler_ptr ch)
                         :: mid ++ EvUnlock (canceler_ptr ch) :: post
           ∧ c ∈ held (EvLock c :: pre ++ [EvLock (canceler_ptr ch)])
           ∧ canceler_ptr ch
               ∈ held (EvLock c :: pre ++ [EvLock (canceler_ptr ch)]))
    ∧ (∀ k, live_chain s c k →
         (S k ≤ max_held (EvLock c :: body ++ EvUnlock c :: rest))%nat)
    ∧ (removeFromParent = false → rest = [])
    ∧ (∀ q m, heap s' !! q = Some m → mu m = false).
Proof.
  intros W Hn He Hf.
  destruct (cancelCtx_cancel_locks fuel c removeFromParent e cause0 s n
              W Hn He Hf)
    as (s' & body & rest & Hret & Hs' & Hlog & Hrest & Hbody & Hfirst & Heach
        & Hnest).
  assert (Hheld : ∀ pre post, body = pre ++ post → c ∈ held (EvLock c :: pre)).
  { intros pre post ->. apply Forall_app in Hbody as [Hpre _].
    unfold held. simpl. apply held_keeps; [|exact Hpre].
    apply elem_of_cons; now left. }
  exists s', body, rest. split; [exact Hret|]. split; [exact Hlog|].
  split; [exact Hbody|]. split; [exact Hheld|].
  split; [|split; [|split; [|split; [exact Hrest|]]]].
  - intros ch l' Hch. destruct (Hfirst ch l' Hch) as [r ->].
    split; [now exists r|].
    unfold max_held. simpl.
    pose proof (max_held_from_ge (r ++ EvUnlock c :: rest)
                  [canceler_ptr ch; c]).
    simpl in *. lia.
  - intros ch Hin. destruct (Heach ch Hin) as (pre & mid & post & E).
    exists pre, mid, post. split; [exact E|].
    pose proof (Hheld pre _ E) as Hc. unfold held in *.
    change (EvLock c :: pre ++ [EvLock (canceler_ptr ch)])
      with ((EvLock c :: pre) ++ [EvLock (canceler_ptr ch)]).
    rewrite fold_left_app. simpl fold_left at 1.
    split; [now apply elem_of_cons; right | now apply elem_of_cons; left].
  - intros k Hk. pose proof (Hnest k (EvUnlock c :: rest) Hk [] ltac:(constructor)).
    simpl in *. unfold max_held. simpl. lia.
  - intros q m Hq. exact (sane_mu _ Hs' q m Hq).
Qed.

Lemma cancel_holds_lock_over_children_witness :
  live_chain example_tree 0 2
  ∧ ∃ s' body rest,
    cancelCtx_cancel 4 0 true (Some Canceled) None example_tree = Ret tt s'
    ∧ log s' = log example_tree
               ++ EvLock 0%nat :: body ++ EvUnlock 0%nat :: rest
    ∧ Forall (λ ev, (0 < ev_ptr ev)%nat) body
    ∧ (∀ pre post, body = pre ++ post → 0%nat ∈ held (EvLock 0%nat :: pre))
    ∧ (∀ ch l',
         [cancelerCancel 1; cancelerTimer 3] = ch :: l' →
         (∃ r, body = EvLock (canceler_ptr ch) :: r)
         ∧ (2 ≤ max_held (EvLock 0%nat :: body ++ EvUnlock 0%nat :: rest))%nat)
    ∧ (∀ ch, ch ∈ [cancelerCancel 1; cancelerTimer 3] →
         ∃ pre mid post,
           body = pre ++ EvLock (canceler_ptr ch)
                         :: mid ++ EvUnlock (canceler_ptr ch) :: post
           ∧ 0%nat ∈ held (EvLock 0%nat :: pre ++ [EvLock (canceler_ptr ch)])
           ∧ canceler_ptr ch
               ∈ held (EvLock 0%nat :: pre ++ [EvLock (canceler_ptr ch)]))
    ∧ (∀ k, live_chain example_tree 0 k →
         (S k ≤ max_held (EvLock 0%nat :: body ++ EvUnlock 0%nat :: rest))%nat)
    ∧ (true = false → rest = [])
    ∧ (∀ q m, heap s' !! q = Some m → mu m = false).
Proof.
  split.
  - eapply (live_chain_step _ 0 _ (cancelerCancel 1));
      [vm_compute; reflexivity | reflexivity | simpl; apply elem_of_cons; now left|].
    eapply (live_chain_step _ 1 _ (cancelerCancel 2));
      [vm_compute; reflexivity | reflexivity | simpl; apply elem_of_cons; now left|].
    eapply live_chain_end; [vm_compute; reflexivity | reflexivity].
  - refine (cancel_holds_lock_over_children 4 0 true Canceled None
              example_tree
              (mkNode (Some backgroundCtx) false (Some (chanOf 0))
                      (Some [cancelerCancel 1; cancelerTimer 3]) None None
                      plainExt) _ _ _ _).
    + apply wfb_wf. vm_compute. reflexivity.
    + vm_compute. reflexivity.
    + reflexivity.
    + vm_compute. lia.
Defined.

(** C9, as the specification has it, fails: canceling node 0 of the example
    tree, three locks are held at one time, those of nodes 0, 1 and 2. *)
Lemma cascade_holds_three_locks :
  ∃ s', cancelCtx_cancel 4 0 true (Some Canceled) None example_tree
        = Ret tt s'
        ∧ drop (length (log example_tree)) (log s')
          = [EvLock 0%nat; EvLock 1%nat; EvLock 2%nat; EvUnlock 2%nat;
             EvUnlock 1%nat; EvLock 3%nat; EvUnlock 3%nat; EvLock 3%nat;
             EvUnlock 3%nat; EvUnlock 0%nat]
        ∧ max_held (drop (length (log example_tree)) (log s')) = 3%nat.
Proof.
  eexists. split; [vm_compute; reflexivity|].
  split; vm_compute; reflexivity.
Qed.

(** ** The cancel of the three cancelers, called from outside a cascade *)

Lemma fin_refl c n s :
  heap s !! c = Some n → ext n = stopped (ext n) → fin c s s.
Proof.
  intros Hn Hx. constructor; eauto using grows_refl.
  - exists n. split; [assumption|]. rewrite <- Hx, set_ext_id.
    symmetry. now apply list_insert_id.
  - intros n0 t Hn0 Ht. rewrite Hn in Hn0. injection Hn0 as <-.
    unfold timer_of in Ht. rewrite Hx in Ht.
    destruct (ext n); discriminate.
Qed.

(** The end of the [cancel] of a [timerCtx]: under the lock, the timer is
    stopped and the field cleared. *)
Lemma timer_tail_Ret c n tf d s :
  heap s !! c = Some n → mu n = false → ext n = timerExt tf d →
  (∀ t, tf = Some t → (t < length (timers s))%nat) →
  ∃ s', (Lock c;;;
         t <- getTimerField c;;
         match t with
         | Some t =>
             timer_Stop t;;;
             modNode c (λ n, match ext n with
                             | timerExt _ d => set_ext (timerExt None d) n
                             | _ => n
                             end)
         | None => ret tt
         end;;;
         Unlock c) s = Ret tt s'
        ∧ fin c s s'.
Proof.
  intros Hn Hmu Hx Htf.
  rewrite (bind_Ret _ _ _ _ _ (Lock_Ret c n s Hn Hmu)).
  match goal with |- context [bind _ _ ?s0] => set (sL := s0) end.
  assert (HnL : heap sL !! c = Some (set_mu true n))
    by (apply (lookup_insert_same _ _ _ _ Hn)).
  rewrite (bind_Ret _ _ _ _ _ (getTimerField_Ret c _ tf d sL HnL Hx)).
  destruct tf as [t|].
  - pose proof (Htf t eq_refl) as Ht.
    destruct (lookup_lt_is_Some_2 _ _ Ht) as [tm Htm].
    erewrite (bind_Ret (bind (timer_Stop t) _)); cycle 1.
    { rewrite (bind_Ret _ _ _ _ _ (timer_Stop_Ret t tm sL Htm)).
      apply (modNode_Ret c (set_mu true n)). exact HnL. }
    erewrite Unlock_Ret; cycle 1.
    { simpl. apply (lookup_insert_same _ _ _ _ HnL). }
    { simpl. rewrite Hx. reflexivity. }
    eexists. split; [reflexivity|]. constructor; simpl; try reflexivity.
    + exists n. split; [assumption|]. subst sL. simpl.
      rewrite Hx. simpl stopped. rewrite !list_insert_insert_eq.
      now rewrite set_mu_unlock by assumption.
    + now rewrite length_insert.
    + intros t' tm' Ht'. destruct (decide (t' = t)) as [->|Hne].
      * rewrite Htm in Ht'. injection Ht' as <-.
        rewrite (list_lookup_insert_eq _ _ _ Ht). eauto.
      * rewrite list_lookup_insert_ne by congruence. eauto.
    + intros n0 t' Hn0 Ht'. rewrite Hn in Hn0. injection Hn0 as <-.
      unfold timer_of in Ht'. rewrite Hx in Ht'. injection Ht' as <-.
      rewrite (list_lookup_insert_eq _ _ _ Ht). eauto.
    + exists [EvLock c; EvUnlock c]. subst sL. simpl.
      now rewrite <- app_assoc.
  - rewrite bind_ret_l. rewrite (Unlock_Ret c _ sL HnL eq_refl).
    eexists. split; [reflexivity|]. constructor; simpl; try reflexivity.
    + exists n. split; [assumption|]. subst sL. simpl.
      rewrite list_insert_insert_eq, set_mu_relock by assumption.
      rewrite Hx. simpl stopped. now rewrite <- Hx, set_ext_id.
    + eauto.
    + intros n0 t' Hn0 Ht'. rewrite Hn in Hn0. injection Hn0 as <-.
      unfold timer_of in Ht'. rewrite Hx in Ht'. discriminate.
    + exists [EvLock c; EvUnlock c]. subst sL. simpl.
      now rewrite <- app_assoc.
Qed.

(** The end of the [cancel] of an [afterFuncCtx]: the function is started,
    once. *)
Lemma afterFunc_tail_Ret a n once f s :
  heap s !! a = Some n → ext n = afterFuncExt once f →
  ∃ s', (n <- getNode a;;
         match ext n with
         | afterFuncExt false f =>
             modNode a (set_ext (afterFuncExt true f));;;
             modify (λ s, setStarted (started s ++ [f]) s)
         | afterFuncExt true _ => ret tt
         | _ => panic nilDeref
         end) s = Ret tt s'
        ∧ fin a s s'.
Proof.
  intros Hn Hx. rewrite (bind_Ret _ _ _ _ _ (getNode_Ret _ _ _ Hn)).
  rewrite Hx. destruct once.
  - exists s. split; [reflexivity|]. apply (fin_refl a n); [assumption|].
    now rewrite Hx.
  - rewrite (bind_Ret _ _ _ _ _ (modNode_Ret _ _ _ _ Hn)).
    eexists. split; [reflexivity|].
    constructor; simpl; try reflexivity; eauto using grows_refl.
    + exists n. split; [assumption|]. now rewrite Hx.
    + intros n0 t Hn0 Ht. rewrite Hn in Hn0. injection Hn0 as <-.
      unfold timer_of in Ht. rewrite Hx in Ht. discriminate.
Qed.

Lemma fin_sane c s s' : fin c s s' → sane s → sane s'.
Proof.
  intros [(n & Hn & Hh) _ _ _ _ Hcu _ _ _ _] [Hmu Hc]. constructor.
  - intros q m Hq. rewrite Hh in Hq.
    destruct (decide (q = c)) as [->|Hne].
    + rewrite (lookup_insert_same _ _ _ _ Hn) in Hq. injection Hq as <-.
      simpl. eauto.
    + rewrite list_lookup_insert_ne in Hq by congruence. eauto.
  - rewrite Hcu, Hh, length_insert. exact Hc.
Qed.

(** A call of the [cancel] of a canceler returns: after the cascade, which
    leaves [s1], comes the removal from the parent, which leaves [s2], and
    then what the type of the canceler adds. *)
Lemma canceler_cancel_returns fuel ch removeFromParent e cause0 s n ctx :
  sane s → ready s (canceler_ptr ch) → heap s !! canceler_ptr ch = Some n →
  kind_matches ch (ext n) = true →
  Context_ n = Some ctx → ctx_ok s ctx →
  (length (heap s) - canceler_ptr ch ≤ fuel)%nat →
  ∃ s1 s2 s',
    canceler_cancel fuel ch removeFromParent (Some e) cause0 s = Ret tt s'
    ∧ Casc e (default e cause0) (canceler_ptr ch) (Some (canceler_ptr ch)) s s1
    ∧ canceled_in s1 (canceler_ptr ch)
    ∧ touch s1 s2 ∧ (removeFromParent = false → s2 = s1)
    ∧ fin (canceler_ptr ch) s2 s' ∧ sane s'
    ∧ only (λ q, q = canceler_ptr ch) s s1
    ∧ (removeFromParent = true →
       removed ctx ch s1 s2 ∨ (err n ≠ None ∧ s2 = s1)).
Proof.
  intros Hs Hr Hn Hk Hctx Hok Hf.
  set (c := canceler_ptr ch) in *.
  (* the embedded cancel, and the removal from the parent *)
  assert (Hfirst : ∃ s1 s2 n2,
    (cancelCtx_cancel fuel c false (Some e) cause0;;;
     if removeFromParent
     then (n' <- getNode c;; removeChild fuel (Context_ n') ch)
     else ret tt) s = Ret tt s2
    ∧ Casc e (default e cause0) c (Some c) s s1 ∧ canceled_in s1 c
    ∧ touch s1 s2 ∧ (removeFromParent = false → s2 = s1) ∧ sane s2
    ∧ heap s2 !! c = Some n2 ∧ mu n2 = false ∧ ext n2 = ext n
    ∧ length (timers s2) = length (timers s)
    ∧ only (λ q, q = c) s s1
    ∧ (removeFromParent = true → removed ctx ch s1 s2)).
  { destruct (cancelCtx_cancel_returns_gen fuel c false e cause0 s n ctx
                Hs Hr Hn Hctx Hok Hf)
      as (s1 & s1' & Hrun & HC & Hcan & _ & _ & Hs1 & Heq & _ & _ & Honly & _).
    rewrite (Heq eq_refl) in *. clear Heq s1'.
    rewrite (bind_Ret _ _ _ _ _ Hrun).
    destruct (Casc_self _ _ _ _ _ _ HC Hn) as (n1 & Hn1 & Hmu1 & Hx1 & Hcase).
    assert (Hctx1 : Context_ n1 = Some ctx)
      by (destruct Hcase as [-> | [_ ->]]; assumption).
    rewrite (sane_mu _ Hs _ _ Hn) in Hmu1.
    pose proof (casc_timers_len _ _ _ _ _ _ HC) as Htl.
    destruct removeFromParent.
    - rewrite (bind_Ret _ _ _ _ _ (getNode_Ret _ _ _ Hn1)). rewrite Hctx1.
      destruct (removeChild_Ret fuel s1 ctx ch Hs1) as (s2 & Hrm & Ht & Hrmd).
      { eapply Casc_ctx_ok; eauto. }
      destruct (touch_node _ _ Ht c n1 Hn1)
        as (n2 & Hn2 & _ & Hmu2 & _ & _ & Hx2 & _).
      exists s1, s2, n2. split; [exact Hrm|].
      split; [exact HC|]. split; [exact Hcan|]. split; [exact Ht|].
      split; [discriminate|]. split; [eapply touch_sane; eassumption|].
      split; [exact Hn2|]. split; [congruence|]. split; [congruence|].
      split; [rewrite (touch_timers _ _ Ht); exact Htl|].
      split; [exact Honly | auto].
    - exists s1, s1, n1. split; [reflexivity|].
      split; [exact HC|]. split; [exact Hcan|]. split; [apply touch_refl|].
      split; [reflexivity|]. split; [exact Hs1|].
      split; [exact Hn1|]. split; [exact Hmu1|]. split; [exact Hx1|].
      split; [exact Htl|]. split; [exact Honly | discriminate]. }
  destruct Hfirst
    as (s1 & s2 & n2 & Hrun & HC & Hcan & Ht & Heq & Hs2 & Hn2 & Hmu2 & Hx2
        & Htl & Honly & Hrmd).
  destruct ch as [p|p|p]; simpl in c; subst c.
  - (* a cancelCtx *)
    destruct (cancelCtx_cancel_returns_gen fuel p removeFromParent e cause0
                s n ctx Hs Hr Hn Hctx Hok Hf)
      as (s1' & s' & Hrun' & HC' & Hcan' & Ht' & _ & Hs' & Heq' & _ & _
          & Honly' & Hrmd' & Hsame').
    exists s1', s', s'. split; [exact Hrun'|].
    repeat (split; [assumption|]).
    destruct (Casc_self _ _ _ _ _ _ HC' Hn) as (n1 & Hn1 & _ & Hx1 & _).
    destruct (touch_node _ _ Ht' p n1 Hn1)
      as (n3 & Hn3 & _ & _ & _ & _ & Hx3 & _).
    split.
    { apply (fin_refl p n3); [assumption|].
      rewrite Hx3, Hx1. simpl in Hk. destruct (ext n); try discriminate.
      reflexivity. }
    split; [assumption|]. split; [assumption|].
    intros Hrfp. destruct (err n) as [e0|] eqn:He.
    + right. split; [discriminate|]. apply Hsame'. discriminate.
    + left. auto.
  - (* a timerCtx *)
    simpl in Hk. destruct (ext n) as [|tf d|] eqn:Hx; try discriminate.
    destruct (timer_tail_Ret p n2 tf d s2 Hn2 Hmu2 Hx2) as (s' & Htail & Hfin).
    { intros t ->. rewrite Htl.
      apply (nr_timer _ _ _ (Hr p n Hn (le_n _))).
      unfold timer_of. now rewrite Hx. }
    exists s1, s2, s'. split.
    { simpl. unfold timerCtx_cancel, timerCtx_cancel_with.
      unfold bind at 1. unfold bind at 1.
      unfold bind at 1 in Hrun.
      destruct (cancelCtx_cancel fuel p false (Some e) cause0 s)
        as [[] sa| | |]; try discriminate.
      rewrite Hrun. exact Htail. }
    repeat (split; [assumption|]).
    split; [eapply fin_sane; eauto|]. split; [assumption|]. auto.
  - (* an afterFuncCtx *)
    simpl in Hk. destruct (ext n) as [| |once f] eqn:Hx; try discriminate.
    destruct (afterFunc_tail_Ret p n2 once f s2 Hn2 Hx2) as (s' & Htail & Hfin).
    exists s1, s2, s'. split.
    { simpl. unfold afterFuncCtx_cancel, afterFuncCtx_cancel_with.
      unfold bind at 1. unfold bind at 1.
      unfold bind at 1 in Hrun.
      destruct (cancelCtx_cancel fuel p false (Some e) cause0 s)
        as [[] sa| | |]; try discriminate.
      rewrite Hrun. exact Htail. }
    repeat (split; [assumption|]).
    split; [eapply fin_sane; eauto|]. split; [assumption|]. auto.
Qed.

(** ** The timer of a deadline node *)

Lemma descendant_lt s p q : wf s → descendant s p q → (p < q)%nat.
Proof.
  intros W. induction 1 as [p n ch Hp Hin | p q r _ IH1 _ IH2]; [|lia].
  apply (nr_children _ _ _ (wf_ready _ W p n Hp (Nat.le_0_l _)) ch Hin).
Qed.

(** The timers across a call of [cancel]. *)
Lemma cancel_timers e z b x p s s1 s2 s' t tm' :
  Casc e z b x s s1 → touch s1 s2 → fin p s2 s' →
  timers s' !! t = Some tm' →
  ∃ tm0 tm2, timers s !! t = Some tm0 ∧ timers s2 !! t = Some tm2
         ∧ tnode tm' = tnode tm0
         ∧ (tactive tm0 = false → tactive tm' = false)
         ∧ (tactive tm2 = false → tactive tm' = false).
Proof.
  intros HC Ht Hfin Htm'.
  assert (Hlt : (t < length (timers s))%nat).
  { rewrite <- (casc_timers_len _ _ _ _ _ _ HC), <- (touch_timers _ _ Ht),
      <- (fin_timers_len _ _ _ Hfin). eapply lookup_lt_Some; eauto. }
  destruct (lookup_lt_is_Some_2 _ _ Hlt) as [tm0 Htm0].
  destruct (casc_timers _ _ _ _ _ _ HC t tm0 Htm0) as (tm1 & Htm1 & Hn1 & Ha1).
  rewrite <- (touch_timers _ _ Ht) in Htm1.
  destruct (fin_timers _ _ _ Hfin t tm1 Htm1) as (tm2 & Htm2 & Hn2 & Ha2).
  rewrite Htm' in Htm2. injection Htm2 as <-.
  exists tm0, tm1. repeat split; auto; congruence.
Qed.

(** Once no timer that can fire is for the node [c], none ever is. *)
Lemma timers_quiet_forever c s ops :
  (c < length (heap s))%nat →
  (∀ t tm, timers s !! t = Some tm → tnode tm = c → tactive tm = false) →
  ∀ t tm, timers (runOps ops s) !! t = Some tm → tnode tm = c →
          tactive tm = false.
Proof.
  intros Hc Hq t tm' Htm' Hn'.
  pose proof (runOps_le ops s) as Hle.
  destruct (le_new_timers _ _ _ Hle t tm' Htm') as [[tm Htm] | Hnew]; [|lia].
  destruct (le_timers _ _ _ Hle t tm Htm) as (tm2 & Htm2 & Hn2 & Ha2).
  rewrite Htm' in Htm2. injection Htm2 as <-.
  apply Ha2, (Hq t tm Htm). congruence.
Qed.

(** A timer that cannot fire: the function it would run is not run. *)
Lemma fireTimer_inactive fuel t tm s :
  timers s !! t = Some tm → tactive tm = false →
  fireTimer fuel t s = Ret tt s.
Proof.
  intros Htm Ha. unfold fireTimer, bind, get. now rewrite Htm, Ha.
Qed.

(** After the [cancel] of a canceler has returned, a deadline node that is
    the canceler's or is registered below it is canceled, holds no timer,
    and no timer that can fire is for it. *)
Lemma timer_stopped_by_cancel fuel ch removeFromParent e cause0 s c n :
  wf s → kind_ok s ch → (length (heap s) - canceler_ptr ch ≤ fuel)%nat →
  c = canceler_ptr ch ∨ descendant s (canceler_ptr ch) c →
  heap s !! c = Some n →
  ∃ s', canceler_cancel fuel ch removeFromParent (Some e) cause0 s = Ret tt s'
        ∧ le_state s s'
        ∧ (∃ n', heap s' !! c = Some n' ∧ err n' ≠ None ∧ timer_of n' = None)
        ∧ (∀ t tm, timers s' !! t = Some tm → tnode tm = c →
                   tactive tm = false).
Proof.
  intros W (np & Hnp & Hk) Hf Hrel Hn.
  set (p := canceler_ptr ch) in *.
  destruct (wf_context _ W p np Hnp) as (ctx & Hctx & Hok).
  assert (Hr : ready s p) by (eapply ready_weaken; [|apply W]; lia).
  destruct (canceler_cancel_returns fuel ch removeFromParent e cause0 s np ctx
              (wf_sane _ W) Hr Hnp Hk Hctx Hok Hf)
    as (s1 & s2 & s' & Hrun & HC & Hcan & Ht & _ & Hfin & _).
  fold p in HC, Hcan, Hfin.
  exists s'. split; [exact Hrun|]. split.
  { eapply (okm_Ret (le_from (length (heap s)))); [|exact Hrun].
    apply okm_canceler_cancel, _. }
  destruct (fin_heap _ _ _ Hfin) as (n2p & Hn2p & Hh').
  pose proof (fin_timers _ _ _ Hfin) as Htm'.
  pose proof (fin_stopped _ _ _ Hfin) as Hst'.
  (* the node in [s2]: canceled, and, when it held a timer [t] in [s] and
     was not canceled there, [t] cannot fire in [s'] *)
  assert (Hnode : ∃ n2, heap s2 !! c = Some n2 ∧ err n2 ≠ None
            ∧ (c ≠ p → timer_of n2 = None)
            ∧ (c = p → ext n2 = ext n)
            ∧ ∀ t, err n = None → timer_of n = Some t →
                ∃ tm, timers s' !! t = Some tm ∧ tactive tm = false).
  { destruct Hrel as [-> | Hd].
    - destruct (Casc_self _ _ _ _ _ _ HC Hn) as (n1 & Hn1 & _ & Hx1 & _).
      destruct Hcan as (n1' & Hn1' & He1). rewrite Hn1 in Hn1'.
      injection Hn1' as <-.
      destruct (touch_node _ _ Ht p n1 Hn1)
        as (n2 & Hn2 & _ & _ & He2 & _ & Hx2 & _).
      exists n2. split; [assumption|]. split; [congruence|].
      split; [congruence|]. split; [congruence|].
      intros t _ Htn. apply (Hst' n2 t Hn2).
      unfold timer_of in *. now rewrite Hx2, Hx1.
    - pose proof (descendant_lt _ _ _ W Hd) as Hlt.
      destruct (descendant_canceled _ _ _ _ _ _ W HC p c Hd Hcan)
        as [(m & Hm & Hem) Hcc].
      rewrite Hn in Hm. injection Hm as <-.
      destruct (casc_node _ _ _ _ _ _ HC c n Hn)
        as (n1 & Hn1 & [-> | (_ & _ & Hn1e)]).
      { destruct Hcc as (m & Hm & Hem'). congruence. }
      rewrite bool_decide_eq_false_2 in Hn1e by (intros [= ?]; lia).
      destruct (touch_node _ _ Ht c n1 Hn1)
        as (n2 & Hn2 & _ & _ & He2 & _ & Hx2 & _).
      exists n2. split; [assumption|]. split; [rewrite He2, Hn1e; discriminate|].
      split.
      { intros _. unfold timer_of. rewrite Hx2, Hn1e. simpl.
        destruct (ext n); reflexivity. }
      split; [lia|].
      intros t _ Htn.
      destruct (casc_stopped _ _ _ _ _ _ HC c n t Hn Hem Hcc) as (tm1 & Htm1 & Ha1);
        [intros [= ?]; lia | assumption |].
      rewrite <- (touch_timers _ _ Ht) in Htm1.
      destruct (Htm' t tm1 Htm1) as (tm2 & Htm2 & _ & Ha2). eauto. }
  destruct Hnode as (n2 & Hn2 & He2 & Hnp2 & Hp2 & Hstop).
  split.
  - rewrite Hh'. destruct (decide (c = p)) as [Heq|Hne].
    + rewrite Heq in *. rewrite Hn2p in Hn2. injection Hn2 as ->.
      eexists. split; [eapply lookup_insert_same; eauto|]. simpl.
      split; [assumption|]. unfold timer_of. simpl.
      destruct (ext n2); reflexivity.
    + exists n2. rewrite list_lookup_insert_ne by congruence. auto.
  - intros t tm Htm Htn.
    destruct (cancel_timers _ _ _ _ _ _ _ _ _ _ _ HC Ht Hfin Htm)
      as (tm0 & tm2 & Htm0 & _ & Hn0 & Ha0 & _).
    destruct (tactive tm0) eqn:Hact; [|auto].
    destruct (wf_active _ W t tm0 Htm0 Hact) as (m & Hm & Htf).
    rewrite <- Hn0, Htn, Hn in Hm. injection Hm as <-.
    destruct (err n) as [e0|] eqn:Hen.
    + pose proof (nr_stopped _ _ _ (wf_ready _ W c n Hn (Nat.le_0_l _))) as Hst.
      rewrite Hen in Hst. specialize (Hst ltac:(discriminate)).
      unfold timer_of in Htf. rewrite Hst in Htf.
      destruct (ext n); discriminate.
    + destruct (Hstop t eq_refl Htf) as (tm3 & Htm3 & Ha3). congruence.
Qed.

(** ** Wiring a child to its parent *)

(** [Done] makes the channel once. *)
Lemma cancelCtx_Done_idem p d s s' :
  cancelCtx_Done p s = Ret d s' → cancelCtx_Done p s' = Ret d s'.
Proof.
  intros H. unfold cancelCtx_Done in H |- *.
  destruct (heap s !! p) as [n|] eqn:Hn.
  - rewrite (bind_Ret _ _ _ _ _ (getNode_Ret _ _ _ Hn)) in H.
    destruct (done n) as [d0|] eqn:Hd.
    + injection H as <- <-.
      rewrite (bind_Ret _ _ _ _ _ (getNode_Ret _ _ _ Hn)). now rewrite Hd.
    + destruct (mu n) eqn:Hmu.
      * unfold bind at 1 in H. unfold Lock, bind in H.
        rewrite (getNode_Ret _ _ _ Hn), Hmu in H. discriminate.
      * destruct (cancelCtx_Done_Ret p n s Hn Hmu) as (s2 & Hrun & _ & Hn2).
        unfold cancelCtx_Done in Hrun.
        rewrite (bind_Ret _ _ _ _ _ (getNode_Ret _ _ _ Hn)), Hd in Hrun.
        rewrite Hrun in H. injection H as <- <-.
        rewrite (bind_Ret _ _ _ _ _ (getNode_Ret _ _ _ Hn2)). simpl.
        now rewrite Hd.
  - unfold bind, getNode, get in H. simpl in H. rewrite Hn in H. discriminate.
Qed.

Lemma Done_idem c : ∀ d s s', Done c s = Ret d s' → Done c s' = Ret d s'.
Proof.
  induction c; simpl; intros d s s' H; eauto using cancelCtx_Done_idem.
  - injection H as <- <-. reflexivity.
  - injection H as <- <-. reflexivity.
  - injection H as <- <-. reflexivity.
  - unfold bind in H |- *. destruct (getCustom u s) as [cu s1| | |] eqn:Hg;
      try discriminate.
    injection H as <- <-.
    unfold getCustom, bind, get in Hg. simpl in Hg.
    destruct (customs s !! u) as [cu'|] eqn:Hu; [|discriminate].
    injection Hg as <- <-. now rewrite (getCustom_Ret _ _ _ Hu).
Qed.

(** [parentCancelCtx] once [Done] has been called. *)
Lemma parentCancelCtx_after_Done fuel s0 s c :
  sane s → ctx_ok s c → Done c s0 = Ret (doneOf s c) s →
  parentCancelCtx fuel c s = Ret (resolve s (doneOf s c) c) s.
Proof.
  intros Hs Hok HD.
  destruct (parentCancelCtx_Ret fuel s c Hs Hok) as (s' & Hrun & HD' & _).
  rewrite (Done_idem _ _ _ _ HD) in HD'. injection HD' as <-. exact Hrun.
Qed.

Lemma ctx_ok_len s s' c :
  length (heap s') = length (heap s) → length (customs s') = length (customs s) →
  ctx_ok s c → ctx_ok s' c.
Proof.
  intros Hh Hc. induction c; simpl; rewrite ?Hh, ?Hc; intuition auto.
Qed.

Lemma ctx_ok_grow s s' c :
  (length (heap s) ≤ length (heap s'))%nat →
  (length (customs s) ≤ length (customs s'))%nat →
  ctx_ok s c → ctx_ok s' c.
Proof.
  intros Hh Hc. induction c; simpl; intuition auto; lia.
Qed.

Lemma keyOf_customs s s' c : customs s' = customs s → keyOf s' c = keyOf s c.
Proof. intros H. induction c; simpl; auto. now rewrite H. Qed.

Lemma eqlog_heap s s' : eqlog s s' → heap s' = heap s.
Proof. now intros [l ->]. Qed.

Lemma eqlog_causeOf s s' c : eqlog s s' → causeOf s' c = causeOf s c.
Proof.
  intros [l ->]. unfold causeOf. 
  assert (K : keyOf (setLog (log s ++ l) s) c = keyOf s c) by now apply keyOf_customs.
  assert (E : errOf (setLog (log s ++ l) s) c = errOf s c) by (induction c; simpl; auto).
  rewrite K, E. reflexivity.
Qed.

Lemma mat_causeOf s s' c : mat s s' → causeOf s' c = causeOf s c.
Proof.
  intros Hm. unfold causeOf. rewrite (mat_keyOf _ _ _ Hm), (mat_errOf _ _ _ Hm).
  destruct (keyOf s c); auto.
  destruct (heap s !! p) as [n|] eqn:Hq.
  - destruct (mat_node _ _ Hm p n Hq) as [-> | [Hd ->]]; reflexivity.
  - apply lookup_ge_None in Hq. rewrite <- (mat_len _ _ Hm) in Hq.
    apply lookup_ge_None in Hq. now rewrite Hq.
Qed.

(** A cancel call without an error panics. *)
Lemma canceler_cancel_nil fuel ch removeFromParent cause0 s :
  canceler_cancel (S fuel) ch removeFromParent None cause0 s
  = Panic "context: internal error: missing cancel error" s.
Proof. destruct ch; reflexivity. Qed.

Lemma bind_get {B} (k : State → M B) s : bind get k s = k s s.
Proof. reflexivity. Qed.

Lemma propagateCancel_Ret fuel parent child x s0 :
  sane s0 → ctx_ok s0 parent →
  (∀ q, chanOf q ∈ closed s0 → (q < length (heap s0))%nat) →
  timer_of (mkNode None false None None None None x) = None →
  kind_matches child x = true → canceler_ptr child = length (heap s0) →
  (1 ≤ fuel)%nat →
  ∃ sB,
    Done parent
      (setHeap (heap s0 ++ [mkNode (Some parent) false None None None None x]) s0)
    = Ret (doneOf sB parent) sB
    ∧ mat (setHeap (heap s0 ++ [mkNode (Some parent) false None None None None x])
             s0) sB
    ∧ wired (choose_wiring sB parent) (length (heap s0)) parent child sB
        (propagateCancel fuel (length (heap s0)) parent child
           (setHeap (heap s0 ++ [mkNode None false None None None None x]) s0)).
Proof.
  intros Hs0 Hok0 Hcl0 Htx Hk Hptr Hfuel.
  set (c := length (heap s0)) in *.
  set (s := setHeap (heap s0 ++ [mkNode None false None None None None x]) s0).
  set (sA := setHeap (heap s0 ++ [mkNode (Some parent) false None None None None x]) s0).
  assert (Hc : heap s !! c = Some (mkNode None false None None None None x)).
  { subst s c. simpl. now rewrite lookup_app_r, Nat.sub_diag by lia. }
  assert (HsA : setHeap (<[c := set_Context (Some parent)
                                  (mkNode None false None None None None x)]>
                           (heap s)) s = sA).
  { subst s sA c. destruct s0. unfold setHeap. simpl. f_equal.
    rewrite insert_app_r_alt, Nat.sub_diag by lia. reflexivity. }
  unfold propagateCancel.
  rewrite (bind_Ret _ _ _ _ _ (modNode_Ret _ _ _ _ Hc)), HsA.
  assert (HcA : heap sA !! c = Some (mkNode (Some parent) false None None None None x)).
  { subst sA c. simpl. now rewrite lookup_app_r, Nat.sub_diag by lia. }
  assert (HlA : length (heap sA) = S c).
  { subst sA c. simpl. rewrite length_app. simpl. lia. }
  assert (HsaneA : sane sA).
  { destruct Hs0 as [Hmu Hcu]. constructor.
    - intros q n Hq. subst sA. simpl in Hq.
      apply lookup_app_Some in Hq as [Hq | [_ Hq]]; [eauto|].
      destruct (q - length (heap s0))%nat; simpl in Hq; [|discriminate].
      now injection Hq as <-.
    - intros u cu p Hu Hv. rewrite HlA. specialize (Hcu u cu p Hu Hv). lia. }
  assert (HokA : ctx_ok sA parent).
  { apply (ctx_ok_grow s0); [rewrite HlA; lia | reflexivity | assumption]. }
  destruct (Done_Ret sA parent HsaneA HokA) as (sB & HD & Hm).
  rewrite <- (mat_doneOf _ _ parent Hm) in HD.
  exists sB. split; [exact HD|]. split; [exact Hm|].
  rewrite (bind_Ret _ _ _ _ _ HD).
  pose proof (mat_sane _ _ Hm HsaneA) as HsaneB.
  pose proof (mat_ctx_ok _ _ _ Hm HokA) as HokB.
  assert (HlB : length (heap sB) = S c) by (rewrite (mat_len _ _ Hm); exact HlA).
  (* the node of the child *)
  assert (HcB : ∃ ncB, heap sB !! c = Some ncB ∧ mu ncB = false
                       ∧ err ncB = None ∧ children ncB = None
                       ∧ (done ncB = None ∨ done ncB = Some (chanOf c))
                       ∧ ext ncB = x ∧ Context_ ncB = Some parent).
  { destruct (mat_node _ _ Hm c _ HcA) as [H | [_ H]]; eexists;
      (split; [exact H|]); simpl; auto 10. }
  destruct HcB as (ncB & HcB & HmuB & HeB & HkB & HdB & HxB & HctxB).
  assert (HclB : chanOf c ∉ closed sB).
  { rewrite (mat_closed _ _ Hm). intros Hin. specialize (Hcl0 c Hin). lia. }
  assert (Hready : ∀ sX, heap sX !! c = Some ncB → length (heap sX) = S c →
                         closed sX = closed sB → ready sX c).
  { intros sX HcX HlX HclX q n Hq Hle.
    assert (q = c) by (apply lookup_lt_Some in Hq; lia). subst q.
    rewrite HcX in Hq. injection Hq as <-. constructor; auto.
    - rewrite HkB. simpl. intros ch Hin. inversion Hin.
    - intros _. now rewrite HclX.
    - congruence.
    - intros t Ht. subst x. unfold timer_of in *. simpl in Htx. congruence. }
  unfold choose_wiring.
  destruct (doneOf sB parent) as [d|] eqn:Hdone; [|reflexivity].
  rewrite bind_get.
  destruct (is_closed sB d) eqn:Hclosed.
  - (* the parent is canceled already *)
    destruct (Err_Ret sB parent HsaneB HokB) as (sC & HE & HlogC).
    rewrite (bind_Ret _ _ _ _ _ HE).
    assert (HsaneC : sane sC) by (eapply mat_sane; [apply eqlog_mat|]; eauto).
    assert (HokC : ctx_ok sC parent) by (eapply mat_ctx_ok; [apply eqlog_mat|]; eauto).
    destruct (Cause_Ret fuel sC parent HsaneC HokC) as (sD & HZ & HlogD).
    rewrite (bind_Ret _ _ _ _ _ HZ).
    rewrite (eqlog_causeOf _ _ _ HlogC).
    pose proof (eqlog_trans _ _ _ HlogC HlogD) as HlogBD.
    simpl. exists sD. split; [exact HlogBD|].
    destruct (errOf sB parent) as [e|] eqn:Herr.
    + destruct (canceler_cancel_ok e (default e (causeOf sB parent)) fuel child
                  (causeOf sB parent) sD eq_refl) as (s' & Hrun & HC & Hcan & _).
      * exists ncB. rewrite Hptr. rewrite (eqlog_heap _ _ HlogBD).
        split; [exact HcB|]. now rewrite HxB.
      * rewrite Hptr, (eqlog_heap _ _ HlogBD), HlB. lia.
      * rewrite Hptr. apply Hready.
        -- now rewrite (eqlog_heap _ _ HlogBD).
        -- now rewrite (eqlog_heap _ _ HlogBD).
        -- now destruct HlogBD as [l ->].
      * exists s'. rewrite Hptr in HC, Hcan. auto.
    + destruct fuel as [|f]; [lia|]. apply canceler_cancel_nil.
  - (* the parent is not canceled *)
    assert (HP : parentCancelCtx fuel parent sB
                 = Ret (resolve sB (Some d) parent) sB).
    { rewrite <- Hdone. apply (parentCancelCtx_after_Done fuel sA); auto.
      now rewrite Hdone. }
    rewrite (bind_Ret _ _ _ _ _ HP).
    destruct (resolve sB (Some d) parent) as [p|] eqn:Hres.
    + (* a node of the package *)
      destruct (resolve_Some _ _ _ _ Hres) as (np & d' & Hnp & _ & _ & _ & Hkey).
      assert (Hpc : (p < c)%nat).
      { rewrite (keyOf_customs s0 sB) in Hkey
          by (rewrite (mat_customs _ _ Hm); reflexivity).
        apply (keyOf_valid s0 parent p Hs0 Hok0 Hkey). }
      pose proof (sane_mu _ HsaneB _ _ Hnp) as Hmup.
      simpl. exists np. split; [exact Hnp|].
      rewrite (bind_Ret _ _ _ _ _ (Lock_Ret p np sB Hnp Hmup)).
      fold (locked p np sB).
      assert (HnL : heap (locked p np sB) !! p = Some (set_mu true np))
        by (apply (lookup_insert_same _ _ _ _ Hnp)).
      rewrite (bind_Ret _ _ _ _ _ (getNode_Ret _ _ _ HnL)).
      change (err (set_mu true np)) with (err np).
      change (cause (set_mu true np)) with (cause np).
      change (children (set_mu true np)) with (children np).
      destruct (err np) as [e|] eqn:Hep.
      * assert (HcL : heap (locked p np sB) !! c = Some ncB).
        { unfold locked. simpl. rewrite list_lookup_insert_ne by lia.
          exact HcB. }
        destruct (canceler_cancel_ok e (default e (cause np)) fuel child
                    (cause np) (locked p np sB) eq_refl)
          as (s' & Hrun & HC & Hcan & _).
        -- exists ncB. rewrite Hptr. split; [exact HcL|]. now rewrite HxB.
        -- rewrite Hptr. unfold locked. simpl. rewrite length_insert, HlB. lia.
        -- rewrite Hptr. apply Hready; [exact HcL | | reflexivity].
           unfold locked. simpl. now rewrite length_insert.
        -- rewrite Hptr in HC, Hcan.
           rewrite (bind_Ret _ _ _ _ _ Hrun).
           exists s'. split; [|auto].
           apply Unlock_Ret; [|reflexivity].
           rewrite (Casc_below _ _ _ _ _ _ p HC Hpc). exact HnL.
      * rewrite (bind_Ret _ _ _ _ _ (modNode_Ret _ _ _ _ HnL)).
        erewrite Unlock_Ret; cycle 1.
        { simpl. apply (lookup_insert_same _ _ _ _ HnL). }
        { reflexivity. }
        f_equal. unfold locked, setLog, setHeap. simpl. f_equal.
        -- rewrite !list_insert_insert_eq. f_equal.
           destruct np; simpl in *. now subst.
        -- now rewrite <- app_assoc.
    + (* not a node of the package *)
      assert (Hwait : wired ByWaiter c parent child sB
                (( modify (λ s1, setGoroutines (wrap32 (goroutines s1 + 1)) s1);;;
                   modify (λ s1, setWaiters (waiters s1 ++ [(parent, child)]) s1))
                   sB)) by reflexivity.
      destruct parent; try exact Hwait.
      simpl in HokB. destruct (lookup_lt_is_Some_2 _ _ HokB) as [cu Hcu].
      rewrite Hcu.
      assert (HA : afterFuncer (customCtx u) sB
                   = Ret (if uAfterFunc cu then Some u else None) sB).
      { cbn [afterFuncer].
        rewrite (bind_Ret _ _ _ _ _ (getCustom_Ret _ _ _ Hcu)).
        destruct (uAfterFunc cu); reflexivity. }
      rewrite (bind_Ret _ _ _ _ _ HA).
      destruct (uAfterFunc cu); [|exact Hwait].
      simpl. exists cu, ncB.
      split; [exact Hcu|]. split; [exact HcB|].
      rewrite (bind_Ret _ _ _ _ _ (Lock_Ret c ncB sB HcB HmuB)).
      match goal with |- bind _ _ ?s0 = _ => set (sL := s0) end.
      assert (HcuL : customs sL !! u = Some cu) by exact Hcu.
      assert (HR : custom_AfterFunc u child (customCtx u) sL
                   = Ret {| stopOwner := u; stopReg := length (uRegs cu) |}
                       (setCustoms
                          (<[u := mkCustom (uDeadline cu) (uDone cu) (uErr cu)
                                   (uValue cu) (uAfterFunc cu)
                                   (uRegs cu ++ [Some (child, customCtx u)])]>
                             (customs sL)) sL)).
      { unfold custom_AfterFunc.
        rewrite (bind_Ret _ _ _ _ _ (getCustom_Ret _ _ _ HcuL)). reflexivity. }
      rewrite (bind_Ret _ _ _ _ _ HR).
      match goal with |- bind _ _ ?s0 = _ => set (sR := s0) end.
      assert (HcR : heap sR !! c = Some (set_mu true ncB))
        by (apply (lookup_insert_same _ _ _ _ HcB)).
      rewrite (bind_Ret _ _ _ _ _ (modNode_Ret _ _ _ _ HcR)).
      erewrite Unlock_Ret; cycle 1.
      { simpl. apply (lookup_insert_same _ _ _ _ HcR). }
      { reflexivity. }
      f_equal. subst sR sL. unfold setLog, setHeap, setCustoms. simpl. f_equal.
      * rewrite !list_insert_insert_eq. f_equal.
        destruct ncB; simpl in *. now subst.
      * now rewrite <- app_assoc.
Qed.

Lemma Ret_state {A} (o : outcome A) a s :
  o = Ret a s → s = match o with Ret _ s' => s' | _ => emptyState end.
Proof. now intros ->. Qed.

(** What [p.children[child] = struct{}{}] leaves in the set: the child and
    what was there. *)
Lemma insert_child_spec child l ch :
  ch ∈ insert_child child l ↔ ch = child ∨ ch ∈ l.
Proof.
  unfold insert_child. destruct (bool_decide (child ∈ l)) eqn:Hb.
  - apply bool_decide_eq_true in Hb. split; [auto|].
    intros [-> | ?]; assumption.
  - rewrite elem_of_app, list_elem_of_singleton. tauto.
Qed.

(** C4.  [propagateCancel], called for a node just made, asks for the
    done-signal of the parent and then does what the first strategy that
    applies does, in the order of the specification: nothing when the parent
    has no done-signal; the cancel of the child, with the error and the cause
    of the parent, when the done-signal is closed; the insertion of the child
    into the children of the node the parent resolves to, under the lock of
    that node, or the cancel of the child with the error and the cause of that
    node if it has been canceled; a registration with the parent that has an
    [AfterFunc] method, the child keeping the function that stops it; and a
    goroutine that waits, when none of these applies.  After the insertion
    the child is in the children of that node, with those that were there
    and no other, and the node is otherwise as it was. *)
Theorem propagateCancel_first_strategy fuel parent child x s0 :
  sane s0 → ctx_ok s0 parent →
  (∀ q, chanOf q ∈ closed s0 → (q < length (heap s0))%nat) →
  timer_of (mkNode None false None None None None x) = None →
  kind_matches child x = true → canceler_ptr child = length (heap s0) →
  (1 ≤ fuel)%nat →
  ∃ sB,
    Done parent
      (setHeap (heap s0 ++ [mkNode (Some parent) false None None None None x]) s0)
    = Ret (doneOf sB parent) sB
    ∧ wired (choose_wiring sB parent) (length (heap s0)) parent child sB
        (propagateCancel fuel (length (heap s0)) parent child
           (setHeap (heap s0 ++ [mkNode None false None None None None x]) s0))
    ∧ (∀ p np,
         choose_wiring sB parent = InChildren p →
         heap sB !! p = Some np → err np = None →
         ∃ s' np',
           propagateCancel fuel (length (heap s0)) parent child
             (setHeap (heap s0 ++ [mkNode None false None None None None x]) s0)
           = Ret tt s'
           ∧ heap s' !! p = Some np'
           ∧ child ∈ default [] (children np')
           ∧ (∀ ch, ch ∈ default [] (children np')
                    ↔ ch = child ∨ ch ∈ default [] (children np))
           ∧ np' = set_children (children np') np
           ∧ (∀ q, q ≠ p → heap s' !! q = heap sB !! q)).
Proof.
  intros Hs Hok Hcl Htx Hk Hptr Hfuel.
  destruct (propagateCancel_Ret fuel parent child x s0 Hs Hok Hcl Htx Hk Hptr
              Hfuel) as (sB & HD & _ & Hw).
  exists sB. split; [exact HD|]. split; [exact Hw|].
  intros p np Hcw Hp He. rewrite Hcw in Hw.
  destruct Hw as (np0 & Hp0 & Hw). rewrite Hp in Hp0. injection Hp0 as <-.
  rewrite He in Hw. rewrite Hw. eexists _, _. split; [reflexivity|].
  split; [simpl; apply (lookup_insert_same _ _ _ _ Hp)|].
  split; [simpl; apply insert_child_spec; now left|].
  split; [intros ch; simpl; apply insert_child_spec|].
  split; [reflexivity|].
  intros q Hq. simpl. apply list_lookup_insert_ne. congruence.
Qed.

Lemma propagateCancel_first_strategy_witness :
  ∃ sB,
    Done (valueCtx (cancelCtxP 2) (aint 7) (aint 8))
      (setHeap (heap example_tree
                ++ [mkNode (Some (valueCtx (cancelCtxP 2) (aint 7) (aint 8)))
                           false None None None None plainExt]) example_tree)
    = Ret (doneOf sB (valueCtx (cancelCtxP 2) (aint 7) (aint 8))) sB
    ∧ wired (choose_wiring sB (valueCtx (cancelCtxP 2) (aint 7) (aint 8)))
        (length (heap example_tree))
        (valueCtx (cancelCtxP 2) (aint 7) (aint 8)) (cancelerCancel 4) sB
        (propagateCancel 1 (length (heap example_tree))
           (valueCtx (cancelCtxP 2) (aint 7) (aint 8)) (cancelerCancel 4)
           (setHeap (heap example_tree
                     ++ [mkNode None false None None None None plainExt])
                    example_tree))
    ∧ choose_wiring sB (valueCtx (cancelCtxP 2) (aint 7) (aint 8))
      = InChildren 2
    ∧ ∃ np, heap sB !! 2%nat = Some np ∧ err np = None
        ∧ ∃ s' np',
            propagateCancel 1 (length (heap example_tree))
              (valueCtx (cancelCtxP 2) (aint 7) (aint 8)) (cancelerCancel 4)
              (setHeap (heap example_tree
                        ++ [mkNode None false None None None None plainExt])
                       example_tree)
            = Ret tt s'
            ∧ heap s' !! 2%nat = Some np'
            ∧ cancelerCancel 4 ∈ default [] (children np')
            ∧ (∀ ch, ch ∈ default [] (children np')
                     ↔ ch = cancelerCancel 4 ∨ ch ∈ default [] (children np))
            ∧ np' = set_children (children np') np
            ∧ (∀ q, q ≠ 2%nat → heap s' !! q = heap sB !! q).
Proof.
  destruct (propagateCancel_first_strategy 1
              (valueCtx (cancelCtxP 2) (aint 7) (aint 8)) (cancelerCancel 4)
              plainExt example_tree) as (sB & HD & Hw & Hins).
  - apply wf_sane, wfb_wf. vm_compute. reflexivity.
  - vm_compute. split; [discriminate | lia].
  - apply wf_closed, wfb_wf. vm_compute. reflexivity.
  - reflexivity.
  - reflexivity.
  - vm_compute. reflexivity.
  - lia.
  - exists sB. split; [exact HD|]. split; [exact Hw|].
    assert (Hcw : choose_wiring sB (valueCtx (cancelCtxP 2) (aint 7) (aint 8))
                  = InChildren 2).
    { clear -HD. apply Ret_state in HD. subst sB. vm_compute. reflexivity. }
    split; [exact Hcw|].
    assert (Hnp : ∃ np, heap sB !! 2%nat = Some np ∧ err np = None).
    { clear -HD. apply Ret_state in HD. subst sB. vm_compute. eauto. }
    destruct Hnp as (np & Hnp & He). exists np.
    split; [exact Hnp|]. split; [exact He|].
    exact (Hins 2%nat np Hcw Hnp He).
Defined.

(** The third strategy, when the node the parent resolves to has been
    canceled after its done-signal was seen open: the child is canceled with
    the error and the cause of that node. *)
Example propagateCancel_parent_canceled_meanwhile :
  let s0 := mkState [mkNode (Some backgroundCtx) false (Some (chanOf 0)) None
                            (Some Canceled) (Some (errorString "why")) plainExt]
                    [] [] [] 0 0 [] [] [] in
  ∃ s', propagateCancel 1 1 (cancelCtxP 0) (cancelerCancel 1)
          (setHeap (heap s0 ++ [mkNode None false None None None None plainExt])
                   s0) = Ret tt s'
        ∧ heap s' !! 1%nat
          = Some (mkNode (Some (cancelCtxP 0)) false (Some closedchan) None
                         (Some Canceled) (Some (errorString "why")) plainExt)
        ∧ waiters s' = [] ∧ (heap s' !! 0%nat) = heap s0 !! 0%nat.
Proof. eexists. split; [vm_compute; reflexivity|]. repeat split. Qed.

(** The parent of a node just made is read the same in the state with that node. *)
Lemma doneOf_born s0 n parent :
  ctx_ok s0 parent → doneOf (setHeap (heap s0 ++ [n]) s0) parent = doneOf s0 parent.
Proof.
  induction parent; simpl; intros Hok; try tauto;
    try (rewrite lookup_app_l by assumption; reflexivity).
Qed.

Lemma errOf_born s0 n parent :
  ctx_ok s0 parent → errOf (setHeap (heap s0 ++ [n]) s0) parent = errOf s0 parent.
Proof.
  induction parent; simpl; intros Hok; try tauto;
    try (rewrite lookup_app_l by assumption; reflexivity).
Qed.

Lemma sane_update s s' :
  length (heap s') = length (heap s) →
  (∀ q n', heap s' !! q = Some n' → ∃ n, heap s !! q = Some n ∧ mu n' = mu n) →
  (∀ u cu', customs s' !! u = Some cu' →
     ∃ cu, customs s !! u = Some cu ∧ uValue cu' = uValue cu) →
  sane s → sane s'.
Proof.
  intros Hl Hh Hc [Hmu Hcu]. constructor.
  - intros q n' Hq. destruct (Hh q n' Hq) as (n & Hn & ->). eauto.
  - intros u cu' p Hu Hv. destruct (Hc u cu' Hu) as (cu & Hcu' & Hval).
    rewrite Hl. apply (Hcu u cu p Hcu'). now rewrite <- Hval.
Qed.

(** A node without children, not canceled, whose channel is not closed and
    that holds no timer, when it is the last one made, is ready. *)
Lemma ready_leaf s c n :
  heap s !! c = Some n → length (heap s) = S c →
  mu n = false → children n = None → err n = None →
  (done n = None ∨ done n = Some (chanOf c)) → chanOf c ∉ closed s →
  timer_of n = None →
  ready s c.
Proof.
  intros Hc Hl Hmu Hk He Hd Hcl Ht q m Hq Hle.
  assert (q = c) by (apply lookup_lt_Some in Hq; lia). subst q.
  rewrite Hc in Hq. injection Hq as <-. constructor; auto.
  - rewrite Hk. simpl. intros ch Hin. inversion Hin.
  - congruence.
  - congruence.
Qed.

Lemma propagateCancel_live fuel parent child x s0 :
  wf s0 → ctx_ok s0 parent →
  timer_of (mkNode None false None None None None x) = None →
  kind_matches child x = true → canceler_ptr child = length (heap s0) →
  (1 ≤ fuel)%nat →
  (∀ d, doneOf s0 parent = Some d → is_closed s0 d = false) →
  ∃ s1 n1 ctx1,
    propagateCancel fuel (length (heap s0)) parent child
      (setHeap (heap s0 ++ [mkNode None false None None None None x]) s0)
    = Ret tt s1
    ∧ sane s1 ∧ ready s1 (length (heap s0))
    ∧ heap s1 !! length (heap s0) = Some n1
    ∧ length (heap s1) = S (length (heap s0))
    ∧ err n1 = None ∧ ext n1 = x
    ∧ Context_ n1 = Some ctx1 ∧ ctx_ok s1 ctx1
    ∧ timers s1 = timers s0 ∧ now s1 = now s0 ∧ closed s1 = closed s0.
Proof.
  intros W Hok Htx Hk Hptr Hfuel Hopen.
  destruct (propagateCancel_Ret fuel parent child x s0 (wf_sane _ W) Hok
              (wf_closed _ W) Htx Hk Hptr Hfuel) as (sB & HD & Hm & Hw).
  set (c := length (heap s0)) in *.
  set (o := propagateCancel fuel c parent child _) in *.
  set (sA := setHeap (heap s0 ++ [mkNode (Some parent) false None None None None x]) s0) in *.
  assert (HcA : heap sA !! c = Some (mkNode (Some parent) false None None None None x)).
  { subst sA c. simpl. now rewrite lookup_app_r, Nat.sub_diag by lia. }
  assert (HlA : length (heap sA) = S c).
  { subst sA c. simpl. rewrite length_app. simpl. lia. }
  assert (HsaneA : sane sA).
  { destruct (wf_sane _ W) as [Hmu Hcu]. constructor.
    - intros q n Hq. subst sA. simpl in Hq.
      apply lookup_app_Some in Hq as [Hq | [_ Hq]]; [eauto|].
      destruct (q - length (heap s0))%nat; simpl in Hq; [|discriminate].
      now injection Hq as <-.
    - intros u cu p Hu Hv. rewrite HlA. specialize (Hcu u cu p Hu Hv). lia. }
  assert (HokA : ctx_ok sA parent).
  { apply (ctx_ok_grow s0); [rewrite HlA; lia | reflexivity | assumption]. }
  pose proof (mat_sane _ _ Hm HsaneA) as HsaneB.
  pose proof (mat_ctx_ok _ _ _ Hm HokA) as HokB.
  assert (HlB : length (heap sB) = S c) by (rewrite (mat_len _ _ Hm); exact HlA).
  assert (HcB : ∃ ncB, heap sB !! c = Some ncB ∧ mu ncB = false
                       ∧ err ncB = None ∧ children ncB = None
                       ∧ (done ncB = None ∨ done ncB = Some (chanOf c))
                       ∧ ext ncB = x ∧ Context_ ncB = Some parent).
  { destruct (mat_node _ _ Hm c _ HcA) as [H | [_ H]]; eexists;
      (split; [exact H|]); simpl; auto 10. }
  destruct HcB as (ncB & HcB & HmuB & HeB & HkB & HdB & HxB & HctxB).
  assert (HclB : chanOf c ∉ closed sB).
  { rewrite (mat_closed _ _ Hm). intros Hin.
    pose proof (wf_closed _ W c Hin). lia. }
  assert (HtB : timer_of ncB = None).
  { unfold timer_of in *. simpl in Htx. now rewrite HxB. }
  assert (HtmB : timers sB = timers s0) by (now rewrite (mat_timers _ _ Hm)).
  assert (HnowB : now sB = now s0) by (now rewrite (mat_now _ _ Hm)).
  assert (HclB' : closed sB = closed s0) by (now rewrite (mat_closed _ _ Hm)).
  assert (HdoneB : doneOf sB parent = doneOf s0 parent).
  { rewrite (mat_doneOf _ _ _ Hm). now apply doneOf_born. }
  unfold choose_wiring in Hw. rewrite HdoneB in Hw.
  destruct (doneOf s0 parent) as [d|] eqn:Hdone.
  - assert (Hcld : is_closed sB d = false).
    { specialize (Hopen d eq_refl). destruct d; try assumption.
      all: simpl in *; rewrite (mat_closed _ _ Hm); exact Hopen. }
    rewrite Hcld in Hw.
    destruct (resolve sB (Some d) parent) as [p|] eqn:Hres.
    + destruct Hw as (np & Hnp & Hw).
      destruct (resolve_Some _ _ _ _ Hres) as (np' & d' & Hnp' & Hd' & _ & Hdnp & Hkey).
      rewrite Hnp in Hnp'. injection Hnp' as <-. injection Hd' as <-.
      assert (Hpc : (p < c)%nat).
      { rewrite (keyOf_customs s0 sB) in Hkey
          by (rewrite (mat_customs _ _ Hm); reflexivity).
        apply (keyOf_valid s0 parent p (wf_sane _ W) Hok Hkey). }
      assert (Hep : err np = None).
      { destruct (err np) as [e|] eqn:Hep; [exfalso|reflexivity].
        destruct (lookup_lt_is_Some_2 (heap s0) p Hpc) as [n0 Hn0].
        assert (Hn0A : heap sA !! p = Some n0)
          by (subst sA; simpl; now apply lookup_app_l_Some).
        assert (He0 : err n0 = Some e ∧ (done n0 = Some d ∨ done n0 = None)).
        { destruct (mat_node _ _ Hm p n0 Hn0A) as [H | [Hd0 H]];
            rewrite Hnp in H; injection H as ->; simpl; auto. }
        destruct He0 as [He0 Hd0].
        destruct (wf_canceled _ W p n0 Hn0) as (_ & _ & d0 & Hd0' & Hcl0);
          [congruence|].
        destruct Hd0 as [Hd0|Hd0]; [|congruence].
        rewrite Hd0 in Hd0'. injection Hd0' as <-.
        assert (is_closed sB d = true); [|congruence].
        destruct d; simpl in *; auto. all: now rewrite (mat_closed _ _ Hm). }
      rewrite Hep in Hw.
      eexists _, ncB, parent. split; [exact Hw|].
      assert (Hc1 : <[p := set_children
                     (Some (insert_child child (default [] (children np)))) np]>
                     (heap sB) !! c = Some ncB)
        by (rewrite list_lookup_insert_ne by lia; exact HcB).
      split.
      { apply (sane_update sB); simpl; auto.
        - apply length_insert.
        - intros q n' Hq. destruct (decide (q = p)) as [->|Hne].
          + rewrite (lookup_insert_same _ _ _ _ Hnp) in Hq. injection Hq as <-.
            eauto.
          + rewrite list_lookup_insert_ne in Hq by congruence. eauto.
        - eauto. }
      split.
      { apply (ready_leaf _ c ncB); simpl; auto. now rewrite length_insert. }
      simpl. rewrite length_insert.
      repeat (split; [first [assumption | reflexivity]|]).
      split; [|auto].
      apply (ctx_ok_len sB); simpl; auto using length_insert.
    + assert (HW : wired ByWaiter c parent child sB o → 
                   ∃ s1 n1 ctx1, o = Ret tt s1 ∧ sane s1 ∧ ready s1 c
                     ∧ heap s1 !! c = Some n1 ∧ length (heap s1) = S c
                     ∧ err n1 = None ∧ ext n1 = x
                     ∧ Context_ n1 = Some ctx1 ∧ ctx_ok s1 ctx1
                     ∧ timers s1 = timers s0 ∧ now s1 = now s0
                     ∧ closed s1 = closed s0).
      { simpl. intros ->. eexists _, ncB, parent. split; [reflexivity|].
        split; [apply (sane_update sB); simpl; eauto|].
        split; [apply (ready_leaf _ c ncB); simpl; auto|].
        simpl. repeat (split; [first [assumption | reflexivity]|]).
        split; [|auto]. apply (ctx_ok_len sB); simpl; auto. }
      destruct parent; try (exact (HW Hw)).
      simpl in HokB. destruct (lookup_lt_is_Some_2 _ _ HokB) as [cu Hcu].
      rewrite Hcu in Hw. destruct (uAfterFunc cu); [|exact (HW Hw)].
      destruct Hw as (cu' & nc & Hcu' & Hnc & Hw).
      rewrite Hcu in Hcu'. injection Hcu' as <-.
      rewrite HcB in Hnc. injection Hnc as <-.
      eexists _, _, _. split; [exact Hw|].
      split.
      { apply (sane_update sB); simpl; auto.
        - apply length_insert.
        - intros q n' Hq. destruct (decide (q = c)) as [->|Hne].
          + rewrite (lookup_insert_same _ _ _ _ HcB) in Hq. injection Hq as <-.
            eauto.
          + rewrite list_lookup_insert_ne in Hq by congruence. eauto.
        - intros u' cu' Hu'. destruct (decide (u' = u)) as [->|Hne].
          + rewrite (lookup_insert_same _ _ _ _ Hcu) in Hu'.
            injection Hu' as <-. eauto.
          + rewrite list_lookup_insert_ne in Hu' by congruence. eauto. }
      split.
      { eapply ready_leaf;
          [simpl; apply (lookup_insert_same _ _ _ _ HcB)
          |simpl; now rewrite length_insert | simpl; auto ..]. }
      simpl. rewrite length_insert.
      split; [apply (lookup_insert_same _ _ _ _ HcB)|].
      simpl. repeat (split; [first [assumption | reflexivity]|]).
      split; [|auto]. simpl. rewrite !length_insert. auto.
  - simpl in Hw. eexists sB, ncB, parent. split; [exact Hw|].
    split; [assumption|].
    split; [apply (ready_leaf _ c ncB); auto|].
    repeat (split; [first [assumption | reflexivity]|]). auto.
Qed.

(** ** Deadlines *)

Lemma embedded_pure p s r s' : embedded p s = Ret r s' → s' = s.
Proof.
  unfold embedded, bind, getNode, get. simpl.
  destruct (heap s !! p) as [n|]; [|discriminate].
  destruct (Context_ n); [|discriminate]. now intros [= _ <-].
Qed.

Lemma Deadline_with_pure hopf :
  (∀ p s r s', hopf p s = Ret r s' → s' = s) →
  ∀ c s r s', Deadline_with hopf c s = Ret r s' → s' = s.
Proof.
  intros Hhop. induction c; simpl; intros s r s' H; eauto;
    try (now injection H as _ <-).
  - unfold bind, getNode, get in H. simpl in H.
    destruct (heap s !! p) as [n|]; [|discriminate].
    destruct (ext n); try discriminate. now injection H as _ <-.
  - unfold bind, getCustom, get in H. simpl in H.
    destruct (customs s !! u); [|discriminate]. now injection H as _ <-.
Qed.

Lemma Deadline_pure fuel : ∀ c s r s', Deadline fuel c s = Ret r s' → s' = s.
Proof.
  induction fuel as [|f IH]; intros c s r s' H.
  - refine (Deadline_with_pure (λ _, outOfFuel) _ c s r s' H). discriminate.
  - refine (Deadline_with_pure
              (λ p, parent <- embedded p;; Deadline f parent) _ c s r s' H).
    intros p s1 r1 s1' H1. unfold bind in H1.
    destruct (embedded p s1) as [ctx s2| | |] eqn:He; try discriminate.
    apply embedded_pure in He. subst s2. eauto.
Qed.

(** [WithDeadlineCause] with a deadline that has passed, under a parent that
    is not canceled and has no earlier deadline. *)
Lemma WithDeadlineCause_past fuel parent d cause0 s0 cur s00 :
  wf s0 → ctx_ok s0 parent →
  Deadline fuel parent s0 = Ret cur s00 → (∀ t, cur = Some t → d ≤ t) →
  Until d (now s0) ≤ 0 → (1 ≤ fuel)%nat →
  (∀ d', doneOf s0 parent = Some d' → is_closed s0 d' = false) →
  ∃ s' n' dd,
    WithDeadlineCause fuel (Some parent) d cause0 s0
    = Ret (timerCtxP (length (heap s0)),
           mkCancelFunc (cancelerTimer (length (heap s0))) false) s'
    ∧ heap s' !! length (heap s0) = Some n'
    ∧ err n' = Some DeadlineExceeded
    ∧ cause n' = Some (default DeadlineExceeded cause0)
    ∧ done n' = Some dd ∧ is_closed s' dd = true
    ∧ timer_of n' = None ∧ children n' = None
    ∧ (∀ t tm, timers s' !! t = Some tm → (tnode tm < length (heap s0))%nat).
Proof.
  intros W Hok HDl Hcur Hpast Hfuel Hopen.
  pose proof (Deadline_pure _ _ _ _ _ HDl). subst s00.
  unfold WithDeadlineCause. rewrite (bind_Ret _ _ _ _ _ HDl).
  assert (Hb : match cur with Some cur => bool_decide (cur < d) | None => false end
               = false).
  { destruct cur as [t|]; [|reflexivity].
    apply bool_decide_eq_false. specialize (Hcur t eq_refl). lia. }
  rewrite Hb.
  set (c := length (heap s0)).
  assert (HA : alloc (timerExt None d) s0
               = Ret c (setHeap (heap s0 ++ [mkNode None false None None None
                                               None (timerExt None d)]) s0))
    by reflexivity.
  destruct (propagateCancel_live fuel parent (cancelerTimer c) (timerExt None d)
              s0 W Hok eq_refl eq_refl eq_refl Hfuel Hopen)
    as (s1 & n1 & ctx1 & HP & Hs1 & Hr1 & Hn1 & Hl1 & He1 & Hx1 & Hctx1 & Hok1
        & Htm1 & Hnow1 & Hcl1).
  fold c in HP, Hr1, Hn1, Hl1.
  destruct (canceler_cancel_returns fuel (cancelerTimer c) true DeadlineExceeded
              cause0 s1 n1 ctx1 Hs1 Hr1 Hn1) as (sx & s2 & s' & HC' & HC & Hcan & Ht & _ & Hfin & _);
    [now rewrite Hx1 | assumption | assumption | simpl; lia |].
  simpl canceler_ptr in *.
  destruct (Casc_fields _ _ _ _ _ _ _ _ HC Hn1 He1 Hcan)
    as (nx & Hnx & Hex & Hzx & Hkx & _ & _ & dd & Hdx & Hclx).
  destruct (touch_node _ _ Ht c nx Hnx)
    as (n2 & Hn2 & _ & _ & He2 & Hz2 & Hx2 & Hd2 & Hk2 & _).
  destruct (fin_heap _ _ _ Hfin) as (n2' & Hn2' & Hh').
  rewrite Hn2 in Hn2'. injection Hn2' as <-.
  exists s', (set_ext (stopped (ext n2)) n2), dd.
  split.
  { rewrite (bind_Ret _ _ _ _ _ HA), (bind_Ret _ _ _ _ _ HP), bind_get.
    rewrite Hnow1, (bool_decide_eq_true_2 _ Hpast).
    change (timerCtx_cancel fuel c true (Some DeadlineExceeded) cause0)
      with (canceler_cancel fuel (cancelerTimer c) true (Some DeadlineExceeded)
              cause0).
    now rewrite (bind_Ret _ _ _ _ _ HC'). }
  split; [rewrite Hh'; apply (lookup_insert_same _ _ _ _ Hn2)|].
  simpl. split; [congruence|]. split; [congruence|].
  split; [destruct Hd2 as [Hd2 | [Hd2 _]]; congruence|].
  split.
  { destruct dd; auto; simpl in *;
      rewrite (fin_closed _ _ _ Hfin), (touch_closed _ _ Ht); exact Hclx. }
  split; [unfold timer_of; simpl; destruct (ext n2); reflexivity|].
  split; [auto|].
  intros t tm Htm.
  destruct (cancel_timers _ _ _ _ _ _ _ _ _ _ _ HC Ht Hfin Htm)
    as (tm0 & _ & Htm0 & _ & Hn0 & _).
  rewrite Hn0. rewrite Htm1 in Htm0. exact (wf_timers _ W t tm0 Htm0).
Qed.

Lemma Until_past d t : d ≤ t → Until d t ≤ 0.
Proof. unfold Until, maxDuration, minDuration. lia. Qed.




(** C5.  A deadline node, once a cancel operation that reaches it has
    returned, holds no timer and no timer that can fire is for it, in the
    state the operation returns in and in every state any run of operations
    leads to from there; firing a timer that is for it does nothing.  This
    holds when the cancel operation is the node's own or that of a canceler
    the node is registered below, at any depth; and when the node is made
    with a deadline that has passed, it never has a timer at all. *)
Theorem deadline_timer_stopped :
  (∀ fuel ch removeFromParent e cause0 s c n tf d,
     wf s → kind_ok s ch → (length (heap s) - canceler_ptr ch ≤ fuel)%nat →
     c = canceler_ptr ch ∨ descendant s (canceler_ptr ch) c →
     heap s !! c = Some n → ext n = timerExt tf d →
     ∃ s', canceler_cancel fuel ch removeFromParent (Some e) cause0 s
           = Ret tt s'
           ∧ ∀ ops,
               (∃ n', heap (runOps ops s') !! c = Some n'
                      ∧ err n' ≠ None ∧ timer_of n' = None)
               ∧ ∀ t tm, timers (runOps ops s') !! t = Some tm →
                         tnode tm = c →
                         tactive tm = false
                         ∧ ∀ fuel', fireTimer fuel' t (runOps ops s')
                                    = Ret tt (runOps ops s'))
  ∧ (∀ fuel parent d cause0 s0 cur s00,
       wf s0 → ctx_ok s0 parent →
       Deadline fuel parent s0 = Ret cur s00 → (∀ t, cur = Some t → d ≤ t) →
       (∀ d', doneOf s0 parent = Some d' → is_closed s0 d' = false) →
       d ≤ now s0 → (1 ≤ fuel)%nat →
       ∃ s', WithDeadlineCause fuel (Some parent) d cause0 s0
             = Ret (timerCtxP (length (heap s0)),
                    mkCancelFunc (cancelerTimer (length (heap s0))) false) s'
             ∧ ∀ ops,
                 (∃ n', heap (runOps ops s') !! length (heap s0) = Some n'
                        ∧ err n' ≠ None ∧ timer_of n' = None)
                 ∧ ∀ t tm, timers (runOps ops s') !! t = Some tm →
                           tnode tm ≠ length (heap s0)).
Proof.
  split.
  - intros fuel ch rfp e cause0 s c n tf d W Hk Hf Hrel Hn _.
    destruct (timer_stopped_by_cancel fuel ch rfp e cause0 s c n W Hk Hf Hrel Hn)
      as (s' & Hrun & _ & (n' & Hn' & He' & Ht') & Hquiet).
    exists s'. split; [exact Hrun|]. intros ops.
    pose proof (runOps_le ops s') as Hle.
    split.
    + destruct (le_heap _ _ _ Hle c n' Hn') as (n2 & Hn2 & Hnle).
      exists n2. split; [assumption|]. split.
      * destruct (err n') as [e'|] eqn:He0; [|congruence].
        rewrite (le_err _ _ Hnle e' He0). discriminate.
      * apply (le_timer _ _ Hnle); assumption.
    + intros t tm Htm Htn.
      assert (Ha : tactive tm = false).
      { eapply (timers_quiet_forever c s' ops); eauto.
        eapply lookup_lt_Some; eauto. }
      split; [exact Ha|]. intros fuel'. now apply (fireTimer_inactive _ _ tm).
  - intros fuel parent d cause0 s0 cur s00 W Hok HDl Hcur Hopen Hpast Hfuel.
    destruct (WithDeadlineCause_past fuel parent d cause0 s0 cur s00 W Hok HDl
                Hcur (Until_past _ _ Hpast) Hfuel Hopen)
      as (s' & n' & dd & Hrun & Hn' & He' & _ & _ & _ & Ht' & _ & Htm').
    exists s'. split; [exact Hrun|]. intros ops.
    pose proof (runOps_le ops s') as Hle.
    split.
    + destruct (le_heap _ _ _ Hle _ n' Hn') as (n2 & Hn2 & Hnle).
      exists n2. split; [assumption|]. split.
      * rewrite (le_err _ _ Hnle _ He'). discriminate.
      * apply (le_timer _ _ Hnle); [congruence | assumption].
    + intros t tm Htm Htn.
      destruct (le_new_timers _ _ _ Hle t tm Htm) as [[tm0 Htm0] | Hnew].
      * destruct (le_timers _ _ _ Hle t tm0 Htm0) as (tm2 & Htm2 & Hn2 & _).
        rewrite Htm in Htm2. injection Htm2 as <-.
        specialize (Htm' t tm0 Htm0). lia.
      * apply lookup_lt_Some in Hn'. lia.
Qed.

Lemma deadline_timer_stopped_witness :
  (∃ s', canceler_cancel 4 (cancelerCancel 0) true (Some Canceled) None
           example_tree = Ret tt s'
         ∧ ∀ ops,
             (∃ n', heap (runOps ops s') !! 3%nat = Some n'
                    ∧ err n' ≠ None ∧ timer_of n' = None)
             ∧ ∀ t tm, timers (runOps ops s') !! t = Some tm →
                       tnode tm = 3%nat →
                       tactive tm = false
                       ∧ ∀ fuel', fireTimer fuel' t (runOps ops s')
                                  = Ret tt (runOps ops s'))
  ∧ (∃ s', WithDeadlineCause 5 (Some (cancelCtxP 1)) 0 None example_tree
           = Ret (timerCtxP (length (heap example_tree)),
                  mkCancelFunc (cancelerTimer (length (heap example_tree)))
                               false) s'
           ∧ ∀ ops,
               (∃ n', heap (runOps ops s') !! length (heap example_tree)
                      = Some n'
                      ∧ err n' ≠ None ∧ timer_of n' = None)
               ∧ ∀ t tm, timers (runOps ops s') !! t = Some tm →
                         tnode tm ≠ length (heap example_tree)).
Proof.
  split.
  - refine (proj1 deadline_timer_stopped 4%nat (cancelerCancel 0) true Canceled
              None example_tree 3%nat
              (mkNode (Some (cancelCtxP 0)) false None None None None
                      (timerExt (Some 0%nat) 100))
              (Some 0%nat) 100 _ _ _ _ _ _).
    + apply wfb_wf. vm_compute. reflexivity.
    + eexists. split; vm_compute; reflexivity.
    + vm_compute. lia.
    + right.
      apply (descendant_child example_tree 0
               (mkNode (Some backgroundCtx) false (Some (chanOf 0))
                       (Some [cancelerCancel 1; cancelerTimer 3]) None None
                       plainExt) (cancelerTimer 3)).
      * vm_compute. reflexivity.
      * simpl. apply elem_of_cons. right. apply elem_of_cons. now left.
    + vm_compute. reflexivity.
    + reflexivity.
  - refine (proj2 deadline_timer_stopped 5%nat (cancelCtxP 1) 0 None example_tree
              None example_tree _ _ _ _ _ _ _).
    + apply wfb_wf. vm_compute. reflexivity.
    + vm_compute. lia.
    + vm_compute. reflexivity.
    + discriminate.
    + intros d'. vm_compute. intros [= <-]. reflexivity.
    + vm_compute. discriminate.
    + lia.
Defined.

(** ** A deadline later than the parent's *)

(** What [WithCancel] returns is a node just made, and no timer is for it,
    ever. *)
Lemma WithCancel_no_timer fuel parent s ctx f s' :
  wf s → WithCancel fuel (Some parent) s = Ret (ctx, f) s' →
  ctx = cancelCtxP (length (heap s))
  ∧ f = mkCancelFunc (cancelerCancel (length (heap s))) true
  ∧ (∃ n, heap s' !! length (heap s) = Some n ∧ ext n = plainExt)
  ∧ ∀ ops t tm, timers (runOps ops s') !! t = Some tm →
                tnode tm ≠ length (heap s).
Proof.
  intros W Hrun.
  pose proof (okm_Ret same_timers _ _ _ _ (okm_WithCancel same_timers fuel (Some parent) s) Hrun) as Hst.
  pose proof (okm_Ret (le_from (length (heap s))) _ _ _ _
                (okm_WithCancel _ fuel (Some parent) s) Hrun) as Hle.
  unfold WithCancel, withCancel in Hrun.
  unfold bind at 1 in Hrun. unfold bind at 1 in Hrun.
  change (alloc plainExt s)
    with (Ret (length (heap s))
              (setHeap (heap s ++ [mkNode None false None None None None plainExt]) s))
    in Hrun.
  cbv beta iota in Hrun.
  set (c := length (heap s)) in *.
  set (sF := setHeap _ s) in Hrun.
  unfold bind at 1 in Hrun.
  destruct (propagateCancel fuel c parent (cancelerCancel c) sF)
    as [[] s1| | |] eqn:HP; try discriminate.
  injection Hrun as <- <- <-.
  split; [reflexivity|]. split; [reflexivity|].
  pose proof (okm_Ret (le_from (length (heap sF))) _ _ _ _
                (okm_propagateCancel _ fuel c parent (cancelerCancel c) sF) HP)
    as HleF.
  assert (HcF : heap sF !! c = Some (mkNode None false None None None None plainExt)).
  { subst sF c. simpl. now rewrite lookup_app_r, Nat.sub_diag by lia. }
  destruct (le_heap _ _ _ HleF c _ HcF) as (n1 & Hn1 & Hnle).
  split.
  { exists n1. split; [assumption|].
    pose proof (le_plain _ _ Hnle) as Hp. simpl in Hp.
    destruct (ext n1); try discriminate. reflexivity. }
  assert (Hold : ∀ t tm, timers s1 !! t = Some tm → (tnode tm < c)%nat).
  { intros t tm Htm.
    assert (Hlt : (t < length (timers s))%nat).
    { rewrite Hst. eapply lookup_lt_Some; eauto. }
    destruct (lookup_lt_is_Some_2 _ _ Hlt) as [tm0 Htm0].
    destruct (le_timers _ _ _ Hle t tm0 Htm0) as (tm2 & Htm2 & Hn2 & _).
    rewrite Htm in Htm2. injection Htm2 as <-. rewrite Hn2.
    exact (wf_timers _ W t tm0 Htm0). }
  intros ops t tm Htm Htn.
  pose proof (runOps_le ops s1) as Hle1.
  destruct (le_new_timers _ _ _ Hle1 t tm Htm) as [[tm0 Htm0] | Hnew].
  - destruct (le_timers _ _ _ Hle1 t tm0 Htm0) as (tm2 & Htm2 & Hn2 & _).
    rewrite Htm in Htm2. injection Htm2 as <-.
    specialize (Hold t tm0 Htm0). lia.
  - apply lookup_lt_Some in Hn1. lia.
Qed.

(** [propagateCancel] returns, unless the parent, a Context of the
    environment, has a closed done-signal and no error. *)
Lemma propagateCancel_returns fuel parent child x s0 :
  sane s0 → ctx_ok s0 parent →
  (∀ q, chanOf q ∈ closed s0 → (q < length (heap s0))%nat) →
  timer_of (mkNode None false None None None None x) = None →
  kind_matches child x = true → canceler_ptr child = length (heap s0) →
  (1 ≤ fuel)%nat →
  (∀ d, doneOf s0 parent = Some d → is_closed s0 d = true →
        errOf s0 parent ≠ None) →
  ∃ s1, propagateCancel fuel (length (heap s0)) parent child
          (setHeap (heap s0 ++ [mkNode None false None None None None x]) s0)
        = Ret tt s1.
Proof.
  intros Hs Hok Hcl Htx Hk Hptr Hfuel Hcontract.
  destruct (propagateCancel_Ret fuel parent child x s0 Hs Hok Hcl Htx Hk Hptr
              Hfuel) as (sB & HD & Hm & Hw).
  set (o := propagateCancel _ _ _ _ _) in *.
  assert (HdoneB : doneOf sB parent = doneOf s0 parent).
  { rewrite (mat_doneOf _ _ _ Hm). now apply doneOf_born. }
  assert (HerrB : errOf sB parent = errOf s0 parent).
  { rewrite (mat_errOf _ _ _ Hm). now apply errOf_born. }
  unfold choose_wiring in Hw.
  destruct (doneOf sB parent) as [d|] eqn:Hdone; [|simpl in Hw; eauto].
  destruct (is_closed sB d) eqn:Hcld.
  - destruct Hw as (s1 & _ & Hw).
    assert (He : errOf sB parent ≠ None).
    { rewrite HerrB. apply (Hcontract d); [congruence|].
      pose proof (mat_closed _ _ Hm) as Hc. simpl in Hc.
      unfold is_closed in *. now rewrite <- Hc. }
    destruct (errOf sB parent) as [e|]; [|congruence].
    destruct Hw as (s' & Hw & _). eauto.
  - destruct (resolve sB (Some d) parent) as [p|].
    + destruct Hw as (np & _ & Hw). destruct (err np).
      * destruct Hw as (s' & Hw & _). eauto.
      * eauto.
    + assert (HW : wired ByWaiter (length (heap s0)) parent child sB o →
                   ∃ s1, o = Ret tt s1) by (simpl; eauto).
      destruct parent; try exact (HW Hw).
      destruct (customs sB !! u) as [cu|]; [|exact (HW Hw)].
      destruct (uAfterFunc cu); [|exact (HW Hw)].
      destruct Hw as (? & ? & _ & _ & Hw). eauto.
Qed.

Lemma WithCancel_returns fuel parent s :
  sane s → ctx_ok s parent →
  (∀ q, chanOf q ∈ closed s → (q < length (heap s))%nat) →
  (1 ≤ fuel)%nat →
  (∀ d, doneOf s parent = Some d → is_closed s d = true →
        errOf s parent ≠ None) →
  ∃ s', WithCancel fuel (Some parent) s
        = Ret (cancelCtxP (length (heap s)),
               mkCancelFunc (cancelerCancel (length (heap s))) true) s'.
Proof.
  intros Hs Hok Hcl Hfuel Hcontract.
  destruct (propagateCancel_returns fuel parent (cancelerCancel (length (heap s)))
              plainExt s Hs Hok Hcl eq_refl eq_refl eq_refl Hfuel Hcontract)
    as (s1 & HP).
  exists s1. unfold WithCancel, withCancel.
  unfold bind at 1. unfold bind at 1.
  change (alloc plainExt s)
    with (Ret (length (heap s))
              (setHeap (heap s ++ [mkNode None false None None None None plainExt]) s)).
  cbv beta iota. now rewrite (bind_Ret _ _ _ _ _ HP).
Qed.

(** C7.  Under a parent with a deadline earlier than [d],
    [WithDeadlineCause] with the deadline [d] is [WithCancel]: the same
    outcome in the same state.  It makes no timer, wherever it stops.  From
    a state between operations it returns, unless the parent is a Context of
    the environment with a closed done-signal and no error; the node it
    returns has no deadline of its own, and in every state any run of
    operations leads to from there, no timer is for that node. *)
Theorem WithDeadline_later_than_parent fuel parent d cause0 s cur s1 :
  Deadline fuel parent s = Ret (Some cur) s1 → cur < d →
  WithDeadlineCause fuel (Some parent) d cause0 s
  = WithCancel fuel (Some parent) s
  ∧ length (timers (final s (WithDeadlineCause fuel (Some parent) d cause0 s)))
    = length (timers s)
  ∧ (wf s → ctx_ok s parent → (1 ≤ fuel)%nat →
     (∀ d', doneOf s parent = Some d' → is_closed s d' = true →
            errOf s parent ≠ None) →
     ∃ s', WithDeadlineCause fuel (Some parent) d cause0 s
           = Ret (cancelCtxP (length (heap s)),
                  mkCancelFunc (cancelerCancel (length (heap s))) true) s'
           ∧ (∃ n, heap s' !! length (heap s) = Some n ∧ ext n = plainExt)
           ∧ ∀ ops t tm, timers (runOps ops s') !! t = Some tm →
                         tnode tm ≠ length (heap s)).
Proof.
  intros HDl Hlt.
  pose proof (Deadline_pure _ _ _ _ _ HDl). subst s1.
  assert (Heq : WithDeadlineCause fuel (Some parent) d cause0 s
                = WithCancel fuel (Some parent) s).
  { unfold WithDeadlineCause. rewrite (bind_Ret _ _ _ _ _ HDl).
    now rewrite (bool_decide_eq_true_2 _ Hlt). }
  split; [exact Heq|]. rewrite Heq. split.
  - pose proof (okm_WithCancel same_timers fuel (Some parent) s) as H.
    unfold okm, same_timers in H. unfold final.
    destruct (WithCancel fuel (Some parent) s); auto.
  - intros W Hok Hfuel Hcontract.
    destruct (WithCancel_returns fuel parent s (wf_sane _ W) Hok
                (wf_closed _ W) Hfuel Hcontract) as (s' & Hrun).
    exists s'. split; [exact Hrun|].
    destruct (WithCancel_no_timer fuel parent s _ _ s' W Hrun)
      as (_ & _ & Hn & Hnever).
    split; assumption.
Qed.

Lemma WithDeadline_later_than_parent_witness :
  WithDeadlineCause 5 (Some (timerCtxP 3)) 200 None example_tree
  = WithCancel 5 (Some (timerCtxP 3)) example_tree
  ∧ length (timers (final example_tree
                      (WithDeadlineCause 5 (Some (timerCtxP 3)) 200 None
                         example_tree)))
    = length (timers example_tree)
  ∧ ∃ s', WithDeadlineCause 5 (Some (timerCtxP 3)) 200 None example_tree
          = Ret (cancelCtxP (length (heap example_tree)),
                 mkCancelFunc (cancelerCancel (length (heap example_tree)))
                              true) s'
          ∧ (∃ n, heap s' !! length (heap example_tree) = Some n
                  ∧ ext n = plainExt)
          ∧ ∀ ops t tm, timers (runOps ops s') !! t = Some tm →
                        tnode tm ≠ length (heap example_tree).
Proof.
  destruct (WithDeadline_later_than_parent 5 (timerCtxP 3) 200 None
              example_tree 100 example_tree) as (H1 & H2 & H3).
  - vm_compute. reflexivity.
  - lia.
  - split; [exact H1|]. split; [exact H2|]. apply H3.
    + apply wfb_wf. vm_compute. reflexivity.
    + vm_compute. lia.
    + lia.
    + intros d'. vm_compute. intros [= <-]. discriminate.
Defined.

(** * The states between operations are kept *)

(** ** What the Contexts and the cancelers stand for is kept *)

Lemma later_refl s : later s s.
Proof. constructor; eauto. Qed.

Lemma later_trans s1 s2 s3 : later s1 s2 → later s2 s3 → later s1 s3.
Proof.
  intros H12 H23. constructor.
  - pose proof (later_len _ _ H12). pose proof (later_len _ _ H23). lia.
  - intros q n Hq. destruct (later_node _ _ H12 q n Hq) as (n2 & Hq2 & Hk2 & Hd2).
    destruct (later_node _ _ H23 q n2 Hq2) as (n3 & Hq3 & Hk3 & Hd3).
    exists n3. split; [assumption|]. split.
    + intros ch. now rewrite Hk3, Hk2.
    + auto.
  - pose proof (later_customs_len _ _ H12).
    pose proof (later_customs_len _ _ H23). lia.
  - intros u cu Hu.
    destruct (later_customs _ _ H12 u cu Hu) as (cu2 & Hu2 & Hv2 & Hd2).
    destruct (later_customs _ _ H23 u cu2 Hu2) as (cu3 & Hu3 & Hv3 & Hd3).
    exists cu3. split; [assumption|]. split; congruence.
Qed.

Lemma later_ctx_ok s s' c : later s s' → ctx_ok s c → ctx_ok s' c.
Proof.
  intros H. apply ctx_ok_grow; [apply (later_len _ _ H) | apply (later_customs_len _ _ H)].
Qed.

Lemma later_kind_ok s s' ch : later s s' → kind_ok s ch → kind_ok s' ch.
Proof.
  intros H (n & Hn & Hk).
  destruct (later_node _ _ H _ n Hn) as (n' & Hn' & Hk' & _).
  exists n'. split; [assumption|]. now rewrite Hk'.
Qed.

Lemma later_keyOf s s' c p :
  later s s' → keyOf s c = acancelCtx p → keyOf s' c = acancelCtx p.
Proof.
  intros H. induction c; simpl; auto.
  destruct (customs s !! u) as [cu|] eqn:Hu; [|discriminate].
  destruct (later_customs _ _ H u cu Hu) as (cu' & -> & -> & _). auto.
Qed.

(** A Context that resolves to a node goes on resolving to it. *)
Lemma later_resolve s s' c r :
  later s s' →
  resolve s (doneOf s c) c = Some r → resolve s' (doneOf s' c) c = Some r.
Proof.
  intros H Hres.
  destruct (resolve_Some _ _ _ _ Hres) as (nr & d & Hr & Hd & Hnc & Hdr & Hkey).
  destruct (later_node _ _ H r nr Hr) as (nr' & Hr' & _ & Hdone).
  assert (Hd' : doneOf s' c = Some d).
  { clear Hres. induction c; simpl in *; try discriminate; auto.
    - injection Hkey as ->. rewrite Hr in Hd. rewrite Hr'.
      rewrite (Hdone d Hdr). rewrite Hdr in Hd. exact Hd.
    - injection Hkey as ->. rewrite Hr in Hd. rewrite Hr'.
      rewrite (Hdone d Hdr). rewrite Hdr in Hd. exact Hd.
    - destruct (customs s !! u) as [cu|] eqn:Hu; [|discriminate].
      destruct (later_customs _ _ H u cu Hu) as (cu' & -> & _ & ->). auto. }
  rewrite Hd'. unfold resolve.
  rewrite (later_keyOf _ _ _ _ H Hkey), Hr', (Hdone d Hdr).
  rewrite bool_decide_eq_true_2 by reflexivity.
  destruct d; [contradiction | reflexivity | reflexivity].
Qed.

(** ** [wf], node by node *)

Lemma wf_node s q n : wf s → heap s !! q = Some n → node_wf s q n.
Proof.
  intros W Hq. constructor.
  - apply (wf_ready _ W q n Hq). lia.
  - intros ch Hin.
    destruct (wf_live_children _ W q n ch Hq Hin) as (m & Hm & Hem).
    destruct (wf_registered _ W q n ch Hq Hin)
      as (m' & ctx & Hm' & Hctx & Hns & Hres).
    rewrite Hm in Hm'. injection Hm' as <-. eauto 10.
  - apply (wf_canceled _ W q n Hq).
  - apply (wf_live _ W q n Hq).
  - apply (wf_context _ W q n Hq).
Qed.

Lemma wf_intro s :
  (∀ q n, heap s !! q = Some n → node_wf s q n) →
  (∀ u cu p, customs s !! u = Some cu →
     uValue cu cancelCtxKey = acancelCtx p → (p < length (heap s))%nat) →
  (∀ t tm, timers s !! t = Some tm → (tnode tm < length (heap s))%nat) →
  (∀ t tm, timers s !! t = Some tm → tactive tm = true →
     ∃ n, heap s !! tnode tm = Some n ∧ timer_of n = Some t) →
  (∀ q, chanOf q ∈ closed s → (q < length (heap s))%nat) →
  (∀ i parent child,
     waiters s !! i = Some (parent, child) → pending s parent child) →
  (∀ u cu r parent child,
     customs s !! u = Some cu → uRegs cu !! r = Some (Some (child, parent)) →
     pending s parent child) →
  wf s.
Proof.
  intros Hn Hcu Ht Ha Hcl Hw Hr. constructor; auto.
  - intros q n Hq _. apply (nw_ready _ _ _ (Hn q n Hq)).
  - intros q n ch Hq Hin.
    destruct (nw_children _ _ _ (Hn q n Hq) ch Hin) as (m & ctx & Hm & He & _).
    eauto.
  - intros q n Hq. apply (nw_canceled _ _ _ (Hn q n Hq)).
  - intros q n Hq. apply (nw_live _ _ _ (Hn q n Hq)).
  - intros q n Hq. apply (nw_context _ _ _ (Hn q n Hq)).
  - intros q n ch Hq Hin.
    destruct (nw_children _ _ _ (Hn q n Hq) ch Hin)
      as (m & ctx & Hm & He & Hc & Hns & Hres).
    eauto 10.
Qed.

(** A node that is as it was is as [wf] asks in the later state, when no
    channel of a node that is not canceled has been closed, the closed
    channels and the timers stay, and the children of the node stay as they
    are: not canceled, with the Context they embed. *)
Lemma node_wf_later s s' q n :
  later s s' → node_wf s q n →
  (err n = None → chanOf q ∈ closed s' → chanOf q ∈ closed s) →
  (∀ d, is_closed s d = true → is_closed s' d = true) →
  (length (timers s) ≤ length (timers s'))%nat →
  (∀ ch m, ch ∈ default [] (children n) →
     heap s !! canceler_ptr ch = Some m → err m = None →
     ∃ m', heap s' !! canceler_ptr ch = Some m' ∧ err m' = None
           ∧ Context_ m' = Context_ m) →
  node_wf s' q n.
Proof.
  intros HL [[Hmu Hch Hlive Hst Htm] Hkids Hcan Hlv Hctx] Hcl Hcl' Htl Hsame.
  constructor; [constructor|..]; auto.
  - intros ch Hin. destruct (Hch ch Hin) as [Hlt Hk].
    split; [assumption | eapply later_kind_ok; eauto].
  - intros He. destruct (Hlive He) as [Hn Hd]. split; [|assumption].
    intros Hin. apply Hn, Hcl; assumption.
  - intros t Ht. specialize (Htm t Ht). lia.
  - intros ch Hin.
    destruct (Hkids ch Hin) as (m & ctx & Hm & Hem & Hc & Hns & Hres).
    destruct (Hsame ch m Hin Hm Hem) as (m' & Hm' & Hem' & Hc').
    exists m', ctx. split; [assumption|]. split; [assumption|].
    split; [congruence|]. split; [assumption|]. eapply later_resolve; eauto.
  - intros He. destruct (Hcan He) as (Hk & Hz & d & Hd & Hdc). eauto 10.
  - destruct Hctx as (ctx & Hc & Hok). exists ctx.
    split; [assumption | eapply later_ctx_ok; eauto].
Qed.

(** A child that is in no children set stays so when no set gains it. *)
Lemma pending_later s s' parent child :
  later s s' → pending s parent child →
  (∀ r, registered s' r (canceler_ptr child) →
        registered s r (canceler_ptr child)) →
  pending s' parent child.
Proof.
  intros HL (Hok & Hk & Hun) Hreg. split; [eapply later_ctx_ok; eauto|].
  split; [eapply later_kind_ok; eauto|].
  intros r Hr. apply (Hun r), Hreg, Hr.
Qed.

(** ** [Done] *)

Lemma mat_later s s' : mat s s' → later s s'.
Proof.
  intros Hm. constructor.
  - rewrite (mat_len _ _ Hm). lia.
  - intros q n Hq. destruct (mat_node _ _ Hm q n Hq) as [H | [Hd H]];
      eexists; (split; [exact H|]); simpl; auto. split; [auto|]. congruence.
  - rewrite (mat_customs _ _ Hm). lia.
  - intros u cu Hu. rewrite (mat_customs _ _ Hm). eauto.
Qed.

Lemma mat_node_inv s s' q n' :
  mat s s' → heap s' !! q = Some n' →
  ∃ n, heap s !! q = Some n
       ∧ (n' = n ∨ (done n = None ∧ n' = set_done (Some (chanOf q)) n)).
Proof.
  intros Hm Hq'.
  assert (Hlt : (q < length (heap s))%nat).
  { rewrite <- (mat_len _ _ Hm). eapply lookup_lt_Some; eauto. }
  destruct (lookup_lt_is_Some_2 _ _ Hlt) as [n Hq]. exists n.
  split; [assumption|].
  destruct (mat_node _ _ Hm q n Hq) as [H | [Hd H]];
    rewrite Hq' in H; injection H as ->; auto.
Qed.

Lemma mat_registered s s' r q : mat s s' → registered s' r q → registered s r q.
Proof.
  intros Hm (nr' & ch & Hr' & Hin & Hp).
  destruct (mat_node_inv _ _ _ _ Hm Hr') as (nr & Hr & [-> | [_ ->]]);
    exists nr, ch; auto.
Qed.

(** Making the channel of a node that is not canceled. *)
Lemma node_wf_set_done s q n :
  node_wf s q n → done n = None →
  node_wf s q (set_done (Some (chanOf q)) n).
Proof.
  intros [[Hmu Hch Hlive Hst Htm] Hkids Hcan Hlv Hctx] Hd.
  constructor; [constructor|..]; simpl; auto.
  - intros He. destruct (Hlive He) as [Hn _]. auto.
  - intros He. destruct (Hcan He) as (_ & _ & d & Hd' & _). congruence.
Qed.

Lemma mat_wf s s' : wf s → mat s s' → wf s'.
Proof.
  intros W Hm. pose proof (mat_later _ _ Hm) as HL.
  apply wf_intro.
  - intros q n' Hq'.
    destruct (mat_node_inv _ _ _ _ Hm Hq') as (n & Hq & Hcase).
    assert (Hn : node_wf s' q n).
    { apply (node_wf_later s s' q n HL (wf_node _ _ _ W Hq)).
      - rewrite (mat_closed _ _ Hm). auto.
      - intros d. unfold is_closed. now rewrite (mat_closed _ _ Hm).
      - rewrite (mat_timers _ _ Hm). lia.
      - intros ch m Hin Hm0 Hem.
        destruct (mat_node _ _ Hm _ m Hm0) as [H | [Hd H]];
          eexists; (split; [exact H|]); auto. }
    destruct Hcase as [-> | [Hd ->]]; [exact Hn|].
    now apply node_wf_set_done.
  - rewrite (mat_customs _ _ Hm), (mat_len _ _ Hm). apply W.
  - rewrite (mat_timers _ _ Hm), (mat_len _ _ Hm). apply W.
  - rewrite (mat_timers _ _ Hm). intros t tm Htm Ha.
    destruct (wf_active _ W t tm Htm Ha) as (n & Hn & Ht).
    destruct (mat_node _ _ Hm _ n Hn) as [H | [Hd H]];
      eexists; (split; [exact H|]); auto.
  - rewrite (mat_closed _ _ Hm), (mat_len _ _ Hm). apply W.
  - rewrite (mat_waiters _ _ Hm). intros i parent child Hi.
    apply (pending_later s s' _ _ HL (wf_waiters _ W i parent child Hi)).
    intros r. apply mat_registered, Hm.
  - rewrite (mat_customs _ _ Hm). intros u cu r parent child Hu Hr.
    apply (pending_later s s' _ _ HL (wf_regs _ W u cu r parent child Hu Hr)).
    intros r'. apply mat_registered, Hm.
Qed.

(** ** Nodes that stay as they are, but for a channel made or children
    taken out *)

Lemma node_wf_keep s s' q n n' :
  later s s' → node_wf s q n → kept q n n' →
  (err n = None → chanOf q ∈ closed s' → chanOf q ∈ closed s) →
  (∀ d, is_closed s d = true → is_closed s' d = true) →
  (length (timers s) ≤ length (timers s'))%nat →
  (∀ ch m, ch ∈ default [] (children n') →
     heap s !! canceler_ptr ch = Some m → err m = None →
     ∃ m', heap s' !! canceler_ptr ch = Some m' ∧ err m' = None
           ∧ Context_ m' = Context_ m) →
  node_wf s' q n'.
Proof.
  intros HL [[Hmu Hch Hlive Hst Htm] Hkids Hcan Hlv Hctx]
    [Ec Em Ee Ez Ex Ed Ek Hsub] Hcl Hcl' Htl Hsame.
  constructor; [constructor|..].
  - congruence.
  - intros ch Hin. destruct (Hch ch (Hsub ch Hin)) as [Hlt Hk].
    split; [assumption | eapply later_kind_ok; eauto].
  - rewrite Ee. intros He. destruct (Hlive He) as [Hn Hd]. split.
    + intros Hin. apply Hn, Hcl; assumption.
    + destruct Ed as [Ed | [Ed Ed']]; [rewrite Ed; exact Hd | now right].
  - rewrite Ee, Ex. exact Hst.
  - unfold timer_of. rewrite Ex. intros t Ht. specialize (Htm t Ht). lia.
  - intros ch Hin.
    destruct (Hkids ch (Hsub ch Hin)) as (m & ctx & Hm & Hem & Hc & Hns & Hres).
    destruct (Hsame ch m Hin Hm Hem) as (m' & Hm' & Hem' & Hc').
    exists m', ctx. split; [assumption|]. split; [assumption|].
    split; [congruence|]. split; [assumption|]. eapply later_resolve; eauto.
  - rewrite Ee, Ez. intros He. destruct (Hcan He) as (Hk & Hz & d & Hd & Hdc).
    split; [auto|]. split; [assumption|]. exists d. split; [|auto].
    destruct Ed as [Ed | [Ed _]]; congruence.
  - rewrite Ee, Ez. exact Hlv.
  - rewrite Ec. destruct Hctx as (ctx & Hc & Hok). exists ctx.
    split; [assumption | eapply later_ctx_ok; eauto].
Qed.

(** A node is in the children of one node at most, and a canceler is known
    by the node it points to. *)
Lemma registered_unique s r r' q :
  wf s → registered s r q → registered s r' q → r = r'.
Proof.
  intros W (nr & ch & Hr & Hin & Hp) (nr' & ch' & Hr' & Hin' & Hp').
  destruct (wf_registered _ W r nr ch Hr Hin) as (nc & ctx & Hc & Hctx & _ & Hres).
  destruct (wf_registered _ W r' nr' ch' Hr' Hin')
    as (nc' & ctx' & Hc' & Hctx' & _ & Hres').
  rewrite Hp in Hc. rewrite Hp' in Hc'. congruence.
Qed.

Lemma kind_ok_unique s ch ch' :
  kind_ok s ch → kind_ok s ch' → canceler_ptr ch = canceler_ptr ch' → ch = ch'.
Proof.
  intros (n & Hn & Hk) (n' & Hn' & Hk') Hp. rewrite Hp in Hn.
  rewrite Hn in Hn'. injection Hn' as <-.
  destruct ch, ch'; simpl in *; subst; destruct (ext n); try discriminate;
    reflexivity.
Qed.

(** A node made next is in no children set. *)
Lemma fresh_unregistered s q :
  wf s → (length (heap s) ≤ q)%nat → unregistered s q.
Proof.
  intros W Hq r (nr & ch & Hr & Hin & Hp).
  destruct (wf_live_children _ W r nr ch Hr Hin) as (m & Hm & _).
  apply lookup_lt_Some in Hm. lia.
Qed.

(** ** [removeChild], and the methods that read *)

Lemma touch_later s s' : touch s s' → later s s'.
Proof.
  intros Ht. constructor.
  - rewrite (touch_len _ _ Ht). lia.
  - intros q n Hq.
    destruct (touch_node _ _ Ht q n Hq)
      as (n' & Hq' & _ & _ & _ & _ & Hx & Hd & _).
    exists n'. split; [assumption|]. split; [now rewrite Hx|].
    intros d Hdn. destruct Hd as [Hd | [Hd _]]; congruence.
  - rewrite (touch_customs_len _ _ Ht). lia.
  - intros u cu Hu.
    destruct (touch_customs _ _ Ht u cu Hu) as (cu' & Hu' & Hv & Hd & _).
    eauto.
Qed.

Lemma touch_node_inv s s' q n' :
  touch s s' → heap s' !! q = Some n' →
  ∃ n, heap s !! q = Some n ∧ kept q n n'.
Proof.
  intros Ht Hq'.
  assert (Hlt : (q < length (heap s))%nat).
  { rewrite <- (touch_len _ _ Ht). eapply lookup_lt_Some; eauto. }
  destruct (lookup_lt_is_Some_2 _ _ Hlt) as [n Hq]. exists n.
  split; [assumption|].
  destruct (touch_node _ _ Ht q n Hq) as (n2 & Hq2 & H).
  rewrite Hq' in Hq2. injection Hq2 as <-.
  destruct H as (? & ? & ? & ? & ? & ? & ? & ?). now constructor.
Qed.

Lemma touch_custom_inv s s' u cu' :
  touch s s' → customs s' !! u = Some cu' →
  ∃ cu, customs s !! u = Some cu
        ∧ uValue cu' = uValue cu
        ∧ (∀ r x, uRegs cu' !! r = Some (Some x) → uRegs cu !! r = Some (Some x)).
Proof.
  intros Ht Hu'.
  assert (Hlt : (u < length (customs s))%nat).
  { rewrite <- (touch_customs_len _ _ Ht). eapply lookup_lt_Some; eauto. }
  destruct (lookup_lt_is_Some_2 _ _ Hlt) as [cu Hu]. exists cu.
  split; [assumption|].
  destruct (touch_customs _ _ Ht u cu Hu) as (cu2 & Hu2 & Hv & _ & _ & _ & _ & Hr).
  rewrite Hu' in Hu2. injection Hu2 as <-. auto.
Qed.

Lemma touch_registered s s' r q :
  touch s s' → registered s' r q → registered s r q.
Proof.
  intros Ht (nr' & ch & Hr' & Hin & Hp).
  destruct (touch_node_inv _ _ _ _ Ht Hr') as (nr & Hr & Hk).
  exists nr, ch. split; [assumption|].
  split; [apply (kept_children _ _ _ Hk), Hin | assumption].
Qed.

Lemma touch_wf s s' : wf s → touch s s' → wf s'.
Proof.
  intros W Ht. pose proof (touch_later _ _ Ht) as HL.
  apply wf_intro.
  - intros q n' Hq'.
    destruct (touch_node_inv _ _ _ _ Ht Hq') as (n & Hq & Hk).
    apply (node_wf_keep s s' q n n' HL (wf_node _ _ _ W Hq) Hk).
    + rewrite (touch_closed _ _ Ht). auto.
    + intros d. unfold is_closed. now rewrite (touch_closed _ _ Ht).
    + rewrite (touch_timers _ _ Ht). lia.
    + intros ch m Hin Hm0 Hem.
      destruct (touch_node _ _ Ht _ m Hm0) as (m' & Hm' & Ec' & _ & Ee' & _).
      exists m'. split; [assumption|]. split; congruence.
  - intros u cu' p Hu' Hv.
    destruct (touch_custom_inv _ _ _ _ Ht Hu') as (cu & Hu & Ev & _).
    rewrite (touch_len _ _ Ht). apply (wf_customs _ W u cu p Hu). congruence.
  - rewrite (touch_timers _ _ Ht), (touch_len _ _ Ht). apply W.
  - rewrite (touch_timers _ _ Ht). intros t tm Htm Ha.
    destruct (wf_active _ W t tm Htm Ha) as (n & Hn & Htn).
    destruct (touch_node _ _ Ht _ n Hn) as (n' & Hn' & _ & _ & _ & _ & Ex & _).
    exists n'. split; [assumption|]. unfold timer_of in *. now rewrite Ex.
  - rewrite (touch_closed _ _ Ht), (touch_len _ _ Ht). apply W.
  - rewrite (touch_waiters _ _ Ht). intros i parent child Hi.
    apply (pending_later s s' _ _ HL (wf_waiters _ W i parent child Hi)).
    intros r. apply touch_registered, Ht.
  - intros u cu' r parent child Hu' Hr'.
    destruct (touch_custom_inv _ _ _ _ Ht Hu') as (cu & Hu & _ & Hsub).
    apply (pending_later s s' _ _ HL
             (wf_regs _ W u cu r parent child Hu (Hsub _ _ Hr'))).
    intros r'. apply touch_registered, Ht.
Qed.

(** ** Cancellation *)

Lemma Casc_later e z b x s s' : Casc e z b x s s' → later s s'.
Proof.
  intros HC. constructor.
  - rewrite (casc_len _ _ _ _ _ _ HC). lia.
  - intros q n Hq.
    destruct (casc_node _ _ _ _ _ _ HC q n Hq) as (n' & Hq' & [-> | (_ & _ & ->)]).
    + exists n. auto.
    + eexists. split; [exact Hq'|]. split.
      * intros ch. destruct (bool_decide (x = Some q)); simpl;
          [reflexivity | apply kind_matches_stopped].
      * intros d Hd.
        destruct (bool_decide (x = Some q)); simpl; unfold closed_done;
          now rewrite Hd.
  - rewrite (casc_customs _ _ _ _ _ _ HC). lia.
  - intros u cu Hu. rewrite (casc_customs _ _ _ _ _ _ HC). eauto.
Qed.

Lemma Casc_node_inv e z b x s s' q n' :
  Casc e z b x s s' → heap s' !! q = Some n' →
  ∃ n, heap s !! q = Some n
       ∧ (n' = n
          ∨ (err n = None
             ∧ n' = if bool_decide (x = Some q) then marked_node e z n
                    else canceled_node e z n)).
Proof.
  intros HC Hq'.
  assert (Hlt : (q < length (heap s))%nat).
  { rewrite <- (casc_len _ _ _ _ _ _ HC). eapply lookup_lt_Some; eauto. }
  destruct (lookup_lt_is_Some_2 _ _ Hlt) as [n Hq]. exists n.
  split; [assumption|].
  destruct (casc_node _ _ _ _ _ _ HC q n Hq) as (m & Hm & Hcase).
  rewrite Hq' in Hm. injection Hm as <-.
  destruct Hcase as [-> | (_ & He & ->)]; auto.
Qed.

Lemma Casc_is_closed e z b x s s' d :
  Casc e z b x s s' → is_closed s d = true → is_closed s' d = true.
Proof.
  intros HC. destruct d; simpl; auto; rewrite !bool_decide_eq_true;
    apply (casc_closed_mono _ _ _ _ _ _ HC).
Qed.

Lemma fin_node_inv c s s' q n' :
  fin c s s' → heap s' !! q = Some n' →
  ∃ n, heap s !! q = Some n
       ∧ n' = if bool_decide (q = c) then set_ext (stopped (ext n)) n else n.
Proof.
  intros Hf Hq'. destruct (fin_heap _ _ _ Hf) as (nc & Hc & Hh).
  rewrite Hh in Hq'. destruct (decide (q = c)) as [->|Hne].
  - rewrite (lookup_insert_same _ _ _ _ Hc) in Hq'. injection Hq' as <-.
    exists nc. now rewrite bool_decide_eq_true_2.
  - rewrite list_lookup_insert_ne in Hq' by congruence.
    exists n'. now rewrite bool_decide_eq_false_2.
Qed.

(** After [removeChild], the child is not in the children of the node its
    parent resolves to. *)
Lemma removed_gone ctx ch s s' q n' :
  is_stopCtx ctx = false → removed ctx ch s s' →
  resolve s (doneOf s ctx) ctx = Some q → heap s' !! q = Some n' →
  ch ∉ default [] (children n').
Proof.
  intros Hns Hrem Hres Hq'.
  assert (Hgen : ∃ sB, Done ctx s = Ret (doneOf s ctx) sB ∧ mat s sB
            ∧ match resolve sB (doneOf s ctx) ctx with
              | None => s' = sB
              | Some p =>
                  ∃ np, heap sB !! p = Some np
                    ∧ s' = setLog (log sB ++ [EvLock p; EvUnlock p])
                             (setHeap
                                (<[p := match children np with
                                        | Some l =>
                                            set_children
                                              (Some (delete_child ch l)) np
                                        | None => np
                                        end]> (heap sB)) sB)
              end)
    by (destruct ctx; try discriminate; exact Hrem).
  destruct Hgen as (sB & _ & Hm & Hcase).
  pose proof (later_resolve _ _ _ _ (mat_later _ _ Hm) Hres) as Hres'.
  rewrite (mat_doneOf _ _ _ Hm) in Hres'. rewrite Hres' in Hcase.
  destruct Hcase as (np & Hnp & ->). simpl in Hq'.
  rewrite (lookup_insert_same _ _ _ _ Hnp) in Hq'. injection Hq' as <-.
  destruct (children np) as [l|] eqn:Hk; simpl.
  - unfold delete_child. rewrite list_elem_of_filter. tauto.
  - rewrite Hk. simpl. apply not_elem_of_nil.
Qed.

Section canceled.
Context (e z : error) (x : option ptr) (ch : canceler) (c : ptr)
        (s s1 s2 s' : State) (n : node) (ctx : Context).
Hypothesis Hc : c = canceler_ptr ch.
Hypothesis W : wf s.
Hypothesis Hn : heap s !! c = Some n.
Hypothesis Hkind : kind_matches ch (ext n) = true.
Hypothesis Hctx : Context_ n = Some ctx.
Hypothesis Hx : x = None ∨ x = Some c.
Hypothesis HC : Casc e z c x s s1.
Hypothesis Honly : only (λ q, q = c) s s1.
Hypothesis Hcan : canceled_in s1 c.
Hypothesis Ht : touch s1 s2.
Hypothesis Hrem : removed ctx ch s1 s2 ∨ unregistered s c ∨ err n ≠ None.
Hypothesis Hfin : fin c s2 s'.

(** A node after the call: canceled by it, or kept. *)
Lemma canceled_node_inv q n' :
  heap s' !! q = Some n' →
  ∃ n0, heap s !! q = Some n0
    ∧ ((err n0 = None ∧ canceled_in s1 q
        ∧ Context_ n' = Context_ n0 ∧ mu n' = mu n0
        ∧ done n' = closed_done n0 ∧ children n' = None
        ∧ err n' = Some e ∧ cause n' = Some z ∧ ext n' = stopped (ext n0))
       ∨ (¬ (err n0 = None ∧ canceled_in s1 q) ∧ kept q n0 n')).
Proof.
  intros Hq'.
  destruct (fin_node_inv _ _ _ _ _ Hfin Hq') as (n2 & Hq2 & Hn').
  destruct (touch_node_inv _ _ _ _ Ht Hq2) as (n1 & Hq1 & Hk).
  destruct (Casc_node_inv _ _ _ _ _ _ _ _ HC Hq1) as (n0 & Hq0 & Hcase).
  exists n0. split; [assumption|].
  destruct Hk as [Ec Em Ee Ez Ex Ed Ek Hsub].
  destruct Hcase as [-> | [He0 ->]].
  - right. split.
    + intros [He0 (m & Hm & Hem)]. congruence.
    + destruct (decide (q = c)) as [->|Hne].
      * rewrite bool_decide_eq_true_2 in Hn' by reflexivity. subst n'.
        destruct Hcan as (m & Hm & Hem). rewrite Hq1 in Hm. injection Hm as <-.
        pose proof (nr_stopped _ _ _ (wf_ready _ W c n0 Hq0 ltac:(lia)) Hem) as Hst.
        constructor; simpl; auto. rewrite Ex. congruence.
      * rewrite bool_decide_eq_false_2 in Hn' by assumption. subst n'.
        now constructor.
  - left. split; [assumption|]. split.
    { eexists. split; [exact Hq1|]. destruct (bool_decide (x = Some q)); discriminate. }
    assert (Hf : Context_ n2 = Context_ n0 ∧ mu n2 = mu n0
                 ∧ done n2 = closed_done n0 ∧ children n2 = None
                 ∧ err n2 = Some e ∧ cause n2 = Some z
                 ∧ stopped (ext n2) = stopped (ext n0)
                 ∧ (q ≠ c → ext n2 = stopped (ext n0))).
    { assert (Hd : closed_done n0 ≠ None)
        by (unfold closed_done; destruct (done n0); discriminate).
      destruct (bool_decide (x = Some q)) eqn:Hb; simpl in *.
      - apply bool_decide_eq_true in Hb.
        repeat split; auto; try congruence.
        + destruct Ed as [Ed | [Ed _]]; congruence.
        + intros Hne. destruct Hx as [Hx' | Hx']; congruence.
      - repeat split; auto; try congruence.
        + destruct Ed as [Ed | [Ed _]]; congruence.
        + rewrite Ex. apply stopped_idem. }
    destruct Hf as (F1 & F2 & F3 & F4 & F5 & F6 & F7 & F8).
    destruct (decide (q = c)) as [->|Hne].
    + rewrite bool_decide_eq_true_2 in Hn' by reflexivity. subst n'.
      simpl. auto 10.
    + rewrite bool_decide_eq_false_2 in Hn' by assumption. subst n'.
      auto 10.
Qed.

(** A child left in a set has not been canceled. *)
Lemma canceled_child_kept q n0 n' ch0 m :
  heap s !! q = Some n0 → heap s' !! q = Some n' →
  ¬ (err n0 = None ∧ canceled_in s1 q) →
  ch0 ∈ default [] (children n') → ch0 ∈ default [] (children n0) →
  heap s !! canceler_ptr ch0 = Some m → err m = None →
  ¬ canceled_in s1 (canceler_ptr ch0).
Proof.
  intros Hq0 Hq' Hold Hin' Hin Hm Hem Hcm.
  assert (Hlive : err n0 = None).
  { destruct (err n0) eqn:He0; [|reflexivity].
    destruct (wf_canceled _ W q n0 Hq0) as (Hk & _); [congruence|].
    rewrite Hk in Hin. simpl in Hin. now apply not_elem_of_nil in Hin. }
  destruct (Honly _ m Hm Hem Hcm) as [Hpc | (r & Hr & Hrc)].
  - (* the child is the node canceled *)
    assert (Hch : ch0 = ch).
    { apply (kind_ok_unique s).
      - apply (nr_children _ _ _ (wf_ready _ W q n0 Hq0 ltac:(lia)) ch0 Hin).
      - exists n. rewrite <- Hc. auto.
      - congruence. }
    subst ch0. rewrite <- Hc in Hm. rewrite Hn in Hm. injection Hm as <-.
    destruct (wf_registered _ W q n0 ch Hq0 Hin)
      as (nc & ctx' & Hnc & Hctx' & Hns & Hres).
    rewrite <- Hc, Hn in Hnc. injection Hnc as <-.
    rewrite Hctx in Hctx'. injection Hctx' as <-.
    destruct Hrem as [Hrm | [Hun | Hne]]; [| | congruence].
    2:{ apply (Hun q). exists n0, ch. auto. }
    + assert (Hqc : q ≠ c).
      { pose proof (nr_children _ _ _ (wf_ready _ W q n0 Hq0 ltac:(lia)) ch Hin)
          as [Hlt _]. lia. }
      destruct (fin_node_inv _ _ _ _ _ Hfin Hq') as (n2 & Hq2 & Hn').
      rewrite bool_decide_eq_false_2 in Hn' by assumption. subst n'.
      pose proof (later_resolve _ _ _ _ (Casc_later _ _ _ _ _ _ HC) Hres) as Hres1.
      exact (removed_gone _ _ _ _ _ _ Hns Hrm Hres1 Hq2 Hin').
  - (* the child was in the set of a node that is canceled *)
    assert (r = q).
    { apply (registered_unique s _ _ (canceler_ptr ch0) W Hr).
      exists n0, ch0. auto. }
    subst r. apply Hold. auto.
Qed.

Lemma canceled_registered r q :
  registered s' r q → registered s r q.
Proof.
  intros (nr' & ch0 & Hr' & Hin & Hp).
  destruct (canceled_node_inv r nr' Hr') as (nr & Hr & [Hnew | [_ Hk]]).
  - destruct Hnew as (_ & _ & _ & _ & _ & Hk & _). rewrite Hk in Hin.
    simpl in Hin. now apply not_elem_of_nil in Hin.
  - exists nr, ch0. split; [assumption|].
    split; [apply (kept_children _ _ _ Hk), Hin | assumption].
Qed.

Lemma canceled_later : later s s'.
Proof.
  eapply later_trans; [apply (Casc_later _ _ _ _ _ _ HC)|].
  eapply later_trans; [apply (touch_later _ _ Ht)|].
  constructor.
  - destruct (fin_heap _ _ _ Hfin) as (nc & _ & ->).
    rewrite length_insert. lia.
  - intros q n2 Hq2. destruct (fin_heap _ _ _ Hfin) as (nc & Hnc & Hh).
    rewrite Hh. destruct (decide (q = c)) as [->|Hne].
    + rewrite Hnc in Hq2. injection Hq2 as <-.
      rewrite (lookup_insert_same _ _ _ _ Hnc). eexists. split; [reflexivity|].
      simpl. split; [intros ch0; apply kind_matches_stopped | auto].
    + rewrite list_lookup_insert_ne by congruence. eauto.
  - rewrite (fin_customs _ _ _ Hfin). lia.
  - intros u cu Hu. rewrite (fin_customs _ _ _ Hfin). eauto.
Qed.

Lemma canceled_closed : closed s' = closed s1.
Proof. now rewrite (fin_closed _ _ _ Hfin), (touch_closed _ _ Ht). Qed.

(** The state a call of [cancel] leaves is one of the states between
    operations. *)
Lemma canceled_wf : wf s'.
Proof.
  pose proof canceled_later as HL. pose proof canceled_closed as Hcl.
  assert (Hisc : ∀ d, is_closed s d = true → is_closed s' d = true).
  { intros d Hd. pose proof (Casc_is_closed _ _ _ _ _ _ _ HC Hd) as Hd1.
    destruct d; simpl in *; auto; now rewrite Hcl. }
  assert (Htl : length (timers s') = length (timers s)).
  { now rewrite (fin_timers_len _ _ _ Hfin), (touch_timers _ _ Ht),
      (casc_timers_len _ _ _ _ _ _ HC). }
  apply wf_intro.
  - intros q n' Hq'.
    destruct (canceled_node_inv q n' Hq') as (n0 & Hq0 & [Hnew | [Hold Hk]]).
    + destruct Hnew as (He0 & Hc1 & F1 & F2 & F3 & F4 & F5 & F6 & F7).
      pose proof (wf_node _ _ _ W Hq0) as [[Hmu _ _ _ _] _ _ _ Hctx0].
      constructor; [constructor|..].
      * congruence.
      * rewrite F4. simpl. intros ch0 Hin. now apply not_elem_of_nil in Hin.
      * rewrite F5. discriminate.
      * intros _. rewrite F7. symmetry. apply stopped_idem.
      * unfold timer_of. rewrite F7. destruct (ext n0); discriminate.
      * rewrite F4. simpl. intros ch0 Hin. now apply not_elem_of_nil in Hin.
      * intros _. split; [assumption|]. split; [congruence|].
        rewrite F3. unfold closed_done.
        destruct (done n0) as [d|] eqn:Hd; [|exists closedchan; auto].
        exists d. split; [reflexivity|].
        pose proof (casc_closed_done _ _ _ _ _ _ HC q n0 d Hq0 He0 Hc1 Hd) as Hd1.
        destruct d; simpl in *; auto; now rewrite Hcl.
      * rewrite F5. discriminate.
      * rewrite F1. destruct Hctx0 as (ctx0 & Hc0 & Hok). exists ctx0.
        split; [assumption | eapply later_ctx_ok; eauto].
    + apply (node_wf_keep s s' q n0 n' HL (wf_node _ _ _ W Hq0) Hk).
      * intros He0. rewrite Hcl. intros Hin.
        destruct (casc_closed_new _ _ _ _ _ _ HC _ Hin)
          as [? | (q0 & m0 & Heq & Hq0' & Hem0 & Hcan0)]; [assumption|].
        injection Heq as <-. exfalso. apply Hold. auto.
      * exact Hisc.
      * lia.
      * intros ch0 m Hin' Hm Hem.
        pose proof (canceled_child_kept q n0 n' ch0 m Hq0 Hq' Hold Hin'
                      (kept_children _ _ _ Hk ch0 Hin') Hm Hem) as Hnc.
        destruct (later_node _ _ HL _ m Hm) as (m' & Hm' & _).
        destruct (canceled_node_inv _ m' Hm') as (m0 & Hm0 & [Hnew | [_ Hk']]).
        -- rewrite Hm in Hm0. injection Hm0 as <-. tauto.
        -- rewrite Hm in Hm0. injection Hm0 as <-.
           exists m'. split; [assumption|].
           rewrite (kept_err _ _ _ Hk'), (kept_Context _ _ _ Hk'). auto.
  - intros u cu' p Hu' Hv. rewrite (fin_customs _ _ _ Hfin) in Hu'.
    destruct (touch_custom_inv _ _ _ _ Ht Hu') as (cu & Hu & Ev & _).
    rewrite (casc_customs _ _ _ _ _ _ HC) in Hu.
    pose proof (later_len _ _ HL) as Hlen.
    pose proof (wf_customs _ W u cu p Hu) as Hlt.
    rewrite <- Ev in Hlt. specialize (Hlt Hv). lia.
  - intros t tm' Htm'.
    destruct (cancel_timers _ _ _ _ _ _ _ _ _ _ _ HC Ht Hfin Htm')
      as (tm0 & tm2 & Htm0 & _ & Hn0 & _).
    rewrite Hn0. pose proof (wf_timers _ W t tm0 Htm0).
    pose proof (later_len _ _ HL). lia.
  - intros t tm' Htm' Ha.
    destruct (cancel_timers _ _ _ _ _ _ _ _ _ _ _ HC Ht Hfin Htm')
      as (tm0 & tm2 & Htm0 & Htm2 & Hn0 & Ha0 & Ha2).
    assert (Hact0 : tactive tm0 = true).
    { destruct (tactive tm0); [reflexivity|]. rewrite Ha0 in Ha; auto. }
    destruct (wf_active _ W t tm0 Htm0 Hact0) as (m & Hm & Htm).
    rewrite Hn0.
    destruct (later_node _ _ HL _ m Hm) as (m' & Hm' & _).
    exists m'. split; [assumption|].
    destruct (canceled_node_inv _ m' Hm') as (m0 & Hm0 & [Hnew | [_ Hk']]);
      rewrite Hm in Hm0; injection Hm0 as <-.
    + exfalso. destruct Hnew as (He0 & Hc1 & _).
      destruct (decide (x = Some (tnode tm0))) as [Hxt | Hxt].
      * assert (Heq : tnode tm0 = c)
          by (destruct Hx as [Hx' | Hx']; congruence).
        destruct (fin_node_inv _ _ _ _ _ Hfin Hm') as (n2 & Hq2 & _).
        destruct (touch_node_inv _ _ _ _ Ht Hq2) as (n1 & Hq1 & Hk1).
        destruct (Casc_changed _ _ _ _ _ _ _ _ HC Hm He0 Hc1) as [_ Hq1'].
        rewrite bool_decide_eq_true_2 in Hq1' by assumption.
        rewrite Hq1 in Hq1'. injection Hq1' as ->.
        assert (Ht2 : timer_of n2 = Some t)
          by (unfold timer_of in *; now rewrite (kept_ext _ _ _ Hk1)).
        rewrite Heq in Hq2.
        destruct (fin_stopped _ _ _ Hfin n2 t Hq2 Ht2) as (tm3 & Htm3 & Hoff).
        rewrite Htm' in Htm3. injection Htm3 as <-. congruence.
      * destruct (casc_stopped _ _ _ _ _ _ HC _ m t Hm He0 Hc1 Hxt Htm)
          as (tm1 & Htm1 & Hoff).
        rewrite <- (touch_timers _ _ Ht) in Htm1.
        destruct (fin_timers _ _ _ Hfin t tm1 Htm1) as (tm3 & Htm3 & _ & Hoff').
        rewrite Htm' in Htm3. injection Htm3 as <-.
        rewrite Hoff' in Ha by assumption. discriminate.
    + unfold timer_of in *. now rewrite (kept_ext _ _ _ Hk').
  - intros q. rewrite Hcl. intros Hin.
    pose proof (later_len _ _ HL) as Hlen.
    destruct (casc_closed_new _ _ _ _ _ _ HC _ Hin)
      as [Hold | (q0 & m0 & Heq & Hq0 & _)].
    + pose proof (wf_closed _ W q Hold). lia.
    + injection Heq as <-. apply lookup_lt_Some in Hq0. lia.
  - rewrite (fin_waiters _ _ _ Hfin), (touch_waiters _ _ Ht),
      (casc_waiters _ _ _ _ _ _ HC).
    intros i parent child Hi.
    apply (pending_later s s' _ _ HL (wf_waiters _ W i parent child Hi)).
    intros r. apply canceled_registered.
  - intros u cu' r parent child Hu' Hr'. rewrite (fin_customs _ _ _ Hfin) in Hu'.
    destruct (touch_custom_inv _ _ _ _ Ht Hu') as (cu & Hu & _ & Hsub).
    rewrite (casc_customs _ _ _ _ _ _ HC) in Hu.
    apply (pending_later s s' _ _ HL
             (wf_regs _ W u cu r parent child Hu (Hsub _ _ Hr'))).
    intros r'. apply canceled_registered.
Qed.
End canceled.

(** ** Operations that stop in a state between operations, and [cancel] *)

Lemma wfm_bind {A B} (m : M A) (k : A → M B) s :
  okm to_wf s m →
  (∀ a s1, m s = Ret a s1 → wf s1 → okm to_wf s1 (k a)) →
  okm to_wf s (bind m k).
Proof.
  unfold okm, bind, to_wf. intros Hm Hk.
  destruct (m s) as [a s1| | |] eqn:Hms; auto.
  specialize (Hk a s1 eq_refl Hm). destruct (k a s1); auto.
Qed.

Lemma wfm_Ret {A} (m : M A) s a s' : m s = Ret a s' → wf s' → okm to_wf s m.
Proof. unfold okm, to_wf. now intros ->. Qed.

Lemma wfm_Panic {A} (m : M A) s msg s' :
  m s = Panic msg s' → wf s' → okm to_wf s m.
Proof. unfold okm, to_wf. now intros ->. Qed.

Lemma wfm_final {A} (m : M A) s : wf s → okm to_wf s m → wf (final s (m s)).
Proof. unfold okm, to_wf, final. intros W. destruct (m s); auto. Qed.

(** [cancel], called by the function a derivation returned, by a timer, by
    a goroutine or by a registered function: with [removeFromParent], or
    for a node that is in no children set or is canceled already. *)
Lemma canceler_cancel_wf fuel ch removeFromParent err0 cause0 s :
  wf s → kind_ok s ch →
  (length (heap s) - canceler_ptr ch ≤ fuel)%nat →
  removeFromParent = true ∨ unregistered s (canceler_ptr ch)
  ∨ canceled_in s (canceler_ptr ch) →
  okm to_wf s (canceler_cancel fuel ch removeFromParent err0 cause0).
Proof.
  intros W (n & Hn & Hk) Hf Hhow.
  destruct err0 as [e|].
  2:{ destruct fuel as [|f].
      - unfold okm. destruct ch; reflexivity.
      - eapply wfm_Panic; [apply canceler_cancel_nil | exact W]. }
  destruct (wf_context _ W _ n Hn) as (ctx & Hctx & Hok).
  destruct (canceler_cancel_returns fuel ch removeFromParent e cause0 s n ctx
              (wf_sane _ W) (ready_weaken 0 (canceler_ptr ch) s ltac:(lia) (wf_ready _ W))
              Hn Hk Hctx Hok Hf)
    as (s1 & s2 & s' & Hrun & HC & Hcan & Ht & Hsame & Hfin & _ & Honly & Hrm).
  apply (wfm_Ret _ _ _ _ Hrun).
  apply (canceled_wf e (default e cause0) (Some (canceler_ptr ch)) ch
           (canceler_ptr ch) s s1 s2 s' n ctx eq_refl W Hn Hk Hctx
           (or_intror eq_refl) HC Honly Hcan Ht); [|exact Hfin].
  destruct Hhow as [-> | [Hun | (m & Hm & Hem)]]; [|auto|].
  - destruct (Hrm eq_refl) as [? | [? _]]; auto.
  - rewrite Hn in Hm. injection Hm as <-. auto.
Qed.

(** ** What the environment does, and what leaves the nodes as they are *)

Lemma wf_env s s' :
  wf s → heap s' = heap s →
  (∀ q, chanOf q ∈ closed s' → chanOf q ∈ closed s) →
  (∀ d, is_closed s d = true → is_closed s' d = true) →
  (length (timers s) ≤ length (timers s'))%nat →
  (∀ t tm', timers s' !! t = Some tm' →
     ∃ tm, timers s !! t = Some tm ∧ tnode tm' = tnode tm
           ∧ (tactive tm' = true → tactive tm = true)) →
  (length (customs s) ≤ length (customs s'))%nat →
  (∀ u cu, customs s !! u = Some cu →
     ∃ cu', customs s' !! u = Some cu'
            ∧ uValue cu' = uValue cu ∧ uDone cu' = uDone cu) →
  (∀ u cu' p, customs s' !! u = Some cu' →
     uValue cu' cancelCtxKey = acancelCtx p → (p < length (heap s))%nat) →
  (∀ i parent child,
     waiters s' !! i = Some (parent, child) → pending s parent child) →
  (∀ u cu' r parent child,
     customs s' !! u = Some cu' → uRegs cu' !! r = Some (Some (child, parent)) →
     pending s parent child) →
  wf s'.
Proof.
  intros W Hh Hcl Hcl' Htl Htm Hul Hcu Hkey Hw Hr.
  assert (HL : later s s').
  { constructor; rewrite ?Hh; auto. intros q n Hq. eauto. }
  assert (Hreg : ∀ r q, registered s' r q → registered s r q).
  { intros r q. unfold registered. now rewrite Hh. }
  apply wf_intro.
  - rewrite Hh. intros q n Hq.
    apply (node_wf_later s s' q n HL (wf_node _ _ _ W Hq)); auto.
    intros ch m _ Hm Hem. rewrite Hh. eauto.
  - rewrite Hh. exact Hkey.
  - rewrite Hh. intros t tm' Ht. destruct (Htm t tm' Ht) as (tm & Ht0 & -> & _).
    apply (wf_timers _ W t tm Ht0).
  - rewrite Hh. intros t tm' Ht Ha.
    destruct (Htm t tm' Ht) as (tm & Ht0 & -> & Hact).
    apply (wf_active _ W t tm Ht0 (Hact Ha)).
  - rewrite Hh. intros q Hq. apply (wf_closed _ W q), Hcl, Hq.
  - intros i parent child Hi.
    apply (pending_later s s' _ _ HL (Hw i parent child Hi)).
    intros r0. apply Hreg.
  - intros u cu' r parent child Hu' Hr'.
    apply (pending_later s s' _ _ HL (Hr u cu' r parent child Hu' Hr')).
    intros r0. apply Hreg.
Qed.

(** A node made for a derivation, before it is wired to its parent. *)
Lemma wf_born s parent x :
  wf s → ctx_ok s parent → timer_of (mkNode None false None None None None x) = None →
  wf (setHeap (heap s ++ [mkNode (Some parent) false None None None None x]) s).
Proof.
  intros W Hok Hx.
  set (nb := mkNode (Some parent) false None None None None x).
  set (s' := setHeap (heap s ++ [nb]) s).
  assert (Hold : ∀ q n, heap s !! q = Some n → heap s' !! q = Some n).
  { intros q n Hq. simpl. rewrite lookup_app_l; [assumption|].
    eapply lookup_lt_Some; eauto. }
  assert (Hinv : ∀ q n, heap s' !! q = Some n →
                        heap s !! q = Some n ∨ (q = length (heap s) ∧ n = nb)).
  { intros q n Hq. simpl in Hq. apply lookup_app_Some in Hq.
    destruct Hq as [Hq | [Hge Hq]]; [now left | right].
    apply list_lookup_singleton_Some in Hq as [Hz <-]. split; [lia | reflexivity]. }
  assert (HL : later s s').
  { constructor; simpl; eauto. rewrite length_app. lia. }
  assert (Hreg : ∀ r q, registered s' r q → registered s r q).
  { intros r q (nr & ch & Hr & Hin & Hp).
    destruct (Hinv r nr Hr) as [Hr0 | [_ ->]].
    - exists nr, ch. auto.
    - simpl in Hin. now apply not_elem_of_nil in Hin. }
  apply wf_intro.
  - intros q n Hq. destruct (Hinv q n Hq) as [Hq0 | [-> ->]].
    + apply (node_wf_later s s' q n HL (wf_node _ _ _ W Hq0)); auto.
      intros ch m _ Hm Hem. eauto.
    + constructor; [constructor|..].
      * reflexivity.
      * intros ch Hin. now apply not_elem_of_nil in Hin.
      * intros _. split; [|now left]. intros Hin.
        pose proof (wf_closed _ W _ Hin). lia.
      * intros H. now contradiction H.
      * intros t Ht. unfold timer_of in *. simpl in *. congruence.
      * intros ch Hin. now apply not_elem_of_nil in Hin.
      * intros H. now contradiction H.
      * reflexivity.
      * exists parent. split; [reflexivity|].
        apply (later_ctx_ok _ _ _ HL Hok).
  - simpl. rewrite length_app. intros u cu p Hu Hv.
    pose proof (wf_customs _ W u cu p Hu Hv). lia.
  - simpl. rewrite length_app. intros t tm Ht.
    pose proof (wf_timers _ W t tm Ht). lia.
  - simpl timers. intros t tm Ht Ha.
    destruct (wf_active _ W t tm Ht Ha) as (n & Hn & Htn). eauto.
  - simpl. rewrite length_app. intros q Hq. pose proof (wf_closed _ W q Hq). lia.
  - simpl waiters. intros i p0 child Hi.
    apply (pending_later s s' _ _ HL (wf_waiters _ W i p0 child Hi)).
    intros r0. apply Hreg.
  - simpl customs. intros u cu r p0 child Hu Hr.
    apply (pending_later s s' _ _ HL (wf_regs _ W u cu r p0 child Hu Hr)).
    intros r0. apply Hreg.
Qed.

(** ** One node changes *)

Lemma wf_update s s' p n n' :
  wf s → heap s !! p = Some n → heap s' = <[p := n']> (heap s) →
  later s s' → node_wf s' p n' →
  unregistered s p
  ∨ (Context_ n' = Context_ n ∧ (err n = None → err n' = None)) →
  (∀ q, chanOf q ∈ closed s' → chanOf q ∈ closed s) →
  (∀ d, is_closed s d = true → is_closed s' d = true) →
  (length (timers s) ≤ length (timers s'))%nat →
  (∀ u cu' p0, customs s' !! u = Some cu' →
     uValue cu' cancelCtxKey = acancelCtx p0 → (p0 < length (heap s))%nat) →
  (∀ t tm', timers s' !! t = Some tm' → (tnode tm' < length (heap s))%nat) →
  (∀ t tm', timers s' !! t = Some tm' → tactive tm' = true →
     (tnode tm' = p ∧ timer_of n' = Some t)
     ∨ ∃ tm, timers s !! t = Some tm ∧ tnode tm = tnode tm'
             ∧ tactive tm = true
             ∧ (tnode tm' = p → timer_of n' = timer_of n)) →
  (∀ i parent child, waiters s' !! i = Some (parent, child) →
     pending s parent child ∧ ¬ registered s' p (canceler_ptr child)) →
  (∀ u cu' r parent child,
     customs s' !! u = Some cu' → uRegs cu' !! r = Some (Some (child, parent)) →
     pending s parent child ∧ ¬ registered s' p (canceler_ptr child)) →
  wf s'.
Proof.
  intros W Hp Hh HL Hnew Hkid Hcl Hcl' Htl Hkey Htn Hact Hw Hr.
  assert (Hlen : length (heap s') = length (heap s))
    by (rewrite Hh; apply length_insert).
  assert (Hp' : heap s' !! p = Some n')
    by (rewrite Hh; apply (lookup_insert_same _ _ _ _ Hp)).
  assert (Hne : ∀ q, q ≠ p → heap s' !! q = heap s !! q).
  { intros q Hq. rewrite Hh. now apply list_lookup_insert_ne. }
  assert (Hpend : ∀ parent child,
            pending s parent child ∧ ¬ registered s' p (canceler_ptr child) →
            pending s' parent child).
  { intros parent child [(Hok & Hk & Hun) Hnp].
    split; [eapply later_ctx_ok; eauto|].
    split; [eapply later_kind_ok; eauto|].
    intros r Hreg. destruct (decide (r = p)) as [->|Hrp]; [auto|].
    apply (Hun r). destruct Hreg as (nr & ch & Hr0 & Hin & Hpc).
    rewrite (Hne r Hrp) in Hr0. exists nr, ch. auto. }
  apply wf_intro.
  - intros q nq Hq. destruct (decide (q = p)) as [->|Hqp].
    + rewrite Hp' in Hq. injection Hq as <-. exact Hnew.
    + rewrite (Hne q Hqp) in Hq.
      apply (node_wf_later s s' q nq HL (wf_node _ _ _ W Hq)); auto.
      intros ch m Hin Hm Hem.
      destruct (decide (canceler_ptr ch = p)) as [Hcp | Hcp].
      * rewrite Hcp in *. rewrite Hp in Hm. injection Hm as <-.
        exists n'. split; [assumption|].
        destruct Hkid as [Hun | [Hc He]]; [|auto].
        exfalso. apply (Hun q). exists nq, ch. auto.
      * rewrite (Hne _ Hcp). eauto.
  - rewrite Hlen. exact Hkey.
  - rewrite Hlen. exact Htn.
  - intros t tm' Ht Ha.
    destruct (Hact t tm' Ht Ha) as [[-> Htm'] | (tm & Ht0 & Hn0 & Ha0 & Hsame)].
    + eauto.
    + destruct (wf_active _ W t tm Ht0 Ha0) as (m & Hm & Htm).
      rewrite Hn0 in Hm. destruct (decide (tnode tm' = p)) as [Heq | Hneq].
      * rewrite Heq in *. rewrite Hp in Hm. injection Hm as <-.
        exists n'. split; [assumption|]. rewrite (Hsame eq_refl). exact Htm.
      * exists m. rewrite (Hne _ Hneq). auto.
  - rewrite Hlen. intros q Hq. apply (wf_closed _ W q), Hcl, Hq.
  - intros i parent child Hi. apply Hpend, (Hw i), Hi.
  - intros u cu' r parent child Hu' Hr'. apply Hpend, (Hr u cu' r), Hr'.
    exact Hu'.
Qed.

(** An entry for a child in no children set of the earlier state is for a
    child that is not in the set of the node, when the set has not
    grown. *)
Lemma pending_not_child s s' p n n' parent child :
  heap s !! p = Some n → heap s' !! p = Some n' →
  (∀ ch, ch ∈ default [] (children n') → ch ∈ default [] (children n)) →
  pending s parent child →
  pending s parent child ∧ ¬ registered s' p (canceler_ptr child).
Proof.
  intros Hp Hp' Hsub Hpd. split; [assumption|].
  intros (nr & ch & Hr & Hin & Hpc). rewrite Hp' in Hr. injection Hr as <-.
  destruct Hpd as (_ & _ & Hun). apply (Hun p). exists n, ch. auto.
Qed.

(** ** Wiring a child *)

Lemma elem_of_insert_child child l ch :
  ch ∈ insert_child child l → ch ∈ l ∨ ch = child.
Proof.
  unfold insert_child. destruct (bool_decide (child ∈ l)); [auto|].
  rewrite elem_of_app, list_elem_of_singleton. auto.
Qed.

(** The child joins the children of the node its parent resolves to. *)
Lemma wf_insert_child s s' p np c nc parent child :
  wf s → heap s !! p = Some np → err np = None →
  heap s !! c = Some nc → err nc = None → Context_ nc = Some parent →
  is_stopCtx parent = false → resolve s (doneOf s parent) parent = Some p →
  kind_ok s child → canceler_ptr child = c → (p < c)%nat →
  unregistered s c →
  (∀ i pa ch, waiters s !! i = Some (pa, ch) → canceler_ptr ch ≠ c) →
  (∀ u cu r pa ch, customs s !! u = Some cu →
     uRegs cu !! r = Some (Some (ch, pa)) → canceler_ptr ch ≠ c) →
  heap s' = <[p := set_children
                     (Some (insert_child child (default [] (children np)))) np]>
              (heap s) →
  closed s' = closed s → customs s' = customs s → timers s' = timers s →
  waiters s' = waiters s →
  wf s'.
Proof.
  intros W Hp Hep Hc Hec Hctx Hns Hres Hk Hpc Hlt Hun Hw Hr Hh Hcl Hcu Htm Hwt.
  set (n' := set_children
               (Some (insert_child child (default [] (children np)))) np) in *.
  assert (Hp' : heap s' !! p = Some n')
    by (rewrite Hh; apply (lookup_insert_same _ _ _ _ Hp)).
  assert (Hne : ∀ q, q ≠ p → heap s' !! q = heap s !! q).
  { intros q Hq. rewrite Hh. now apply list_lookup_insert_ne. }
  assert (HL : later s s').
  { constructor; rewrite ?Hcu; auto.
    - rewrite Hh, length_insert. lia.
    - intros q n Hq. destruct (decide (q = p)) as [->|Hqp].
      + rewrite Hp in Hq. injection Hq as <-. exists n'. auto.
      + exists n. rewrite (Hne q Hqp). auto.
    - eauto. }
  assert (Hnot : ∀ pa ch, pending s pa ch → canceler_ptr ch ≠ c →
                 pending s pa ch ∧ ¬ registered s' p (canceler_ptr ch)).
  { intros pa ch Hpd Hchc. split; [assumption|].
    intros (nr & ch0 & Hr0 & Hin & Hp0). rewrite Hp' in Hr0. injection Hr0 as <-.
    simpl in Hin. apply elem_of_insert_child in Hin as [Hin | ->].
    - destruct Hpd as (_ & _ & Hun'). apply (Hun' p). exists np, ch0. auto.
    - congruence. }
  pose proof (wf_node _ _ _ W Hp) as [[Hmu Hch Hlive Hst Htmr] Hkids Hcan Hlv Hcx].
  apply (wf_update s s' p np n' W Hp Hh HL).
  - constructor; [constructor|..]; simpl; auto.
    + intros ch Hin. apply elem_of_insert_child in Hin as [Hin | ->].
      * destruct (Hch ch Hin) as [Hl Hk0].
        split; [assumption | eapply later_kind_ok; eauto].
      * split; [lia | eapply later_kind_ok; eauto].
    + intros He. destruct (Hlive He) as [Hncl Hd]. rewrite Hcl. auto.
    + rewrite Htm. exact Htmr.
    + intros ch Hin. apply elem_of_insert_child in Hin as [Hin | ->].
      * destruct (Hkids ch Hin) as (m & ctx & Hm & Hem & Hcm & Hnsm & Hresm).
        destruct (Hch ch Hin) as [Hl _].
        exists m, ctx. rewrite (Hne (canceler_ptr ch)) by lia.
        split; [assumption|]. split; [assumption|]. split; [assumption|].
        split; [assumption|]. eapply later_resolve; eauto.
      * exists nc, parent. rewrite Hpc, (Hne c) by lia.
        split; [assumption|]. split; [assumption|]. split; [assumption|].
        split; [assumption|]. eapply later_resolve; eauto.
    + congruence.
    + destruct Hcx as (ctx & Hc0 & Hok). exists ctx.
      split; [assumption | eapply later_ctx_ok; eauto].
  - right. auto.
  - now rewrite Hcl.
  - intros d. unfold is_closed. now rewrite Hcl.
  - rewrite Htm. lia.
  - rewrite Hcu. apply W.
  - rewrite Htm. apply W.
  - rewrite Htm. intros t tm Ht Ha. right. exists tm. auto.
  - rewrite Hwt. intros i pa ch Hi.
    apply Hnot; [apply (wf_waiters _ W i), Hi | apply (Hw i pa), Hi].
  - rewrite Hcu. intros u cu r pa ch Hu Hr0.
    apply Hnot; [apply (wf_regs _ W u cu r), Hr0; exact Hu
                | apply (Hr u cu r pa), Hr0; exact Hu].
Qed.

(** The child is registered with a Context of the environment, and embeds
    the [stopCtx] that undoes it. *)
Lemma wf_afterFunc_reg s s' u cu c nc parent child stop :
  wf s → customs s !! u = Some cu → heap s !! c = Some nc →
  unregistered s c → ctx_ok s parent → kind_ok s child →
  canceler_ptr child = c → stopOwner stop = u →
  heap s' = <[c := set_Context (Some (stopCtx parent stop)) nc]> (heap s) →
  customs s' = <[u := mkCustom (uDeadline cu) (uDone cu) (uErr cu) (uValue cu)
                              (uAfterFunc cu)
                              (uRegs cu ++ [Some (child, parent)])]> (customs s) →
  closed s' = closed s → timers s' = timers s → waiters s' = waiters s →
  wf s'.
Proof.
  intros W Hu Hc Hun Hok Hk Hpc Hso Hh Hcu Hcl Htm Hwt.
  set (n' := set_Context (Some (stopCtx parent stop)) nc) in *.
  assert (Hp' : heap s' !! c = Some n')
    by (rewrite Hh; apply (lookup_insert_same _ _ _ _ Hc)).
  assert (Hne : ∀ q, q ≠ c → heap s' !! q = heap s !! q).
  { intros q Hq. rewrite Hh. now apply list_lookup_insert_ne. }
  assert (Hcus : ∀ u0 cu0', customs s' !! u0 = Some cu0' →
            ∃ cu0, customs s !! u0 = Some cu0 ∧ uValue cu0' = uValue cu0
                   ∧ uDone cu0' = uDone cu0
                   ∧ ∀ r x, uRegs cu0' !! r = Some (Some x) →
                            uRegs cu0 !! r = Some (Some x) ∨ x = (child, parent)).
  { intros u0 cu0' Hu0. rewrite Hcu in Hu0.
    destruct (decide (u0 = u)) as [->|Hne0].
    - rewrite (lookup_insert_same _ _ _ _ Hu) in Hu0. injection Hu0 as <-.
      exists cu. simpl. repeat split; auto. intros r x Hx.
      apply lookup_app_Some in Hx as [Hx | [_ Hx]]; [now left | right].
      apply list_lookup_singleton_Some in Hx as [_ Hx]. congruence.
    - rewrite list_lookup_insert_ne in Hu0 by congruence. exists cu0'. auto. }
  assert (HL : later s s').
  { constructor.
    - rewrite Hh, length_insert. lia.
    - intros q n Hq. destruct (decide (q = c)) as [->|Hqc].
      + rewrite Hc in Hq. injection Hq as <-. exists n'. auto.
      + exists n. rewrite (Hne q Hqc). auto.
    - rewrite Hcu, length_insert. lia.
    - intros u0 cu0 Hu0. rewrite Hcu. destruct (decide (u0 = u)) as [->|Hne0].
      + rewrite Hu in Hu0. injection Hu0 as <-.
        rewrite (lookup_insert_same _ _ _ _ Hu). eauto.
      + rewrite list_lookup_insert_ne by congruence. eauto. }
  assert (Hsub : ∀ ch, ch ∈ default [] (children n') →
                       ch ∈ default [] (children nc)) by auto.
  apply (wf_update s s' c nc n' W Hc Hh HL).
  - assert (Hnc : node_wf s' c nc).
    { apply (node_wf_later s s' c nc HL (wf_node _ _ _ W Hc)).
      - now rewrite Hcl.
      - intros d. unfold is_closed. now rewrite Hcl.
      - rewrite Htm. lia.
      - intros ch m Hin Hm Hem.
        pose proof (nr_children _ _ _ (wf_ready _ W c nc Hc ltac:(lia)) ch Hin)
          as [Hlt _].
        rewrite (Hne (canceler_ptr ch)) by lia. eauto. }
    destruct Hnc as [[Hmu Hch Hlive Hst Htmr] Hkids Hcan Hlv Hcx].
    constructor; [constructor|..]; auto.
    exists (stopCtx parent stop). split; [reflexivity|]. simpl.
    split; [eapply later_ctx_ok; eauto|].
    rewrite Hso, Hcu, length_insert. eapply lookup_lt_Some; eauto.
  - now left.
  - now rewrite Hcl.
  - intros d. unfold is_closed. now rewrite Hcl.
  - rewrite Htm. lia.
  - intros u0 cu0' p0 Hu0 Hv.
    destruct (Hcus u0 cu0' Hu0) as (cu0 & Hu00 & Ev & _).
    apply (wf_customs _ W u0 cu0 p0 Hu00). congruence.
  - rewrite Htm. apply W.
  - rewrite Htm. intros t tm Ht Ha. right. exists tm. auto.
  - rewrite Hwt. intros i pa ch Hi.
    apply (pending_not_child s s' c nc n' pa ch Hc Hp' Hsub).
    apply (wf_waiters _ W i), Hi.
  - intros u0 cu0' r pa ch Hu0 Hr0.
    apply (pending_not_child s s' c nc n' pa ch Hc Hp' Hsub).
    destruct (Hcus u0 cu0' Hu0) as (cu0 & Hu00 & _ & _ & Hregs).
    destruct (Hregs r _ Hr0) as [Hold | Hnew].
    + apply (wf_regs _ W u0 cu0 r pa ch Hu00 Hold).
    + injection Hnew as -> ->. split; [assumption|]. split; [assumption|].
      now rewrite Hpc.
Qed.

(** ** The timer of a deadline node, and the flag of a function *)

Lemma wf_arm s s' c n d w z :
  wf s → heap s !! c = Some n → ext n = timerExt None d → err n = None →
  heap s' = <[c := set_ext (timerExt (Some (length (timers s))) d) n]> (heap s) →
  timers s' = timers s ++ [mkTimer c w z true] →
  closed s' = closed s → customs s' = customs s → waiters s' = waiters s →
  wf s'.
Proof.
  intros W Hc Hx He Hh Htm Hcl Hcu Hwt.
  set (n' := set_ext (timerExt (Some (length (timers s))) d) n) in *.
  assert (Hp' : heap s' !! c = Some n')
    by (rewrite Hh; apply (lookup_insert_same _ _ _ _ Hc)).
  assert (Hne : ∀ q, q ≠ c → heap s' !! q = heap s !! q).
  { intros q Hq. rewrite Hh. now apply list_lookup_insert_ne. }
  assert (HL : later s s').
  { constructor; rewrite ?Hcu; eauto.
    - rewrite Hh, length_insert. lia.
    - intros q n0 Hq. destruct (decide (q = c)) as [->|Hqc].
      + rewrite Hc in Hq. injection Hq as <-. exists n'. split; [assumption|].
        split; [|auto]. intros ch. simpl. rewrite Hx. reflexivity.
      + exists n0. rewrite (Hne q Hqc). auto. }
  assert (Hsub : ∀ ch, ch ∈ default [] (children n') →
                       ch ∈ default [] (children n)) by auto.
  apply (wf_update s s' c n n' W Hc Hh HL).
  - assert (Hnc : node_wf s' c n).
    { apply (node_wf_later s s' c n HL (wf_node _ _ _ W Hc)).
      - now rewrite Hcl.
      - intros d0. unfold is_closed. now rewrite Hcl.
      - rewrite Htm, length_app. lia.
      - intros ch m Hin Hm Hem.
        pose proof (nr_children _ _ _ (wf_ready _ W c n Hc ltac:(lia)) ch Hin)
          as [Hlt _].
        rewrite (Hne (canceler_ptr ch)) by lia. eauto. }
    destruct Hnc as [[Hmu Hch Hlive Hst Htmr] Hkids Hcan Hlv Hcx].
    constructor; [constructor|..]; auto.
    + simpl. congruence.
    + unfold timer_of. simpl. intros t Ht. injection Ht as <-.
      rewrite Htm, length_app. simpl. lia.
  - right. auto.
  - now rewrite Hcl.
  - intros d0. unfold is_closed. now rewrite Hcl.
  - rewrite Htm, length_app. lia.
  - rewrite Hcu. apply W.
  - rewrite Htm. intros t tm Ht. apply lookup_app_Some in Ht as [Ht | [_ Ht]].
    + apply (wf_timers _ W t tm Ht).
    + apply list_lookup_singleton_Some in Ht as [_ <-]. simpl.
      eapply lookup_lt_Some; eauto.
  - rewrite Htm. intros t tm Ht Ha.
    apply lookup_app_Some in Ht as [Ht | [Hge Ht]].
    + right. exists tm. repeat split; auto. intros Htc. exfalso.
      destruct (wf_active _ W t tm Ht Ha) as (m & Hm & Htmr).
      rewrite Htc, Hc in Hm. injection Hm as <-.
      unfold timer_of in Htmr. rewrite Hx in Htmr. discriminate.
    + left. apply list_lookup_singleton_Some in Ht as [Hz <-]. simpl.
      split; [reflexivity|]. unfold timer_of. simpl. f_equal. lia.
  - rewrite Hwt. intros i pa ch Hi.
    apply (pending_not_child s s' c n n' pa ch Hc Hp' Hsub).
    apply (wf_waiters _ W i), Hi.
  - rewrite Hcu. intros u cu r pa ch Hu Hr0.
    apply (pending_not_child s s' c n n' pa ch Hc Hp' Hsub).
    apply (wf_regs _ W u cu r pa ch Hu Hr0).
Qed.

Lemma wf_set_ext s s' a n x :
  wf s → heap s !! a = Some n →
  (∀ ch, kind_matches ch x = kind_matches ch (ext n)) →
  timer_of (set_ext x n) = timer_of n → x = stopped x →
  heap s' = <[a := set_ext x n]> (heap s) →
  timers s' = timers s → closed s' = closed s → customs s' = customs s →
  waiters s' = waiters s →
  wf s'.
Proof.
  intros W Hc Hkm Hto Hx Hh Htm Hcl Hcu Hwt.
  set (n' := set_ext x n) in *.
  assert (Hp' : heap s' !! a = Some n')
    by (rewrite Hh; apply (lookup_insert_same _ _ _ _ Hc)).
  assert (Hne : ∀ q, q ≠ a → heap s' !! q = heap s !! q).
  { intros q Hq. rewrite Hh. now apply list_lookup_insert_ne. }
  assert (HL : later s s').
  { constructor; rewrite ?Hcu; eauto.
    - rewrite Hh, length_insert. lia.
    - intros q n0 Hq. destruct (decide (q = a)) as [->|Hqc].
      + rewrite Hc in Hq. injection Hq as <-. exists n'. auto.
      + exists n0. rewrite (Hne q Hqc). auto. }
  assert (Hsub : ∀ ch, ch ∈ default [] (children n') →
                       ch ∈ default [] (children n)) by auto.
  apply (wf_update s s' a n n' W Hc Hh HL).
  - assert (Hnc : node_wf s' a n).
    { apply (node_wf_later s s' a n HL (wf_node _ _ _ W Hc)).
      - now rewrite Hcl.
      - intros d0. unfold is_closed. now rewrite Hcl.
      - rewrite Htm. lia.
      - intros ch m Hin Hm Hem.
        pose proof (nr_children _ _ _ (wf_ready _ W a n Hc ltac:(lia)) ch Hin)
          as [Hlt _].
        rewrite (Hne (canceler_ptr ch)) by lia. eauto. }
    destruct Hnc as [[Hmu Hch Hlive Hst Htmr] Hkids Hcan Hlv Hcx].
    constructor; [constructor|..]; auto.
    rewrite Hto. exact Htmr.
  - right. auto.
  - now rewrite Hcl.
  - intros d0. unfold is_closed. now rewrite Hcl.
  - rewrite Htm. lia.
  - rewrite Hcu. apply W.
  - rewrite Htm. apply W.
  - rewrite Htm. intros t tm Ht Ha. right. exists tm. auto.
  - rewrite Hwt. intros i pa ch Hi.
    apply (pending_not_child s s' a n n' pa ch Hc Hp' Hsub).
    apply (wf_waiters _ W i), Hi.
  - rewrite Hcu. intros u cu r pa ch Hu Hr0.
    apply (pending_not_child s s' a n n' pa ch Hc Hp' Hsub).
    apply (wf_regs _ W u cu r pa ch Hu Hr0).
Qed.

(** ** The derivations *)

(** [propagateCancel] for a node just made: the state it stops in, and the
    node, which has the extension it was made with, its timer cleared or
    its function started if it was canceled at once. *)
Lemma propagateCancel_wf fuel parent child x s0 :
  wf s0 → ctx_ok s0 parent → is_stopCtx parent = false →
  timer_of (mkNode None false None None None None x) = None →
  kind_matches child x = true → canceler_ptr child = length (heap s0) →
  (1 ≤ fuel)%nat →
  okm (λ _ s1, wf s1 ∧ length (heap s1) = S (length (heap s0))
               ∧ ∃ n1, heap s1 !! length (heap s0) = Some n1
                       ∧ (ext n1 = x ∨ ext n1 = stopped x))
      (setHeap (heap s0 ++ [mkNode None false None None None None x]) s0)
      (propagateCancel fuel (length (heap s0)) parent child).
Proof.
  intros W Hok Hns Htx Hk Hptr Hfuel.
  destruct (propagateCancel_Ret fuel parent child x s0 (wf_sane _ W) Hok
              (wf_closed _ W) Htx Hk Hptr Hfuel) as (sB & HD & Hm & Hw).
  unfold okm.
  set (c := length (heap s0)) in *.
  set (o := propagateCancel fuel c parent child _) in *.
  set (sA := setHeap (heap s0 ++ [mkNode (Some parent) false None None None None x]) s0) in *.
  set (P := λ s1 : State, wf s1 ∧ length (heap s1) = S c
              ∧ ∃ n1, heap s1 !! c = Some n1 ∧ (ext n1 = x ∨ ext n1 = stopped x)).
  assert (HRet : ∀ s1, o = Ret tt s1 → P s1 →
            match o with
            | Ret _ s1 | Panic _ s1 | Blocked s1 => P s1
            | OutOfFuel => True
            end) by (now intros s1 ->).
  assert (WA : wf sA) by (apply wf_born; assumption).
  pose proof (mat_wf _ _ WA Hm) as WB.
  assert (HcA : heap sA !! c = Some (mkNode (Some parent) false None None None None x)).
  { subst sA c. simpl. now rewrite lookup_app_r, Nat.sub_diag by lia. }
  assert (HlA : length (heap sA) = S c).
  { subst sA c. simpl. rewrite length_app. simpl. lia. }
  assert (HlB : length (heap sB) = S c) by (rewrite (mat_len _ _ Hm); exact HlA).
  assert (HokB : ctx_ok sB parent).
  { apply (later_ctx_ok sA _ _ (mat_later _ _ Hm)).
    apply (ctx_ok_grow s0); [rewrite HlA; lia | reflexivity | assumption]. }
  assert (HcB : ∃ ncB, heap sB !! c = Some ncB
                       ∧ err ncB = None ∧ ext ncB = x
                       ∧ Context_ ncB = Some parent).
  { destruct (mat_node _ _ Hm c _ HcA) as [H | [_ H]]; eexists;
      (split; [exact H|]); simpl; auto 10. }
  destruct HcB as (ncB & HcB & HeB & HxB & HctxB).
  assert (HkB : kind_ok sB child).
  { exists ncB. rewrite Hptr. split; [assumption|]. now rewrite HxB. }
  assert (HunB : unregistered sB c).
  { intros r Hr. apply (mat_registered _ _ _ _ Hm) in Hr.
    destruct Hr as (nr & ch & Hr & Hin & Hp). subst sA. simpl in Hr.
    apply lookup_app_Some in Hr as [Hr | [_ Hr]].
    - apply (fresh_unregistered s0 c W (le_n _) r). exists nr, ch. auto.
    - apply list_lookup_singleton_Some in Hr as [_ <-].
      simpl in Hin. now apply not_elem_of_nil in Hin. }
  assert (Hfresh : ∀ pa ch, pending s0 pa ch → canceler_ptr ch ≠ c).
  { intros pa ch (_ & (m & Hm0 & _) & _). apply lookup_lt_Some in Hm0.
    subst c. lia. }
  assert (HwB : waiters sB = waiters s0) by (now rewrite (mat_waiters _ _ Hm)).
  assert (HcuB : customs sB = customs s0) by (now rewrite (mat_customs _ _ Hm)).
  assert (HPB : P sB) by (split; [assumption|]; split; eauto).
  assert (HWaiter : wired ByWaiter c parent child sB o →
            match o with
            | Ret _ s1 | Panic _ s1 | Blocked s1 => P s1
            | OutOfFuel => True
            end).
  { simpl. intros Ho. apply (HRet _ Ho). split; [|split; simpl; eauto].
    apply (wf_env sB); simpl; auto.
    - intros t tm Ht. eauto.
    - intros u cu Hu. eauto.
    - rewrite HlB. intros u cu p Hu Hv.
      pose proof (wf_customs _ WB u cu p Hu Hv). lia.
    - intros i pa ch Hi. apply lookup_app_Some in Hi as [Hi | [_ Hi]].
      + apply (wf_waiters _ WB i pa ch Hi).
      + apply list_lookup_singleton_Some in Hi as [_ Hi].
        injection Hi as <- <-. split; [assumption|]. split; [assumption|].
        now rewrite Hptr.
    - apply (wf_regs _ WB). }
  unfold choose_wiring in Hw.
  destruct (doneOf sB parent) as [d|] eqn:Hdone.
  2:{ simpl in Hw. apply (HRet _ Hw HPB). }
  destruct (is_closed sB d) eqn:Hcld.
  { (* the parent is canceled already *)
    destruct Hw as (s1 & Heq & Hw).
    pose proof (mat_wf _ _ WB (eqlog_mat _ _ Heq)) as W1.
    pose proof (eqlog_heap _ _ Heq) as Hh1.
    destruct (errOf sB parent) as [e|].
    - destruct Hw as (s' & Ho & HC & Hcan).
      assert (Hc1 : heap s1 !! c = Some ncB) by (now rewrite Hh1).
      destruct (Casc_changed _ _ _ _ _ _ _ _ HC Hc1 HeB Hcan) as [_ Hc'].
      rewrite bool_decide_eq_false_2 in Hc' by discriminate.
      apply (HRet _ Ho). split; [|split].
      + apply (canceled_wf e _ None child c s1 s' s' s' ncB parent
                 (eq_sym Hptr) W1 Hc1 ltac:(now rewrite HxB) HctxB
                 (or_introl eq_refl) HC); auto.
        * intros q n Hq He Hcq. left.
          destruct (Casc_changed _ _ _ _ _ _ _ _ HC Hq He Hcq) as [Hge _].
          apply lookup_lt_Some in Hq. rewrite Hh1, HlB in Hq. lia.
        * apply touch_refl.
        * right. left. intros r Hr. apply (HunB r).
          unfold registered in *. now rewrite <- Hh1.
        * apply (fin_refl c _ s' Hc'). simpl. symmetry. apply stopped_idem.
      + rewrite (casc_len _ _ _ _ _ _ HC), Hh1. exact HlB.
      + eexists. split; [exact Hc'|]. right. simpl. now rewrite HxB.
    - rewrite Hw. unfold P. rewrite Hh1. split; [assumption|]. split; eauto. }
  destruct (resolve sB (Some d) parent) as [p|] eqn:Hres.
  { (* the parent is, or derives from, a node *)
    destruct Hw as (np & Hnp & Hw).
    destruct (resolve_Some _ _ _ _ Hres)
      as (np' & d' & Hnp' & Hd' & _ & Hdnp & Hkey).
    rewrite Hnp in Hnp'. injection Hnp' as <-. injection Hd' as <-.
    assert (Hpc : (p < c)%nat).
    { rewrite (keyOf_customs s0 sB) in Hkey by assumption.
      apply (keyOf_valid s0 parent p (wf_sane _ W) Hok Hkey). }
    assert (Hep : err np = None).
    { destruct (err np) as [e|] eqn:Hep; [exfalso|reflexivity].
      destruct (wf_canceled _ WB p np Hnp) as (_ & _ & d0 & Hd0 & Hcl0);
        congruence. }
    rewrite Hep in Hw. apply (HRet _ Hw). split; [|split].
    - apply (wf_insert_child sB _ p np c ncB parent child WB Hnp Hep HcB HeB
               HctxB Hns); auto.
      + now rewrite Hdone.
      + intros i pa ch Hi. rewrite HwB in Hi.
        apply (Hfresh pa ch), (wf_waiters _ W i), Hi.
      + intros u cu r pa ch Hu Hr. rewrite HcuB in Hu.
        apply (Hfresh pa ch), (wf_regs _ W u cu r pa ch Hu Hr).
    - simpl. now rewrite length_insert.
    - exists ncB. simpl. rewrite list_lookup_insert_ne by lia. auto. }
  destruct parent; try (exact (HWaiter Hw)).
  simpl in HokB. destruct (lookup_lt_is_Some_2 _ _ HokB) as [cu Hcu].
  rewrite Hcu in Hw. destruct (uAfterFunc cu); [|exact (HWaiter Hw)].
  destruct Hw as (cu' & nc & Hcu' & Hnc & Hw).
  rewrite Hcu in Hcu'. injection Hcu' as <-.
  rewrite HcB in Hnc. injection Hnc as <-.
  apply (HRet _ Hw). split; [|split].
  - eapply (wf_afterFunc_reg sB _ u cu c ncB (customCtx u) child);
      try reflexivity; eauto.
  - simpl. now rewrite length_insert.
  - eexists. simpl. split; [apply (lookup_insert_same _ _ _ _ HcB)|].
    simpl. auto.
Qed.

(** ** The operations, one by one *)

Lemma okm_bind_post {A B} (P Q : State → Prop) (m : M A) (k : A → M B) s :
  okm (λ _, P) s m →
  (∀ s1, P s1 → Q s1) →
  (∀ a s1, m s = Ret a s1 → P s1 → okm (λ _, Q) s1 (k a)) →
  okm (λ _, Q) s (bind m k).
Proof.
  unfold okm, bind. intros Hm HPQ Hk.
  destruct (m s) as [a s1| | |] eqn:Hms; auto.
  specialize (Hk a s1 eq_refl Hm). destruct (k a s1); auto.
Qed.

Lemma wfm_bind_Ret {A B} (m : M A) (k : A → M B) s a s1 :
  m s = Ret a s1 → okm to_wf s1 (k a) → okm to_wf s (bind m k).
Proof. unfold okm, bind. now intros ->. Qed.

(** Methods that only read leave the state as it is, wherever they stop. *)
Lemma wfm_bind_pure {A B} (m : M A) (k : A → M B) s :
  okm eq s m → wf s → (∀ a, m s = Ret a s → okm to_wf s (k a)) →
  okm to_wf s (bind m k).
Proof.
  unfold okm, bind, to_wf. intros Hm W Hk.
  destruct (m s) as [a s1| | |] eqn:Hms; subst; auto.
  specialize (Hk a eq_refl). destruct (k a s1); auto.
Qed.

Lemma wfm_pure {A} (m : M A) s : okm eq s m → wf s → okm to_wf s m.
Proof. unfold okm, to_wf. destruct (m s); intros; subst; auto. Qed.

Lemma pure_embedded p s : okm eq s (embedded p).
Proof. unfold embedded. okm_go idtac. Qed.

Lemma pure_any_eq a b s : okm eq s (any_eq a b).
Proof. unfold any_eq. okm_go idtac. Qed.

Lemma pure_value_with hopf :
  (∀ p key s, okm eq s (hopf p key)) →
  ∀ c key s, okm eq s (value_with hopf c key) ∧ okm eq s (Value_with hopf c key).
Proof.
  intros Hhop. induction c; intros key' s; simpl; split;
    okm_go ltac:(first [apply pure_any_eq | apply Hhop | apply IHc | apply IHc1]).
Qed.

Lemma pure_value fuel : ∀ c key s, okm eq s (value fuel c key).
Proof.
  induction fuel as [|fuel IH]; intros c key s; rewrite value_unfold;
    apply pure_value_with; intros p k s'; simpl;
    okm_go ltac:(first [apply pure_embedded | apply IH]).
Qed.

Lemma pure_Value fuel c key s : okm eq s (Value fuel c key).
Proof.
  unfold Value. apply pure_value_with. intros p k s'.
  destruct fuel; simpl; okm_go ltac:(first [apply pure_embedded | apply pure_value]).
Qed.

Lemma pure_Deadline fuel : ∀ c s, okm eq s (Deadline fuel c).
Proof.
  induction fuel as [|fuel IH]; intros c s; simpl.
  - induction c; simpl; okm_go ltac:(first [apply IHc]).
  - induction c; simpl;
      okm_go ltac:(first [apply pure_embedded | apply IH | apply IHc]).
Qed.

Lemma wfm_bind_get {B} (k : State → M B) s :
  okm to_wf s (k s) → okm to_wf s (bind get k).
Proof. intros H. exact H. Qed.

Lemma withCancel_wf fuel parent s :
  wf s → parent_ok s parent → (1 ≤ fuel)%nat →
  okm to_wf s (withCancel fuel parent).
Proof.
  intros W Hp Hf. destruct parent as [parent|]; [|exact W].
  destruct Hp as [Hok Hns]. unfold withCancel.
  eapply wfm_bind_Ret; [reflexivity|].
  apply (okm_bind_post _ wf _ _ _
           (propagateCancel_wf fuel parent (cancelerCancel (length (heap s)))
              plainExt s W Hok Hns eq_refl eq_refl eq_refl Hf)).
  - tauto.
  - intros _ s1 _ [W1 _]. exact W1.
Qed.

Lemma WithCancel_wf fuel parent s :
  wf s → parent_ok s parent → (1 ≤ fuel)%nat →
  okm to_wf s (WithCancel fuel parent).
Proof.
  intros W Hp Hf. unfold WithCancel.
  apply wfm_bind; [now apply withCancel_wf|]. intros c s1 _ W1. exact W1.
Qed.

Lemma WithCancelCause_wf fuel parent s :
  wf s → parent_ok s parent → (1 ≤ fuel)%nat →
  okm to_wf s (WithCancelCause fuel parent).
Proof.
  intros W Hp Hf. unfold WithCancelCause.
  apply wfm_bind; [now apply withCancel_wf|]. intros c s1 _ W1. exact W1.
Qed.

(** Arming the timer of a deadline node that is not canceled, under its
    lock. *)
Lemma arm_Ret {A} (r : A) c n d dur z s :
  heap s !! c = Some n → mu n = false → err n = None →
  ext n = timerExt None d →
  ∃ s', (Lock c;;;
         n <- getNode c;;
         match err n with
         | None =>
             t <- time_AfterFunc dur c z;;
             modNode c (λ n, match ext n with
                             | timerExt _ d' => set_ext (timerExt (Some t) d') n
                             | _ => n
                             end)
         | Some _ => ret tt
         end;;;
         Unlock c;;;
         ret r) s = Ret r s'
    ∧ heap s' = <[c := set_ext (timerExt (Some (length (timers s))) d) n]> (heap s)
    ∧ timers s' = timers s ++ [mkTimer c (now s + dur) z true]
    ∧ closed s' = closed s ∧ customs s' = customs s ∧ waiters s' = waiters s.
Proof.
  intros Hn Hmu He Hx.
  rewrite (bind_Ret _ _ _ _ _ (Lock_Ret c n s Hn Hmu)).
  match goal with |- context [bind _ _ ?s0] => set (s1 := s0) end.
  assert (Hn1 : heap s1 !! c = Some (set_mu true n))
    by (apply (lookup_insert_same _ _ _ _ Hn)).
  rewrite (bind_Ret _ _ _ _ _ (getNode_Ret _ _ _ Hn1)).
  change (err (set_mu true n)) with (err n). rewrite He.
  set (s2 := setTimers (timers s1 ++ [mkTimer c (now s1 + dur) z true]) s1).
  assert (HT : time_AfterFunc dur c z s1 = Ret (length (timers s1)) s2)
    by reflexivity.
  assert (Hn2 : heap s2 !! c = Some (set_mu true n)) by exact Hn1.
  assert (HM : (t <- time_AfterFunc dur c z;;
                modNode c (λ n, match ext n with
                                | timerExt _ d' =>
                                    set_ext (timerExt (Some t) d') n
                                | _ => n
                                end)) s1
               = Ret tt (setHeap
                           (<[c := set_ext (timerExt (Some (length (timers s1))) d)
                                     (set_mu true n)]> (heap s2)) s2)).
  { rewrite (bind_Ret _ _ _ _ _ HT).
    rewrite (modNode_Ret _ _ _ _ Hn2). simpl. now rewrite Hx. }
  rewrite (bind_Ret _ _ _ _ _ HM).
  match goal with |- context [bind _ _ ?s0] => set (s3 := s0) end.
  assert (Hn3 : heap s3 !! c
                = Some (set_ext (timerExt (Some (length (timers s1))) d)
                          (set_mu true n)))
    by (apply (lookup_insert_same _ _ _ _ Hn2)).
  rewrite (bind_Ret _ _ _ _ _ (Unlock_Ret c _ s3 Hn3 eq_refl)).
  eexists. split; [reflexivity|]. simpl.
  split; [|auto].
  rewrite !list_insert_insert_eq. f_equal.
  destruct n; simpl in *. now subst.
Qed.

Lemma WithDeadlineCause_wf fuel parent d cause0 s :
  wf s → parent_ok s parent → (1 ≤ fuel)%nat →
  okm to_wf s (WithDeadlineCause fuel parent d cause0).
Proof.
  intros W Hp Hf. destruct parent as [parent|]; [|exact W].
  pose proof Hp as [Hok Hns]. unfold WithDeadlineCause.
  apply wfm_bind_pure; [apply pure_Deadline | exact W |].
  intros cur _.
  destruct (match cur with
            | Some cur0 => bool_decide (cur0 < d)
            | None => false
            end); [now apply WithCancel_wf|].
  set (c := length (heap s)).
  eapply wfm_bind_Ret; [reflexivity|].
  apply (okm_bind_post _ wf _ _ _
           (propagateCancel_wf fuel parent (cancelerTimer c)
              (timerExt None d) s W Hok Hns eq_refl eq_refl eq_refl Hf)).
  { tauto. }
  intros _ s1 _ (W1 & Hl1 & n1 & Hn1 & Hx1). fold c in Hl1, Hn1.
  assert (Hx : ext n1 = timerExt None d) by (destruct Hx1; assumption).
  apply wfm_bind_get.
  destruct (bool_decide (Until d (now s1) ≤ 0)).
  - apply wfm_bind; [|intros _ s2 _ W2; exact W2].
    apply (canceler_cancel_wf fuel (cancelerTimer c) true _ _ s1 W1);
      [ exists n1; simpl; now rewrite Hx | simpl; lia | now left ].
  - pose proof (wf_ready _ W1 c n1 Hn1 ltac:(lia)) as [Hmu _ _ _ _].
    destruct (err n1) as [e|] eqn:He.
    + destruct (lock_unlock_eqlog c n1 s1 Hn1 Hmu) as (s2 & Hrun & Heq).
      assert (Hrun' :
        (Lock c;;;
         n <- getNode c;;
         match err n with
         | None =>
             t <- time_AfterFunc (Until d (now s1)) c cause0;;
             modNode c (λ n, match ext n with
                             | timerExt _ d' => set_ext (timerExt (Some t) d') n
                             | _ => n
                             end)
         | Some _ => ret tt
         end;;;
         Unlock c;;;
         ret (timerCtxP c, mkCancelFunc (cancelerTimer c) true)) s1
        = Ret (timerCtxP c, mkCancelFunc (cancelerTimer c) true) s2).
      { rewrite (bind_Ret _ _ _ _ _ (Lock_Ret c n1 s1 Hn1 Hmu)).
        rewrite (bind_Ret _ _ _ _ _ (Lock_Ret c n1 s1 Hn1 Hmu)) in Hrun.
        match goal with |- context [bind _ _ ?s0] => set (sL := s0) in * end.
        assert (HnL : heap sL !! c = Some (set_mu true n1))
          by (apply (lookup_insert_same _ _ _ _ Hn1)).
        rewrite (bind_Ret _ _ _ _ _ (getNode_Ret _ _ _ HnL)).
        change (err (set_mu true n1)) with (err n1). rewrite He.
        rewrite bind_ret_l. now rewrite (bind_Ret _ _ _ _ _ Hrun). }
      apply (wfm_Ret _ _ _ _ Hrun').
      apply (mat_wf _ _ W1 (eqlog_mat _ _ Heq)).
    + destruct (arm_Ret (timerCtxP c, mkCancelFunc (cancelerTimer c) true)
                  c n1 d (Until d (now s1)) cause0 s1 Hn1 Hmu He Hx)
        as (s2 & Hrun & Hh & Ht & Hcl & Hcu & Hw).
      apply (wfm_Ret _ _ _ _ Hrun).
      apply (wf_arm s1 s2 c n1 d _ _ W1 Hn1 Hx He Hh Ht Hcl Hcu Hw).
Qed.

Lemma WithTimeoutCause_wf fuel parent timeout cause0 s :
  wf s → parent_ok s parent → (1 ≤ fuel)%nat →
  okm to_wf s (WithTimeoutCause fuel parent timeout cause0).
Proof.
  intros W Hp Hf. unfold WithTimeoutCause. apply wfm_bind_get.
  now apply WithDeadlineCause_wf.
Qed.

Lemma AfterFunc_wf fuel ctx f s :
  wf s → parent_ok s (Some ctx) → (1 ≤ fuel)%nat →
  okm to_wf s (AfterFunc fuel ctx f).
Proof.
  intros W [Hok Hns] Hf. unfold AfterFunc.
  eapply wfm_bind_Ret; [reflexivity|].
  apply (okm_bind_post _ wf _ _ _
           (propagateCancel_wf fuel ctx (cancelerAfterFunc (length (heap s)))
              (afterFuncExt false f) s W Hok Hns eq_refl eq_refl eq_refl Hf)).
  - tauto.
  - intros _ s1 _ [W1 _]. exact W1.
Qed.

Lemma callAfterFuncStop_wf fuel a s :
  wf s → (length (heap s) ≤ fuel)%nat →
  okm to_wf s (callAfterFuncStop fuel a).
Proof.
  intros W Hf. unfold callAfterFuncStop.
  destruct (heap s !! a) as [n|] eqn:Hn.
  2:{ unfold okm, bind, getNode. now rewrite Hn. }
  eapply wfm_bind_Ret; [apply (getNode_Ret _ _ _ Hn)|].
  destruct (ext n) as [| |[] f] eqn:Hx; try exact W.
  eapply wfm_bind_Ret; [apply (modNode_Ret _ _ _ _ Hn)|].
  set (s1 := setHeap (<[a := set_ext (afterFuncExt true f) n]> (heap s)) s).
  assert (W1 : wf s1).
  { apply (wf_set_ext s s1 a n (afterFuncExt true f) W Hn); auto.
    - intros ch. rewrite Hx. destruct ch; reflexivity.
    - unfold timer_of. simpl. now rewrite Hx. }
  apply wfm_bind; [|intros _ s2 _ W2; exact W2].
  apply (canceler_cancel_wf fuel (cancelerAfterFunc a) true _ _ s1 W1).
  - eexists. split; [apply (lookup_insert_same _ _ _ _ Hn)|]. reflexivity.
  - simpl. rewrite length_insert. lia.
  - now left.
Qed.

Lemma wfm_forget {A} (m : M A) s : okm to_wf s m → okm to_wf s (forget m).
Proof. intros H. unfold forget. apply wfm_bind; [exact H|]. auto. Qed.

Lemma Done_wf c s : wf s → ctx_ok s c → okm to_wf s (Done c).
Proof.
  intros W Hok. destruct (Done_Ret s c (wf_sane _ W) Hok) as (s' & Hrun & Hm).
  apply (wfm_Ret _ _ _ _ Hrun), (mat_wf _ _ W Hm).
Qed.

Lemma Err_wf c s : wf s → ctx_ok s c → okm to_wf s (Err c).
Proof.
  intros W Hok. destruct (Err_Ret s c (wf_sane _ W) Hok) as (s' & Hrun & Hm).
  apply (wfm_Ret _ _ _ _ Hrun), (mat_wf _ _ W (eqlog_mat _ _ Hm)).
Qed.

Lemma Cause_wf fuel c s : wf s → ctx_ok s c → okm to_wf s (Cause fuel c).
Proof.
  intros W Hok.
  destruct (Cause_Ret fuel s c (wf_sane _ W) Hok) as (s' & Hrun & Hm).
  apply (wfm_Ret _ _ _ _ Hrun), (mat_wf _ _ W (eqlog_mat _ _ Hm)).
Qed.

(** *** What runs besides the caller *)

Lemma pending_mat s s' parent child :
  mat s s' → pending s parent child → pending s' parent child.
Proof.
  intros Hm Hp. apply (pending_later s s' _ _ (mat_later _ _ Hm) Hp).
  intros r. apply mat_registered, Hm.
Qed.

Lemma pending_touch s s' parent child :
  touch s s' → pending s parent child → pending s' parent child.
Proof.
  intros Ht Hp. apply (pending_later s s' _ _ (touch_later _ _ Ht) Hp).
  intros r. apply touch_registered, Ht.
Qed.

(** The parent of a child that waits is canceled: the child is, with the
    error and the cause of the parent. *)
Lemma cancel_for_parent_wf fuel parent child s :
  wf s → pending s parent child → (length (heap s) ≤ fuel)%nat →
  okm to_wf s (e <- Err parent;;
               cz <- Cause fuel parent;;
               canceler_cancel fuel child false e cz).
Proof.
  intros W Hp Hf. pose proof Hp as (Hok & _).
  destruct (Err_Ret s parent (wf_sane _ W) Hok) as (s1 & Hrun1 & Hm1).
  eapply wfm_bind_Ret; [exact Hrun1|].
  pose proof (mat_wf _ _ W (eqlog_mat _ _ Hm1)) as W1.
  pose proof (pending_mat _ _ _ _ (eqlog_mat _ _ Hm1) Hp) as Hp1.
  destruct (Cause_Ret fuel s1 parent (wf_sane _ W1) (proj1 Hp1))
    as (s2 & Hrun2 & Hm2).
  eapply wfm_bind_Ret; [exact Hrun2|].
  pose proof (mat_wf _ _ W1 (eqlog_mat _ _ Hm2)) as W2.
  pose proof (pending_mat _ _ _ _ (eqlog_mat _ _ Hm2) Hp1) as (_ & Hk2 & Hun2).
  apply (canceler_cancel_wf fuel child false _ _ s2 W2 Hk2); [|auto].
  rewrite (eqlog_heap _ _ Hm2), (eqlog_heap _ _ Hm1). lia.
Qed.

Lemma wf_setWaiters s w :
  wf s → (∀ i parent child, w !! i = Some (parent, child) →
                            pending s parent child) →
  wf (setWaiters w s).
Proof.
  intros W Hw. apply (wf_env s); simpl; auto; try apply W; eauto.
Qed.

Lemma wf_delete_waiter s i :
  wf s → wf (setWaiters (delete i (waiters s)) s).
Proof.
  intros W. apply wf_setWaiters; [assumption|].
  intros j parent child Hj. destruct (decide (j < i)%nat).
  - rewrite list_lookup_delete_lt in Hj by assumption.
    apply (wf_waiters _ W j parent child Hj).
  - rewrite list_lookup_delete_ge in Hj by lia.
    apply (wf_waiters _ W (S j) parent child Hj).
Qed.

Lemma pending_setWaiters s w parent child :
  pending s parent child → pending (setWaiters w s) parent child.
Proof.
  intros (Hok & Hk & Hun). split; [|split; [exact Hk | exact Hun]].
  now apply (ctx_ok_len s).
Qed.

Lemma waiterStep_wf fuel i pickParent s :
  wf s → (length (heap s) ≤ fuel)%nat →
  okm to_wf s (waiterStep fuel i pickParent).
Proof.
  intros W Hf. unfold waiterStep. apply wfm_bind_get.
  destruct (waiters s !! i) as [[parent child]|] eqn:Hi; [|exact W].
  pose proof (wf_waiters _ W i parent child Hi) as Hp.
  destruct (Done_Ret s parent (wf_sane _ W) (proj1 Hp)) as (s1 & Hrun1 & Hm1).
  eapply wfm_bind_Ret; [exact Hrun1|].
  pose proof (mat_wf _ _ W Hm1) as W1.
  pose proof (pending_mat _ _ _ _ Hm1 Hp) as Hp1.
  destruct Hp1 as (Hok1 & (n1 & Hn1 & Hk1) & Hun1).
  destruct (cancelCtx_Done_Ret _ n1 s1 Hn1
              (nr_mu _ _ _ (wf_ready _ W1 _ n1 Hn1 ltac:(lia))))
    as (s2 & Hrun2 & Hm2 & _).
  eapply wfm_bind_Ret; [exact Hrun2|].
  pose proof (mat_wf _ _ W1 Hm2) as W2.
  assert (Hp2 : pending s2 parent child).
  { apply (pending_mat _ _ _ _ Hm2). split; [assumption|].
    split; [exists n1; auto | assumption]. }
  apply wfm_bind_get.
  assert (Hl2 : length (heap s2) = length (heap s))
    by (rewrite (mat_len _ _ Hm2), (mat_len _ _ Hm1); reflexivity).
  destruct (chan_ready s2 (doneOf s parent)
            && (pickParent
                || negb (chan_ready s2 (Some (default (chanOf (canceler_ptr child))
                                                (done n1)))))).
  - eapply wfm_bind_Ret; [reflexivity|].
    apply cancel_for_parent_wf;
      [apply wf_delete_waiter, W2 | apply pending_setWaiters, Hp2 | simpl; lia].
  - destruct (chan_ready s2 _); [|exact W2].
    apply (wfm_Ret _ _ tt _ eq_refl). apply wf_delete_waiter, W2.
Qed.

Lemma runCallback_wf fuel u r s :
  wf s → (length (heap s) ≤ fuel)%nat →
  okm to_wf s (runCallback fuel u r).
Proof.
  intros W Hf. unfold runCallback.
  destruct (customs s !! u) as [cu|] eqn:Hu.
  2:{ unfold okm, bind, getCustom. now rewrite Hu. }
  eapply wfm_bind_Ret; [apply (getCustom_Ret _ _ _ Hu)|].
  destruct (uRegs cu !! r) as [[[child parent]|]|] eqn:Hr; try exact W.
  pose proof (wf_regs _ W u cu r parent child Hu Hr) as Hp.
  destruct (callStop_Ret {| stopOwner := u; stopReg := r |} s)
    as (b & s1 & Hrun & Ht); [simpl; eapply lookup_lt_Some; eauto|].
  eapply wfm_bind_Ret; [exact Hrun|].
  apply cancel_for_parent_wf.
  - apply (touch_wf _ _ W Ht).
  - apply (pending_touch _ _ _ _ Ht Hp).
  - rewrite (touch_len _ _ Ht). exact Hf.
Qed.

Lemma fireTimer_wf fuel t s :
  wf s → (length (heap s) ≤ fuel)%nat → okm to_wf s (fireTimer fuel t).
Proof.
  intros W Hf. unfold fireTimer. apply wfm_bind_get.
  destruct (timers s !! t) as [tm|] eqn:Ht; [|exact W].
  destruct (tactive tm && bool_decide (twhen tm ≤ now s)) eqn:Hb; [|exact W].
  apply andb_true_iff in Hb as [Ha _].
  eapply wfm_bind_Ret; [reflexivity|].
  set (s1 := setTimers _ s).
  assert (W1 : wf s1).
  { apply (wf_env s); simpl; auto; try apply W; eauto.
    - rewrite length_insert. lia.
    - intros t' tm' Ht'. destruct (decide (t' = t)) as [->|Hne].
      + rewrite (lookup_insert_same _ _ _ _ Ht) in Ht'. injection Ht' as <-.
        exists tm. simpl. split; [assumption|]. split; [reflexivity|].
        discriminate.
      + rewrite list_lookup_insert_ne in Ht' by congruence. eauto. }
  destruct (wf_active _ W t tm Ht Ha) as (n & Hn & Htn).
  change (timerCtx_cancel fuel (tnode tm) true (Some DeadlineExceeded) (tcause tm))
    with (canceler_cancel fuel (cancelerTimer (tnode tm)) true
            (Some DeadlineExceeded) (tcause tm)).
  apply (canceler_cancel_wf fuel (cancelerTimer (tnode tm)) true _ _ s1 W1).
  - exists n. split; [exact Hn|]. simpl. unfold timer_of in Htn.
    destruct (ext n); try discriminate. reflexivity.
  - simpl. lia.
  - now left.
Qed.

Lemma newCustom_wf cu s :
  wf s → uRegs cu = [] →
  (∀ p, uValue cu cancelCtxKey = acancelCtx p → (p < length (heap s))%nat) →
  okm to_wf s (newCustom cu).
Proof.
  intros W Hr Hkey. apply (wfm_Ret _ _ (length (customs s)) _ eq_refl).
  apply (wf_env s); simpl; auto; try apply W; eauto.
  - rewrite length_app. lia.
  - intros u cu0 Hu. exists cu0. split; [now apply lookup_app_l_Some | auto].
  - intros u cu' p Hu. apply lookup_app_Some in Hu as [Hu | [_ Hu]].
    + apply (wf_customs _ W u cu' p Hu).
    + apply list_lookup_singleton_Some in Hu as [_ <-]. apply Hkey.
  - intros u cu' r parent child Hu Hr'.
    apply lookup_app_Some in Hu as [Hu | [_ Hu]].
    + apply (wf_regs _ W u cu' r parent child Hu Hr').
    + apply list_lookup_singleton_Some in Hu as [_ <-].
      rewrite Hr in Hr'. discriminate.
Qed.

Lemma wf_close_ext s d :
  wf s → (∀ q, d ≠ chanOf q) → wf (setClosed (d :: closed s) s).
Proof.
  intros W Hd. apply (wf_env s); simpl; auto; try apply W; eauto.
  - intros q Hq. apply elem_of_cons in Hq as [Hq | Hq]; [|assumption].
    exfalso. apply (Hd q). congruence.
  - intros d0. destruct d0; simpl; auto; rewrite !bool_decide_eq_true;
      intros Hin; now right.
Qed.

Lemma endCustom_wf u e s :
  wf s →
  (∀ cu d q, customs s !! u = Some cu → uDone cu = Some d → d ≠ chanOf q) →
  okm to_wf s (endCustom u e).
Proof.
  intros W Hext. unfold endCustom.
  destruct (customs s !! u) as [cu|] eqn:Hu.
  2:{ unfold okm, bind, getCustom. now rewrite Hu. }
  eapply wfm_bind_Ret; [apply (getCustom_Ret _ _ _ Hu)|].
  destruct (uErr cu); [exact W|].
  eapply wfm_bind_Ret; [reflexivity|].
  set (s1 := setCustoms _ s).
  assert (W1 : wf s1).
  { assert (Hinv : ∀ u0 cu0', customs s1 !! u0 = Some cu0' →
              ∃ cu0, customs s !! u0 = Some cu0 ∧ uValue cu0' = uValue cu0
                     ∧ uRegs cu0' = uRegs cu0).
    { intros u0 cu0' Hu0. simpl in Hu0. destruct (decide (u0 = u)) as [->|Hne].
      - rewrite (lookup_insert_same _ _ _ _ Hu) in Hu0. injection Hu0 as <-.
        exists cu. auto.
      - rewrite list_lookup_insert_ne in Hu0 by congruence. eauto. }
    apply (wf_env s); simpl; auto; try apply W; eauto.
    - rewrite length_insert. lia.
    - intros u0 cu0 Hu0. destruct (decide (u0 = u)) as [->|Hne].
      + rewrite Hu in Hu0. injection Hu0 as <-.
        rewrite (lookup_insert_same _ _ _ _ Hu). eauto.
      + rewrite list_lookup_insert_ne by congruence. eauto.
    - intros u0 cu0' p Hu0 Hv. destruct (Hinv u0 cu0' Hu0) as (cu0 & Hu00 & Ev & _).
      apply (wf_customs _ W u0 cu0 p Hu00). congruence.
    - intros u0 cu0' r parent child Hu0 Hr.
      destruct (Hinv u0 cu0' Hu0) as (cu0 & Hu00 & _ & Er).
      rewrite Er in Hr. apply (wf_regs _ W u0 cu0 r parent child Hu00 Hr). }
  destruct (uDone cu) as [d|] eqn:Hd; [|exact W1].
  apply (wfm_Ret _ _ tt _ eq_refl).
  destruct (is_closed s1 d); [exact W1|].
  apply wf_close_ext; [exact W1|]. intros q. apply (Hext cu d q eq_refl Hd).
Qed.

Lemma tick_wf dt s : wf s → okm to_wf s (tick dt).
Proof.
  intros W. apply (wfm_Ret _ _ tt _ eq_refl).
  apply (wf_env s); simpl; auto; try apply W; eauto.
Qed.

(** Every operation leaves a state between operations. *)
Lemma runOp_wf fuel o s : wf s → op_ok s fuel o → okm to_wf s (runOp fuel o).
Proof.
  intros W [Hf Hop].
  destruct o; simpl in *; try apply wfm_forget.
  - apply WithCancel_wf; auto; lia.
  - apply WithCancelCause_wf; auto; lia.
  - apply WithDeadlineCause_wf; auto; lia.
  - apply WithTimeoutCause_wf; auto; lia.
  - apply AfterFunc_wf; auto; lia.
  - apply callAfterFuncStop_wf; auto; lia.
  - destruct Hop as [Hk Hhow]. apply canceler_cancel_wf; auto; [lia | tauto].
  - now apply Done_wf.
  - now apply Err_wf.
  - now apply Cause_wf.
  - apply wfm_pure; [apply pure_Value | exact W].
  - apply wfm_pure; [apply pure_Deadline | exact W].
  - apply fireTimer_wf; auto; lia.
  - apply waiterStep_wf; auto; lia.
  - apply runCallback_wf; auto; lia.
  - destruct Hop. now apply newCustom_wf.
  - now apply endCustom_wf.
  - now apply tick_wf.
Qed.

Lemma wf_emptyState : wf emptyState.
Proof. apply wfb_wf. reflexivity. Qed.

(** A run of such operations, from a state between operations, ends in
    one. *)
Lemma runOps_wf ops : ∀ s, wf s → ops_ok ops s → wf (runOps ops s).
Proof.
  induction ops as [|[fuel o] ops IH]; intros s W Hok; simpl; [exact W|].
  destruct Hok as [Hop Hrest]. apply IH; [|exact Hrest].
  apply wfm_final; [exact W | now apply runOp_wf].
Qed.

(** A run from the empty state: a node over Background, a deadline node
    and a function below it, time passing, the timer firing, and the cancel
    function of the first node. *)
Example run_of_operations_kept :
  wf (runOps [(5%nat, opWithCancel (Some backgroundCtx));
              (5%nat, opWithDeadlineCause (Some (cancelCtxP 0)) 100 None);
              (5%nat, opAfterFunc (timerCtxP 1) 7);
              (5%nat, opTick 200);
              (5%nat, opFireTimer 0);
              (5%nat, opCancel (cancelerCancel 0) true (Some Canceled) None)]
             emptyState).
Proof.
  apply runOps_wf; [apply wf_emptyState|].
  vm_compute.
  repeat split; try lia; try (eexists; split; reflexivity).
Qed.

(** ** Cancellation happens once, for good *)

(** C2.  The first cancel call on a node, with a non-nil error [e], returns
    and leaves the node with a channel [d].  In every state any run of
    operations leads to from there, the node has the error [e], the cause
    given with it (or [e]), and the channel [d], closed; a cancel call on the
    node, whatever its arguments and wherever it stops, leaves the state as
    it is but for the history of the locks; the lock of the node is free
    when the first call was that of the cancel function of a [cancelCtx] and
    the operations since are as the package and its callers make them; and
    while the lock of the node is free, a cancel call with a non-nil error
    returns and [Err] returns [e]. *)
Theorem cancel_is_one_way fuel c removeFromParent e cause0 s n :
  wf s → heap s !! c = Some n → err n = None →
  (length (heap s) - c ≤ fuel)%nat →
  ∃ s1 d,
    cancelCtx_cancel fuel c removeFromParent (Some e) cause0 s = Ret tt s1
    ∧ ∀ ops,
        ∃ n2, heap (runOps ops s1) !! c = Some n2
              ∧ err n2 = Some e ∧ cause n2 = Some (default e cause0)
              ∧ done n2 = Some d ∧ is_closed (runOps ops s1) d = true
              ∧ (∀ fuel' rfp' err' cause',
                   eqlog (runOps ops s1)
                         (final (runOps ops s1)
                            (cancelCtx_cancel fuel' c rfp' err' cause'
                               (runOps ops s1))))
              ∧ (kind_ok s (cancelerCancel c) → removeFromParent = true →
                 ops_ok ops s1 → mu n2 = false)
              ∧ (mu n2 = false →
                 (∀ fuel' rfp' e' cause',
                    cancelCtx_cancel (S fuel') c rfp' (Some e') cause'
                      (runOps ops s1)
                    = Ret tt (setLog (log (runOps ops s1)
                                        ++ [EvLock c; EvUnlock c])
                                     (runOps ops s1)))
                 ∧ ∃ s3, Err (cancelCtxP c) (runOps ops s1) = Ret (Some e) s3
                         ∧ eqlog (runOps ops s1) s3).
Proof.
  intros W Hn He Hf.
  destruct (cancelCtx_cancel_returns fuel c removeFromParent e cause0 s n
              W Hn Hf)
    as (s1 & s' & Hret & HC & Hcan & _ & Hle & _).
  destruct (Casc_fields _ _ _ _ _ _ _ _ HC Hn He Hcan)
    as (n1 & Hn1 & He1 & Hz1 & _ & _ & _ & d & Hd1 & Hcl1).
  assert (Hwf : kind_ok s (cancelerCancel c) → removeFromParent = true →
                wf s').
  { intros Hk ->.
    pose proof (canceler_cancel_wf fuel (cancelerCancel c) true (Some e) cause0
                  s W Hk Hf (or_introl eq_refl)) as H.
    unfold okm in H.
    change (canceler_cancel fuel (cancelerCancel c) true (Some e) cause0 s)
      with (cancelCtx_cancel fuel c true (Some e) cause0 s) in H.
    now rewrite Hret in H. }
  exists s', d. split; [exact Hret|].
  intros ops. set (s2 := runOps ops s').
  assert (Hle' : le_state s1 s2)
    by (etransitivity; [exact Hle | apply runOps_le]).
  destruct (le_canceled _ _ _ _ _ _ _ _ Hle' Hn1 He1 Hz1 Hd1 Hcl1)
    as (n2 & Hn2 & He2 & Hz2 & Hd2 & Hcl2 & _).
  exists n2. repeat (split; [assumption|]).
  assert (He2' : err n2 ≠ None) by congruence.
  split.
  - intros fuel' rfp' err' cause'.
    rewrite (cancelCtx_cancel_again _ _ _ _ _ _ _ Hn2 He2').
    destruct fuel' as [|f']; [apply eqlog_refl|].
    destruct err' as [e'|]; [|apply eqlog_refl].
    destruct (mu n2); [apply eqlog_refl|]. simpl. now eexists.
  - split.
    { intros Hk Hr Hops.
      pose proof (runOps_wf ops s' (Hwf Hk Hr) Hops) as W2.
      exact (nr_mu _ _ _ (wf_ready _ W2 c n2 Hn2 ltac:(lia))). }
    intros Hmu. split.
    + intros fuel' rfp' e' cause'.
      rewrite (cancelCtx_cancel_again _ _ _ _ _ _ _ Hn2 He2').
      now rewrite Hmu.
    + destruct (cancelCtx_Err_Ret c n2 s2 Hn2 Hmu) as (s3 & Hrun & Hlog).
      exists s3. now rewrite <- He2.
Qed.

Lemma cancel_is_one_way_witness :
  ∃ s1 d,
    cancelCtx_cancel 3 1 true (Some Canceled) (Some (errorString "stop"))
      example_tree = Ret tt s1
    ∧ ∀ ops,
        ∃ n2, heap (runOps ops s1) !! 1%nat = Some n2
              ∧ err n2 = Some Canceled
              ∧ cause n2
                = Some (default Canceled (Some (errorString "stop")))
              ∧ done n2 = Some d ∧ is_closed (runOps ops s1) d = true
              ∧ (∀ fuel' rfp' err' cause',
                   eqlog (runOps ops s1)
                         (final (runOps ops s1)
                            (cancelCtx_cancel fuel' 1 rfp' err' cause'
                               (runOps ops s1))))
              ∧ (kind_ok example_tree (cancelerCancel 1) → true = true →
                 ops_ok ops s1 → mu n2 = false)
              ∧ (mu n2 = false →
                 (∀ fuel' rfp' e' cause',
                    cancelCtx_cancel (S fuel') 1 rfp' (Some e') cause'
                      (runOps ops s1)
                    = Ret tt (setLog (log (runOps ops s1)
                                        ++ [EvLock 1%nat; EvUnlock 1%nat])
                                     (runOps ops s1)))
                 ∧ ∃ s3, Err (cancelCtxP 1) (runOps ops s1)
                         = Ret (Some Canceled) s3
                         ∧ eqlog (runOps ops s1) s3).
Proof.
  refine (cancel_is_one_way 3 1 true Canceled (Some (errorString "stop"))
            example_tree _ _ _ _ _).
  - apply wfb_wf. vm_compute. reflexivity.
  - vm_compute. reflexivity.
  - reflexivity.
  - vm_compute. lia.
Defined.

(** ** The cause *)

(** C3, as the code has it.  [Cause] returns nil for a node that is not
    canceled.  The cancel function made by [WithCancelCause], called with the
    cause [cause0] for a node that is not canceled, returns, with every lock
    free, and the locks are free again after every run of operations as the
    package and its callers make them.  In every state any run of
    operations leads to from there, the node and every node that was
    registered below it, at any depth, have the error [Canceled] and as cause
    [cause0], or [Canceled] when [cause0] is nil; this cause is what [Cause]
    has to return for the node and for the Contexts derived from it that
    answer for it; and while the locks are free, [Cause] returns it. *)
Theorem cause_reaches_registered_descendants fuel c cause0 s n :
  wf s → heap s !! c = Some n → err n = None →
  (length (heap s) - c ≤ fuel)%nat →
  (∀ fuel' ctx, ctx_ok s ctx → keyOf s ctx = acancelCtx c →
     ∃ s0, Cause fuel' ctx s = Ret None s0)
  ∧ ∃ s', callCancelCauseFunc fuel (mkCancelCauseFunc c) cause0 s = Ret tt s'
      ∧ sane s'
      ∧ (kind_ok s (cancelerCancel c) →
         ∀ ops, ops_ok ops s' → sane (runOps ops s'))
      ∧ ∀ ops q ctx,
          q = c ∨ descendant s c q →
          keyOf (runOps ops s') ctx = acancelCtx q →
          (∃ m, heap (runOps ops s') !! q = Some m
                ∧ err m = Some Canceled
                ∧ cause m = Some (default Canceled cause0))
          ∧ causeOf (runOps ops s') ctx = Some (default Canceled cause0)
          ∧ (sane (runOps ops s') → ctx_ok (runOps ops s') ctx →
             ∀ fuel', ∃ s3, Cause fuel' ctx (runOps ops s')
                            = Ret (Some (default Canceled cause0)) s3).
Proof.
  intros W Hn He Hf. split.
  - intros fuel' ctx Hok Hkey.
    destruct (Cause_Ret fuel' s ctx (wf_sane _ W) Hok) as (s0 & Hrun & _).
    exists s0. rewrite Hrun. f_equal. unfold causeOf. rewrite Hkey, Hn.
    exact (wf_live _ W c n Hn He).
  - unfold callCancelCauseFunc. simpl.
    destruct (cancelCtx_cancel_returns fuel c true Canceled cause0 s n W Hn Hf)
      as (s1 & s' & Hret & HC & Hcan & _ & Hle & Hs' & _).
    exists s'. split; [exact Hret|]. split; [exact Hs'|].
    split.
    { intros Hk ops Hops. apply wf_sane, (runOps_wf ops s'); [|exact Hops].
      pose proof (canceler_cancel_wf fuel (cancelerCancel c) true
                    (Some Canceled) cause0 s W Hk Hf (or_introl eq_refl)) as H.
      unfold okm in H.
      change (canceler_cancel fuel (cancelerCancel c) true (Some Canceled)
                cause0 s)
        with (cancelCtx_cancel fuel c true (Some Canceled) cause0 s) in H.
      now rewrite Hret in H. }
    intros ops q ctx Hrel Hkey.
    assert (Hle' : le_state s1 (runOps ops s'))
      by (etransitivity; [exact Hle | apply runOps_le]).
    assert (Hq : ∃ m, heap s !! q = Some m ∧ err m = None ∧ canceled_in s1 q).
    { destruct Hrel as [-> | Hd]; [eauto|].
      destruct (descendant_canceled _ _ _ _ _ _ W HC c q Hd Hcan)
        as [(m & Hm & Hem) Hcq]. eauto. }
    destruct Hq as (m & Hm & Hem & Hcq).
    destruct (Casc_fields _ _ _ _ _ _ _ _ HC Hm Hem Hcq)
      as (m1 & Hm1 & He1 & Hz1 & _ & _ & _ & d & Hd1 & Hcl1).
    destruct (le_canceled _ _ _ _ _ _ _ _ Hle' Hm1 He1 Hz1 Hd1 Hcl1)
      as (m2 & Hm2 & He2 & Hz2 & _).
    assert (Hcause : causeOf (runOps ops s') ctx = Some (default Canceled cause0)).
    { unfold causeOf. now rewrite Hkey, Hm2. }
    split; [eauto|]. split; [exact Hcause|].
    intros Hs2 Hok2 fuel'.
    destruct (Cause_Ret fuel' _ ctx Hs2 Hok2) as (s3 & Hrun & _).
    exists s3. now rewrite Hrun, Hcause.
Qed.

Lemma cause_reaches_registered_descendants_witness :
  (∀ fuel' ctx, ctx_ok cause_tree ctx → keyOf cause_tree ctx = acancelCtx 0 →
     ∃ s0, Cause fuel' ctx cause_tree = Ret None s0)
  ∧ ∃ s', callCancelCauseFunc 3 (mkCancelCauseFunc 0)
            (Some (errorString "X")) cause_tree = Ret tt s'
      ∧ sane s'
      ∧ (kind_ok cause_tree (cancelerCancel 0) →
         ∀ ops, ops_ok ops s' → sane (runOps ops s'))
      ∧ ∀ ops q ctx,
          q = 0%nat ∨ descendant cause_tree 0 q →
          keyOf (runOps ops s') ctx = acancelCtx q →
          (∃ m, heap (runOps ops s') !! q = Some m
                ∧ err m = Some Canceled
                ∧ cause m = Some (default Canceled (Some (errorString "X"))))
          ∧ causeOf (runOps ops s') ctx
            = Some (default Canceled (Some (errorString "X")))
          ∧ (sane (runOps ops s') → ctx_ok (runOps ops s') ctx →
             ∀ fuel', ∃ s3, Cause fuel' ctx (runOps ops s')
                            = Ret (Some (default Canceled
                                           (Some (errorString "X")))) s3).
Proof.
  refine (cause_reaches_registered_descendants 3 0 (Some (errorString "X"))
            cause_tree _ _ _ _ _).
  - apply wfb_wf. vm_compute. reflexivity.
  - vm_compute. reflexivity.
  - reflexivity.
  - vm_compute. lia.
Defined.

(** C3, as the specification has it, fails for a descendant that was
    canceled before: node 1, made by [WithCancel] over node 0, is canceled
    by its own cancel function, and then node 0 is canceled with the cause
    [X]; [Cause] returns [Canceled], not [X], for node 1. *)
Lemma cause_of_descendant_canceled_before :
  ∃ s1 s2 s3 s4,
    callCancelFunc 3 (mkCancelFunc (cancelerCancel 1) true) cause_tree
    = Ret tt s1
    ∧ callCancelCauseFunc 3 (mkCancelCauseFunc 0) (Some (errorString "X")) s1
      = Ret tt s2
    ∧ Cause 3 (cancelCtxP 0) s2 = Ret (Some (errorString "X")) s3
    ∧ Cause 3 (cancelCtxP 1) s2 = Ret (Some Canceled) s4.
Proof.
  eexists _, _, _, _. split; [vm_compute; reflexivity|].
  split; [vm_compute; reflexivity|].
  split; vm_compute; reflexivity.
Qed.


(** * More of the package *)

(** ** What a cancel call leaves alone *)

(** The nodes a call of [cancel] cancels are the node and nodes registered
    below it. *)
Lemma only_descendant e z x c s s1 :
  wf s → Casc e z c x s s1 → only (λ q, q = c) s s1 →
  ∀ q n, heap s !! q = Some n → err n = None → canceled_in s1 q →
         q = c ∨ descendant s c q.
Proof.
  intros W HC Honly q. induction q as [q IH] using lt_wf_ind.
  intros n Hq He Hcan.
  destruct (Honly q n Hq He Hcan) as [-> | (r & Hr & Hrc)]; [now left|].
  right. destruct Hr as (nr & ch & Hnr & Hin & Hp).
  assert (Her : err nr = None).
  { destruct (err nr) eqn:Her; [|reflexivity].
    destruct (wf_canceled _ W r nr Hnr) as (Hk & _); [congruence|].
    rewrite Hk in Hin. simpl in Hin. now apply not_elem_of_nil in Hin. }
  assert (Hlt : (r < q)%nat).
  { rewrite <- Hp.
    apply (nr_children _ _ _ (wf_ready _ W r nr Hnr (Nat.le_0_l _)) ch Hin). }
  assert (Hd : descendant s r q)
    by (rewrite <- Hp; eapply descendant_child; eauto).
  destruct (IH r Hlt nr Hnr Her Hrc) as [-> | Hd0]; [exact Hd|].
  eapply descendant_trans; eauto.
Qed.

(** X1.  A call of the [cancel] of a canceler, with a non-nil error, from a
    state between operations, returns, and leaves the error and the cause of
    every node that is neither the node canceled nor registered below it, at
    any depth, as they were: the parent of the node, its siblings and the
    nodes of other trees are not canceled by it. *)
Theorem cancel_stays_in_subtree fuel ch removeFromParent e cause0 s :
  wf s → kind_ok s ch → (length (heap s) - canceler_ptr ch ≤ fuel)%nat →
  ∃ s', canceler_cancel fuel ch removeFromParent (Some e) cause0 s = Ret tt s'
        ∧ ∀ q n, heap s !! q = Some n →
                 q ≠ canceler_ptr ch → ¬ descendant s (canceler_ptr ch) q →
                 ∃ n', heap s' !! q = Some n'
                       ∧ err n' = err n ∧ cause n' = cause n.
Proof.
  intros W (n & Hn & Hk) Hf.
  destruct (wf_context _ W _ n Hn) as (ctx & Hctx & Hok).
  destruct (canceler_cancel_returns fuel ch removeFromParent e cause0 s n ctx
              (wf_sane _ W)
              (ready_weaken 0 (canceler_ptr ch) s (Nat.le_0_l _) (wf_ready _ W))
              Hn Hk Hctx Hok Hf)
    as (s1 & s2 & s' & Hrun & HC & Hcan & Ht & _ & Hfin & _ & Honly & _).
  exists s'. split; [exact Hrun|].
  intros q m Hq Hqc Hnd.
  destruct (later_node _ _ (Casc_later _ _ _ _ _ _ HC) q m Hq) as (m1 & Hq1 & _).
  assert (Hm1 : m1 = m).
  { destruct (Casc_node_inv _ _ _ _ _ _ _ _ HC Hq1) as (m0 & Hq0 & Hcase).
    rewrite Hq in Hq0. injection Hq0 as <-.
    destruct Hcase as [-> | [He0 ->]]; [reflexivity|]. exfalso.
    destruct (only_descendant _ _ _ _ _ _ W HC Honly q m Hq He0) as [? | ?];
      [|contradiction..].
    eexists. split; [exact Hq1|].
    destruct (bool_decide (Some (canceler_ptr ch) = Some q)); discriminate. }
  subst m1.
  destruct (touch_node _ _ Ht q m Hq1) as (m2 & Hq2 & _ & _ & He2 & Hz2 & _).
  destruct (fin_heap _ _ _ Hfin) as (nc & _ & Hh).
  exists m2. rewrite Hh, list_lookup_insert_ne by congruence. auto.
Qed.

Lemma cancel_stays_in_subtree_witness :
  ∃ s', canceler_cancel 5 (cancelerCancel 1) true (Some Canceled) None
          example_tree = Ret tt s'
        ∧ ∀ q n, heap example_tree !! q = Some n →
                 q ≠ 1%nat → ¬ descendant example_tree 1 q →
                 ∃ n', heap s' !! q = Some n'
                       ∧ err n' = err n ∧ cause n' = cause n.
Proof.
  apply (cancel_stays_in_subtree 5 (cancelerCancel 1) true Canceled None
           example_tree).
  - apply wfb_wf. vm_compute. reflexivity.
  - eexists. split; vm_compute; reflexivity.
  - vm_compute. lia.
Defined.

(** ** [Done] and [Err] agree *)

Lemma own_done_err s c :
  wf s → ctx_ok s c → own_done c = true →
  (errOf s c ≠ None ↔ chan_ready s (doneOf s c) = true).
Proof.
  intros W. induction c; simpl; intros Hok Hown; try discriminate;
    try (split; [congruence | discriminate]); try (apply IHc; tauto).
  - destruct (lookup_lt_is_Some_2 _ _ Hok) as [n Hn]. rewrite Hn. simpl.
    destruct (err n) as [e|] eqn:He.
    + destruct (wf_canceled _ W p n Hn) as (_ & _ & d & Hd & Hcl); [congruence|].
      rewrite Hd. simpl. split; [auto | discriminate].
    + destruct (nr_live _ _ _ (wf_ready _ W p n Hn (Nat.le_0_l _)) He)
        as [Hncl Hd].
      assert (Hdef : default (chanOf p) (done n) = chanOf p)
        by (destruct Hd as [-> | ->]; reflexivity).
      rewrite Hdef. simpl. rewrite bool_decide_eq_false_2 by assumption.
      split; [congruence | discriminate].
  - destruct (lookup_lt_is_Some_2 _ _ Hok) as [n Hn]. rewrite Hn. simpl.
    destruct (err n) as [e|] eqn:He.
    + destruct (wf_canceled _ W p n Hn) as (_ & _ & d & Hd & Hcl); [congruence|].
      rewrite Hd. simpl. split; [auto | discriminate].
    + destruct (nr_live _ _ _ (wf_ready _ W p n Hn (Nat.le_0_l _)) He)
        as [Hncl Hd].
      assert (Hdef : default (chanOf p) (done n) = chanOf p)
        by (destruct Hd as [-> | ->]; reflexivity).
      rewrite Hdef. simpl. rewrite bool_decide_eq_false_2 by assumption.
      split; [congruence | discriminate].
Qed.

(** X2.  In every state a run of operations, as the package and its callers
    make them, leads to from the empty state, for a Context whose
    done-signal is the package's own, [Done] and [Err] return, and [Err]
    returns a non-nil error exactly when the channel [Done] returned is
    closed. *)
Theorem Err_iff_Done_closed ops c :
  ops_ok ops emptyState → ctx_ok (runOps ops emptyState) c →
  own_done c = true →
  ∃ d e s1 s2,
    Done c (runOps ops emptyState) = Ret d s1
    ∧ Err c (runOps ops emptyState) = Ret e s2
    ∧ (e ≠ None ↔ chan_ready (runOps ops emptyState) d = true).
Proof.
  intros Hops Hok Hown.
  pose proof (runOps_wf ops emptyState wf_emptyState Hops) as W.
  destruct (Done_Ret _ c (wf_sane _ W) Hok) as (s1 & HD & _).
  destruct (Err_Ret _ c (wf_sane _ W) Hok) as (s2 & HE & _).
  exists (doneOf (runOps ops emptyState) c), (errOf (runOps ops emptyState) c),
    s1, s2.
  split; [exact HD|]. split; [exact HE|]. now apply own_done_err.
Qed.

Lemma example_run_ok : ops_ok example_run emptyState.
Proof.
  vm_compute. repeat split; try lia; try (eexists; split; reflexivity).
Qed.

Lemma Err_iff_Done_closed_witness :
  ∃ d e s1 s2,
    Done (timerCtxP 1) (runOps example_run emptyState) = Ret d s1
    ∧ Err (timerCtxP 1) (runOps example_run emptyState) = Ret e s2
    ∧ (e ≠ None ↔ chan_ready (runOps example_run emptyState) d = true).
Proof.
  apply (Err_iff_Done_closed example_run (timerCtxP 1)).
  - apply example_run_ok.
  - vm_compute. lia.
  - reflexivity.
Defined.

(** ** The tree of children *)

Lemma example_ops_ok : ops_ok example_ops emptyState.
Proof.
  vm_compute. repeat split; try lia; try discriminate.
Qed.

(** X3.  In every state a run of operations, as the package and its callers
    make them, leads to from the empty state, a children set is that of a
    node that is not canceled, and a canceler in it points to a node of its
    type, made after the owner of the set, that is not canceled, that is in
    no other children set, and that embeds a Context which resolves to the
    owner. *)
Theorem children_sets_hold_live_children ops r nr ch :
  ops_ok ops emptyState →
  heap (runOps ops emptyState) !! r = Some nr →
  ch ∈ default [] (children nr) →
  err nr = None ∧ (r < canceler_ptr ch)%nat
  ∧ (∃ m ctx, heap (runOps ops emptyState) !! canceler_ptr ch = Some m
             ∧ err m = None ∧ kind_matches ch (ext m) = true
             ∧ Context_ m = Some ctx
             ∧ resolve (runOps ops emptyState)
                 (doneOf (runOps ops emptyState) ctx) ctx = Some r)
  ∧ ∀ r', registered (runOps ops emptyState) r' (canceler_ptr ch) → r' = r.
Proof.
  intros Hops Hr Hin.
  pose proof (runOps_wf ops emptyState wf_emptyState Hops) as W.
  set (s := runOps ops emptyState) in *.
  destruct (wf_node _ _ _ W Hr) as [[_ Hch _ _ _] Hkids Hcan _ _].
  split.
  { destruct (err nr) eqn:He; [|reflexivity].
    destruct Hcan as (Hk & _); [congruence|].
    rewrite Hk in Hin. simpl in Hin. now apply not_elem_of_nil in Hin. }
  destruct (Hch ch Hin) as [Hlt (m & Hm & Hk)]. split; [exact Hlt|].
  destruct (Hkids ch Hin) as (m' & ctx & Hm' & Hem & Hctx & _ & Hres).
  rewrite Hm in Hm'. injection Hm' as <-.
  split; [eauto 10|].
  intros r' Hr'. apply (registered_unique s r' r (canceler_ptr ch) W Hr').
  exists nr, ch. auto.
Qed.

Lemma children_sets_hold_live_children_witness :
  err (mkNode (Some backgroundCtx) false (Some (chanOf 0))
         (Some [cancelerCancel 1; cancelerTimer 3]) None None plainExt) = None
  ∧ (0 < canceler_ptr (cancelerTimer 3))%nat
  ∧ (∃ m ctx, heap (runOps example_ops emptyState)
                !! canceler_ptr (cancelerTimer 3) = Some m
             ∧ err m = None ∧ kind_matches (cancelerTimer 3) (ext m) = true
             ∧ Context_ m = Some ctx
             ∧ resolve (runOps example_ops emptyState)
                 (doneOf (runOps example_ops emptyState) ctx) ctx = Some 0%nat)
  ∧ ∀ r', registered (runOps example_ops emptyState) r'
            (canceler_ptr (cancelerTimer 3)) → r' = 0%nat.
Proof.
  apply (children_sets_hold_live_children example_ops 0
           (mkNode (Some backgroundCtx) false (Some (chanOf 0))
              (Some [cancelerCancel 1; cancelerTimer 3]) None None plainExt)
           (cancelerTimer 3)).
  - apply example_ops_ok.
  - vm_compute. reflexivity.
  - simpl. apply list_elem_of_In. simpl. auto.
Defined.

(** ** The channel [Done] returns *)

(** The node whose channel [Done] returned. *)
Lemma own_Done_node s c d s1 :
  sane s → ctx_ok s c → own_done c = true → Done c s = Ret (Some d) s1 →
  ∃ p n1, heap s1 !! p = Some n1 ∧ done n1 = Some d
          ∧ ∀ s' n', heap s' !! p = Some n' → done n' = Some d →
                     doneOf s' c = Some d ∧ ctx_ok s' c.
Proof.
  intros Hs. induction c; simpl; intros Hok Hown HD; try discriminate.
  - destruct Hok as [Hk Hok].
    destruct (IHc Hok Hown HD) as (p & n1 & Hn1 & Hd1 & Hkeep).
    exists p, n1. split; [assumption|]. split; [assumption|].
    intros s' n' Hn' Hd'. destruct (Hkeep s' n' Hn' Hd'). auto.
  - destruct (lookup_lt_is_Some_2 _ _ Hok) as [n Hn].
    destruct (cancelCtx_Done_Ret p n s Hn (sane_mu _ Hs _ _ Hn))
      as (s' & Hrun & _ & Hn').
    rewrite Hrun in HD. injection HD as <- <-.
    eexists p, _. split; [exact Hn'|]. split; [reflexivity|].
    intros s2 n2 Hn2 Hd2. rewrite Hn2, Hd2. split; [reflexivity|].
    eapply lookup_lt_Some; eauto.
  - destruct (lookup_lt_is_Some_2 _ _ Hok) as [n Hn].
    destruct (cancelCtx_Done_Ret p n s Hn (sane_mu _ Hs _ _ Hn))
      as (s' & Hrun & _ & Hn').
    rewrite Hrun in HD. injection HD as <- <-.
    eexists p, _. split; [exact Hn'|]. split; [reflexivity|].
    intros s2 n2 Hn2 Hd2. rewrite Hn2, Hd2. split; [reflexivity|].
    eapply lookup_lt_Some; eauto.
Qed.

(** X4.  Once [Done] has returned a channel for a Context whose done-signal
    is the package's own, it returns the same channel in every state a run of
    operations, as the package and its callers make them, leads to from
    there. *)
Theorem Done_returns_the_same_channel c d s s1 ops :
  wf s → ctx_ok s c → own_done c = true →
  Done c s = Ret (Some d) s1 → ops_ok ops s1 →
  ∃ s2, Done c (runOps ops s1) = Ret (Some d) s2.
Proof.
  intros W Hok Hown HD Hops.
  destruct (Done_Ret s c (wf_sane _ W) Hok) as (s1' & HD' & Hm).
  rewrite HD in HD'. injection HD' as Hd <-.
  pose proof (mat_wf _ _ W Hm) as W1.
  pose proof (runOps_wf ops s1 W1 Hops) as W2.
  destruct (own_Done_node s c d s1 (wf_sane _ W) Hok Hown HD)
    as (p & n1 & Hn1 & Hd1 & Hkeep).
  pose proof (runOps_le ops s1) as Hle.
  destruct (le_heap _ _ _ Hle p n1 Hn1) as (n2 & Hn2 & Hnle).
  destruct (Hkeep _ n2 Hn2 (le_done _ _ Hnle _ Hd1)) as [Hd2 Hok2].
  destruct (Done_Ret _ c (wf_sane _ W2) Hok2) as (s2 & HD2 & _).
  exists s2. rewrite HD2. now f_equal.
Qed.

Lemma Done_returns_the_same_channel_witness :
  ∃ s2, Done (valueCtx (cancelCtxP 1) (aint 1) (aint 2))
          (runOps [(5%nat, opCancel (cancelerCancel 0) true (Some Canceled) None)]
             (final example_tree
                (Done (valueCtx (cancelCtxP 1) (aint 1) (aint 2)) example_tree)))
        = Ret (Some (chanOf 1)) s2.
Proof.
  apply (Done_returns_the_same_channel
           (valueCtx (cancelCtxP 1) (aint 1) (aint 2)) (chanOf 1) example_tree).
  - apply wfb_wf. vm_compute. reflexivity.
  - vm_compute. split; [discriminate | lia].
  - reflexivity.
  - vm_compute. reflexivity.
  - vm_compute. repeat split; try lia. eexists. split; reflexivity.
Defined.

(** ** [WithoutCancel] *)

(** A node just made, once the done-signal of its parent has been asked
    for. *)
Lemma born_facts parent x s0 sB :
  wf s0 → ctx_ok s0 parent →
  timer_of (mkNode None false None None None None x) = None →
  mat (setHeap (heap s0 ++ [mkNode (Some parent) false None None None None x])
         s0) sB →
  wf sB ∧ length (heap sB) = S (length (heap s0))
  ∧ unregistered sB (length (heap s0))
  ∧ ∃ nB, heap sB !! length (heap s0) = Some nB
          ∧ err nB = None ∧ cause nB = None ∧ children nB = None
          ∧ ext nB = x ∧ Context_ nB = Some parent.
Proof.
  intros W Hok Htx Hm.
  set (c := length (heap s0)) in *.
  set (sA := setHeap _ s0) in *.
  assert (WA : wf sA) by (apply wf_born; assumption).
  assert (HcA : heap sA !! c
                = Some (mkNode (Some parent) false None None None None x)).
  { subst sA c. simpl. now rewrite lookup_app_r, Nat.sub_diag by lia. }
  split; [apply (mat_wf _ _ WA Hm)|].
  split.
  { rewrite (mat_len _ _ Hm). subst sA c. simpl. rewrite length_app. simpl. lia. }
  split.
  { intros r Hr. apply (mat_registered _ _ _ _ Hm) in Hr.
    destruct Hr as (nr & ch & Hr & Hin & Hp). subst sA. simpl in Hr.
    apply lookup_app_Some in Hr as [Hr | [_ Hr]].
    - apply (fresh_unregistered s0 c W (le_n _) r). exists nr, ch. auto.
    - apply list_lookup_singleton_Some in Hr as [_ <-].
      simpl in Hin. now apply not_elem_of_nil in Hin. }
  destruct (mat_node _ _ Hm c _ HcA) as [H | [_ H]]; eexists;
    (split; [exact H|]); simpl; auto 10.
Qed.

(** A node in no children set is not canceled by the [cancel] of another. *)
Lemma unregistered_survives fuel ch removeFromParent e cause0 s c n :
  wf s → kind_ok s ch → (length (heap s) - canceler_ptr ch ≤ fuel)%nat →
  heap s !! c = Some n → err n = None → unregistered s c →
  c ≠ canceler_ptr ch →
  ∃ s' n', canceler_cancel fuel ch removeFromParent (Some e) cause0 s = Ret tt s'
           ∧ heap s' !! c = Some n' ∧ err n' = None.
Proof.
  intros W (m & Hm & Hk) Hf Hn He Hun Hne.
  destruct (wf_context _ W _ m Hm) as (ctx & Hctx & Hok).
  destruct (canceler_cancel_returns fuel ch removeFromParent e cause0 s m ctx
              (wf_sane _ W)
              (ready_weaken 0 (canceler_ptr ch) s (Nat.le_0_l _) (wf_ready _ W))
              Hm Hk Hctx Hok Hf)
    as (s1 & s2 & s' & Hrun & HC & Hcan & Ht & _ & Hfin & _ & Honly & _).
  destruct (later_node _ _ (Casc_later _ _ _ _ _ _ HC) c n Hn) as (n1 & Hn1 & _).
  assert (H1 : n1 = n).
  { destruct (Casc_node_inv _ _ _ _ _ _ _ _ HC Hn1) as (n0 & Hn0 & Hcase).
    rewrite Hn in Hn0. injection Hn0 as <-.
    destruct Hcase as [-> | [_ ->]]; [reflexivity|]. exfalso.
    destruct (Honly c n Hn He) as [? | (r & Hr & _)]; [|contradiction|].
    - eexists. split; [exact Hn1|].
      destruct (bool_decide (Some (canceler_ptr ch) = Some c)); discriminate.
    - exact (Hun r Hr). }
  subst n1.
  destruct (touch_node _ _ Ht c n Hn1) as (n2 & Hn2 & _ & _ & He2 & _).
  destruct (fin_heap _ _ _ Hfin) as (nc & _ & Hh).
  exists s', n2. split; [exact Hrun|].
  rewrite Hh, list_lookup_insert_ne by congruence. split; [assumption|].
  congruence.
Qed.

(** X5.  A Context made by [WithoutCancel] is never canceled, whatever the
    state of its parent: [Done] returns a nil channel, [Err], [Deadline] and
    [Cause] return nil, and [Value] answers nil for the package's key.  A
    node made by [WithCancel] over it, from a state between operations, is
    not canceled, and a call of the [cancel] of any other canceler leaves it
    so. *)
Theorem WithoutCancel_cuts_cancellation fuel parent s :
  wf s → ctx_ok s parent → (1 ≤ fuel)%nat →
  WithoutCancel (Some parent) s = Ret (withoutCancelCtx parent) s
  ∧ (∀ fuel', Done (withoutCancelCtx parent) s = Ret None s
              ∧ Err (withoutCancelCtx parent) s = Ret None s
              ∧ Deadline fuel' (withoutCancelCtx parent) s = Ret None s
              ∧ Value fuel' (withoutCancelCtx parent) cancelCtxKey s = Ret anil s
              ∧ Cause fuel' (withoutCancelCtx parent) s = Ret None s)
  ∧ ∃ s1 n1,
      WithCancel fuel (Some (withoutCancelCtx parent)) s
      = Ret (cancelCtxP (length (heap s)),
             mkCancelFunc (cancelerCancel (length (heap s))) true) s1
      ∧ heap s1 !! length (heap s) = Some n1 ∧ err n1 = None
      ∧ ∀ fuel' ch removeFromParent e cause0,
          kind_ok s1 ch → canceler_ptr ch ≠ length (heap s) →
          (length (heap s1) - canceler_ptr ch ≤ fuel')%nat →
          ∃ s2 n2,
            canceler_cancel fuel' ch removeFromParent (Some e) cause0 s1
            = Ret tt s2
            ∧ heap s2 !! length (heap s) = Some n2 ∧ err n2 = None.
Proof.
  intros W Hok Hf. split; [reflexivity|]. split.
  { intros fuel'. repeat split; destruct fuel'; reflexivity. }
  destruct (propagateCancel_Ret fuel (withoutCancelCtx parent)
              (cancelerCancel (length (heap s))) plainExt s (wf_sane _ W) Hok
              (wf_closed _ W) eq_refl eq_refl eq_refl Hf)
    as (sB & _ & Hm & Hw).
  simpl in Hw.
  destruct (born_facts (withoutCancelCtx parent) plainExt s sB W Hok eq_refl Hm)
    as (WB & HlB & HunB & nB & HcB & HeB & _).
  exists sB, nB. split.
  { unfold WithCancel, withCancel.
    unfold bind at 1. unfold bind at 1.
    change (alloc plainExt s)
      with (Ret (length (heap s))
              (setHeap (heap s ++ [mkNode None false None None None None plainExt])
                 s)).
    cbv beta iota. now rewrite (bind_Ret _ _ _ _ _ Hw). }
  split; [exact HcB|]. split; [exact HeB|].
  intros fuel' ch rfp e cause0 Hk Hne Hf'.
  destruct (unregistered_survives fuel' ch rfp e cause0 sB _ nB WB Hk Hf' HcB HeB
              HunB (not_eq_sym Hne)) as (s2 & n2 & H).
  exists s2, n2. exact H.
Qed.

Lemma WithoutCancel_cuts_cancellation_witness :
  WithoutCancel (Some (cancelCtxP 0)) canceled_tree
  = Ret (withoutCancelCtx (cancelCtxP 0)) canceled_tree
  ∧ (∀ fuel', Done (withoutCancelCtx (cancelCtxP 0)) canceled_tree
              = Ret None canceled_tree
              ∧ Err (withoutCancelCtx (cancelCtxP 0)) canceled_tree
                = Ret None canceled_tree
              ∧ Deadline fuel' (withoutCancelCtx (cancelCtxP 0)) canceled_tree
                = Ret None canceled_tree
              ∧ Value fuel' (withoutCancelCtx (cancelCtxP 0)) cancelCtxKey
                  canceled_tree = Ret anil canceled_tree
              ∧ Cause fuel' (withoutCancelCtx (cancelCtxP 0)) canceled_tree
                = Ret None canceled_tree)
  ∧ ∃ s1 n1,
      WithCancel 5 (Some (withoutCancelCtx (cancelCtxP 0))) canceled_tree
      = Ret (cancelCtxP (length (heap canceled_tree)),
             mkCancelFunc (cancelerCancel (length (heap canceled_tree))) true) s1
      ∧ heap s1 !! length (heap canceled_tree) = Some n1 ∧ err n1 = None
      ∧ ∀ fuel' ch removeFromParent e cause0,
          kind_ok s1 ch → canceler_ptr ch ≠ length (heap canceled_tree) →
          (length (heap s1) - canceler_ptr ch ≤ fuel')%nat →
          ∃ s2 n2,
            canceler_cancel fuel' ch removeFromParent (Some e) cause0 s1
            = Ret tt s2
            ∧ heap s2 !! length (heap canceled_tree) = Some n2
            ∧ err n2 = None.
Proof.
  apply (WithoutCancel_cuts_cancellation 5 (cancelCtxP 0) canceled_tree).
  - apply wfb_wf. vm_compute. reflexivity.
  - vm_compute. lia.
  - lia.
Defined.

(** ** What a derivation leaves *)

Lemma causeOf_born s0 n parent :
  sane s0 → ctx_ok s0 parent →
  causeOf (setHeap (heap s0 ++ [n]) s0) parent = causeOf s0 parent.
Proof.
  intros Hs Hok. unfold causeOf.
  rewrite (keyOf_customs s0 (setHeap (heap s0 ++ [n]) s0)) by reflexivity.
  rewrite errOf_born by assumption.
  destruct (keyOf s0 parent) eqn:Hk; auto.
  pose proof (keyOf_valid s0 parent p Hs Hok Hk) as Hlt.
  simpl. now rewrite lookup_app_l.
Qed.

Lemma propagateCancel_wired fuel parent child x s0 s1 :
  wf s0 → ctx_ok s0 parent → is_stopCtx parent = false →
  timer_of (mkNode None false None None None None x) = None →
  kind_matches child x = true → canceler_ptr child = length (heap s0) →
  (1 ≤ fuel)%nat →
  propagateCancel fuel (length (heap s0)) parent child
    (setHeap (heap s0 ++ [mkNode None false None None None None x]) s0)
  = Ret tt s1 →
  wired_node parent x s0 s1.
Proof.
  intros W Hok Hns Htx Hk Hptr Hfuel Hrun.
  pose proof (propagateCancel_wf fuel parent child x s0 W Hok Hns Htx Hk Hptr
                Hfuel) as HP.
  unfold okm in HP. rewrite Hrun in HP. destruct HP as (W1 & Hl1 & _).
  destruct (propagateCancel_Ret fuel parent child x s0 (wf_sane _ W) Hok
              (wf_closed _ W) Htx Hk Hptr Hfuel) as (sB & _ & Hm & Hw).
  rewrite Hrun in Hw.
  destruct (born_facts parent x s0 sB W Hok Htx Hm)
    as (WB & HlB & HunB & nB & HcB & HeB & HzB & HkB & HxB & HctxB).
  set (c := length (heap s0)) in *.
  set (sA := setHeap (heap s0 ++ [mkNode (Some parent) false None None None None x]) s0) in *.
  assert (HoldB : ∀ q n, heap s0 !! q = Some n →
            ∃ n', heap sB !! q = Some n' ∧ Context_ n' = Context_ n
                  ∧ ext n' = ext n ∧ err n' = err n ∧ cause n' = cause n).
  { intros q n Hq.
    assert (HqA : heap sA !! q = Some n)
      by (subst sA; simpl; now apply lookup_app_l_Some).
    destruct (mat_node _ _ Hm q n HqA) as [H | [_ H]]; eexists;
      (split; [exact H|]); simpl; auto. }
  assert (HcuB : customs sB = customs s0) by (now rewrite (mat_customs _ _ Hm)).
  assert (HnowB : now sB = now s0) by (now rewrite (mat_now _ _ Hm)).
  assert (HdoneB : doneOf sB parent = doneOf s0 parent).
  { rewrite (mat_doneOf _ _ _ Hm). now apply doneOf_born. }
  assert (HclB : closed sB = closed s0) by (now rewrite (mat_closed _ _ Hm)).
  assert (HrdyB : chan_ready s0 (doneOf s0 parent)
                  = chan_ready sB (doneOf sB parent)).
  { rewrite HdoneB. destruct (doneOf s0 parent) as [[| |]|]; simpl; auto;
      now rewrite HclB. }
  assert (Hlive : ∀ s2 n2, wf s2 → length (heap s2) = S c →
            heap s2 !! c = Some n2 →
            (Context_ n2 = Some parent
             ∨ ∃ stop, Context_ n2 = Some (stopCtx parent stop)) →
            err n2 = None → cause n2 = None → ext n2 = x →
            (∀ q n, heap sB !! q = Some n → q ≠ c →
                    ∃ n', heap s2 !! q = Some n' ∧ Context_ n' = Context_ n
                          ∧ ext n' = ext n ∧ err n' = err n
                          ∧ cause n' = cause n) →
            (∀ u cu, customs sB !! u = Some cu →
               ∃ cu', customs s2 !! u = Some cu' ∧ uDeadline cu' = uDeadline cu
                      ∧ uValue cu' = uValue cu ∧ uDone cu' = uDone cu
                      ∧ uErr cu' = uErr cu) →
            now s2 = now sB →
            chan_ready sB (doneOf sB parent) = false →
            wired_node parent x s0 s2).
  { intros s2 n2 W2 Hl2 Hn2 Hc2 He2 Hz2 Hx2 Hold2 Hcu2 Hnow2 Hrdy.
    constructor; auto.
    - exists n2. split; [assumption|]. split; [assumption|]. left.
      rewrite HrdyB. auto.
    - intros q n Hq. destruct (HoldB q n Hq) as (n' & Hq' & E1 & E2 & E3 & E4).
      assert (Hqc : q ≠ c) by (apply lookup_lt_Some in Hq; subst c; lia).
      destruct (Hold2 q n' Hq' Hqc) as (n'' & Hq'' & F1 & F2 & F3 & F4).
      exists n''. split; [assumption|]. repeat split; congruence.
    - intros u cu Hu. rewrite <- HcuB in Hu. apply (Hcu2 u cu Hu).
    - congruence. }
  unfold choose_wiring in Hw.
  destruct (doneOf sB parent) as [d|] eqn:Hdone.
  2:{ simpl in Hw. injection Hw as Hw. subst s1.
      apply (Hlive sB nB W1 Hl1 HcB); eauto 10. }
  destruct (is_closed sB d) eqn:Hcld.
  { (* the parent is canceled already *)
    destruct Hw as (s2 & Heq & Hw).
    pose proof (eqlog_heap _ _ Heq) as Hh2.
    destruct (errOf sB parent) as [e|] eqn:HerrB; [|discriminate].
    destruct Hw as (s' & Ho & HC & Hcan). injection Ho as <-.
    assert (Hc2 : heap s2 !! c = Some nB) by (now rewrite Hh2).
    destruct (Casc_changed _ _ _ _ _ _ _ _ HC Hc2 HeB Hcan) as [_ Hc'].
    rewrite bool_decide_eq_false_2 in Hc' by discriminate.
    assert (HerrA : errOf s0 parent = Some e).
    { rewrite <- HerrB, (mat_errOf _ _ _ Hm). symmetry. now apply errOf_born. }
    assert (HcauseB : causeOf sB parent = causeOf s0 parent).
    { rewrite (mat_causeOf _ _ _ Hm). apply causeOf_born; [apply wf_sane|];
        assumption. }
    constructor; auto.
    - eexists. split; [exact Hc'|]. split; [left; exact HctxB|]. right.
      exists e. simpl. rewrite HxB, <- HcauseB, HrdyB. simpl. auto 10.
    - intros q n Hq. destruct (HoldB q n Hq) as (n' & Hq' & E).
      exists n'. split; [|exact E].
      rewrite (Casc_below _ _ _ _ _ _ _ HC), Hh2; [assumption|].
      apply lookup_lt_Some in Hq. subst c. lia.
    - intros u cu Hu. rewrite (casc_customs _ _ _ _ _ _ HC).
      destruct Heq as [l ->]. simpl. rewrite HcuB. eauto 10.
    - rewrite (casc_now _ _ _ _ _ _ HC). destruct Heq as [l ->]. exact HnowB. }
  assert (Hrdy : chan_ready sB (Some d) = false) by exact Hcld.
  destruct (resolve sB (Some d) parent) as [p|] eqn:Hres.
  { destruct Hw as (np & Hnp & Hw).
    destruct (resolve_Some _ _ _ _ Hres)
      as (np' & d' & Hnp' & Hd' & _ & Hdnp & Hkey).
    rewrite Hnp in Hnp'. injection Hnp' as <-. injection Hd' as <-.
    assert (Hpc : (p < c)%nat).
    { rewrite (keyOf_customs s0 sB) in Hkey by assumption.
      apply (keyOf_valid s0 parent p (wf_sane _ W) Hok Hkey). }
    assert (Hep : err np = None).
    { destruct (err np) as [e|] eqn:Hep; [exfalso|reflexivity].
      destruct (wf_canceled _ WB p np Hnp) as (_ & _ & d0 & Hd0 & Hcl0);
        congruence. }
    rewrite Hep in Hw. injection Hw as Hw. subst s1.
    apply (Hlive _ nB W1 Hl1); simpl; auto.
    - rewrite list_lookup_insert_ne by lia. exact HcB.
    - intros q n Hq Hqc. destruct (decide (q = p)) as [->|Hqp].
      + rewrite Hnp in Hq. injection Hq as <-.
        eexists. split; [apply (lookup_insert_same _ _ _ _ Hnp)|]. simpl. auto.
      + rewrite list_lookup_insert_ne by congruence. eauto 10.
    - eauto 10. }
  assert (HWaiter : wired ByWaiter c parent child sB (Ret tt s1) →
                    wired_node parent x s0 s1).
  { simpl. intros Ho. injection Ho as Ho. subst s1.
    apply (Hlive _ nB W1 Hl1); simpl; eauto 10. }
  destruct parent; try (exact (HWaiter Hw)).
  destruct (customs sB !! u) as [cu|] eqn:Hcu; [|exact (HWaiter Hw)].
  destruct (uAfterFunc cu); [|exact (HWaiter Hw)].
  destruct Hw as (cu' & nc & Hcu' & Hnc & Hw).
  rewrite Hcu in Hcu'. injection Hcu' as <-.
  rewrite HcB in Hnc. injection Hnc as <-.
  injection Hw as Hw. subst s1.
  eapply (Hlive _ _ W1 Hl1); simpl; auto.
  - apply (lookup_insert_same _ _ _ _ HcB).
  - simpl. right. eauto.
  - assumption.
  - assumption.
  - assumption.
  - intros q n Hq Hqc. rewrite list_lookup_insert_ne by congruence. eauto 10.
  - intros u0 cu0 Hu0. destruct (decide (u0 = u)) as [->|Hne].
    + rewrite Hcu in Hu0. injection Hu0 as <-.
      eexists. split; [apply (lookup_insert_same _ _ _ _ Hcu)|]. simpl. auto.
    + rewrite list_lookup_insert_ne by congruence. eauto 10.
Qed.

(** X6.  [WithCancel], from a state between operations and for a parent the
    caller can hold, returns a new node, unless the parent is a Context of
    the environment with a closed done-signal and no error.  The node is
    canceled already exactly when the done-signal of the parent is closed,
    and it has then the error of the parent and its cause, or its error
    when it has no cause; [Err] and [Cause] on the new Context return
    them. *)
Theorem WithCancel_takes_after_parent fuel parent s :
  wf s → parent_ok s (Some parent) → (1 ≤ fuel)%nat →
  (chan_ready s (doneOf s parent) = true → errOf s parent ≠ None) →
  ∃ s1 n1,
    WithCancel fuel (Some parent) s
    = Ret (cancelCtxP (length (heap s)),
           mkCancelFunc (cancelerCancel (length (heap s))) true) s1
    ∧ heap s1 !! length (heap s) = Some n1
    ∧ err n1 = (if chan_ready s (doneOf s parent) then errOf s parent
                else None)
    ∧ cause n1 = (if chan_ready s (doneOf s parent)
                  then match causeOf s parent with
                       | Some z => Some z
                       | None => errOf s parent
                       end
                  else None)
    ∧ ∀ fuel', ∃ s2 s3,
        Err (cancelCtxP (length (heap s))) s1 = Ret (err n1) s2
        ∧ Cause fuel' (cancelCtxP (length (heap s))) s1 = Ret (cause n1) s3.
Proof.
  intros W [Hok Hns] Hf Hcontract.
  destruct (propagateCancel_returns fuel parent
              (cancelerCancel (length (heap s))) plainExt s (wf_sane _ W) Hok
              (wf_closed _ W) eq_refl eq_refl eq_refl Hf) as (s1 & HP).
  { intros d Hd Hcl. apply Hcontract. now rewrite Hd. }
  destruct (propagateCancel_wired fuel parent
              (cancelerCancel (length (heap s))) plainExt s s1 W Hok Hns eq_refl
              eq_refl eq_refl Hf HP) as [W1 Hl1 (n1 & Hn1 & _ & Hcase) _ _ _].
  exists s1, n1. split.
  { unfold WithCancel, withCancel.
    unfold bind at 1. unfold bind at 1.
    change (alloc plainExt s)
      with (Ret (length (heap s))
              (setHeap (heap s ++ [mkNode None false None None None None plainExt])
                 s)).
    cbv beta iota. now rewrite (bind_Ret _ _ _ _ _ HP). }
  split; [exact Hn1|].
  assert (Hfields :
    err n1 = (if chan_ready s (doneOf s parent) then errOf s parent else None)
    ∧ cause n1 = (if chan_ready s (doneOf s parent)
                  then match causeOf s parent with
                       | Some z => Some z
                       | None => errOf s parent
                       end
                  else None)).
  { destruct Hcase as [(He & Hz & _ & ->) | (e & Hpe & He & Hz & _ & ->)];
      [auto|].
    rewrite Hpe. split; [assumption|]. rewrite Hz.
    destruct (causeOf s parent); reflexivity. }
  destruct Hfields as [He Hz]. split; [exact He|]. split; [exact Hz|].
  intros fuel'.
  destruct (cancelCtx_Err_Ret _ n1 s1 Hn1
              (nr_mu _ _ _ (wf_ready _ W1 _ n1 Hn1 (Nat.le_0_l _))))
    as (s2 & HE & _).
  destruct (Cause_Ret fuel' s1 (cancelCtxP (length (heap s))) (wf_sane _ W1))
    as (s3 & HC & _).
  { simpl. lia. }
  exists s2, s3. split; [exact HE|]. rewrite HC. f_equal.
  unfold causeOf. simpl. now rewrite Hn1.
Qed.

Lemma WithCancel_takes_after_parent_witness :
  ∃ s1 n1,
    WithCancel 5 (Some (timerCtxP 3)) canceled_tree
    = Ret (cancelCtxP (length (heap canceled_tree)),
           mkCancelFunc (cancelerCancel (length (heap canceled_tree))) true) s1
    ∧ heap s1 !! length (heap canceled_tree) = Some n1
    ∧ err n1 = (if chan_ready canceled_tree (doneOf canceled_tree (timerCtxP 3))
                then errOf canceled_tree (timerCtxP 3)
                else None)
    ∧ cause n1 = (if chan_ready canceled_tree
                       (doneOf canceled_tree (timerCtxP 3))
                  then match causeOf canceled_tree (timerCtxP 3) with
                       | Some z => Some z
                       | None => errOf canceled_tree (timerCtxP 3)
                       end
                  else None)
    ∧ ∀ fuel', ∃ s2 s3,
        Err (cancelCtxP (length (heap canceled_tree))) s1 = Ret (err n1) s2
        ∧ Cause fuel' (cancelCtxP (length (heap canceled_tree))) s1
          = Ret (cause n1) s3.
Proof.
  apply (WithCancel_takes_after_parent 5 (timerCtxP 3) canceled_tree).
  - apply wfb_wf. vm_compute. reflexivity.
  - vm_compute. split; [lia | reflexivity].
  - lia.
  - vm_compute. discriminate.
Defined.

(** ** The cancel function takes the node out of its parent *)

(** After [removeChild], the children of the node the parent resolves to
    are those there were, without the child. *)
Lemma removed_children ctx ch s s' q n l :
  is_stopCtx ctx = false → removed ctx ch s s' →
  resolve s (doneOf s ctx) ctx = Some q →
  heap s !! q = Some n → children n = Some l →
  ∃ n', heap s' !! q = Some n' ∧ children n' = Some (delete_child ch l)
        ∧ err n' = err n ∧ cause n' = cause n.
Proof.
  intros Hns Hrem Hres Hq Hk.
  assert (Hgen : ∃ sB, Done ctx s = Ret (doneOf s ctx) sB ∧ mat s sB
            ∧ match resolve sB (doneOf s ctx) ctx with
              | None => s' = sB
              | Some p =>
                  ∃ np, heap sB !! p = Some np
                    ∧ s' = setLog (log sB ++ [EvLock p; EvUnlock p])
                             (setHeap
                                (<[p := match children np with
                                        | Some l =>
                                            set_children
                                              (Some (delete_child ch l)) np
                                        | None => np
                                        end]> (heap sB)) sB)
              end)
    by (destruct ctx; try discriminate; exact Hrem).
  destruct Hgen as (sB & _ & Hm & Hcase).
  pose proof (later_resolve _ _ _ _ (mat_later _ _ Hm) Hres) as Hres'.
  rewrite (mat_doneOf _ _ _ Hm) in Hres'. rewrite Hres' in Hcase.
  destruct Hcase as (np & Hnp & ->). simpl.
  rewrite (lookup_insert_same _ _ _ _ Hnp). eexists. split; [reflexivity|].
  assert (Hf : children np = Some l ∧ err np = err n ∧ cause np = cause n).
  { destruct (mat_node _ _ Hm q n Hq) as [H | [_ H]];
      rewrite Hnp in H; injection H as ->; auto. }
  destruct Hf as (Hk' & He' & Hz'). rewrite Hk'. simpl. auto.
Qed.

(** X7.  The cancel function of a node that is in the children of a node,
    called from a state between operations, returns and leaves the parent
    not canceled and with the children it had but for that node: the node
    is in the set no more, the other children, and they only, are in it,
    and they stay not canceled. *)
Theorem cancel_removes_from_parent fuel ch e cause0 s p np l :
  wf s → heap s !! p = Some np → children np = Some l → ch ∈ l →
  (length (heap s) - canceler_ptr ch ≤ fuel)%nat →
  ∃ s' np',
    canceler_cancel fuel ch true (Some e) cause0 s = Ret tt s'
    ∧ heap s' !! p = Some np' ∧ err np' = None
    ∧ children np' = Some (delete_child ch l)
    ∧ (ch ∉ default [] (children np'))
    ∧ (∀ ch', ch' ∈ default [] (children np') ↔ ch' ∈ l ∧ ch' ≠ ch)
    ∧ canceled_in s' (canceler_ptr ch)
    ∧ ∀ ch', ch' ∈ l → ch' ≠ ch →
             ch' ∈ delete_child ch l
             ∧ ∃ m, heap s' !! canceler_ptr ch' = Some m ∧ err m = None.
Proof.
  intros W Hp Hk Hin Hf.
  assert (Hin' : ch ∈ default [] (children np)) by (now rewrite Hk).
  destruct (wf_node _ _ _ W Hp) as [[_ Hch _ _ _] Hkids Hcan _ _].
  destruct (Hch ch Hin') as [Hlt (n & Hn & Hkind)].
  destruct (Hkids ch Hin') as (n' & ctx & Hn' & He & Hctx & Hns & Hres).
  rewrite Hn in Hn'. injection Hn' as <-.
  assert (Hep : err np = None).
  { destruct (err np) eqn:Hep; [|reflexivity].
    destruct Hcan as (Hk0 & _); congruence. }
  destruct (wf_context _ W _ n Hn) as (ctx' & Hctx' & Hok).
  rewrite Hctx in Hctx'. injection Hctx' as <-.
  destruct (canceler_cancel_returns fuel ch true e cause0 s n ctx
              (wf_sane _ W)
              (ready_weaken 0 (canceler_ptr ch) s (Nat.le_0_l _) (wf_ready _ W))
              Hn Hkind Hctx Hok Hf)
    as (s1 & s2 & s' & Hrun & HC & Hcanc & Ht & _ & Hfin & _ & Honly & Hrm).
  destruct (Hrm eq_refl) as [Hrem | [Hne _]]; [|congruence].
  assert (Hp1 : heap s1 !! p = Some np)
    by (rewrite (Casc_below _ _ _ _ _ _ _ HC) by exact Hlt; exact Hp).
  pose proof (later_resolve _ _ _ _ (Casc_later _ _ _ _ _ _ HC) Hres) as Hres1.
  destruct (removed_children ctx ch s1 s2 p np l Hns Hrem Hres1 Hp1 Hk)
    as (np2 & Hp2 & Hk2 & He2 & _).
  destruct (fin_heap _ _ _ Hfin) as (nc & Hnc & Hh).
  assert (Hother : ∀ q, q ≠ canceler_ptr ch → heap s' !! q = heap s2 !! q).
  { intros q Hq. rewrite Hh. now apply list_lookup_insert_ne. }
  exists s', np2. split; [exact Hrun|].
  split; [rewrite Hother by lia; exact Hp2|].
  split; [congruence|]. split; [exact Hk2|].
  assert (Hiff : ∀ ch', ch' ∈ default [] (children np2) ↔ ch' ∈ l ∧ ch' ≠ ch).
  { intros ch'. rewrite Hk2. simpl. unfold delete_child.
    rewrite list_elem_of_filter. tauto. }
  split; [intros Hgone; apply Hiff in Hgone as [_ Hne]; now apply Hne|].
  split; [exact Hiff|].
  split.
  { destruct Hcanc as (m1 & Hm1 & Hem1).
    destruct (touch_node _ _ Ht _ m1 Hm1) as (m2 & Hm2 & _ & _ & Hem2 & _).
    rewrite Hnc in Hm2. injection Hm2 as <-.
    eexists. split; [rewrite Hh; apply (lookup_insert_same _ _ _ _ Hnc)|].
    simpl. congruence. }
  intros ch' Hin2 Hne.
  split.
  { unfold delete_child. apply list_elem_of_filter. auto. }
  assert (Hin2' : ch' ∈ default [] (children np)) by (now rewrite Hk).
  destruct (Hch ch' Hin2') as [Hlt' Hkind'].
  destruct (Hkids ch' Hin2') as (m & ctxm & Hm & Hem & _).
  assert (Hneq : canceler_ptr ch' ≠ canceler_ptr ch).
  { intros Heq. apply Hne.
    apply (kind_ok_unique s ch' ch Hkind'); [|exact Heq]. exists n. auto. }
  destruct (later_node _ _ (Casc_later _ _ _ _ _ _ HC) _ m Hm) as (m1 & Hm1 & _).
  assert (H1 : m1 = m).
  { destruct (Casc_node_inv _ _ _ _ _ _ _ _ HC Hm1) as (m0 & Hm0 & Hcase).
    rewrite Hm in Hm0. injection Hm0 as <-.
    destruct Hcase as [-> | [_ ->]]; [reflexivity|]. exfalso.
    destruct (only_descendant _ _ _ _ _ _ W HC Honly _ m Hm Hem)
      as [? | Hd]; [|contradiction|].
    - eexists. split; [exact Hm1|].
      destruct (bool_decide (Some (canceler_ptr ch) = Some (canceler_ptr ch')));
        discriminate.
    - (* a sibling is not registered below the node *)
      assert (Hup : ∀ a b, descendant s a b → ∀ r, registered s r b →
                           r = a ∨ descendant s a r).
      { induction 1 as [a na cha Ha Hina | a b c0 Hab IH1 Hbc IH2];
          intros r Hr.
        - left. apply (registered_unique s r a _ W Hr). exists na, cha. auto.
        - destruct (IH2 r Hr) as [-> | Hd2]; [now right|].
          right. eapply descendant_trans; eauto. }
      destruct (Hup _ _ Hd p) as [Hpc | Hdp].
      + exists np, ch'. auto.
      + lia.
      + pose proof (descendant_lt _ _ _ W Hdp). lia. }
  subst m1.
  destruct (touch_node _ _ Ht _ m Hm1) as (m2 & Hm2 & _ & _ & Hem2 & _).
  exists m2. rewrite Hother by assumption. split; [assumption | congruence].
Qed.

Lemma cancel_removes_from_parent_witness :
  ∃ s' np',
    canceler_cancel 5 (cancelerCancel 1) true (Some Canceled) None example_tree
    = Ret tt s'
    ∧ heap s' !! 0%nat = Some np' ∧ err np' = None
    ∧ children np'
      = Some (delete_child (cancelerCancel 1)
                [cancelerCancel 1; cancelerTimer 3])
    ∧ (cancelerCancel 1 ∉ default [] (children np'))
    ∧ (∀ ch', ch' ∈ default [] (children np')
              ↔ ch' ∈ [cancelerCancel 1; cancelerTimer 3]
                ∧ ch' ≠ cancelerCancel 1)
    ∧ canceled_in s' (canceler_ptr (cancelerCancel 1))
    ∧ ∀ ch', ch' ∈ [cancelerCancel 1; cancelerTimer 3] →
             ch' ≠ cancelerCancel 1 →
             ch' ∈ delete_child (cancelerCancel 1)
                     [cancelerCancel 1; cancelerTimer 3]
             ∧ ∃ m, heap s' !! canceler_ptr ch' = Some m ∧ err m = None.
Proof.
  apply (cancel_removes_from_parent 5 (cancelerCancel 1) Canceled None
           example_tree 0
           (mkNode (Some backgroundCtx) false (Some (chanOf 0))
              (Some [cancelerCancel 1; cancelerTimer 3]) None None plainExt)).
  - apply wfb_wf. vm_compute. reflexivity.
  - vm_compute. reflexivity.
  - reflexivity.
  - apply list_elem_of_In. simpl. auto.
  - vm_compute. lia.
Defined.

(** ** The timer of a deadline *)

(** The [cancel] of a canceler whose node is not canceled cancels the node
    and the nodes registered below it with the error and the cause given. *)
Lemma canceler_cancel_cancels fuel ch removeFromParent e cause0 s n :
  wf s → heap s !! canceler_ptr ch = Some n →
  kind_matches ch (ext n) = true → err n = None →
  (length (heap s) - canceler_ptr ch ≤ fuel)%nat →
  ∃ s', canceler_cancel fuel ch removeFromParent (Some e) cause0 s = Ret tt s'
        ∧ le_state s s'
        ∧ now s' = now s
        ∧ ∀ q, q = canceler_ptr ch ∨ descendant s (canceler_ptr ch) q →
               ∃ m, heap s' !! q = Some m ∧ err m = Some e
                    ∧ cause m = Some (default e cause0)
                    ∧ ∃ d, done m = Some d ∧ is_closed s' d = true.
Proof.
  intros W Hn Hk He Hf.
  set (c := canceler_ptr ch) in *.
  destruct (wf_context _ W c n Hn) as (ctx & Hctx & Hok).
  assert (Hr : ready s c) by (eapply ready_weaken; [|apply W]; lia).
  destruct (canceler_cancel_returns fuel ch removeFromParent e cause0 s n ctx
              (wf_sane _ W) Hr Hn Hk Hctx Hok Hf)
    as (s1 & s2 & s' & Hrun & HC & Hcan & Ht & _ & Hfin & _).
  fold c in HC, Hcan, Hfin.
  exists s'. split; [exact Hrun|]. split.
  { eapply (okm_Ret (le_from (length (heap s)))); [|exact Hrun].
    apply okm_canceler_cancel, _. }
  split.
  { rewrite (fin_now _ _ _ Hfin), (touch_now _ _ Ht).
    apply (casc_now _ _ _ _ _ _ HC). }
  intros q Hq.
  assert (H1 : ∃ m, heap s !! q = Some m ∧ err m = None ∧ canceled_in s1 q).
  { destruct Hq as [-> | Hd]; [eauto|].
    destruct (descendant_canceled _ _ _ _ _ _ W HC c q Hd Hcan)
      as [(m & Hm & Hem) Hcq]. eauto. }
  destruct H1 as (m & Hm & Hem & Hcq).
  destruct (Casc_fields _ _ _ _ _ _ _ _ HC Hm Hem Hcq)
    as (m1 & Hm1 & He1 & Hz1 & _ & _ & _ & d & Hd1 & Hcl1).
  destruct (touch_node _ _ Ht _ m1 Hm1)
    as (m2 & Hm2 & _ & _ & He2 & Hz2 & _ & Hd2 & _).
  assert (Hd2' : done m2 = Some d)
    by (destruct Hd2 as [Hd2 | [Hd2 _]]; congruence).
  assert (Hcl2 : is_closed s' d = true).
  { unfold is_closed in *.
    rewrite (fin_closed _ _ _ Hfin), (touch_closed _ _ Ht). exact Hcl1. }
  destruct (fin_heap _ _ _ Hfin) as (nc & Hnc & Hh).
  destruct (decide (q = c)) as [-> | Hne].
  - rewrite Hnc in Hm2. injection Hm2 as <-.
    eexists. split; [rewrite Hh; apply (lookup_insert_same _ _ _ _ Hnc)|].
    simpl. split; [congruence|]. split; [congruence|]. eauto.
  - exists m2. split; [rewrite Hh, list_lookup_insert_ne by congruence;
                       exact Hm2|].
    split; [congruence|]. split; [congruence|]. eauto.
Qed.

Lemma descendant_heap s s' p q :
  heap s' = heap s → descendant s p q → descendant s' p q.
Proof.
  intros Hh. induction 1 as [p n ch Hp Hin | p q r _ IH1 _ IH2].
  - eapply descendant_child; [rewrite Hh|]; eauto.
  - eapply descendant_trans; eauto.
Qed.

(** To set a timer off keeps the states between operations. *)
Lemma wf_timer_off s t tm :
  wf s → timers s !! t = Some tm →
  wf (setTimers
        (<[t := mkTimer (tnode tm) (twhen tm) (tcause tm) false]> (timers s))
        s).
Proof.
  intros W Ht.
  apply (wf_env s); simpl; auto; try apply W; eauto.
  - rewrite length_insert. lia.
  - intros t' tm' Ht'. destruct (decide (t' = t)) as [->|Hne].
    + rewrite (lookup_insert_same _ _ _ _ Ht) in Ht'. injection Ht' as <-.
      exists tm. simpl. split; [assumption|]. split; [reflexivity|].
      discriminate.
    + rewrite list_lookup_insert_ne in Ht' by congruence. eauto.
Qed.

(** X8.  When the time of a timer that has not been stopped has come, the
    function it runs returns and cancels the node of the deadline and the
    nodes registered below it with [DeadlineExceeded] and the cause given
    to [WithDeadlineCause] (the error itself when none was given), closing
    their channels; the clock is not moved, the state is one of the states
    between operations, and the timer does nothing when run again. *)
Theorem timer_fires_DeadlineExceeded fuel t tm s :
  wf s → timers s !! t = Some tm → tactive tm = true → twhen tm ≤ now s →
  (length (heap s) ≤ fuel)%nat →
  ∃ s', fireTimer fuel t s = Ret tt s'
        ∧ wf s' ∧ now s' = now s
        ∧ (∀ q, q = tnode tm ∨ descendant s (tnode tm) q →
                ∃ m, heap s' !! q = Some m
                     ∧ err m = Some DeadlineExceeded
                     ∧ cause m
                       = Some (default DeadlineExceeded (tcause tm))
                     ∧ ∃ d, done m = Some d ∧ is_closed s' d = true)
        ∧ ∀ fuel', fireTimer fuel' t s' = Ret tt s'.
Proof.
  intros W Ht Ha Hw Hf.
  destruct (wf_active _ W t tm Ht Ha) as (n & Hn & Htn).
  assert (He : err n = None).
  { destruct (err n) eqn:He; [|reflexivity].
    assert (Hst : ext n = stopped (ext n)).
    { apply (nr_stopped s (tnode tm)); [|congruence].
      apply (wf_ready _ W _ _ Hn). lia. }
    unfold timer_of in Htn. rewrite Hst in Htn.
    destruct (ext n); discriminate. }
  assert (Hk : kind_matches (cancelerTimer (tnode tm)) (ext n) = true).
  { simpl. unfold timer_of in Htn. destruct (ext n); try discriminate.
    reflexivity. }
  set (s1 := setTimers
               (<[t := mkTimer (tnode tm) (twhen tm) (tcause tm) false]>
                  (timers s)) s).
  assert (W1 : wf s1) by (apply wf_timer_off; assumption).
  destruct (canceler_cancel_cancels fuel (cancelerTimer (tnode tm)) true
              DeadlineExceeded (tcause tm) s1 n W1 Hn Hk He)
    as (s' & Hrun & Hle & Hnow & Hall); [simpl; lia|].
  assert (Hfire : fireTimer fuel t s = Ret tt s').
  { unfold fireTimer, bind, get. rewrite Ht, Ha.
    rewrite bool_decide_eq_true_2 by assumption. simpl.
    exact Hrun. }
  exists s'. split; [exact Hfire|]. split.
  { pose proof (fireTimer_wf fuel t s W Hf) as Hok.
    unfold okm in Hok. rewrite Hfire in Hok. exact Hok. }
  split; [exact Hnow|]. split.
  { intros q Hq. apply Hall. destruct Hq as [-> | Hd]; [now left|].
    right. apply (descendant_heap s); [reflexivity | exact Hd]. }
  intros fuel'.
  destruct (le_timers _ _ _ Hle t
              (mkTimer (tnode tm) (twhen tm) (tcause tm) false))
    as (tm' & Htm' & _ & Hoff).
  { simpl. apply (lookup_insert_same _ _ _ _ Ht). }
  apply (fireTimer_inactive fuel' t tm' s' Htm'). apply Hoff. reflexivity.
Qed.

Lemma timer_fires_DeadlineExceeded_witness :
  ∃ s', fireTimer 5 0 (runOps [(5%nat, opTick 200)] example_tree) = Ret tt s'
        ∧ wf s' ∧ now s' = now (runOps [(5%nat, opTick 200)] example_tree)
        ∧ (∀ q, q = 3%nat ∨ descendant (runOps [(5%nat, opTick 200)] example_tree) 3 q →
                ∃ m, heap s' !! q = Some m
                     ∧ err m = Some DeadlineExceeded
                     ∧ cause m
                       = Some (default DeadlineExceeded
                                 (tcause (mkTimer 3 100 None true)))
                     ∧ ∃ d, done m = Some d ∧ is_closed s' d = true)
        ∧ ∀ fuel', fireTimer fuel' 0 s' = Ret tt s'.
Proof.
  apply (timer_fires_DeadlineExceeded 5 0 (mkTimer 3 100 None true)
           (runOps [(5%nat, opTick 200)] example_tree)).
  - apply wfb_wf. vm_compute. reflexivity.
  - vm_compute. reflexivity.
  - reflexivity.
  - vm_compute. discriminate.
  - vm_compute. lia.
Defined.

(** ** A deadline that has not passed *)

(** To arm the timer does not move the clock. *)
Lemma arm_now {A} (r : A) c n d dur z s s' :
  heap s !! c = Some n → mu n = false → err n = None →
  ext n = timerExt None d →
  (Lock c;;;
   n <- getNode c;;
   match err n with
   | None =>
       t <- time_AfterFunc dur c z;;
       modNode c (λ n, match ext n with
                       | timerExt _ d' => set_ext (timerExt (Some t) d') n
                       | _ => n
                       end)
   | Some _ => ret tt
   end;;;
   Unlock c;;;
   ret r) s = Ret r s' →
  now s' = now s.
Proof.
  intros Hn Hmu He Hx.
  rewrite (bind_Ret _ _ _ _ _ (Lock_Ret c n s Hn Hmu)).
  match goal with |- context [bind _ _ ?s0] => set (s1 := s0) end.
  assert (Hn1 : heap s1 !! c = Some (set_mu true n))
    by (apply (lookup_insert_same _ _ _ _ Hn)).
  rewrite (bind_Ret _ _ _ _ _ (getNode_Ret _ _ _ Hn1)).
  change (err (set_mu true n)) with (err n). rewrite He.
  set (s2 := setTimers (timers s1 ++ [mkTimer c (now s1 + dur) z true]) s1).
  assert (HT : time_AfterFunc dur c z s1 = Ret (length (timers s1)) s2)
    by reflexivity.
  assert (Hn2 : heap s2 !! c = Some (set_mu true n)) by exact Hn1.
  assert (HM : (t <- time_AfterFunc dur c z;;
                modNode c (λ n, match ext n with
                                | timerExt _ d' =>
                                    set_ext (timerExt (Some t) d') n
                                | _ => n
                                end)) s1
               = Ret tt (setHeap
                           (<[c := set_ext (timerExt (Some (length (timers s1))) d)
                                     (set_mu true n)]> (heap s2)) s2)).
  { rewrite (bind_Ret _ _ _ _ _ HT).
    rewrite (modNode_Ret _ _ _ _ Hn2). simpl. now rewrite Hx. }
  rewrite (bind_Ret _ _ _ _ _ HM).
  match goal with |- context [bind _ _ ?s0] => set (s3 := s0) end.
  assert (Hn3 : heap s3 !! c
                = Some (set_ext (timerExt (Some (length (timers s1))) d)
                          (set_mu true n)))
    by (apply (lookup_insert_same _ _ _ _ Hn2)).
  rewrite (bind_Ret _ _ _ _ _ (Unlock_Ret c _ s3 Hn3 eq_refl)).
  intros H. injection H as <-. reflexivity.
Qed.

(** X9.  [WithDeadlineCause] for a deadline that has not passed and is not
    later than the deadline of a parent that is not done returns a node that
    is not canceled, and a timer for it that is due after [Until d now]; the
    result is a state between operations.  The timer does nothing while the
    clock has not moved; once at least that time has passed, the function
    of the timer cancels the node with [DeadlineExceeded] and the cause
    given, and closes its channel. *)
Theorem WithDeadlineCause_expires fuel parent d cause0 s cur s00 :
  wf s → parent_ok s (Some parent) →
  Deadline fuel parent s = Ret cur s00 → (∀ t, cur = Some t → d ≤ t) →
  (∀ d', doneOf s parent = Some d' → is_closed s d' = false) →
  0 < Until d (now s) → (1 ≤ fuel)%nat →
  ∃ s' n',
    WithDeadlineCause fuel (Some parent) d cause0 s
    = Ret (timerCtxP (length (heap s)),
           mkCancelFunc (cancelerTimer (length (heap s))) true) s'
    ∧ wf s'
    ∧ heap s' !! length (heap s) = Some n' ∧ err n' = None
    ∧ ext n' = timerExt (Some (length (timers s))) d
    ∧ timers s'
      = timers s ++ [mkTimer (length (heap s)) (now s + Until d (now s))
                       cause0 true]
    ∧ (∀ fuel', fireTimer fuel' (length (timers s)) s' = Ret tt s')
    ∧ ∀ dt, Until d (now s) ≤ dt →
        ∃ s'' m,
          (tick dt;;; fireTimer fuel (length (timers s))) s' = Ret tt s''
          ∧ heap s'' !! length (heap s) = Some m
          ∧ err m = Some DeadlineExceeded
          ∧ cause m = Some (default DeadlineExceeded cause0)
          ∧ ∃ dd, done m = Some dd ∧ is_closed s'' dd = true.
Proof.
  intros W Hp HDl Hcur Hopen Hfut Hfuel.
  pose proof Hp as [Hok Hns].
  pose proof (Deadline_pure _ _ _ _ _ HDl). subst s00.
  assert (Hb : match cur with Some cur => bool_decide (cur < d) | None => false end
               = false).
  { destruct cur as [t|]; [|reflexivity].
    apply bool_decide_eq_false. specialize (Hcur t eq_refl). lia. }
  set (c := length (heap s)).
  assert (HA : alloc (timerExt None d) s
               = Ret c (setHeap (heap s ++ [mkNode None false None None None
                                              None (timerExt None d)]) s))
    by reflexivity.
  destruct (propagateCancel_live fuel parent (cancelerTimer c) (timerExt None d)
              s W Hok eq_refl eq_refl eq_refl Hfuel Hopen)
    as (s1 & n1 & ctx1 & HP & Hs1 & Hr1 & Hn1 & Hl1 & He1 & Hx1 & Hctx1 & Hok1
        & Htm1 & Hnow1 & Hcl1).
  fold c in HP, Hr1, Hn1, Hl1.
  pose proof (Hr1 c n1 Hn1 (le_n _)) as [Hmu _ _ _ _].
  destruct (arm_Ret (timerCtxP c, mkCancelFunc (cancelerTimer c) true)
              c n1 d (Until d (now s1)) cause0 s1 Hn1 Hmu He1 Hx1)
    as (s' & Hrun & Hh & Ht & _).
  pose proof (arm_now _ c n1 d _ cause0 s1 s' Hn1 Hmu He1 Hx1 Hrun) as Hnow'.
  assert (HW : WithDeadlineCause fuel (Some parent) d cause0 s
               = Ret (timerCtxP c, mkCancelFunc (cancelerTimer c) true) s').
  { unfold WithDeadlineCause. rewrite (bind_Ret _ _ _ _ _ HDl), Hb.
    rewrite (bind_Ret _ _ _ _ _ HA), (bind_Ret _ _ _ _ _ HP), bind_get.
    rewrite bool_decide_eq_false_2 by (rewrite Hnow1; lia).
    exact Hrun. }
  assert (W' : wf s').
  { pose proof (WithDeadlineCause_wf fuel (Some parent) d cause0 s W Hp Hfuel)
      as Hk.
    unfold okm in Hk. rewrite HW in Hk. exact Hk. }
  rewrite Htm1, Hnow1 in Ht. rewrite Htm1 in Hh.
  assert (Hn' : heap s' !! c
                = Some (set_ext (timerExt (Some (length (timers s))) d) n1))
    by (rewrite Hh; apply (lookup_insert_same _ _ _ _ Hn1)).
  set (t := length (timers s)) in *.
  set (tm := mkTimer c (now s + Until d (now s)) cause0 true) in *.
  assert (Htl : timers s' !! t = Some tm).
  { rewrite Ht. subst t. now rewrite lookup_app_r, Nat.sub_diag by lia. }
  exists s', (set_ext (timerExt (Some t) d) n1).
  split; [exact HW|]. split; [exact W'|]. split; [exact Hn'|].
  split; [exact He1|]. split; [reflexivity|]. split; [exact Ht|]. split.
  { intros fuel'. unfold fireTimer, bind, get. rewrite Htl. simpl.
    rewrite bool_decide_eq_false_2; [reflexivity|]. rewrite Hnow', Hnow1. lia. }
  intros dt Hdt.
  set (sT := mkState (heap s') (closed s') (customs s') (timers s')
               (now s' + Z.max 0 dt) (goroutines s') (waiters s')
               (started s') (log s')).
  assert (HT : tick dt s' = Ret tt sT) by reflexivity.
  assert (WT : wf sT).
  { pose proof (tick_wf dt s' W') as Hk. unfold okm in Hk.
    rewrite HT in Hk. exact Hk. }
  set (sF := setTimers
               (<[t := mkTimer (tnode tm) (twhen tm) (tcause tm) false]>
                  (timers sT)) sT).
  assert (WF : wf sF) by (apply wf_timer_off; [exact WT | exact Htl]).
  destruct (canceler_cancel_cancels fuel (cancelerTimer c) true
              DeadlineExceeded cause0 sF (set_ext (timerExt (Some t) d) n1)
              WF Hn' eq_refl He1)
    as (s'' & Hrun'' & _ & _ & Hall).
  { simpl. rewrite Hh, length_insert, Hl1. lia. }
  destruct (Hall c (or_introl eq_refl)) as (m & Hm & Hem & Hzm & Hdm).
  exists s'', m. split; [|auto].
  rewrite (bind_Ret _ _ _ _ _ HT).
  unfold fireTimer, bind, get.
  change (timers sT) with (timers s'). rewrite Htl. simpl tactive.
  rewrite bool_decide_eq_true_2; [exact Hrun''|].
  simpl. rewrite Hnow', Hnow1. lia.
Qed.

Lemma WithDeadlineCause_expires_witness :
  ∃ s' n',
    WithDeadlineCause 5 (Some (cancelCtxP 1)) 50 (Some (errorString "late"))
      example_tree
    = Ret (timerCtxP (length (heap example_tree)),
           mkCancelFunc (cancelerTimer (length (heap example_tree))) true) s'
    ∧ wf s'
    ∧ heap s' !! length (heap example_tree) = Some n' ∧ err n' = None
    ∧ ext n' = timerExt (Some (length (timers example_tree))) 50
    ∧ timers s'
      = timers example_tree
        ++ [mkTimer (length (heap example_tree))
              (now example_tree + Until 50 (now example_tree))
              (Some (errorString "late")) true]
    ∧ (∀ fuel', fireTimer fuel' (length (timers example_tree)) s'
                = Ret tt s')
    ∧ ∀ dt, Until 50 (now example_tree) ≤ dt →
        ∃ s'' m,
          (tick dt;;; fireTimer 5 (length (timers example_tree))) s'
          = Ret tt s''
          ∧ heap s'' !! length (heap example_tree) = Some m
          ∧ err m = Some DeadlineExceeded
          ∧ cause m
            = Some (default DeadlineExceeded (Some (errorString "late")))
          ∧ ∃ dd, done m = Some dd ∧ is_closed s'' dd = true.
Proof.
  apply (WithDeadlineCause_expires 5 (cancelCtxP 1) 50
           (Some (errorString "late")) example_tree None example_tree).
  - apply wfb_wf. vm_compute. reflexivity.
  - vm_compute. split; [lia | reflexivity].
  - vm_compute. reflexivity.
  - intros t Ht. discriminate.
  - vm_compute. intros d' Hd'. injection Hd' as <-. reflexivity.
  - vm_compute. reflexivity.
  - lia.
Defined.

(** ** Cancellation that comes from a Context of the environment *)

Lemma errOf_env s s' c :
  heap s' = heap s → customs s' = customs s → errOf s' c = errOf s c.
Proof. intros Hh Hc. induction c; simpl; rewrite ?Hh, ?Hc; auto. Qed.

Lemma causeOf_env s s' c :
  heap s' = heap s → customs s' = customs s → causeOf s' c = causeOf s c.
Proof.
  intros Hh Hc. unfold causeOf.
  rewrite (keyOf_customs s s' c Hc), (errOf_env s s' c Hh Hc), Hh.
  reflexivity.
Qed.

Lemma descendant_mat s s' p q :
  mat s s' → descendant s p q → descendant s' p q.
Proof.
  intros Hm. induction 1 as [p n ch Hp Hin | p q r _ IH1 _ IH2].
  - destruct (mat_node _ _ Hm p n Hp) as [H | [_ H]];
      eapply descendant_child; eauto.
  - eapply descendant_trans; eauto.
Qed.

(** What a call of [cancel] that does not take the node out of its parent
    leaves as it was. *)
Lemma canceler_cancel_env fuel ch e cause0 s s' :
  wf s → kind_ok s ch → (length (heap s) - canceler_ptr ch ≤ fuel)%nat →
  canceler_cancel fuel ch false (Some e) cause0 s = Ret tt s' →
  waiters s' = waiters s ∧ customs s' = customs s
  ∧ goroutines s' = goroutines s.
Proof.
  intros W (n & Hn & Hk) Hf Hrun.
  destruct (wf_context _ W _ n Hn) as (ctx & Hctx & Hok).
  assert (Hr : ready s (canceler_ptr ch))
    by (eapply ready_weaken; [|apply W]; lia).
  destruct (canceler_cancel_returns fuel ch false e cause0 s n ctx
              (wf_sane _ W) Hr Hn Hk Hctx Hok Hf)
    as (s1 & s2 & s0 & Hrun0 & HC & _ & _ & H2 & Hfin & _).
  rewrite Hrun in Hrun0. injection Hrun0 as <-.
  rewrite (H2 eq_refl) in Hfin.
  rewrite (fin_waiters _ _ _ Hfin), (fin_customs _ _ _ Hfin),
    (fin_goroutines _ _ _ Hfin).
  rewrite (casc_waiters _ _ _ _ _ _ HC), (casc_customs _ _ _ _ _ _ HC),
    (casc_goroutines _ _ _ _ _ _ HC).
  auto.
Qed.

(** A child that waits for its parent, once the parent has an error: the
    call [child.cancel(false, parent.Err(), Cause(parent))] cancels the
    child and the nodes registered below it with the error and the cause of
    the parent. *)
Lemma cancel_for_parent_cancels fuel parent child s n e :
  wf s → pending s parent child →
  heap s !! canceler_ptr child = Some n → err n = None →
  errOf s parent = Some e → (length (heap s) ≤ fuel)%nat →
  ∃ s', (e <- Err parent;;
         cz <- Cause fuel parent;;
         canceler_cancel fuel child false e cz) s = Ret tt s'
        ∧ wf s'
        ∧ waiters s' = waiters s ∧ customs s' = customs s
        ∧ ∀ q, q = canceler_ptr child ∨ descendant s (canceler_ptr child) q →
               ∃ m, heap s' !! q = Some m ∧ err m = Some e
                    ∧ cause m = Some (default e (causeOf s parent))
                    ∧ ∃ d, done m = Some d ∧ is_closed s' d = true.
Proof.
  intros W Hp Hn He Hpe Hf. pose proof Hp as (Hok & (n0 & Hn0 & Hk) & _).
  rewrite Hn in Hn0. injection Hn0 as <-.
  destruct (Err_Ret s parent (wf_sane _ W) Hok) as (s1 & Hrun1 & Hm1).
  pose proof (mat_wf _ _ W (eqlog_mat _ _ Hm1)) as W1.
  pose proof (pending_mat _ _ _ _ (eqlog_mat _ _ Hm1) Hp) as Hp1.
  destruct (Cause_Ret fuel s1 parent (wf_sane _ W1) (proj1 Hp1))
    as (s2 & Hrun2 & Hm2).
  pose proof (mat_wf _ _ W1 (eqlog_mat _ _ Hm2)) as W2.
  pose proof (pending_mat _ _ _ _ (eqlog_mat _ _ Hm2) Hp1) as (_ & Hk2 & _).
  assert (Hh2 : heap s2 = heap s)
    by (rewrite (eqlog_heap _ _ Hm2), (eqlog_heap _ _ Hm1); reflexivity).
  assert (Hn2 : heap s2 !! canceler_ptr child = Some n)
    by (rewrite Hh2; exact Hn).
  destruct (canceler_cancel_cancels fuel child false e (causeOf s1 parent)
              s2 n W2 Hn2 Hk He) as (s' & Hrun & _ & _ & Hall).
  { rewrite Hh2. lia. }
  assert (Hfull : (e <- Err parent;;
                   cz <- Cause fuel parent;;
                   canceler_cancel fuel child false e cz) s = Ret tt s').
  { rewrite (bind_Ret _ _ _ _ _ Hrun1), (bind_Ret _ _ _ _ _ Hrun2), Hpe.
    exact Hrun. }
  exists s'. split; [exact Hfull|]. split.
  { pose proof (cancel_for_parent_wf fuel parent child s W Hp Hf) as Hq.
    unfold okm in Hq. rewrite Hfull in Hq. exact Hq. }
  destruct (canceler_cancel_env fuel child e (causeOf s1 parent) s2 s' W2 Hk2)
    as (Hw & Hcu & _); [rewrite Hh2; lia | exact Hrun |].
  destruct Hm1 as [l1 ->]. destruct Hm2 as [l2 ->]. 
  split; [rewrite Hw; reflexivity|]. split; [rewrite Hcu; reflexivity|].
  intros q Hq.
  rewrite <- (eqlog_causeOf s (setLog (log s ++ l1) s) parent)
    by (exists l1; reflexivity).
  apply Hall. destruct Hq as [-> | Hd]; [now left|]. right.
  apply (descendant_heap s); [reflexivity | exact Hd].
Qed.

(** X10.  The goroutine that waits for a parent of the environment and for
    the child, scheduled when the done-signal of the parent is closed and
    the child is not canceled: whichever channel [select] would prefer, it
    cancels the child and the nodes registered below it with the error of
    the parent and its cause (the error when it has no cause), and it
    ends. *)
Theorem waiter_cancels_child fuel i pickParent parent child s n e :
  wf s → waiters s !! i = Some (parent, child) →
  chan_ready s (doneOf s parent) = true → errOf s parent = Some e →
  heap s !! canceler_ptr child = Some n → err n = None →
  (length (heap s) ≤ fuel)%nat →
  ∃ s', waiterStep fuel i pickParent s = Ret tt s'
        ∧ wf s'
        ∧ waiters s' = delete i (waiters s)
        ∧ ∀ q, q = canceler_ptr child ∨ descendant s (canceler_ptr child) q →
               ∃ m, heap s' !! q = Some m ∧ err m = Some e
                    ∧ cause m = Some (default e (causeOf s parent))
                    ∧ ∃ d, done m = Some d ∧ is_closed s' d = true.
Proof.
  intros W Hi Hrdy Hpe Hn He Hf.
  pose proof (wf_waiters _ W i parent child Hi) as Hp.
  destruct (Done_Ret s parent (wf_sane _ W) (proj1 Hp)) as (s1 & Hrun1 & Hm1).
  pose proof (mat_wf _ _ W Hm1) as W1.
  set (c := canceler_ptr child) in *.
  assert (H1 : ∃ n1, heap s1 !! c = Some n1 ∧ err n1 = None).
  { destruct (mat_node _ _ Hm1 c n Hn) as [H | [_ H]]; eauto. }
  destruct H1 as (n1 & Hn1 & He1).
  destruct (cancelCtx_Done_Ret _ n1 s1 Hn1
              (nr_mu _ _ _ (wf_ready _ W1 _ n1 Hn1 (Nat.le_0_l _))))
    as (s2 & Hrun2 & Hm2 & Hn2).
  pose proof (mat_wf _ _ W1 Hm2) as W2.
  assert (Hm : mat s s2) by (eapply mat_trans; eauto).
  set (n2 := set_done (Some (default (chanOf c) (done n1))) n1) in *.
  assert (Hcd : chan_ready s2 (Some (default (chanOf c) (done n1))) = false).
  { destruct (nr_live _ _ _ (wf_ready _ W2 _ n2 Hn2 (Nat.le_0_l _)) He1)
      as [Hnc [Hd | Hd]]; [discriminate|].
    simpl in Hd. injection Hd as ->. simpl.
    now apply bool_decide_eq_false. }
  assert (Hpd : chan_ready s2 (doneOf s parent) = true).
  { unfold chan_ready, is_closed in *. now rewrite (mat_closed _ _ Hm). }
  set (s3 := setWaiters (delete i (waiters s2)) s2).
  assert (W3 : wf s3) by (apply wf_delete_waiter, W2).
  assert (Hp3 : pending s3 parent child)
    by (apply pending_setWaiters, (pending_mat _ _ _ _ Hm Hp)).
  destruct (cancel_for_parent_cancels fuel parent child s3 n2 e W3 Hp3 Hn2 He1)
    as (s' & Hrun & W' & Hw & _ & Hall).
  { rewrite (errOf_env s2 s3) by reflexivity.
    now rewrite (mat_errOf _ _ _ Hm). }
  { simpl. rewrite (mat_len _ _ Hm). exact Hf. }
  exists s'. split.
  { unfold waiterStep. rewrite bind_get, Hi.
    rewrite (bind_Ret _ _ _ _ _ Hrun1).
    unfold canceler_Done. fold c. rewrite (bind_Ret _ _ _ _ _ Hrun2).
    rewrite bind_get, Hpd, Hcd, orb_true_r. simpl andb. cbv iota.
    exact Hrun. }
  split; [exact W'|]. split.
  { rewrite Hw. simpl. now rewrite (mat_waiters _ _ Hm). }
  intros q Hq.
  rewrite <- (mat_causeOf s s2 parent Hm).
  rewrite <- (causeOf_env s2 s3 parent eq_refl eq_refl).
  apply Hall. destruct Hq as [-> | Hd]; [now left|]. right.
  apply (descendant_heap s2); [reflexivity|].
  apply (descendant_mat s); assumption.
Qed.

Lemma waiter_cancels_child_witness :
  ∃ s', waiterStep 5 0 false example_env = Ret tt s'
        ∧ wf s'
        ∧ waiters s' = delete 0%nat (waiters example_env)
        ∧ ∀ q, q = canceler_ptr (cancelerCancel 0)
               ∨ descendant example_env (canceler_ptr (cancelerCancel 0)) q →
               ∃ m, heap s' !! q = Some m
                    ∧ err m = Some (errorString "gone")
                    ∧ cause m
                      = Some (default (errorString "gone")
                                (causeOf example_env (customCtx 0)))
                    ∧ ∃ d, done m = Some d ∧ is_closed s' d = true.
Proof.
  apply (waiter_cancels_child 5 0 false (customCtx 0) (cancelerCancel 0)
           example_env
           (mkNode (Some (customCtx 0)) false (Some (chanOf 0))
              (Some [cancelerCancel 2]) None None plainExt)
           (errorString "gone")).
  - apply wfb_wf. vm_compute. reflexivity.
  - vm_compute. reflexivity.
  - vm_compute. reflexivity.
  - vm_compute. reflexivity.
  - vm_compute. reflexivity.
  - reflexivity.
  - vm_compute. lia.
Defined.

(** X11.  The same goroutine, scheduled while the done-signal of the parent
    is not closed, or when the child is canceled and [select] takes its
    channel: it cancels nothing and closes nothing.  It ends when the child
    is canceled, and goes on waiting when it is not. *)
Theorem waiter_waits_or_ends fuel i pickParent parent child s n :
  wf s → waiters s !! i = Some (parent, child) →
  heap s !! canceler_ptr child = Some n →
  chan_ready s (doneOf s parent) = false
  ∨ (err n ≠ None ∧ pickParent = false) →
  ∃ s', waiterStep fuel i pickParent s = Ret tt s'
        ∧ wf s'
        ∧ waiters s' = match err n with
                       | Some _ => delete i (waiters s)
                       | None => waiters s
                       end
        ∧ closed s' = closed s
        ∧ ∀ q m, heap s !! q = Some m →
                 ∃ m', heap s' !! q = Some m' ∧ err m' = err m
                       ∧ cause m' = cause m ∧ children m' = children m.
Proof.
  intros W Hi Hn Hcase.
  pose proof (wf_waiters _ W i parent child Hi) as Hp.
  destruct (Done_Ret s parent (wf_sane _ W) (proj1 Hp)) as (s1 & Hrun1 & Hm1).
  pose proof (mat_wf _ _ W Hm1) as W1.
  set (c := canceler_ptr child) in *.
  assert (H1 : ∃ n1, heap s1 !! c = Some n1 ∧ err n1 = err n
                     ∧ (err n ≠ None → done n1 = done n)).
  { destruct (mat_node _ _ Hm1 c n Hn) as [H | [Hd0 H]]; eexists;
      (split; [exact H|]); split; auto.
    intros Hne. destruct (wf_canceled _ W c n Hn Hne) as (_ & _ & d & Hd & _).
    simpl. congruence. }
  destruct H1 as (n1 & Hn1 & He1 & Hd1).
  destruct (cancelCtx_Done_Ret _ n1 s1 Hn1
              (nr_mu _ _ _ (wf_ready _ W1 _ n1 Hn1 (Nat.le_0_l _))))
    as (s2 & Hrun2 & Hm2 & Hn2).
  pose proof (mat_wf _ _ W1 Hm2) as W2.
  assert (Hm : mat s s2) by (eapply mat_trans; eauto).
  set (n2 := set_done (Some (default (chanOf c) (done n1))) n1) in *.
  assert (Hcd : chan_ready s2 (Some (default (chanOf c) (done n1)))
                = match err n with Some _ => true | None => false end).
  { destruct (err n) as [e0|] eqn:He.
    - destruct (wf_canceled _ W c n Hn) as (_ & _ & d & Hd & Hcl);
        [congruence|].
      rewrite Hd1, Hd by congruence. simpl.
      unfold is_closed in *. now rewrite (mat_closed _ _ Hm).
    - destruct (nr_live _ _ _ (wf_ready _ W2 _ n2 Hn2 (Nat.le_0_l _)) He1)
        as [Hnc [Hd | Hd]]; [discriminate|].
      simpl in Hd. injection Hd as ->. simpl.
      now apply bool_decide_eq_false. }
  assert (Hpd : chan_ready s2 (doneOf s parent)
                = chan_ready s (doneOf s parent)).
  { unfold chan_ready, is_closed. now rewrite (mat_closed _ _ Hm). }
  assert (Hcond : chan_ready s2 (doneOf s parent)
                  && (pickParent
                      || negb (chan_ready s2
                                 (Some (default (chanOf c) (done n1)))))
                  = false).
  { rewrite Hpd, Hcd. destruct Hcase as [-> | [Hne ->]]; [reflexivity|].
    destruct (err n); [|congruence]. apply andb_false_r. }
  assert (Hnodes : ∀ q m, heap s !! q = Some m →
            ∃ m', heap s2 !! q = Some m' ∧ err m' = err m
                  ∧ cause m' = cause m ∧ children m' = children m).
  { intros q m Hq. destruct (mat_node _ _ Hm q m Hq) as [H | [_ H]];
      eexists; (split; [exact H|]); auto. }
  assert (Hstep : waiterStep fuel i pickParent s
                  = if chan_ready s2 (Some (default (chanOf c) (done n1)))
                    then Ret tt (setWaiters (delete i (waiters s2)) s2)
                    else Ret tt s2).
  { unfold waiterStep. rewrite bind_get, Hi.
    rewrite (bind_Ret _ _ _ _ _ Hrun1).
    unfold canceler_Done. fold c. rewrite (bind_Ret _ _ _ _ _ Hrun2).
    rewrite bind_get, Hcond.
    destruct (chan_ready s2 _); reflexivity. }
  rewrite Hcd in Hstep. rewrite Hstep.
  destruct (err n) as [e0|].
  - eexists. split; [reflexivity|]. split; [apply wf_delete_waiter, W2|].
    simpl. split; [now rewrite (mat_waiters _ _ Hm)|].
    split; [apply (mat_closed _ _ Hm) | exact Hnodes].
  - exists s2. split; [reflexivity|]. split; [exact W2|].
    split; [apply (mat_waiters _ _ Hm)|].
    split; [apply (mat_closed _ _ Hm) | exact Hnodes].
Qed.

Lemma waiter_waits_or_ends_witness :
  ∃ s', waiterStep 5 0 true example_env_open = Ret tt s'
        ∧ wf s'
        ∧ waiters s'
          = match err (mkNode (Some (customCtx 0)) false (Some (chanOf 0))
                         (Some [cancelerCancel 2]) None None plainExt) with
            | Some _ => delete 0%nat (waiters example_env_open)
            | None => waiters example_env_open
            end
        ∧ closed s' = closed example_env_open
        ∧ ∀ q m, heap example_env_open !! q = Some m →
                 ∃ m', heap s' !! q = Some m' ∧ err m' = err m
                       ∧ cause m' = cause m ∧ children m' = children m.
Proof.
  apply (waiter_waits_or_ends 5 0 true (customCtx 0) (cancelerCancel 0)
           example_env_open
           (mkNode (Some (customCtx 0)) false (Some (chanOf 0))
              (Some [cancelerCancel 2]) None None plainExt)).
  - apply wfb_wf. vm_compute. reflexivity.
  - vm_compute. reflexivity.
  - vm_compute. reflexivity.
  - left. vm_compute. reflexivity.
Defined.

(** ** A function registered with a Context of the environment *)

Lemma touch_errOf s s' c : touch s s' → errOf s' c = errOf s c.
Proof.
  intros Ht. induction c; simpl; auto.
  - destruct (heap s !! p) as [n|] eqn:Hq.
    + destruct (touch_node _ _ Ht p n Hq) as (n' & -> & _ & _ & -> & _).
      reflexivity.
    + apply lookup_ge_None in Hq. rewrite <- (touch_len _ _ Ht) in Hq.
      apply lookup_ge_None in Hq. now rewrite Hq.
  - destruct (heap s !! p) as [n|] eqn:Hq.
    + destruct (touch_node _ _ Ht p n Hq) as (n' & -> & _ & _ & -> & _).
      reflexivity.
    + apply lookup_ge_None in Hq. rewrite <- (touch_len _ _ Ht) in Hq.
      apply lookup_ge_None in Hq. now rewrite Hq.
  - destruct (customs s !! u) as [cu|] eqn:Hu.
    + destruct (touch_customs _ _ Ht u cu Hu) as (cu' & -> & _ & _ & -> & _).
      reflexivity.
    + apply lookup_ge_None in Hu. rewrite <- (touch_customs_len _ _ Ht) in Hu.
      apply lookup_ge_None in Hu. now rewrite Hu.
Qed.

Lemma touch_keyOf s s' c : touch s s' → keyOf s' c = keyOf s c.
Proof.
  intros Ht. induction c; simpl; auto.
  destruct (customs s !! u) as [cu|] eqn:Hu.
  - destruct (touch_customs _ _ Ht u cu Hu) as (cu' & -> & -> & _).
    reflexivity.
  - apply lookup_ge_None in Hu. rewrite <- (touch_customs_len _ _ Ht) in Hu.
    apply lookup_ge_None in Hu. now rewrite Hu.
Qed.

Lemma touch_causeOf s s' c : touch s s' → causeOf s' c = causeOf s c.
Proof.
  intros Ht. unfold causeOf.
  rewrite (touch_keyOf _ _ _ Ht), (touch_errOf _ _ _ Ht).
  destruct (keyOf s c); auto.
  destruct (heap s !! p) as [n|] eqn:Hq.
  - destruct (touch_node _ _ Ht p n Hq) as (n' & -> & _ & _ & _ & -> & _).
    reflexivity.
  - apply lookup_ge_None in Hq. rewrite <- (touch_len _ _ Ht) in Hq.
    apply lookup_ge_None in Hq. now rewrite Hq.
Qed.

(** Once [stop] has been called, the function is not registered. *)
Lemma callStop_stops stop s b s' cu' :
  callStop stop s = Ret b s' → customs s' !! stopOwner stop = Some cu' →
  uRegs cu' !! stopReg stop = Some None ∨ uRegs cu' !! stopReg stop = None.
Proof.
  unfold callStop, bind, getCustom.
  destruct (customs s !! stopOwner stop) as [cu|] eqn:Hu; [|discriminate].
  destruct (uRegs cu !! stopReg stop) as [[x|]|] eqn:Hr.
  - intros H. injection H as _ <-. simpl.
    rewrite (lookup_insert_same _ _ _ _ Hu). intros H. injection H as <-.
    simpl. left. apply (lookup_insert_same _ _ _ _ Hr).
  - intros H. injection H as _ <-. rewrite Hu. intros H. injection H as <-.
    now left.
  - intros H. injection H as _ <-. rewrite Hu. intros H. injection H as <-.
    now right.
Qed.

Lemma callStop_heap stop s b s' :
  callStop stop s = Ret b s' → heap s' = heap s.
Proof.
  unfold callStop, bind, getCustom.
  destruct (customs s !! stopOwner stop) as [cu|]; [|discriminate].
  destruct (uRegs cu !! stopReg stop) as [[x|]|];
    intros H; injection H as _ <-; reflexivity.
Qed.

Lemma runCallback_stopped fuel u r cu s :
  customs s !! u = Some cu →
  uRegs cu !! r = Some None ∨ uRegs cu !! r = None →
  runCallback fuel u r s = Ret tt s.
Proof.
  intros Hu Hr. unfold runCallback.
  rewrite (bind_Ret _ _ _ _ _ (getCustom_Ret _ _ _ Hu)).
  destruct Hr as [-> | ->]; reflexivity.
Qed.

(** X12.  When a Context of the environment that has an error runs the
    function [propagateCancel] registered with its [AfterFunc] method, and
    the child is not canceled, the child and the nodes registered below it
    are canceled with the error of the parent and its cause (the error when
    it has no cause).  The function is then no longer registered: run
    again, it does nothing. *)
Theorem callback_cancels_child fuel u r cu parent child s n e :
  wf s → customs s !! u = Some cu →
  uRegs cu !! r = Some (Some (child, parent)) →
  errOf s parent = Some e →
  heap s !! canceler_ptr child = Some n → err n = None →
  (length (heap s) ≤ fuel)%nat →
  ∃ s', runCallback fuel u r s = Ret tt s'
        ∧ wf s'
        ∧ (∀ q, q = canceler_ptr child
                ∨ descendant s (canceler_ptr child) q →
                ∃ m, heap s' !! q = Some m ∧ err m = Some e
                     ∧ cause m = Some (default e (causeOf s parent))
                     ∧ ∃ d, done m = Some d ∧ is_closed s' d = true)
        ∧ ∀ fuel', runCallback fuel' u r s' = Ret tt s'.
Proof.
  intros W Hu Hr Hpe Hn He Hf.
  pose proof (wf_regs _ W u cu r parent child Hu Hr) as Hp.
  destruct (callStop_Ret {| stopOwner := u; stopReg := r |} s)
    as (b & s1 & Hrun1 & Ht); [simpl; eapply lookup_lt_Some; eauto|].
  pose proof (touch_wf _ _ W Ht) as W1.
  pose proof (pending_touch _ _ _ _ Ht Hp) as Hp1.
  destruct (touch_node _ _ Ht _ n Hn) as (n1 & Hn1 & _ & _ & He1 & _).
  destruct (cancel_for_parent_cancels fuel parent child s1 n1 e W1 Hp1 Hn1)
    as (s' & Hrun & W' & _ & Hcu & Hall).
  { congruence. }
  { now rewrite (touch_errOf _ _ _ Ht). }
  { now rewrite (touch_len _ _ Ht). }
  exists s'. split.
  { unfold runCallback.
    rewrite (bind_Ret _ _ _ _ _ (getCustom_Ret _ _ _ Hu)), Hr.
    rewrite (bind_Ret _ _ _ _ _ Hrun1). exact Hrun. }
  split; [exact W'|]. split.
  { intros q Hq. rewrite <- (touch_causeOf _ _ parent Ht).
    apply Hall. destruct Hq as [-> | Hd]; [now left|]. right.
    apply (descendant_heap s); [|exact Hd].
    apply (callStop_heap _ _ _ _ Hrun1). }
  intros fuel'.
  destruct (touch_customs _ _ Ht u cu Hu) as (cu1 & Hu1 & _).
  apply (runCallback_stopped fuel' u r cu1); [now rewrite Hcu|].
  apply (callStop_stops {| stopOwner := u; stopReg := r |} s b s1 cu1 Hrun1 Hu1).
Qed.

Lemma callback_cancels_child_witness :
  ∃ s', runCallback 5 1 0 example_env = Ret tt s'
        ∧ wf s'
        ∧ (∀ q, q = canceler_ptr (cancelerCancel 1)
                ∨ descendant example_env (canceler_ptr (cancelerCancel 1)) q →
                ∃ m, heap s' !! q = Some m
                     ∧ err m = Some (errorString "gone")
                     ∧ cause m
                       = Some (default (errorString "gone")
                                 (causeOf example_env (customCtx 1)))
                     ∧ ∃ d, done m = Some d ∧ is_closed s' d = true)
        ∧ ∀ fuel', runCallback fuel' 1 0 s' = Ret tt s'.
Proof.
  apply (callback_cancels_child 5 1 0
           (mkCustom None (Some (extchan 1)) (Some (errorString "gone"))
              (λ _, anil) true [Some (cancelerCancel 1, customCtx 1)])
           (customCtx 1) (cancelerCancel 1) example_env
           (mkNode (Some (stopCtx (customCtx 1)
                            {| stopOwner := 1; stopReg := 0 |}))
              false (Some (chanOf 1)) (Some [cancelerCancel 3]) None None
              plainExt)
           (errorString "gone")).
  - apply wfb_wf. vm_compute. reflexivity.
  - vm_compute. reflexivity.
  - reflexivity.
  - vm_compute. reflexivity.
  - vm_compute. reflexivity.
  - reflexivity.
  - vm_compute. lia.
Defined.

(** X13.  The [cancel] of a node that [propagateCancel] registered with the
    [AfterFunc] method of a Context of the environment, called to take the
    node out of its parent, calls the [stop] function kept with the node:
    the node is canceled with the error given, and the function registered
    for it does nothing when the Context of the environment runs it
    later. *)
Theorem cancel_stops_registration fuel ch e cause0 s n parent stop :
  wf s → heap s !! canceler_ptr ch = Some n →
  kind_matches ch (ext n) = true → err n = None →
  Context_ n = Some (stopCtx parent stop) →
  (length (heap s) - canceler_ptr ch ≤ fuel)%nat →
  ∃ s' m,
    canceler_cancel fuel ch true (Some e) cause0 s = Ret tt s'
    ∧ heap s' !! canceler_ptr ch = Some m ∧ err m = Some e
    ∧ cause m = Some (default e cause0)
    ∧ ∀ fuel', runCallback fuel' (stopOwner stop) (stopReg stop) s'
               = Ret tt s'.
Proof.
  intros W Hn Hk He Hctx Hf.
  destruct (canceler_cancel_cancels fuel ch true e cause0 s n W Hn Hk He Hf)
    as (s' & Hrun & _ & _ & Hall).
  destruct (Hall _ (or_introl eq_refl)) as (m & Hm & Hem & Hzm & _).
  exists s', m. split; [exact Hrun|]. split; [exact Hm|].
  split; [exact Hem|]. split; [exact Hzm|].
  destruct (wf_context _ W _ n Hn) as (ctx & Hctx' & Hok).
  rewrite Hctx in Hctx'. injection Hctx' as <-.
  assert (Hr : ready s (canceler_ptr ch))
    by (eapply ready_weaken; [|apply W]; lia).
  destruct (canceler_cancel_returns fuel ch true e cause0 s n _
              (wf_sane _ W) Hr Hn Hk Hctx Hok Hf)
    as (s1 & s2 & s0 & Hrun0 & HC & _ & Ht & _ & Hfin & _ & _ & Hrm).
  rewrite Hrun in Hrun0. injection Hrun0 as <-.
  destruct (Hrm eq_refl) as [[b Hstop] | [Hne _]]; [|congruence].
  destruct Hok as [_ Hlt]. 
  rewrite <- (casc_customs _ _ _ _ _ _ HC) in Hlt.
  rewrite <- (touch_customs_len _ _ Ht) in Hlt.
  destruct (lookup_lt_is_Some_2 _ _ Hlt) as [cu2 Hcu2].
  intros fuel'.
  apply (runCallback_stopped fuel' _ _ cu2).
  - rewrite (fin_customs _ _ _ Hfin). exact Hcu2.
  - apply (callStop_stops stop s1 b s2 cu2 Hstop Hcu2).
Qed.

Lemma cancel_stops_registration_witness :
  ∃ s' m,
    canceler_cancel 5 (cancelerCancel 1) true (Some Canceled) None
      example_env_open = Ret tt s'
    ∧ heap s' !! canceler_ptr (cancelerCancel 1) = Some m
    ∧ err m = Some Canceled
    ∧ cause m = Some (default Canceled None)
    ∧ ∀ fuel', runCallback fuel'
                 (stopOwner {| stopOwner := 1; stopReg := 0 |})
                 (stopReg {| stopOwner := 1; stopReg := 0 |}) s'
               = Ret tt s'.
Proof.
  apply (cancel_stops_registration 5 (cancelerCancel 1) Canceled None
           example_env_open
           (mkNode (Some (stopCtx (customCtx 1)
                            {| stopOwner := 1; stopReg := 0 |}))
              false (Some (chanOf 1)) (Some [cancelerCancel 3]) None None
              plainExt)
           (customCtx 1) {| stopOwner := 1; stopReg := 0 |}).
  - apply wfb_wf. vm_compute. reflexivity.
  - vm_compute. reflexivity.
  - reflexivity.
  - reflexivity.
  - reflexivity.
  - vm_compute. lia.
Defined.

(** ** [Cause] and [Err] agree *)

Lemma own_done_cause s c :
  wf s → ctx_ok s c → own_done c = true →
  (causeOf s c ≠ None ↔ errOf s c ≠ None).
Proof.
  intros W. induction c; simpl; intros Hok Hown; try discriminate;
    try reflexivity.
  - change (causeOf s (valueCtx c key val)) with (causeOf s c).
    apply IHc; tauto.
  - unfold causeOf. simpl.
    destruct (lookup_lt_is_Some_2 _ _ Hok) as [n Hn]. rewrite Hn.
    destruct (err n) as [e|] eqn:He.
    + destruct (wf_canceled _ W p n Hn) as (_ & Hz & _); [congruence|].
      split; [discriminate | auto].
    + rewrite (wf_live _ W p n Hn He). reflexivity.
  - unfold causeOf. simpl.
    destruct (lookup_lt_is_Some_2 _ _ Hok) as [n Hn]. rewrite Hn.
    destruct (err n) as [e|] eqn:He.
    + destruct (wf_canceled _ W p n Hn) as (_ & Hz & _); [congruence|].
      split; [discriminate | auto].
    + rewrite (wf_live _ W p n Hn He). reflexivity.
Qed.

(** X14.  In every state a run of operations leads to from the empty state,
    for a Context whose done-signal is the package's own, [Cause] and [Err]
    return, and [Cause] returns a non-nil error exactly when [Err] does. *)
Theorem Cause_iff_Err ops fuel c :
  ops_ok ops emptyState → ctx_ok (runOps ops emptyState) c →
  own_done c = true →
  ∃ z e s1 s2,
    Cause fuel c (runOps ops emptyState) = Ret z s1
    ∧ Err c (runOps ops emptyState) = Ret e s2
    ∧ (z ≠ None ↔ e ≠ None).
Proof.
  intros Hops Hok Hown.
  pose proof (runOps_wf ops emptyState wf_emptyState Hops) as W.
  destruct (Cause_Ret fuel _ c (wf_sane _ W) Hok) as (s1 & HC & _).
  destruct (Err_Ret _ c (wf_sane _ W) Hok) as (s2 & HE & _).
  exists (causeOf (runOps ops emptyState) c),
    (errOf (runOps ops emptyState) c), s1, s2.
  split; [exact HC|]. split; [exact HE|]. now apply own_done_cause.
Qed.

Lemma Cause_iff_Err_witness :
  ∃ z e s1 s2,
    Cause 2 (valueCtx (timerCtxP 1) (aint 1) (aint 2))
      (runOps example_run emptyState) = Ret z s1
    ∧ Err (valueCtx (timerCtxP 1) (aint 1) (aint 2))
        (runOps example_run emptyState) = Ret e s2
    ∧ (z ≠ None ↔ e ≠ None).
Proof.
  apply (Cause_iff_Err example_run 2
           (valueCtx (timerCtxP 1) (aint 1) (aint 2))).
  - apply example_run_ok.
  - vm_compute. split; [discriminate | lia].
  - reflexivity.
Defined.

(** ** Values and deadlines pass through a derived Context *)

Lemma any_eq_sym a b s : any_eq a b s = any_eq b a s.
Proof.
  unfold any_eq.
  destruct (TypeOf a) as [ta|], (TypeOf b) as [tb|]; try reflexivity.
  destruct (decide (ta = tb)) as [->|Hne].
  - rewrite !bool_decide_eq_true_2 by reflexivity.
    destruct (Comparable tb); [|reflexivity]. unfold ret. do 2 f_equal.
    apply bool_decide_ext. split; congruence.
  - rewrite !bool_decide_eq_false_2 by congruence. reflexivity.
Qed.

Lemma any_eq_state a b s r s0 s' :
  any_eq a b s = Ret r s0 → s0 = s ∧ any_eq a b s' = Ret r s'.
Proof.
  unfold any_eq, ret, panic.
  destruct (TypeOf a) as [ta|], (TypeOf b) as [tb|];
    try (intros H; injection H as <- <-; auto).
  destruct (bool_decide (ta = tb)); [|intros H; injection H as <- <-; auto].
  destruct (Comparable ta); [|discriminate].
  intros H; injection H as <- <-; auto.
Qed.

(** The loop and the methods look a key up alike. *)
Lemma value_with_Value_with h c key s :
  value_with h c key s = Value_with h c key s.
Proof.
  destruct c; simpl; try reflexivity.
  unfold bind. rewrite (any_eq_sym key key0). reflexivity.
Qed.

Lemma Value_with_chain h h' s s' :
  same_chain s s' →
  (∀ p key v, h p key s = Ret v s → h' p key s' = Ret v s') →
  ∀ c key v, Value_with h c key s = Ret v s →
             Value_with h' c key s' = Ret v s'.
Proof.
  intros Hc Hh.
  assert (Hboth : ∀ c key v,
    (value_with h c key s = Ret v s → value_with h' c key s' = Ret v s')
    ∧ (Value_with h c key s = Ret v s → Value_with h' c key s' = Ret v s')).
  { induction c; intros key0 v; simpl; split; auto;
      try (unfold bind;
           match goal with
           | |- context [any_eq ?a ?b s] =>
               destruct (any_eq a b s) as [r s0| | |] eqn:E; try discriminate;
               destruct (any_eq_state a b s r s0 s' E) as [-> ->];
               destruct r; auto; try apply IHc; try apply Hh
           end);
      try apply IHc;
      try (unfold bind, getCustom;
           destruct (customs s !! u) as [cu|] eqn:Hu; [|discriminate];
           destruct (sc_custom _ _ Hc u cu Hu) as (cu' & -> & -> & _);
           intros H; injection H as <-; reflexivity);
      try (intros H; injection H as <-; reflexivity). }
  intros c key v. apply Hboth.
Qed.

Lemma embedded_chain p s s' ctx s0 :
  same_chain s s' → embedded p s = Ret ctx s0 →
  s0 = s ∧ embedded p s' = Ret ctx s'.
Proof.
  intros Hc. unfold embedded, bind, getNode.
  destruct (heap s !! p) as [n|] eqn:Hn; [|discriminate].
  destruct (sc_node _ _ Hc p n Hn) as (n' & -> & -> & _).
  destruct (Context_ n); [|discriminate].
  intros H; injection H as <- <-. auto.
Qed.

Lemma value_chain fuel : ∀ c key v s s',
  same_chain s s' → value fuel c key s = Ret v s →
  value fuel c key s' = Ret v s'.
Proof.
  induction fuel as [|fuel IH]; intros c key v s s' Hc;
    rewrite !value_unfold, !value_with_Value_with;
    apply Value_with_chain; try assumption; intros p k w; simpl;
    [discriminate|].
  unfold bind. destruct (embedded p s) as [ctx s0| | |] eqn:E; try discriminate.
  destruct (embedded_chain p s s' ctx s0 Hc E) as [-> ->].
  apply IH, Hc.
Qed.

Lemma Value_chain fuel c key v s s' :
  same_chain s s' → Value fuel c key s = Ret v s →
  Value fuel c key s' = Ret v s'.
Proof.
  intros Hc. unfold Value. apply Value_with_chain; [assumption|].
  intros p k w. destruct fuel; simpl; [discriminate|].
  unfold bind. destruct (embedded p s) as [ctx s0| | |] eqn:E; try discriminate.
  destruct (embedded_chain p s s' ctx s0 Hc E) as [-> ->].
  apply value_chain, Hc.
Qed.

Lemma Deadline_with_chain h h' s s' :
  same_chain s s' →
  (∀ p v, h p s = Ret v s → h' p s' = Ret v s') →
  ∀ c v, Deadline_with h c s = Ret v s → Deadline_with h' c s' = Ret v s'.
Proof.
  intros Hc Hh. induction c; intros v; simpl; auto;
    try (intros H; injection H as <-; reflexivity).
  - unfold bind, getNode.
    destruct (heap s !! p) as [n|] eqn:Hn; [|discriminate].
    destruct (sc_node _ _ Hc p n Hn) as (n' & -> & _ & Hx).
    destruct (ext n) as [|t d|] eqn:Hxn; try discriminate.
    destruct (Hx t d eq_refl) as (t' & ->).
    intros H; injection H as <-. reflexivity.
  - unfold bind, getCustom.
    destruct (customs s !! u) as [cu|] eqn:Hu; [|discriminate].
    destruct (sc_custom _ _ Hc u cu Hu) as (cu' & -> & _ & ->).
    intros H; injection H as <-; reflexivity.
Qed.

Lemma Deadline_chain fuel : ∀ c v s s',
  same_chain s s' → Deadline fuel c s = Ret v s →
  Deadline fuel c s' = Ret v s'.
Proof.
  induction fuel as [|fuel IH]; intros c v s s' Hc; simpl;
    apply Deadline_with_chain; try assumption; intros p w;
    [discriminate|].
  unfold bind. destruct (embedded p s) as [ctx s0| | |] eqn:E; try discriminate.
  destruct (embedded_chain p s s' ctx s0 Hc E) as [-> ->].
  apply IH, Hc.
Qed.

Lemma wired_same_chain parent x s0 s1 :
  wired_node parent x s0 s1 → same_chain s0 s1.
Proof.
  intros [_ _ _ Hold Hcu _]. constructor.
  - intros q n Hq. destruct (Hold q n Hq) as (n' & Hq' & HC & Hx & _).
    exists n'. split; [assumption|]. split; [assumption|].
    intros t d Hxn. exists t. congruence.
  - intros u cu Hu. destruct (Hcu u cu Hu) as (cu' & Hu' & Hd & Hv & _).
    eauto.
Qed.

(** X15.  The Context [WithCancel] returns answers [Value], for every key
    but the package's own, and [Deadline] as the parent does: what the
    parent returned before the call, the new Context returns after it. *)
Theorem WithCancel_inherits fuel fuel' parent key v dl s :
  wf s → parent_ok s (Some parent) → (1 ≤ fuel)%nat →
  (chan_ready s (doneOf s parent) = true → errOf s parent ≠ None) →
  key ≠ cancelCtxKey →
  Value fuel' parent key s = Ret v s →
  Deadline fuel' parent s = Ret dl s →
  ∃ s1,
    WithCancel fuel (Some parent) s
    = Ret (cancelCtxP (length (heap s)),
           mkCancelFunc (cancelerCancel (length (heap s))) true) s1
    ∧ Value (S fuel') (cancelCtxP (length (heap s))) key s1 = Ret v s1
    ∧ Deadline (S fuel') (cancelCtxP (length (heap s))) s1 = Ret dl s1.
Proof.
  intros W [Hok Hns] Hf Hcontract Hkey HV HD.
  destruct (propagateCancel_returns fuel parent
              (cancelerCancel (length (heap s))) plainExt s (wf_sane _ W) Hok
              (wf_closed _ W) eq_refl eq_refl eq_refl Hf) as (s1 & HP).
  { intros d Hd Hcl. apply Hcontract. now rewrite Hd. }
  pose proof (propagateCancel_wired fuel parent
                (cancelerCancel (length (heap s))) plainExt s s1 W Hok Hns
                eq_refl eq_refl eq_refl Hf HP) as Hw.
  pose proof (wired_same_chain _ _ _ _ Hw) as Hc.
  destruct Hw as [W1 Hl1 (n1 & Hn1 & Hctx & _) _ _ _].
  set (c := length (heap s)) in *.
  exists s1. split.
  { unfold WithCancel, withCancel.
    unfold bind at 1. unfold bind at 1.
    change (alloc plainExt s)
      with (Ret c
              (setHeap (heap s ++ [mkNode None false None None None None plainExt])
                 s)).
    cbv beta iota. now rewrite (bind_Ret _ _ _ _ _ HP). }
  pose proof (Value_chain fuel' parent key v s s1 Hc HV) as HV1.
  pose proof (Deadline_chain fuel' parent dl s s1 Hc HD) as HD1.
  assert (Hemb : ∃ ctx, embedded c s1 = Ret ctx s1
                        ∧ Value fuel' ctx key s1 = Ret v s1
                        ∧ Deadline fuel' ctx s1 = Ret dl s1).
  { unfold embedded. rewrite (bind_Ret _ _ _ _ _ (getNode_Ret _ _ _ Hn1)).
    destruct Hctx as [-> | (stop & ->)]; eexists; (split; [reflexivity|]).
    - auto.
    - split; [exact HV1|]. destruct fuel'; exact HD1. }
  destruct Hemb as (ctx & Hemb & HVc & HDc).
  split.
  - unfold Value. simpl.
    destruct (any_eq_key _ s1 Hkey) as [_ E2].
    rewrite (bind_Ret _ _ _ _ _ E2).
    rewrite (bind_Ret _ _ _ _ _ Hemb).
    rewrite value_unfold, value_with_Value_with. exact HVc.
  - simpl. rewrite (bind_Ret _ _ _ _ _ Hemb). exact HDc.
Qed.

Lemma WithCancel_inherits_witness :
  ∃ s1,
    WithCancel 5 (Some (valueCtx (timerCtxP 3) (aint 1) (astring "v")))
      example_tree
    = Ret (cancelCtxP (length (heap example_tree)),
           mkCancelFunc (cancelerCancel (length (heap example_tree))) true) s1
    ∧ Value 3 (cancelCtxP (length (heap example_tree))) (aint 1) s1
      = Ret (astring "v") s1
    ∧ Deadline 3 (cancelCtxP (length (heap example_tree))) s1
      = Ret (Some 100) s1.
Proof.
  apply (WithCancel_inherits 5 2
           (valueCtx (timerCtxP 3) (aint 1) (astring "v")) (aint 1)
           (astring "v") (Some 100) example_tree).
  - apply wfb_wf. vm_compute. reflexivity.
  - vm_compute. split; [split; [discriminate | lia] | reflexivity].
  - lia.
  - vm_compute. discriminate.
  - discriminate.
  - vm_compute. reflexivity.
  - vm_compute. reflexivity.
Defined.

(** * What a Context answers does not change *)

(** ** Every step keeps the Context a node embeds and its deadline *)

#[global] Instance chain_from_refl b : Reflexive (chain_from b).
Proof. intros s. constructor; eauto. Qed.

#[global] Instance chain_from_trans b : Transitive (chain_from b).
Proof.
  intros s1 s2 s3 [l1 h1 c1] [l2 h2 c2]. constructor.
  - lia.
  - intros q n Hq Hn. destruct (h1 q n Hq Hn) as (n2 & Hn2 & HC2 & Hx2).
    destruct (h2 q n2 Hq Hn2) as (n3 & Hn3 & HC3 & Hx3).
    exists n3. split; [assumption|]. split; [congruence|].
    intros t d Hx. destruct (Hx2 t d Hx) as (t2 & Hx2').
    apply (Hx3 t2 d Hx2').
  - intros u cu Hu. destruct (c1 u cu Hu) as (cu2 & Hu2 & Hv2 & Hd2).
    destruct (c2 u cu2 Hu2) as (cu3 & Hu3 & Hv3 & Hd3).
    exists cu3. split; [assumption|]. split; congruence.
Qed.

Lemma chain_frame b s s' :
  heap s' = heap s → customs s' = customs s → chain_from b s s'.
Proof. intros Hh Hc. constructor; rewrite ?Hh, ?Hc; eauto. Qed.

Lemma chain_setHeap b s c n n' :
  heap s !! c = Some n →
  ((c < b)%nat →
   Context_ n' = Context_ n
   ∧ ∀ t d, ext n = timerExt t d → ∃ t', ext n' = timerExt t' d) →
  chain_from b s (setHeap (<[c := n']> (heap s)) s).
Proof.
  intros Hc Hn. constructor; simpl; eauto.
  - rewrite length_insert. lia.
  - intros q m Hq Hm. destruct (decide (q = c)) as [->|Hne].
    + rewrite Hc in Hm. injection Hm as <-.
      exists n'. split; [apply (lookup_insert_same _ _ _ _ Hc) | auto].
    + rewrite list_lookup_insert_ne by congruence. eauto.
Qed.

Lemma chain_alloc b n s : chain_from b s (setHeap (heap s ++ [n]) s).
Proof.
  constructor; simpl; eauto.
  - rewrite length_app. lia.
  - intros q m _ Hm. exists m. split; [now apply lookup_app_l_Some | eauto].
Qed.

Lemma chain_setCustom b s u cu cu' :
  customs s !! u = Some cu →
  uValue cu' = uValue cu → uDeadline cu' = uDeadline cu →
  chain_from b s (setCustoms (<[u := cu']> (customs s)) s).
Proof.
  intros Hu Hv Hd. constructor; simpl; eauto.
  intros u0 cu0 Hu0. destruct (decide (u0 = u)) as [->|Hne].
  - rewrite Hu in Hu0. injection Hu0 as <-.
    exists cu'. split; [apply (lookup_insert_same _ _ _ _ Hu) | auto].
  - rewrite list_lookup_insert_ne by congruence. eauto.
Qed.

Lemma chain_newCustom b s cu :
  chain_from b s (setCustoms (customs s ++ [cu]) s).
Proof.
  constructor; simpl; eauto.
  intros u cu0 Hu. exists cu0. split; [now apply lookup_app_l_Some | auto].
Qed.

Lemma chain_okm_close b d s : okm (chain_from b) s (close d).
Proof.
  unfold okm, close. destruct (is_closed s d); [reflexivity|].
  now apply chain_frame.
Qed.

Lemma chain_okm_timer_Stop b t s : okm (chain_from b) s (timer_Stop t).
Proof.
  unfold okm, timer_Stop. destruct (timers s !! t); [|reflexivity].
  now apply chain_frame.
Qed.

Lemma chain_okm_time_AfterFunc b dur c z s :
  okm (chain_from b) s (time_AfterFunc dur c z).
Proof. unfold okm, time_AfterFunc. now apply chain_frame. Qed.

Lemma chain_okm_alloc b x s : okm (chain_from b) s (alloc x).
Proof. unfold okm, alloc. apply chain_alloc. Qed.

Create HintDb chain.
#[global] Hint Resolve chain_okm_close chain_okm_timer_Stop
  chain_okm_time_AfterFunc chain_okm_alloc : chain.

Ltac chain_node :=
  let Hlt := fresh "Hlt" in
  intros Hlt;
  first
    [ exfalso; lia
    | split;
      [ first [ reflexivity
              | match goal with
                | |- context [match ext ?n with _ => _ end] =>
                    destruct (ext n); reflexivity
                end ]
      | let t := fresh "t" in let d := fresh "d" in let Hx := fresh "Hx" in
        intros t d Hx; simpl; rewrite ?Hx; simpl; first [congruence | eauto] ] ].

Ltac chain_prim :=
  idtac;
  lazymatch goal with
  | |- okm (chain_from ?b) _ _ =>
      first
        [ solve [auto with chain]
        | apply (okm_modify (chain_from b)); apply chain_frame; reflexivity
        | apply (okm_modify (chain_from b)); eapply chain_setCustom;
          [eassumption | reflexivity | reflexivity]
        | apply (okm_modNode (chain_from b));
          let n := fresh "n" in let Hn := fresh "Hn" in
          intros n Hn; simplify_eq;
          eapply (chain_setHeap b); [eassumption | chain_node] ]
  end.

Ltac chain_step :=
  lazymatch goal with
  | |- okm ?R _ (bind (getNode _) _) =>
      apply (okm_bind_getNode R); intros ? ?
  | |- okm ?R _ (bind get _) => apply (okm_bind_get R)
  | |- okm ?R _ (bind (getCustom _) _) =>
      apply (okm_bind_getCustom R); intros ? ?
  | |- okm ?R _ (bind _ _) =>
      apply (okm_bind R); [ | intros ? ? _]
  | |- okm ?R _ (ret _) => apply (okm_ret R)
  | |- okm ?R _ (panic _) => apply (okm_panic R)
  | |- okm _ _ outOfFuel => exact I
  | |- okm ?R _ (λ s, Blocked s) => apply (okm_blocked R)
  | |- okm _ _ (match ?x with _ => _ end) => destruct x eqn:?
  | |- okm _ _ (if ?x then _ else _) => destruct x eqn:?
  | |- _ => chain_prim
  end.

Ltac chain_go := repeat chain_step.

Section chain_functions.
Variable b : nat.

Lemma chain_Lock p s : okm (chain_from b) s (Lock p).
Proof. unfold Lock. chain_go. Qed.

Lemma chain_Unlock p s : okm (chain_from b) s (Unlock p).
Proof. unfold Unlock. chain_go. Qed.
Hint Resolve chain_Lock chain_Unlock : chain.

Lemma chain_embedded p s : okm (chain_from b) s (embedded p).
Proof. unfold embedded. chain_go. Qed.

Lemma chain_any_eq x y s : okm (chain_from b) s (any_eq x y).
Proof. unfold any_eq. chain_go. Qed.
Hint Resolve chain_embedded chain_any_eq : chain.

Lemma chain_cancelCtx_Done c s : okm (chain_from b) s (cancelCtx_Done c).
Proof. unfold cancelCtx_Done. chain_go. Qed.
Hint Resolve chain_cancelCtx_Done : chain.

Lemma chain_Done c s : okm (chain_from b) s (Done c).
Proof. induction c; simpl; chain_go. Qed.

Lemma chain_cancelCtx_Err c s : okm (chain_from b) s (cancelCtx_Err c).
Proof. unfold cancelCtx_Err. chain_go. Qed.
Hint Resolve chain_cancelCtx_Err chain_Done : chain.

Lemma chain_Err c s : okm (chain_from b) s (Err c).
Proof. induction c; simpl; chain_go. Qed.
Hint Resolve chain_Err : chain.

Lemma chain_Value fuel c key s : okm (chain_from b) s (Value fuel c key).
Proof.
  pose proof (pure_Value fuel c key s) as H. unfold okm in *.
  destruct (Value fuel c key s); subst; auto; reflexivity.
Qed.

Lemma chain_Deadline fuel c s : okm (chain_from b) s (Deadline fuel c).
Proof.
  pose proof (pure_Deadline fuel c s) as H. unfold okm in *.
  destruct (Deadline fuel c s); subst; auto; reflexivity.
Qed.
Hint Resolve chain_Value chain_Deadline : chain.

Lemma chain_Cause fuel c s : okm (chain_from b) s (Cause fuel c).
Proof. unfold Cause. chain_go. Qed.
Hint Resolve chain_Cause : chain.

Lemma chain_parentCancelCtx fuel c s :
  okm (chain_from b) s (parentCancelCtx fuel c).
Proof. unfold parentCancelCtx. chain_go. Qed.

Lemma chain_callStop stop s : okm (chain_from b) s (callStop stop).
Proof. unfold callStop. chain_go. Qed.
Hint Resolve chain_parentCancelCtx chain_callStop : chain.

Lemma chain_removeChild fuel parent child s :
  okm (chain_from b) s (removeChild fuel parent child).
Proof. unfold removeChild. chain_go. Qed.
Hint Resolve chain_removeChild : chain.

Lemma chain_getTimerField c s : okm (chain_from b) s (getTimerField c).
Proof. unfold getTimerField. chain_go. Qed.
Hint Resolve chain_getTimerField : chain.

Section cancelers.
Variable rec : ptr → bool → option error → option error → M unit.
Hypothesis chain_rec : ∀ c r e z s, okm (chain_from b) s (rec c r e z).
Variable fuel : nat.

Lemma chain_timerCtx_cancel_with c r e z s :
  okm (chain_from b) s (timerCtx_cancel_with rec fuel c r e z).
Proof. unfold timerCtx_cancel_with. chain_go; apply chain_rec. Qed.

Lemma chain_afterFuncCtx_cancel_with c r e z s :
  okm (chain_from b) s (afterFuncCtx_cancel_with rec fuel c r e z).
Proof. unfold afterFuncCtx_cancel_with. chain_go; apply chain_rec. Qed.

Lemma chain_canceler_cancel_with c r e z s :
  okm (chain_from b) s (canceler_cancel_with rec fuel c r e z).
Proof.
  destruct c; simpl;
    [ apply chain_rec | apply chain_timerCtx_cancel_with
    | apply chain_afterFuncCtx_cancel_with ].
Qed.
End cancelers.

Lemma chain_cancelCtx_cancel fuel : ∀ c r e z s,
  okm (chain_from b) s (cancelCtx_cancel fuel c r e z).
Proof.
  induction fuel as [|fuel IH]; intros c r e z s; simpl; [exact I|].
  chain_go.
  apply (okm_forM (chain_from b)). intros x s2 _.
  now apply chain_canceler_cancel_with.
Qed.
Hint Resolve chain_cancelCtx_cancel : chain.

Lemma chain_canceler_cancel fuel c r e z s :
  okm (chain_from b) s (canceler_cancel fuel c r e z).
Proof. apply chain_canceler_cancel_with. auto with chain. Qed.

Lemma chain_timerCtx_cancel fuel c r e z s :
  okm (chain_from b) s (timerCtx_cancel fuel c r e z).
Proof. apply chain_timerCtx_cancel_with. auto with chain. Qed.

Lemma chain_afterFuncCtx_cancel fuel c r e z s :
  okm (chain_from b) s (afterFuncCtx_cancel fuel c r e z).
Proof. apply chain_afterFuncCtx_cancel_with. auto with chain. Qed.
Hint Resolve chain_canceler_cancel chain_timerCtx_cancel
  chain_afterFuncCtx_cancel : chain.

Lemma chain_custom_AfterFunc u child parent s :
  okm (chain_from b) s (custom_AfterFunc u child parent).
Proof. unfold custom_AfterFunc. chain_go. Qed.

Lemma chain_afterFuncer parent s : okm (chain_from b) s (afterFuncer parent).
Proof. unfold afterFuncer. chain_go. Qed.
Hint Resolve chain_custom_AfterFunc chain_afterFuncer : chain.

(** The node [propagateCancel] fills in is the one the operation made. *)
Lemma chain_propagateCancel fuel c parent child s :
  (b ≤ c)%nat → okm (chain_from b) s (propagateCancel fuel c parent child).
Proof. intros Hb. unfold propagateCancel. chain_go. Qed.

Lemma chain_bind_alloc {B} x (k : ptr → M B) s :
  okm (chain_from b)
    (setHeap (heap s ++ [mkNode None false None None None None x]) s)
    (k (length (heap s))) →
  okm (chain_from b) s (bind (alloc x) k).
Proof.
  intros Hk. apply (okm_bind (chain_from b)); [apply chain_okm_alloc|].
  intros a s' H. injection H as <- <-. exact Hk.
Qed.

Lemma chain_withCancel fuel parent s :
  (b ≤ length (heap s))%nat → okm (chain_from b) s (withCancel fuel parent).
Proof.
  intros Hb. unfold withCancel. destruct parent; [|chain_go].
  apply chain_bind_alloc. chain_go. now apply chain_propagateCancel.
Qed.

Lemma chain_WithCancel fuel parent s :
  (b ≤ length (heap s))%nat → okm (chain_from b) s (WithCancel fuel parent).
Proof.
  intros Hb. unfold WithCancel. chain_go. now apply chain_withCancel.
Qed.

Lemma chain_WithCancelCause fuel parent s :
  (b ≤ length (heap s))%nat →
  okm (chain_from b) s (WithCancelCause fuel parent).
Proof.
  intros Hb. unfold WithCancelCause. chain_go. now apply chain_withCancel.
Qed.

Lemma chain_WithDeadlineCause fuel parent d cause0 s :
  (b ≤ length (heap s))%nat →
  okm (chain_from b) s (WithDeadlineCause fuel parent d cause0).
Proof.
  intros Hb. unfold WithDeadlineCause. destruct parent; [|chain_go].
  apply (okm_bind_strong (chain_from b)); [apply chain_Deadline|].
  intros cur s1 _ H1.
  assert (Hb1 : (b ≤ length (heap s1))%nat)
    by (pose proof (cf_len _ _ _ H1); lia).
  destruct (match cur with
            | Some cur0 => bool_decide (cur0 < d)
            | None => false
            end); [now apply chain_WithCancel|].
  apply chain_bind_alloc. chain_go. now apply chain_propagateCancel.
Qed.

Lemma chain_WithTimeoutCause fuel parent timeout cause0 s :
  (b ≤ length (heap s))%nat →
  okm (chain_from b) s (WithTimeoutCause fuel parent timeout cause0).
Proof.
  intros Hb. unfold WithTimeoutCause. apply (okm_bind_get (chain_from b)).
  now apply chain_WithDeadlineCause.
Qed.

Lemma chain_AfterFunc fuel ctx f s :
  (b ≤ length (heap s))%nat → okm (chain_from b) s (AfterFunc fuel ctx f).
Proof.
  intros Hb. unfold AfterFunc. apply chain_bind_alloc. chain_go.
  now apply chain_propagateCancel.
Qed.

Lemma chain_callAfterFuncStop fuel a s :
  okm (chain_from b) s (callAfterFuncStop fuel a).
Proof. unfold callAfterFuncStop. chain_go. Qed.

Lemma chain_fireTimer fuel t s : okm (chain_from b) s (fireTimer fuel t).
Proof. unfold fireTimer. chain_go. Qed.

Lemma chain_canceler_Done c s : okm (chain_from b) s (canceler_Done c).
Proof. unfold canceler_Done. auto with chain. Qed.
Hint Resolve chain_canceler_Done : chain.

Lemma chain_waiterStep fuel i pick s :
  okm (chain_from b) s (waiterStep fuel i pick).
Proof. unfold waiterStep. chain_go. Qed.

Lemma chain_runCallback fuel u r s :
  okm (chain_from b) s (runCallback fuel u r).
Proof. unfold runCallback. chain_go. Qed.

Lemma chain_okm_newCustom cu s : okm (chain_from b) s (newCustom cu).
Proof. unfold okm, newCustom. apply chain_newCustom. Qed.

Lemma chain_endCustom u e s : okm (chain_from b) s (endCustom u e).
Proof.
  unfold endCustom. chain_go.
  apply (okm_modify (chain_from b)).
  match goal with
  | |- chain_from _ ?s (if is_closed ?s ?d then _ else _) =>
      destruct (is_closed s d)
  end; [reflexivity | now apply chain_frame].
Qed.

Lemma chain_tick dt s : okm (chain_from b) s (tick dt).
Proof. unfold tick. chain_go. Qed.

Lemma chain_forget {A} (m : M A) s :
  okm (chain_from b) s m → okm (chain_from b) s (forget m).
Proof.
  intros H. unfold forget. apply (okm_bind (chain_from b)); [exact H|].
  intros a s' _. apply (okm_ret (chain_from b)).
Qed.

Lemma chain_runOp fuel o s :
  (b ≤ length (heap s))%nat → okm (chain_from b) s (runOp fuel o).
Proof.
  intros Hb. destruct o; simpl; try apply chain_forget;
    auto using chain_WithCancel, chain_WithCancelCause,
      chain_WithDeadlineCause, chain_WithTimeoutCause, chain_AfterFunc,
      chain_callAfterFuncStop, chain_fireTimer, chain_waiterStep,
      chain_runCallback, chain_okm_newCustom, chain_endCustom, chain_tick
      with chain.
Qed.

Lemma chain_runOps ops : ∀ s,
  (b ≤ length (heap s))%nat → chain_from b s (runOps ops s).
Proof.
  induction ops as [|[fuel o] ops IH]; intros s Hb; simpl; [reflexivity|].
  assert (H1 : chain_from b s (final s (runOp fuel o s))).
  { pose proof (chain_runOp fuel o s Hb) as H. unfold okm, final in *.
    destruct (runOp fuel o s); auto; reflexivity. }
  etransitivity; [exact H1|]. apply IH.
  pose proof (cf_len _ _ _ H1). lia.
Qed.
End chain_functions.

Lemma runOps_same_chain ops s : same_chain s (runOps ops s).
Proof.
  pose proof (chain_runOps (length (heap s)) ops s (le_n _)) as [_ Hn Hc].
  constructor; [|exact Hc].
  intros q n Hq. apply Hn; [|exact Hq]. eapply lookup_lt_Some; eauto.
Qed.

(** X16.  What [Value] returns for a Context and a key, it returns in every
    state any run of operations leads to: neither cancellation, nor
    deadlines, nor new derivations change the values a Context carries. *)
Theorem Value_never_changes fuel c key v s s0 ops :
  Value fuel c key s = Ret v s0 →
  Value fuel c key (runOps ops s) = Ret v (runOps ops s).
Proof.
  intros HV.
  assert (s0 = s) as ->.
  { pose proof (pure_Value fuel c key s) as H. unfold okm in H.
    rewrite HV in H. auto. }
  apply (Value_chain fuel c key v s); [apply runOps_same_chain | exact HV].
Qed.

Lemma Value_never_changes_witness :
  Value 3 (cancelCtxP 2) (aint 1)
    (runOps [(5%nat, opCancel (cancelerCancel 0) true (Some Canceled) None);
             (5%nat, opWithCancel (Some (cancelCtxP 2)))] example_tree)
  = Ret (aint 2)
      (runOps [(5%nat, opCancel (cancelerCancel 0) true (Some Canceled) None);
               (5%nat, opWithCancel (Some (cancelCtxP 2)))] example_tree).
Proof.
  apply (Value_never_changes 3 (cancelCtxP 2) (aint 1) (aint 2) example_tree
           example_tree).
  vm_compute. reflexivity.
Defined.

(** X17.  What [Deadline] returns for a Context, it returns in every state
    any run of operations leads to: the deadline of a Context is not moved
    by the passing of time, by its timer, or by cancellation. *)
Theorem Deadline_never_changes fuel c dl s s0 ops :
  Deadline fuel c s = Ret dl s0 →
  Deadline fuel c (runOps ops s) = Ret dl (runOps ops s).
Proof.
  intros HD. pose proof (Deadline_pure _ _ _ _ _ HD). subst s0.
  apply (Deadline_chain fuel c dl s); [apply runOps_same_chain | exact HD].
Qed.

Lemma Deadline_never_changes_witness :
  Deadline 3 (valueCtx (timerCtxP 3) (aint 1) (aint 2))
    (runOps [(5%nat, opTick 200); (5%nat, opFireTimer 0)] example_tree)
  = Ret (Some 100)
      (runOps [(5%nat, opTick 200); (5%nat, opFireTimer 0)] example_tree).
Proof.
  apply (Deadline_never_changes 3 (valueCtx (timerCtxP 3) (aint 1) (aint 2))
           (Some 100) example_tree example_tree).
  vm_compute. reflexivity.
Defined.

(** * The function of [AfterFunc] is started once *)

(** ** Every step but [AfterFunc] and [stop] keeps what is owed *)

#[global] Instance same_owed_refl : Reflexive same_owed.
Proof. intros s f. reflexivity. Qed.

#[global] Instance same_owed_trans : Transitive same_owed.
Proof. intros s1 s2 s3 H1 H2 f. rewrite (H2 f). apply H1. Qed.

Lemma sum_list_with_insert {A} (w : A → nat) (l : list A) i x y :
  l !! i = Some x →
  (sum_list_with w (<[i := y]> l) + w x = sum_list_with w l + w y)%nat.
Proof.
  revert i. induction l as [|a l IH]; intros [|i] H; simpl in *;
    try discriminate.
  - injection H as ->. lia.
  - specialize (IH i H). lia.
Qed.

Lemma so_frame s s' :
  heap s' = heap s → started s' = started s → same_owed s s'.
Proof. intros Hh Hs f. unfold owed, starts. now rewrite Hh, Hs. Qed.

Lemma so_setHeap s c n n' :
  heap s !! c = Some n → (∀ f, pending_f f n' = pending_f f n) →
  same_owed s (setHeap (<[c := n']> (heap s)) s).
Proof.
  intros Hc Hn f. unfold owed, starts. simpl.
  pose proof (sum_list_with_insert (pending_f f) (heap s) c n n' Hc).
  rewrite Hn in *. lia.
Qed.

Lemma so_alloc n s :
  (∀ f, pending_f f n = 0%nat) → same_owed s (setHeap (heap s ++ [n]) s).
Proof.
  intros Hn f. unfold owed, starts. simpl.
  rewrite sum_list_with_app. simpl. rewrite Hn. lia.
Qed.

Lemma so_okm_close d s : okm same_owed s (close d).
Proof.
  unfold okm, close. destruct (is_closed s d); [reflexivity|].
  now apply so_frame.
Qed.

Lemma so_okm_timer_Stop t s : okm same_owed s (timer_Stop t).
Proof.
  unfold okm, timer_Stop. destruct (timers s !! t); [|reflexivity].
  now apply so_frame.
Qed.

Lemma so_okm_time_AfterFunc dur c z s :
  okm same_owed s (time_AfterFunc dur c z).
Proof. unfold okm, time_AfterFunc. now apply so_frame. Qed.

Lemma so_okm_alloc x s :
  match x with afterFuncExt false _ => False | _ => True end →
  okm same_owed s (alloc x).
Proof.
  intros Hx. unfold okm, alloc. apply so_alloc. intros f.
  unfold pending_f. simpl. destruct x as [| |[] ?]; tauto.
Qed.

(** The end of the [cancel] of an [afterFuncCtx]: the node owes the
    function no more, and the function has been started. *)
Lemma so_tail a s :
  okm same_owed s
    (n <- getNode a;;
     match ext n with
     | afterFuncExt false f =>
         modNode a (set_ext (afterFuncExt true f));;;
         modify (λ s, setStarted (started s ++ [f]) s)
     | afterFuncExt true _ => ret tt
     | _ => panic nilDeref
     end).
Proof.
  unfold okm, bind, getNode, modNode.
  destruct (heap s !! a) as [n|] eqn:Hn; [|reflexivity].
  destruct (ext n) as [| |once f] eqn:Hx;
    [unfold panic; reflexivity | unfold panic; reflexivity |].
  destruct once; [unfold ret; reflexivity|].
  rewrite Hn. unfold modify. intros g. unfold owed, starts. simpl.
  pose proof (sum_list_with_insert (pending_f g) (heap s) a n
                (set_ext (afterFuncExt true f) n) Hn) as Hsum.
  assert (H1 : pending_f g n = if decide (f = g) then 1%nat else 0%nat)
    by (unfold pending_f; now rewrite Hx).
  assert (H2 : pending_f g (set_ext (afterFuncExt true f) n) = 0%nat)
    by reflexivity.
  rewrite H1, H2 in Hsum.
  rewrite filter_app, length_app.
  destruct (decide (f = g)) as [Heq|Hne].
  - rewrite filter_cons_True by assumption. simpl. lia.
  - rewrite filter_cons_False by assumption. simpl. lia.
Qed.

Create HintDb owed.
#[global] Hint Resolve so_okm_close so_okm_timer_Stop so_okm_time_AfterFunc
  so_tail : owed.

Ltac so_node :=
  let f := fresh "f" in
  intros f; unfold pending_f; simpl;
  first
    [ reflexivity
    | let Hx := fresh "Hx" in
      match goal with
      | |- context [ext ?n] => is_var n; destruct (ext n) eqn:Hx
      end;
      simpl; rewrite ?Hx; first [reflexivity | congruence] ].

Ltac so_prim :=
  idtac;
  lazymatch goal with
  | |- okm same_owed _ _ =>
      first
        [ solve [auto with owed]
        | apply so_okm_alloc; exact I
        | apply (okm_modify same_owed); apply so_frame; reflexivity
        | apply (okm_modNode same_owed);
          let n := fresh "n" in let Hn := fresh "Hn" in
          intros n Hn; simplify_eq;
          eapply so_setHeap; [eassumption | so_node] ]
  end.

Ltac so_step :=
  lazymatch goal with
  | |- okm ?R _ (bind (getNode _) _) =>
      apply (okm_bind_getNode R); intros ? ?
  | |- okm ?R _ (bind get _) => apply (okm_bind_get R)
  | |- okm ?R _ (bind (getCustom _) _) =>
      apply (okm_bind_getCustom R); intros ? ?
  | |- okm ?R _ (bind _ _) =>
      apply (okm_bind R); [ | intros ? ? _]
  | |- okm ?R _ (ret _) => apply (okm_ret R)
  | |- okm ?R _ (panic _) => apply (okm_panic R)
  | |- okm _ _ outOfFuel => exact I
  | |- okm ?R _ (λ s, Blocked s) => apply (okm_blocked R)
  | |- okm _ _ (match ?x with _ => _ end) => destruct x eqn:?
  | |- okm _ _ (if ?x then _ else _) => destruct x eqn:?
  | |- _ => so_prim
  end.

Ltac so_go := repeat so_step.

Lemma so_Lock p s : okm same_owed s (Lock p).
Proof. unfold Lock. so_go. Qed.

Lemma so_Unlock p s : okm same_owed s (Unlock p).
Proof. unfold Unlock. so_go. Qed.
#[global] Hint Resolve so_Lock so_Unlock : owed.

Lemma so_cancelCtx_Done c s : okm same_owed s (cancelCtx_Done c).
Proof. unfold cancelCtx_Done. so_go. Qed.
#[global] Hint Resolve so_cancelCtx_Done : owed.

Lemma so_Done c s : okm same_owed s (Done c).
Proof. induction c; simpl; so_go. Qed.

Lemma so_cancelCtx_Err c s : okm same_owed s (cancelCtx_Err c).
Proof. unfold cancelCtx_Err. so_go. Qed.
#[global] Hint Resolve so_cancelCtx_Err so_Done : owed.

Lemma so_Err c s : okm same_owed s (Err c).
Proof. induction c; simpl; so_go. Qed.
#[global] Hint Resolve so_Err : owed.

Lemma so_Value fuel c key s : okm same_owed s (Value fuel c key).
Proof.
  pose proof (pure_Value fuel c key s) as H. unfold okm in *.
  destruct (Value fuel c key s); subst; auto; reflexivity.
Qed.

Lemma so_Deadline fuel c s : okm same_owed s (Deadline fuel c).
Proof.
  pose proof (pure_Deadline fuel c s) as H. unfold okm in *.
  destruct (Deadline fuel c s); subst; auto; reflexivity.
Qed.
#[global] Hint Resolve so_Value so_Deadline : owed.

Lemma so_Cause fuel c s : okm same_owed s (Cause fuel c).
Proof. unfold Cause. so_go. Qed.
#[global] Hint Resolve so_Cause : owed.

Lemma so_parentCancelCtx fuel c s : okm same_owed s (parentCancelCtx fuel c).
Proof. unfold parentCancelCtx. so_go. Qed.

Lemma so_callStop stop s : okm same_owed s (callStop stop).
Proof. unfold callStop. so_go. Qed.
#[global] Hint Resolve so_parentCancelCtx so_callStop : owed.

Lemma so_removeChild fuel parent child s :
  okm same_owed s (removeChild fuel parent child).
Proof. unfold removeChild. so_go. Qed.
#[global] Hint Resolve so_removeChild : owed.

Lemma so_getTimerField c s : okm same_owed s (getTimerField c).
Proof. unfold getTimerField. so_go. Qed.
#[global] Hint Resolve so_getTimerField : owed.

Section owed_cancelers.
Variable rec : ptr → bool → option error → option error → M unit.
Hypothesis so_rec : ∀ c r e z s, okm same_owed s (rec c r e z).
Variable fuel : nat.

Lemma so_timerCtx_cancel_with c r e z s :
  okm same_owed s (timerCtx_cancel_with rec fuel c r e z).
Proof. unfold timerCtx_cancel_with. so_go; apply so_rec. Qed.

Lemma so_afterFuncCtx_cancel_with c r e z s :
  okm same_owed s (afterFuncCtx_cancel_with rec fuel c r e z).
Proof.
  unfold afterFuncCtx_cancel_with.
  apply (okm_bind same_owed); [apply so_rec | intros ? ? _].
  apply (okm_bind same_owed); [so_go | intros ? ? _].
  apply so_tail.
Qed.

Lemma so_canceler_cancel_with c r e z s :
  okm same_owed s (canceler_cancel_with rec fuel c r e z).
Proof.
  destruct c; simpl;
    [ apply so_rec | apply so_timerCtx_cancel_with
    | apply so_afterFuncCtx_cancel_with ].
Qed.
End owed_cancelers.

Lemma so_cancelCtx_cancel fuel : ∀ c r e z s,
  okm same_owed s (cancelCtx_cancel fuel c r e z).
Proof.
  induction fuel as [|fuel IH]; intros c r e z s; simpl; [exact I|].
  so_go.
  apply (okm_forM same_owed). intros x s2 _.
  now apply so_canceler_cancel_with.
Qed.
#[global] Hint Resolve so_cancelCtx_cancel : owed.

Lemma so_canceler_cancel fuel c r e z s :
  okm same_owed s (canceler_cancel fuel c r e z).
Proof. apply so_canceler_cancel_with. auto with owed. Qed.

Lemma so_timerCtx_cancel fuel c r e z s :
  okm same_owed s (timerCtx_cancel fuel c r e z).
Proof. apply so_timerCtx_cancel_with. auto with owed. Qed.

Lemma so_afterFuncCtx_cancel fuel c r e z s :
  okm same_owed s (afterFuncCtx_cancel fuel c r e z).
Proof. apply so_afterFuncCtx_cancel_with. auto with owed. Qed.
#[global] Hint Resolve so_canceler_cancel so_timerCtx_cancel
  so_afterFuncCtx_cancel : owed.

Lemma so_custom_AfterFunc u child parent s :
  okm same_owed s (custom_AfterFunc u child parent).
Proof. unfold custom_AfterFunc. so_go. Qed.

Lemma so_afterFuncer parent s : okm same_owed s (afterFuncer parent).
Proof. unfold afterFuncer. so_go. Qed.
#[global] Hint Resolve so_custom_AfterFunc so_afterFuncer : owed.

Lemma so_propagateCancel fuel c parent child s :
  okm same_owed s (propagateCancel fuel c parent child).
Proof. unfold propagateCancel. so_go. Qed.
#[global] Hint Resolve so_propagateCancel : owed.

Lemma so_withCancel fuel parent s : okm same_owed s (withCancel fuel parent).
Proof. unfold withCancel. so_go. Qed.
#[global] Hint Resolve so_withCancel : owed.

Lemma so_WithCancel fuel parent s : okm same_owed s (WithCancel fuel parent).
Proof. unfold WithCancel. so_go. Qed.

Lemma so_WithCancelCause fuel parent s :
  okm same_owed s (WithCancelCause fuel parent).
Proof. unfold WithCancelCause. so_go. Qed.
#[global] Hint Resolve so_WithCancel so_WithCancelCause : owed.

Lemma so_WithDeadlineCause fuel parent d cause0 s :
  okm same_owed s (WithDeadlineCause fuel parent d cause0).
Proof. unfold WithDeadlineCause. so_go. Qed.
#[global] Hint Resolve so_WithDeadlineCause : owed.

Lemma so_WithTimeoutCause fuel parent timeout cause0 s :
  okm same_owed s (WithTimeoutCause fuel parent timeout cause0).
Proof. unfold WithTimeoutCause. so_go. Qed.

Lemma so_fireTimer fuel t s : okm same_owed s (fireTimer fuel t).
Proof. unfold fireTimer. so_go. Qed.

Lemma so_canceler_Done c s : okm same_owed s (canceler_Done c).
Proof. unfold canceler_Done. auto with owed. Qed.
#[global] Hint Resolve so_canceler_Done : owed.

Lemma so_waiterStep fuel i pick s : okm same_owed s (waiterStep fuel i pick).
Proof. unfold waiterStep. so_go. Qed.

Lemma so_runCallback fuel u r s : okm same_owed s (runCallback fuel u r).
Proof. unfold runCallback. so_go. Qed.

Lemma so_newCustom cu s : okm same_owed s (newCustom cu).
Proof. unfold okm, newCustom. now apply so_frame. Qed.

Lemma so_endCustom u e s : okm same_owed s (endCustom u e).
Proof.
  unfold endCustom. so_go.
  apply (okm_modify same_owed).
  match goal with
  | |- same_owed ?s (if is_closed ?s ?d then _ else _) =>
      destruct (is_closed s d)
  end; [reflexivity | now apply so_frame].
Qed.

Lemma so_tick dt s : okm same_owed s (tick dt).
Proof. unfold tick. so_go. Qed.

(** ** [AfterFunc] and [stop] *)

Lemma owed_alloc f x s :
  owed f (setHeap (heap s ++ [mkNode None false None None None None x]) s)
  = (owed f s + pending_f f (mkNode None false None None None None x))%nat.
Proof.
  unfold owed, starts. simpl. rewrite sum_list_with_app. simpl. lia.
Qed.

(** [AfterFunc] adds one to what is owed of its function. *)
Lemma owed_AfterFunc fuel ctx f g s :
  okm (λ s s', owed g s' = (owed g s + if decide (f = g) then 1 else 0)%nat)
    s (AfterFunc fuel ctx f).
Proof.
  unfold okm, AfterFunc. unfold bind at 1.
  change (alloc (afterFuncExt false f) s)
    with (Ret (length (heap s))
            (setHeap (heap s ++ [mkNode None false None None None None
                                   (afterFuncExt false f)]) s)).
  cbv beta iota.
  set (sA := setHeap _ s).
  assert (HA : owed g sA
               = (owed g s + if decide (f = g) then 1 else 0)%nat).
  { subst sA. rewrite owed_alloc. reflexivity. }
  pose proof (so_propagateCancel fuel (length (heap s)) ctx
                (cancelerAfterFunc (length (heap s))) sA) as HP.
  unfold okm, bind in *.
  destruct (propagateCancel fuel (length (heap s)) ctx
              (cancelerAfterFunc (length (heap s))) sA) as [[] s1|m s1|s1|];
    simpl; auto; rewrite (HP g); exact HA.
Qed.

(** The [stop] function on a node whose [once] has not been done takes one
    from what is owed of its function. *)
Lemma owed_stop fuel a n f g s :
  heap s !! a = Some n → ext n = afterFuncExt false f →
  okm (λ s s', (owed g s' + if decide (f = g) then 1 else 0)%nat = owed g s)
    s (callAfterFuncStop fuel a).
Proof.
  intros Hn Hx. unfold okm, callAfterFuncStop.
  rewrite (bind_Ret _ _ _ _ _ (getNode_Ret _ _ _ Hn)), Hx.
  rewrite (bind_Ret _ _ _ _ _ (modNode_Ret _ _ _ _ Hn)).
  set (s1 := setHeap (<[a := set_ext (afterFuncExt true f) n]> (heap s)) s).
  assert (H1 : (owed g s1 + if decide (f = g) then 1 else 0)%nat = owed g s).
  { subst s1. unfold owed, starts. simpl.
    pose proof (sum_list_with_insert (pending_f g) (heap s) a n
                  (set_ext (afterFuncExt true f) n) Hn) as Hsum.
    assert (E1 : pending_f g n = if decide (f = g) then 1%nat else 0%nat)
      by (unfold pending_f; now rewrite Hx).
    assert (E2 : pending_f g (set_ext (afterFuncExt true f) n) = 0%nat)
      by reflexivity.
    rewrite E1, E2 in Hsum. lia. }
  pose proof (so_afterFuncCtx_cancel fuel a true (Some Canceled) None s1)
    as HC.
  unfold okm, bind in *.
  destruct (afterFuncCtx_cancel fuel a true (Some Canceled) None s1)
    as [[] s2|m s2|s2|]; simpl; auto; rewrite (HC g); exact H1.
Qed.

Lemma owed_le_stop fuel a g s :
  okm (λ s s', (owed g s' ≤ owed g s)%nat) s (callAfterFuncStop fuel a).
Proof.
  destruct (heap s !! a) as [n|] eqn:Hn.
  2:{ unfold okm, callAfterFuncStop, bind, getNode. now rewrite Hn. }
  destruct (ext n) as [| |[] f] eqn:Hx.
  1-3: unfold okm, callAfterFuncStop;
    rewrite (bind_Ret _ _ _ _ _ (getNode_Ret _ _ _ Hn)), Hx;
    unfold ret, panic; simpl; lia.
  pose proof (owed_stop fuel a n f g s Hn Hx) as H. unfold okm in *.
  destruct (callAfterFuncStop fuel a s); auto; lia.
Qed.

Lemma okm_same_owed_le {A} (m : M A) g s :
  okm same_owed s m → okm (λ s s', (owed g s' ≤ owed g s + 0)%nat) s m.
Proof.
  unfold okm. destruct (m s); auto; intros H; rewrite (H g); lia.
Qed.

Lemma so_forget {A} (m : M A) s :
  okm same_owed s m → okm same_owed s (forget m).
Proof.
  intros H. unfold forget. apply (okm_bind same_owed); [exact H|].
  intros a s' _. apply (okm_ret same_owed).
Qed.

Lemma owed_runOp fuel o g s :
  (owed g (final s (runOp fuel o s))
   ≤ owed g s + registrations g [(fuel, o)])%nat.
Proof.
  assert (Hsame : okm same_owed s (runOp fuel o) →
                  registrations g [(fuel, o)] = 0%nat →
                  (owed g (final s (runOp fuel o s))
                   ≤ owed g s + registrations g [(fuel, o)])%nat).
  { intros H ->. unfold okm, final in *.
    destruct (runOp fuel o s); try rewrite (H g); lia. }
  destruct o;
    try (apply Hsame; [|reflexivity]; simpl; try apply so_forget;
         auto using so_WithTimeoutCause, so_fireTimer, so_waiterStep,
           so_runCallback, so_newCustom, so_endCustom, so_tick with owed;
         fail).
  - (* AfterFunc *)
    simpl. pose proof (owed_AfterFunc fuel ctx f g s) as H.
    unfold forget, okm, final, bind in *.
    destruct (AfterFunc fuel ctx f s); simpl; try rewrite H; lia.
  - (* stop *)
    simpl. pose proof (owed_le_stop fuel a g s) as H.
    unfold forget, okm, final, bind in *.
    destruct (callAfterFuncStop fuel a s); simpl; lia.
Qed.

Lemma registrations_cons g fuel o ops :
  registrations g ((fuel, o) :: ops)
  = (registrations g [(fuel, o)] + registrations g ops)%nat.
Proof. destruct o; simpl; lia. Qed.

Lemma owed_runOps ops : ∀ g s,
  (owed g (runOps ops s) ≤ owed g s + registrations g ops)%nat.
Proof.
  induction ops as [|[fuel o] ops IH]; intros g s.
  - simpl. lia.
  - rewrite registrations_cons. simpl runOps.
    pose proof (IH g (final s (runOp fuel o s))).
    pose proof (owed_runOp fuel o g s). lia.
Qed.

(** X18.  In a run of operations from the empty state, a function is
    started at most as many times as [AfterFunc] was called with it: each
    call of [AfterFunc] starts its function at most once, whatever cancels
    the Context and however often. *)
Theorem AfterFunc_starts_at_most_once ops f :
  (starts f (runOps ops emptyState) ≤ registrations f ops)%nat.
Proof.
  pose proof (owed_runOps ops f emptyState) as H.
  unfold owed in H at 1. 
  assert (H0 : owed f emptyState = 0%nat) by reflexivity.
  lia.
Qed.

(** ** When the function is started, and when it is not *)

Lemma sum_list_with_le_lookup {A} (w : A → nat) : ∀ l l' : list A,
  length l' = length l →
  (∀ i x, l !! i = Some x → ∃ y, l' !! i = Some y ∧ (w y ≤ w x)%nat) →
  (sum_list_with w l' ≤ sum_list_with w l)%nat.
Proof.
  induction l as [|x l IH]; intros [|y l'] Hlen H; simpl in *;
    try discriminate; [lia|].
  destruct (H 0%nat x eq_refl) as (y0 & Hy0 & Hle). injection Hy0 as <-.
  assert (sum_list_with w l' ≤ sum_list_with w l)%nat; [|lia].
  apply IH; [lia|]. intros i x0 Hi. apply (H (S i) x0 Hi).
Qed.

Lemma sum_list_with_lt_lookup {A} (w : A → nat) : ∀ (l l' : list A) a x y,
  length l' = length l →
  (∀ i x, l !! i = Some x → ∃ y, l' !! i = Some y ∧ (w y ≤ w x)%nat) →
  l !! a = Some x → l' !! a = Some y → (w y < w x)%nat →
  (sum_list_with w l' < sum_list_with w l)%nat.
Proof.
  induction l as [|x0 l IH]; intros [|y0 l'] a x y Hlen H Hx Hy Hlt;
    simpl in *; try discriminate.
  destruct (H 0%nat x0 eq_refl) as (y1 & Hy1 & Hle). injection Hy1 as <-.
  assert (Htl : ∀ i x, l !! i = Some x →
                       ∃ y, l' !! i = Some y ∧ (w y ≤ w x)%nat)
    by (intros i x1 Hi; apply (H (S i) x1 Hi)).
  destruct a as [|a]; simpl in *.
  - injection Hx as ->. injection Hy as ->.
    pose proof (sum_list_with_le_lookup w l l' ltac:(lia) Htl). lia.
  - pose proof (IH l' a x y ltac:(lia) Htl Hx Hy Hlt). lia.
Qed.

Lemma sum_list_with_snoc_lookup {A} (w : A → nat) : ∀ (l l' : list A) z,
  length l' = S (length l) →
  (∀ i x, l !! i = Some x → ∃ y, l' !! i = Some y ∧ w y = w x) →
  l' !! length l = Some z →
  sum_list_with w l' = (sum_list_with w l + w z)%nat.
Proof.
  induction l as [|x l IH]; intros [|y l'] z Hlen H Hz; simpl in *;
    try discriminate.
  - injection Hz as ->. destruct l'; [simpl; lia | discriminate].
  - destruct (H 0%nat x eq_refl) as (y0 & Hy0 & Heq). injection Hy0 as <-.
    rewrite (IH l' z); [lia | lia | | exact Hz].
    intros i x0 Hi. apply (H (S i) x0 Hi).
Qed.

Lemma pending_f_stopped f m x : ext m = stopped x → pending_f f m = 0%nat.
Proof. intros H. unfold pending_f. rewrite H. destruct x; reflexivity. Qed.

(** What the [cancel] of a canceler leaves of the extensions: the ones of
    the node and of the nodes registered below it are as [stopped] has
    them, the others are those or as they were. *)
Lemma canceler_cancel_exts fuel ch removeFromParent e cause0 s :
  wf s → kind_ok s ch → (length (heap s) - canceler_ptr ch ≤ fuel)%nat →
  ∃ s', canceler_cancel fuel ch removeFromParent (Some e) cause0 s = Ret tt s'
        ∧ length (heap s') = length (heap s)
        ∧ ∀ q n, heap s !! q = Some n →
            ∃ m, heap s' !! q = Some m
                 ∧ (ext m = ext n ∨ ext m = stopped (ext n))
                 ∧ (q = canceler_ptr ch ∨ descendant s (canceler_ptr ch) q →
                    ext m = stopped (ext n)).
Proof.
  intros W (np & Hnp & Hk) Hf.
  set (c := canceler_ptr ch) in *.
  destruct (wf_context _ W c np Hnp) as (ctx & Hctx & Hok).
  assert (Hr : ready s c) by (eapply ready_weaken; [|apply W]; lia).
  destruct (canceler_cancel_returns fuel ch removeFromParent e cause0 s np ctx
              (wf_sane _ W) Hr Hnp Hk Hctx Hok Hf)
    as (s1 & s2 & s' & Hrun & HC & Hcan & Ht & _ & Hfin & _).
  fold c in HC, Hcan, Hfin.
  destruct (fin_heap _ _ _ Hfin) as (nc & Hnc & Hh).
  exists s'. split; [exact Hrun|]. split.
  { rewrite Hh, length_insert, (touch_len _ _ Ht).
    apply (casc_len _ _ _ _ _ _ HC). }
  intros q n Hq.
  destruct (casc_node _ _ _ _ _ _ HC q n Hq) as (n1 & Hq1 & Hcase).
  destruct (touch_node _ _ Ht q n1 Hq1)
    as (n2 & Hq2 & _ & _ & _ & _ & Hx2 & _).
  assert (Hx1 : ext n1 = ext n ∨ ext n1 = stopped (ext n)).
  { destruct Hcase as [-> | (_ & _ & ->)]; [now left|].
    destruct (bool_decide (Some c = Some q)); simpl; auto. }
  destruct (decide (q = c)) as [->|Hne].
  - rewrite Hnc in Hq2. injection Hq2 as <-.
    eexists. split; [rewrite Hh; apply (lookup_insert_same _ _ _ _ Hnc)|].
    simpl. rewrite Hx2.
    assert (Hst : stopped (ext n1) = stopped (ext n))
      by (destruct Hx1 as [-> | ->]; [reflexivity | apply stopped_idem]).
    rewrite Hst. auto.
  - exists n2. split; [rewrite Hh, list_lookup_insert_ne by congruence;
                       exact Hq2|].
    rewrite Hx2. split; [exact Hx1|].
    intros [Heq | Hd]; [contradiction|].
    destruct (descendant_canceled _ _ _ _ _ _ W HC c q Hd Hcan)
      as [(m & Hm & Hem) Hcq].
    rewrite Hq in Hm. injection Hm as <-.
    destruct (Casc_changed _ _ _ _ _ _ _ _ HC Hq Hem Hcq) as [_ Hq1'].
    rewrite Hq1 in Hq1'. injection Hq1' as ->.
    rewrite bool_decide_eq_false_2 by congruence. reflexivity.
Qed.

Lemma stop_again fuel a m f s :
  heap s !! a = Some m → ext m = afterFuncExt true f →
  callAfterFuncStop fuel a s = Ret false s.
Proof.
  intros Hm Hx. unfold callAfterFuncStop.
  rewrite (bind_Ret _ _ _ _ _ (getNode_Ret _ _ _ Hm)), Hx. reflexivity.
Qed.

(** X19.  The [cancel] of a canceler, called from a state between
    operations, starts the function of every [afterFuncCtx] that it
    cancels, the canceler's own or one registered below it, whose function
    had not been started or stopped; the [stop] function of that
    [AfterFunc] returns false from then on and changes nothing. *)
Theorem cancel_starts_function fuel ch removeFromParent e cause0 s a n f :
  wf s → kind_ok s ch → (length (heap s) - canceler_ptr ch ≤ fuel)%nat →
  a = canceler_ptr ch ∨ descendant s (canceler_ptr ch) a →
  heap s !! a = Some n → ext n = afterFuncExt false f →
  ∃ s', canceler_cancel fuel ch removeFromParent (Some e) cause0 s = Ret tt s'
        ∧ (starts f s < starts f s')%nat
        ∧ ∀ fuel', callAfterFuncStop fuel' a s' = Ret false s'.
Proof.
  intros W Hk Hf Hrel Hn Hx.
  destruct (canceler_cancel_exts fuel ch removeFromParent e cause0 s W Hk Hf)
    as (s' & Hrun & Hlen & Hext).
  exists s'. split; [exact Hrun|].
  destruct (Hext a n Hn) as (m & Hm & _ & Hst).
  specialize (Hst Hrel). rewrite Hx in Hst. simpl in Hst.
  split; [|intros fuel'; apply (stop_again fuel' a m f s' Hm Hst)].
  pose proof (so_canceler_cancel fuel ch removeFromParent (Some e) cause0 s)
    as Hso.
  unfold okm in Hso. rewrite Hrun in Hso. specialize (Hso f).
  unfold owed in Hso.
  assert (Hlt : (sum_list_with (pending_f f) (heap s')
                 < sum_list_with (pending_f f) (heap s))%nat).
  { apply (sum_list_with_lt_lookup _ _ _ a n m Hlen); [|exact Hn|exact Hm|].
    - intros q nq Hq. destruct (Hext q nq Hq) as (mq & Hmq & [He | He] & _).
      + exists mq. split; [assumption|]. unfold pending_f. rewrite He. lia.
      + exists mq. split; [assumption|].
        rewrite (pending_f_stopped f mq _ He). lia.
    - rewrite (pending_f_stopped f m (afterFuncExt false f)) by exact Hst.
      unfold pending_f. rewrite Hx.
      destruct (decide (f = f)); [lia | congruence]. }
  lia.
Qed.

Lemma cancel_starts_function_witness :
  ∃ s', canceler_cancel 5 (cancelerCancel 0) true (Some Canceled) None
          (runOps (firstn 3 example_run) emptyState) = Ret tt s'
        ∧ (starts 7 (runOps (firstn 3 example_run) emptyState)
           < starts 7 s')%nat
        ∧ ∀ fuel', callAfterFuncStop fuel' 2 s' = Ret false s'.
Proof.
  apply (cancel_starts_function 5 (cancelerCancel 0) true Canceled None
           (runOps (firstn 3 example_run) emptyState) 2
           (mkNode (Some (timerCtxP 1)) false None None None None
              (afterFuncExt false 7)) 7).
  - apply wfb_wf. vm_compute. reflexivity.
  - eexists. split; vm_compute; reflexivity.
  - vm_compute. lia.
  - right. eapply descendant_trans.
    + eapply (descendant_child _ 0 _ (cancelerTimer 1));
        [vm_compute; reflexivity | apply list_elem_of_In; simpl; auto].
    + eapply (descendant_child _ 1 _ (cancelerAfterFunc 2));
        [vm_compute; reflexivity | apply list_elem_of_In; simpl; auto].
  - vm_compute. reflexivity.
  - reflexivity.
Defined.

(** X20.  In a state a run of operations leads to from the empty state,
    where [AfterFunc] was called with the function [f] once at most, the
    [stop] function of an [afterFuncCtx] for [f] whose function has not
    been started or stopped returns true and cancels the node with
    [Canceled].  From then on [stop] returns false and changes nothing, and
    [f] is never started, whatever operations follow, unless [AfterFunc] is
    called with it again. *)
Theorem stop_prevents_function fuel a n f ops :
  ops_ok ops emptyState →
  heap (runOps ops emptyState) !! a = Some n →
  ext n = afterFuncExt false f →
  (registrations f ops ≤ 1)%nat →
  (length (heap (runOps ops emptyState)) ≤ fuel)%nat →
  ∃ s' m,
    callAfterFuncStop fuel a (runOps ops emptyState) = Ret true s'
    ∧ heap s' !! a = Some m ∧ err m = Some Canceled
    ∧ (∀ fuel', callAfterFuncStop fuel' a s' = Ret false s')
    ∧ ∀ ops', registrations f ops' = 0%nat →
              starts f (runOps ops' s') = 0%nat.
Proof.
  intros Hops Hn Hx Hreg Hf.
  set (s := runOps ops emptyState) in *.
  pose proof (runOps_wf ops emptyState wf_emptyState Hops) as W. fold s in W.
  assert (He : err n = None).
  { destruct (err n) eqn:He; [|reflexivity].
    assert (Hst : ext n = stopped (ext n)).
    { apply (nr_stopped s a); [|congruence].
      apply (wf_ready _ W _ _ Hn). lia. }
    rewrite Hx in Hst. discriminate. }
  set (n1 := set_ext (afterFuncExt true f) n).
  set (s1 := setHeap (<[a := n1]> (heap s)) s).
  assert (Hn1 : heap s1 !! a = Some n1)
    by (apply (lookup_insert_same _ _ _ _ Hn)).
  assert (W1 : wf s1).
  { apply (wf_set_ext s s1 a n (afterFuncExt true f) W Hn); auto.
    - intros ch. rewrite Hx. destruct ch; reflexivity.
    - unfold timer_of. simpl. now rewrite Hx. }
  assert (Hl1 : length (heap s1) = length (heap s))
    by (apply length_insert).
  destruct (canceler_cancel_cancels fuel (cancelerAfterFunc a) true Canceled
              None s1 n1 W1 Hn1 eq_refl He)
    as (s' & Hrun & _ & _ & Hall); [rewrite Hl1; lia|].
  destruct (Hall a (or_introl eq_refl)) as (m & Hm & Hem & _).
  destruct (canceler_cancel_exts fuel (cancelerAfterFunc a) true Canceled
              None s1 W1) as (s0 & Hrun0 & _ & Hext).
  { exists n1. auto. }
  { rewrite Hl1. lia. }
  rewrite Hrun in Hrun0. injection Hrun0 as <-.
  destruct (Hext a n1 Hn1) as (m0 & Hm0 & _ & Hst).
  rewrite Hm in Hm0. injection Hm0 as <-.
  specialize (Hst (or_introl eq_refl)). simpl in Hst.
  assert (Hstop : callAfterFuncStop fuel a s = Ret true s').
  { unfold callAfterFuncStop.
    rewrite (bind_Ret _ _ _ _ _ (getNode_Ret _ _ _ Hn)), Hx.
    rewrite (bind_Ret _ _ _ _ _ (modNode_Ret _ _ _ _ Hn)).
    change (afterFuncCtx_cancel fuel a true (Some Canceled) None)
      with (canceler_cancel fuel (cancelerAfterFunc a) true (Some Canceled)
              None).
    fold n1 s1. now rewrite (bind_Ret _ _ _ _ _ Hrun). }
  exists s', m. split; [exact Hstop|]. split; [exact Hm|].
  split; [exact Hem|].
  split; [intros fuel'; apply (stop_again fuel' a m f s' Hm Hst)|].
  intros ops' Hreg'.
  pose proof (owed_runOps ops f emptyState) as H0. fold s in H0.
  assert (Hz : owed f emptyState = 0%nat) by reflexivity.
  pose proof (owed_stop fuel a n f f s Hn Hx) as H1.
  unfold okm in H1. rewrite Hstop in H1.
  rewrite decide_True in H1 by reflexivity.
  pose proof (owed_runOps ops' f s') as H2.
  unfold owed in H2 at 1. lia.
Qed.

Lemma stop_prevents_function_witness :
  ∃ s' m,
    callAfterFuncStop 5 2 (runOps (firstn 3 example_run) emptyState)
    = Ret true s'
    ∧ heap s' !! 2%nat = Some m ∧ err m = Some Canceled
    ∧ (∀ fuel', callAfterFuncStop fuel' 2 s' = Ret false s')
    ∧ ∀ ops', registrations 7 ops' = 0%nat →
              starts 7 (runOps ops' s') = 0%nat.
Proof.
  apply (stop_prevents_function 5 2
           (mkNode (Some (timerCtxP 1)) false None None None None
              (afterFuncExt false 7)) 7 (firstn 3 example_run)).
  - vm_compute. repeat split; try lia; try (eexists; split; reflexivity).
  - vm_compute. reflexivity.
  - reflexivity.
  - vm_compute. lia.
  - vm_compute. lia.
Defined.

(** X21.  [AfterFunc], from a state between operations, returns, unless the
    Context is one of the environment with a closed done-signal and no
    error.  It starts the function at once exactly when the done-signal of
    the Context is closed already, and starts no other function. *)
Theorem AfterFunc_starts_at_once fuel ctx f s :
  wf s → parent_ok s (Some ctx) → (1 ≤ fuel)%nat →
  (chan_ready s (doneOf s ctx) = true → errOf s ctx ≠ None) →
  ∃ s', AfterFunc fuel ctx f s = Ret (length (heap s)) s'
        ∧ starts f s'
          = (starts f s + if chan_ready s (doneOf s ctx) then 1 else 0)%nat
        ∧ ∀ g, g ≠ f → starts g s' = starts g s.
Proof.
  intros W [Hok Hns] Hf Hcontract.
  set (c := length (heap s)).
  destruct (propagateCancel_returns fuel ctx (cancelerAfterFunc c)
              (afterFuncExt false f) s (wf_sane _ W) Hok (wf_closed _ W)
              eq_refl eq_refl eq_refl Hf) as (s1 & HP).
  { intros d Hd Hcl. apply Hcontract. now rewrite Hd. }
  destruct (propagateCancel_wired fuel ctx (cancelerAfterFunc c)
              (afterFuncExt false f) s s1 W Hok Hns eq_refl eq_refl eq_refl
              Hf HP) as [W1 Hl1 (n1 & Hn1 & _ & Hcase) Hold _ _].
  fold c in Hn1.
  assert (HA : AfterFunc fuel ctx f s = Ret c s1).
  { unfold AfterFunc. unfold bind at 1.
    change (alloc (afterFuncExt false f) s)
      with (Ret c
              (setHeap (heap s ++ [mkNode None false None None None None
                                     (afterFuncExt false f)]) s)).
    cbv beta iota. now rewrite (bind_Ret _ _ _ _ _ HP). }
  exists s1. split; [exact HA|].
  assert (Hsum : ∀ g, sum_list_with (pending_f g) (heap s1)
                      = (sum_list_with (pending_f g) (heap s)
                         + pending_f g n1)%nat).
  { intros g. apply sum_list_with_snoc_lookup; [exact Hl1 | | exact Hn1].
    intros q n Hq. destruct (Hold q n Hq) as (n' & Hq' & _ & Hx & _).
    exists n'. split; [assumption|]. unfold pending_f. now rewrite Hx. }
  assert (Howed : ∀ g, owed g s1
                       = (owed g s + if decide (f = g) then 1 else 0)%nat).
  { intros g. pose proof (owed_AfterFunc fuel ctx f g s) as H.
    unfold okm in H. now rewrite HA in H. }
  assert (Hp1 : ∀ g, pending_f g n1
                     = if chan_ready s (doneOf s ctx) then 0%nat
                       else if decide (f = g) then 1%nat else 0%nat).
  { intros g. unfold pending_f.
    destruct Hcase as [(_ & _ & -> & ->) | (e & _ & _ & _ & -> & ->)];
      reflexivity. }
  split.
  - specialize (Hsum f). specialize (Howed f). specialize (Hp1 f).
    unfold owed in Howed.
    rewrite decide_True in Howed, Hp1 by reflexivity.
    destruct (chan_ready s (doneOf s ctx)); lia.
  - intros g Hg. specialize (Hsum g). specialize (Howed g).
    specialize (Hp1 g). unfold owed in Howed.
    rewrite decide_False in Howed, Hp1 by congruence.
    destruct (chan_ready s (doneOf s ctx)); lia.
Qed.

Lemma AfterFunc_starts_at_once_witness :
  ∃ s', AfterFunc 5 (timerCtxP 3) 9 canceled_tree
        = Ret (length (heap canceled_tree)) s'
        ∧ starts 9 s'
          = (starts 9 canceled_tree
             + if chan_ready canceled_tree
                    (doneOf canceled_tree (timerCtxP 3))
               then 1 else 0)%nat
        ∧ ∀ g, g ≠ 9%nat → starts g s' = starts g canceled_tree.
Proof.
  apply (AfterFunc_starts_at_once 5 (timerCtxP 3) 9 canceled_tree).
  - apply wfb_wf. vm_compute. reflexivity.
  - vm_compute. split; [lia | reflexivity].
  - lia.
  - vm_compute. discriminate.
Defined.


(** * More of what the states between operations keep *)

(** X22.  In every state a run of operations, as the package and its
    callers make them, leads to from the empty state, the mutex of no node
    is held: no operation returns, panics or stops with a lock taken and
    not released. *)
Theorem no_lock_held_between_operations ops q n :
  ops_ok ops emptyState →
  heap (runOps ops emptyState) !! q = Some n →
  mu n = false.
Proof.
  intros Hops Hq.
  pose proof (runOps_wf ops emptyState wf_emptyState Hops) as W.
  apply (nr_mu (runOps ops emptyState) q).
  apply (wf_ready _ W q n Hq). lia.
Qed.

Lemma no_lock_held_between_operations_witness :
  mu (mkNode (Some backgroundCtx) false (Some (chanOf 0)) None
        (Some Canceled) (Some Canceled) plainExt) = false.
Proof.
  apply (no_lock_held_between_operations example_run 0).
  - apply example_run_ok.
  - vm_compute. reflexivity.
Defined.

(** X23.  In every such state, a timer that can still fire is the timer a
    deadline node holds, and that node is not canceled: a timer is never
    left armed for a node that is canceled or that holds another timer. *)
Theorem armed_timer_has_live_node ops t tm :
  ops_ok ops emptyState →
  timers (runOps ops emptyState) !! t = Some tm → tactive tm = true →
  ∃ n d, heap (runOps ops emptyState) !! tnode tm = Some n
         ∧ ext n = timerExt (Some t) d ∧ err n = None.
Proof.
  intros Hops Ht Ha.
  pose proof (runOps_wf ops emptyState wf_emptyState Hops) as W.
  destruct (wf_active _ W t tm Ht Ha) as (n & Hn & Htn).
  assert (Hx : ∃ d, ext n = timerExt (Some t) d).
  { unfold timer_of in Htn. destruct (ext n) as [|t0 d|]; try discriminate.
    exists d. now subst. }
  destruct Hx as (d & Hx). exists n, d. split; [exact Hn|].
  split; [exact Hx|].
  destruct (err n) eqn:He; [|reflexivity].
  assert (Hst : ext n = stopped (ext n)).
  { apply (nr_stopped (runOps ops emptyState) (tnode tm)); [|congruence].
    apply (wf_ready _ W _ _ Hn). lia. }
  rewrite Hx in Hst. discriminate.
Qed.

Lemma armed_timer_has_live_node_witness :
  ∃ n d, heap (runOps (firstn 3 example_run) emptyState)
           !! tnode (mkTimer 1 100 None true) = Some n
         ∧ ext n = timerExt (Some 0%nat) d ∧ err n = None.
Proof.
  apply (armed_timer_has_live_node (firstn 3 example_run) 0
           (mkTimer 1 100 None true)).
  - vm_compute. repeat split; try lia; try (eexists; split; reflexivity).
  - vm_compute. reflexivity.
  - reflexivity.
Defined.

(** ** A second cancel *)

Lemma no_descendant_of_canceled s c n q :
  wf s → heap s !! c = Some n → err n ≠ None → ¬ descendant s c q.
Proof.
  intros W Hc He Hd. revert n Hc He.
  induction Hd as [p np ch Hp Hin | p q r _ IH1 _ _]; intros n Hc He.
  - rewrite Hp in Hc. injection Hc as ->.
    destruct (wf_canceled _ W p n Hp He) as (Hk & _).
    rewrite Hk in Hin. simpl in Hin. now apply not_elem_of_nil in Hin.
  - apply (IH1 n Hc He).
Qed.

Lemma sum_list_with_eq_lookup {A} (w : A → nat) (l l' : list A) :
  length l' = length l →
  (∀ i x, l !! i = Some x → ∃ y, l' !! i = Some y ∧ w y = w x) →
  sum_list_with w l' = sum_list_with w l.
Proof.
  intros Hlen H. apply Nat.le_antisymm.
  - apply sum_list_with_le_lookup; [exact Hlen|].
    intros i x Hi. destruct (H i x Hi) as (y & Hy & Heq).
    exists y. split; [assumption | lia].
  - apply sum_list_with_le_lookup; [now symmetry|].
    intros i y Hi.
    assert (Hlt : (i < length l)%nat)
      by (rewrite <- Hlen; eapply lookup_lt_Some; eauto).
    destruct (lookup_lt_is_Some_2 _ _ Hlt) as [x Hx].
    destruct (H i x Hx) as (y' & Hy' & Heq).
    rewrite Hi in Hy'. injection Hy' as <-.
    exists x. split; [assumption | lia].
Qed.

(** X24.  The [cancel] of a canceler whose node is canceled already, of
    whichever of the three types, returns and changes the error, the cause
    and the extension of no node, closes no channel, and starts no
    function: the error and the cause a node has are those of the first
    cancellation. *)
Theorem cancel_again_changes_nothing fuel ch removeFromParent e cause0 s n :
  wf s → heap s !! canceler_ptr ch = Some n →
  kind_matches ch (ext n) = true → err n ≠ None →
  (length (heap s) - canceler_ptr ch ≤ fuel)%nat →
  ∃ s', canceler_cancel fuel ch removeFromParent (Some e) cause0 s = Ret tt s'
        ∧ (∀ q m, heap s !! q = Some m →
                  ∃ m', heap s' !! q = Some m' ∧ err m' = err m
                        ∧ cause m' = cause m ∧ ext m' = ext m)
        ∧ (∀ d, is_closed s' d = is_closed s d)
        ∧ ∀ f, starts f s' = starts f s.
Proof.
  intros W Hn Hk He Hf.
  set (c := canceler_ptr ch) in *.
  destruct (wf_context _ W c n Hn) as (ctx & Hctx & Hok).
  assert (Hr : ready s c) by (eapply ready_weaken; [|apply W]; lia).
  destruct (canceler_cancel_returns fuel ch removeFromParent e cause0 s n ctx
              (wf_sane _ W) Hr Hn Hk Hctx Hok Hf)
    as (s1 & s2 & s' & Hrun & HC & _ & Ht & _ & Hfin & _ & Honly & _).
  fold c in HC, Hfin, Honly.
  assert (HA : ∀ q m, heap s !! q = Some m → heap s1 !! q = Some m).
  { intros q m Hq.
    destruct (casc_node _ _ _ _ _ _ HC q m Hq) as (m1 & Hq1 & Hcase).
    destruct Hcase as [-> | (_ & Hem & ->)]; [exact Hq1|]. exfalso.
    assert (Hcan : canceled_in s1 q).
    { eexists. split; [exact Hq1|].
      destruct (bool_decide (Some c = Some q)); discriminate. }
    destruct (only_descendant _ _ _ _ _ _ W HC Honly q m Hq Hem Hcan)
      as [-> | Hd].
    - rewrite Hn in Hq. injection Hq as <-. contradiction.
    - apply (no_descendant_of_canceled s c n q W Hn He Hd). }
  assert (Hst : ext n = stopped (ext n)).
  { apply (nr_stopped s c); [|exact He]. apply (wf_ready _ W _ _ Hn). lia. }
  destruct (fin_heap _ _ _ Hfin) as (nc & Hnc & Hh).
  assert (Hnodes : ∀ q m, heap s !! q = Some m →
            ∃ m', heap s' !! q = Some m' ∧ err m' = err m
                  ∧ cause m' = cause m ∧ ext m' = ext m).
  { intros q m Hq.
    destruct (touch_node _ _ Ht q m (HA q m Hq))
      as (m2 & Hq2 & _ & _ & He2 & Hz2 & Hx2 & _).
    destruct (decide (q = c)) as [->|Hne].
    - rewrite Hnc in Hq2. injection Hq2 as <-.
      rewrite Hn in Hq. injection Hq as <-.
      eexists. split; [rewrite Hh; apply (lookup_insert_same _ _ _ _ Hnc)|].
      simpl. split; [assumption|]. split; [assumption|]. congruence.
    - exists m2. split; [|auto].
      rewrite Hh, list_lookup_insert_ne by congruence. exact Hq2. }
  exists s'. split; [exact Hrun|]. split; [exact Hnodes|]. split.
  { intros d. unfold is_closed.
    rewrite (fin_closed _ _ _ Hfin), (touch_closed _ _ Ht).
    destruct d; try reflexivity; apply bool_decide_ext; split;
      try apply (casc_closed_mono _ _ _ _ _ _ HC);
      intros Hin;
      (destruct (casc_closed_new _ _ _ _ _ _ HC _ Hin)
         as [? | (q & m & _ & Hq & Hem & (m1 & Hq1 & Hem1))];
       [assumption|]);
      rewrite (HA q m Hq) in Hq1; injection Hq1 as <-; contradiction. }
  intros f.
  pose proof (so_canceler_cancel fuel ch removeFromParent (Some e) cause0 s)
    as Hso.
  unfold okm in Hso. rewrite Hrun in Hso. specialize (Hso f).
  unfold owed in Hso.
  assert (Hsum : sum_list_with (pending_f f) (heap s')
                 = sum_list_with (pending_f f) (heap s)).
  { apply sum_list_with_eq_lookup.
    - rewrite Hh, length_insert, (touch_len _ _ Ht).
      apply (casc_len _ _ _ _ _ _ HC).
    - intros q m Hq. destruct (Hnodes q m Hq) as (m' & Hq' & _ & _ & Hx).
      exists m'. split; [assumption|]. unfold pending_f. now rewrite Hx. }
  lia.
Qed.

Lemma cancel_again_changes_nothing_witness :
  ∃ s', canceler_cancel 5 (cancelerTimer 3) true (Some DeadlineExceeded) None
          canceled_tree = Ret tt s'
        ∧ (∀ q m, heap canceled_tree !! q = Some m →
                  ∃ m', heap s' !! q = Some m' ∧ err m' = err m
                        ∧ cause m' = cause m ∧ ext m' = ext m)
        ∧ (∀ d, is_closed s' d = is_closed canceled_tree d)
        ∧ ∀ f, starts f s' = starts f canceled_tree.
Proof.
  apply (cancel_again_changes_nothing 5 (cancelerTimer 3) true
           DeadlineExceeded None canceled_tree
           (mkNode (Some (cancelCtxP 0)) false (Some closedchan) None
              (Some Canceled) (Some Canceled) (timerExt None 100))).
  - apply wfb_wf. vm_compute. reflexivity.
  - vm_compute. reflexivity.
  - reflexivity.
  - discriminate.
  - vm_compute. lia.
Defined.
